(** * EvolutionSimulator: a shallow embedding of the simulation core

    The Python sources gene.py, genome.py, brain.py, grid.py,
    individual.py and simulation.py are embedded as Rocq functions.

    - Python [int] is [Z]; the bit operators [<<], [>>], [&], [|], [^]
      are [Z.shiftl], [Z.shiftr], [Z.land], [Z.lor], [Z.lxor]; [//] and
      [%] are [Z.div] and [Z.modulo] (floor semantics, as in Python).
    - Python [float] is IEEE-754 binary64, modelled by the Standard
      Library's [spec_float] with [prec = 53] and [emax = 1024]; every
      arithmetic operator is the correctly rounded [SFadd], [SFmul], ...
      The libm functions [math.tanh] and [math.sin] are parameters.
    - Mutable objects ([Gene], [Genome]) live in a store indexed by
      references, so that aliasing and deep copies are visible.
    - The global random generator is a tape of raw draws threaded
      through a state-and-exception monad; a Python exception is [None]. *)

From Stdlib Require Import ZArith QArith Qabs Qpower Lia Lqa List Bool.
From Stdlib Require Import Floats.SpecFloat.
From stdpp Require Import gmap list.

Local Open Scope Z_scope.


(** ** Binary64 floating point *)

Module F64.

Definition prec : Z := 53.
Definition emax : Z := 1024.

Definition float : Type := spec_float.

Definition add : float -> float -> float := SFadd prec emax.
Definition sub : float -> float -> float := SFsub prec emax.
Definition mul : float -> float -> float := SFmul prec emax.
Definition div : float -> float -> float := SFdiv prec emax.
Definition abs : float -> float := SFabs.
Definition ltb : float -> float -> bool := SFltb.
Definition leb : float -> float -> bool := SFleb.

(** [float(n)] for a Python int: round to nearest, ties to even. *)
Definition of_int (z : Z) : float := binary_normalize prec emax z 0 false.

(** [int(x)]: truncation toward zero; [ValueError]/[OverflowError] on
    NaN and infinities. *)
Definition to_int (x : float) : option Z :=
  match x with
  | S754_zero _ => Some 0
  | S754_finite s m e =>
      Some (cond_Zopp s
              (match e with
               | Zneg p => Z.shiftr (Zpos m) (Zpos p)
               | _ => Z.shiftl (Zpos m) e
               end))
  | _ => None
  end.

(** [round(x)] to a Python int: nearest integer, ties to even. *)
Definition round_half_even (x : float) : option Z :=
  match x with
  | S754_zero _ => Some 0
  | S754_finite s m e =>
      Some (cond_Zopp s
              (match e with
               | Zneg p =>
                   let q := Z.shiftr (Zpos m) (Zpos p) in
                   let r := Z.land (Zpos m) (Z.ones (Zpos p)) in
                   let h := Z.shiftl 1 (Zpos p - 1) in
                   if r <? h then q
                   else if h <? r then q + 1
                   else if Z.even q then q else q + 1
               | _ => Z.shiftl (Zpos m) e
               end))
  | _ => None
  end.

Definition is_finite (x : float) : bool :=
  match x with
  | S754_zero _ | S754_finite _ _ _ => true
  | _ => false
  end.

(** The literals of the program. *)
Definition zero : float := S754_zero false.
Definition one : float := Eval vm_compute in of_int 1.
Definition two : float := Eval vm_compute in of_int 2.
Definition four : float := Eval vm_compute in of_int 4.
Definition neg_four : float := Eval vm_compute in of_int (-4).
Definition half : float := Eval vm_compute in div (of_int 1) (of_int 2).
Definition quarter : float := Eval vm_compute in div (of_int 1) (of_int 4).
Definition c32767 : float := Eval vm_compute in of_int 32767.
(** [0.2] is the double 0x3FC999999999999A. *)
Definition c0_2 : float := S754_finite false 7205759403792794 (-55).
(** [2 ** -53], the step of [random.random()]. *)
Definition two_m53 : float := S754_finite false 4503599627370496 (-105).
(** [math.pi] is the double 0x400921FB54442D18. *)
Definition pi : float := S754_finite false 7074237752028440 (-51).

End F64.

Abbreviation float := F64.float.


(** ** gene.py *)

(** A [Gene] object: [source_type] 0 = neuron, 1 = sensor; [sink_type]
    0 = neuron, 1 = action. *)
Record Gene : Type := mkGene {
  source_type : Z;
  source_id : Z;
  sink_type : Z;
  sink_id : Z;
  weight : float;
}.

(** [w_int] of [Gene.to_int]:
    [max(-32768, min(32767, int(self.weight / 4.0 * 32767)))]. *)
Definition weight_code (w : float) : option Z :=
  t ← F64.to_int (F64.mul (F64.div w F64.four) F64.c32767);
  Some (Z.max (-32768) (Z.min 32767 t)).

(** [Gene.to_int]; [None] when [int()] raises. *)
Definition to_int (g : Gene) : option Z :=
  w_int ← weight_code (weight g);
  let w_uint := Z.land w_int 0xFFFF in
  Some (Z.lor
          (Z.lor
             (Z.lor
                (Z.lor (Z.shiftl (source_type g) 31)
                       (Z.shiftl (Z.land (source_id g) 0x7F) 24))
                (Z.shiftl (sink_type g) 23))
             (Z.shiftl (Z.land (sink_id g) 0x7F) 16))
          w_uint).

(** The weight decoded by [Gene.from_int] from the low 16 bits. *)
Definition decode_weight (w_uint : Z) : float :=
  let w_int := if w_uint <? 32768 then w_uint else w_uint - 65536 in
  F64.mul (F64.div (F64.of_int w_int) F64.c32767) F64.four.

(** [Gene.from_int]. *)
Definition from_int (packed : Z) : Gene :=
  {| source_type := Z.land (Z.shiftr packed 31) 0x1;
     source_id := Z.land (Z.shiftr packed 24) 0x7F;
     sink_type := Z.land (Z.shiftr packed 23) 0x1;
     sink_id := Z.land (Z.shiftr packed 16) 0x7F;
     weight := decode_weight (Z.land packed 0xFFFF) |}.

(** The body of [Gene.mutate] once the bit has been drawn: the new
    field values of the gene. *)
Definition flip_bit (g : Gene) (bit : Z) : option Gene :=
  packed ← to_int g;
  Some (from_int (Z.lxor packed (Z.shiftl 1 bit))).

(** The wire format as section 6 of the specification words it, with the
    weight code rounded to the nearest integer. *)
Definition spec_weight_code (w : float) : option Z :=
  t ← F64.round_half_even (F64.mul (F64.div w F64.four) F64.c32767);
  Some (Z.max (-32768) (Z.min 32767 t)).

(** The 32-bit word with the given fields: bit 31, bits 30-24, bit 23,
    bits 22-16 and a two's-complement 16-bit code in bits 15-0. *)
Definition layout (skind sid kkind kid code : Z) : Z :=
  skind * 2 ^ 31 + sid * 2 ^ 24 + kkind * 2 ^ 23 + kid * 2 ^ 16
  + code mod 2 ^ 16.

Definition spec_pack (g : Gene) : option Z :=
  c ← spec_weight_code (weight g);
  Some (layout (source_type g) (source_id g) (sink_type g) (sink_id g) c).


(** ** The object store, the random generator and the monad *)

Definition loc : Type := positive.

(** [gene_store] holds the [Gene] objects and [genome_store] the [genes]
    list of every [Genome] object; [tape] is the sequence of raw draws
    the module [random] will make and [cursor] the next one. *)
Record World : Type := mkWorld {
  gene_store : gmap loc Gene;
  genome_store : gmap loc (list loc);
  tape : nat -> Z;
  cursor : nat;
}.

Definition M (A : Type) : Type := World -> option (A * World).

Definition ret {A} (a : A) : M A := fun w => Some (a, w).

Definition bind {A B} (m : M A) (k : A -> M B) : M B :=
  fun w => match m w with
           | Some (a, w') => k a w'
           | None => None
           end.

(** A raised exception. *)
Definition raise {A} : M A := fun _ => None.

Declare Scope M_scope.
Delimit Scope M_scope with M.
Notation "'let*' x ':=' m 'in' k" := (bind m (fun x => k))
  (at level 10, x name, m at level 100, k at level 200) : M_scope.
Notation "'do*' m 'in' k" := (bind m (fun _ => k))
  (at level 10, m at level 100, k at level 200) : M_scope.
Local Open Scope M_scope.

Definition lift_option {A} (o : option A) : M A :=
  fun w => match o with Some a => Some (a, w) | None => None end.

Fixpoint map_M {A B} (f : A -> M B) (l : list A) : M (list B) :=
  match l with
  | [] => ret []
  | a :: l' => let* b := f a in let* bs := map_M f l' in ret (b :: bs)
  end.

Fixpoint forM_ {A} (f : A -> M unit) (l : list A) : M unit :=
  match l with
  | [] => ret tt
  | a :: l' => do* f a in forM_ f l'
  end.

Fixpoint repeatM {A} (n : nat) (m : M A) : M (list A) :=
  match n with
  | O => ret []
  | S n' => let* a := m in let* l := repeatM n' m in ret (a :: l)
  end.

(** *** The store *)

Definition alloc_gene (g : Gene) : M loc := fun w =>
  let l := fresh (dom (gene_store w)) in
  Some (l, mkWorld (<[l := g]> (gene_store w)) (genome_store w)
                   (tape w) (cursor w)).

Definition read_gene (l : loc) : M Gene := fun w =>
  match gene_store w !! l with
  | Some g => Some (g, w)
  | None => None
  end.

Definition write_gene (l : loc) (g : Gene) : M unit := fun w =>
  Some (tt, mkWorld (<[l := g]> (gene_store w)) (genome_store w)
                    (tape w) (cursor w)).

Definition alloc_genome (gs : list loc) : M loc := fun w =>
  let l := fresh (dom (genome_store w)) in
  Some (l, mkWorld (gene_store w) (<[l := gs]> (genome_store w))
                   (tape w) (cursor w)).

Definition read_genome (l : loc) : M (list loc) := fun w =>
  match genome_store w !! l with
  | Some gs => Some (gs, w)
  | None => None
  end.

Definition write_genome (l : loc) (gs : list loc) : M unit := fun w =>
  Some (tt, mkWorld (gene_store w) (<[l := gs]> (genome_store w))
                    (tape w) (cursor w)).

(** *** The module [random] *)

(** One raw draw from the generator. *)
Definition raw : M Z := fun w =>
  Some (tape w (cursor w),
        mkWorld (gene_store w) (genome_store w) (tape w) (S (cursor w))).

(** [random.random()]: a multiple of [2**-53] in [[0, 1)]. *)
Definition random_random : M float :=
  let* k := raw in
  ret (F64.mul (F64.of_int (k mod 2 ^ 53)) F64.two_m53).

(** [random.randint(a, b)]: an integer in [[a, b]]; [ValueError] on an
    empty range. *)
Definition randint (a b : Z) : M Z :=
  if b <? a then raise
  else let* k := raw in ret (a + k mod (b - a + 1)).

(** [random.uniform(a, b)] is [a + (b - a) * random()]. *)
Definition uniform (a b : float) : M float :=
  let* r := random_random in
  ret (F64.add a (F64.mul (F64.sub b a) r)).

(** [random.choice(seq)]; [IndexError] on an empty sequence. *)
Definition choice {A} (l : list A) : M A :=
  match l with
  | [] => raise
  | _ => let* k := raw in lift_option (l !! Z.to_nat (k mod Z.of_nat (length l)))
  end.

(** [random.sample(population, 2)]: the elements at two distinct
    positions; [ValueError] when the population has fewer than two. The
    second position is drawn among the remaining ones as the pool
    algorithm of the library does (the last element takes the place of
    the one drawn first). *)
Definition sample2 {A} (l : list A) : M (A * A) :=
  let n := Z.of_nat (length l) in
  if n <? 2 then raise
  else
    let* k1 := raw in
    let* k2 := raw in
    let i := k1 mod n in
    let j0 := k2 mod (n - 1) in
    let j := if j0 =? i then n - 1 else j0 in
    let* a := lift_option (l !! Z.to_nat i) in
    let* b := lift_option (l !! Z.to_nat j) in
    ret (a, b).


(** *** Gene methods that touch the store or the generator *)

(** [Gene.random()]. *)
Definition Gene_random : M loc :=
  let* st := randint 0 1 in
  let* sid := randint 0 127 in
  let* kt := randint 0 1 in
  let* kid := randint 0 127 in
  let* w := uniform F64.neg_four F64.four in
  alloc_gene (mkGene st sid kt kid w).

(** [Gene.copy()]: a new object with the same field values. *)
Definition Gene_copy (l : loc) : M loc :=
  let* g := read_gene l in
  alloc_gene (mkGene (source_type g) (source_id g) (sink_type g)
                     (sink_id g) (weight g)).

(** [Gene.mutate()]: flip one random bit of the packed word, in place. *)
Definition Gene_mutate (l : loc) : M unit :=
  let* g := read_gene l in
  let* packed := lift_option (to_int g) in
  let* bit := randint 0 31 in
  write_gene l (from_int (Z.lxor packed (Z.shiftl 1 bit))).

(** ** genome.py *)

(** [Genome.random(num_genes)]. *)
Definition Genome_random (num_genes : Z) : M loc :=
  let* genes := repeatM (Z.to_nat num_genes) Gene_random in
  alloc_genome genes.

(** The point-mutation loop of [Genome.mutate]. *)
Definition point_mutations (mutation_rate : float) (genes : list loc)
  : M unit :=
  forM_ (fun gene =>
           let* r := random_random in
           if F64.ltb r mutation_rate then Gene_mutate gene else ret tt)
        genes.

(** [Genome.mutate(mutation_rate)]. *)
Definition Genome_mutate (self : loc) (mutation_rate : float) : M unit :=
  let* genes := read_genome self in
  do* point_mutations mutation_rate genes in
  let* r := random_random in
  let* genes := read_genome self in
  do* (if F64.ltb r (F64.mul mutation_rate F64.c0_2)
          && (1 <? Z.of_nat (length genes))
       then let* i := randint 0 (Z.of_nat (length genes) - 1) in
            write_genome self (delete (Z.to_nat i) genes)
       else ret tt) in
  let* r := random_random in
  let* genes := read_genome self in
  if F64.ltb r (F64.mul mutation_rate F64.c0_2)
     && (Z.of_nat (length genes) <? 50)
  then let* g := Gene_random in write_genome self (genes ++ [g])
  else ret tt.

(** [Genome.crossover] once the two cut points are drawn. *)
Definition crossover_at (parent_a_genes parent_b_genes : Z)
    (parent_a parent_b : loc) : M loc :=
  let* ga := read_genome parent_a in
  let* gb := read_genome parent_b in
  let* la := map_M Gene_copy (take (Z.to_nat parent_a_genes) ga) in
  let* lb := map_M Gene_copy (drop (Z.to_nat parent_b_genes) gb) in
  let child_genes := la ++ lb in
  let child_genes :=
    if 50 <? Z.of_nat (length child_genes) then take 50 child_genes
    else child_genes in
  let* child_genes := (if Z.of_nat (length child_genes) =? 0
                       then let* g := Gene_random in ret [g]
                       else ret child_genes) in
  alloc_genome child_genes.

(** [Genome.crossover(parent_a, parent_b)]. *)
Definition Genome_crossover (parent_a parent_b : loc) : M loc :=
  let* ga := read_genome parent_a in
  let* parent_a_genes := randint 0 (Z.of_nat (length ga)) in
  let* gb := read_genome parent_b in
  let* parent_b_genes := randint 0 (Z.of_nat (length gb)) in
  crossover_at parent_a_genes parent_b_genes parent_a parent_b.

(** The genes of a genome, by value. *)
Definition genome_content (w : World) (l : loc) : option (list Gene) :=
  gs ← genome_store w !! l;
  mapM (fun g => gene_store w !! g) gs.


(** ** brain.py *)

(** Python's [a % b] on ints; [ZeroDivisionError] when [b] is 0. *)
Definition py_mod (a b : Z) : option Z :=
  if b =? 0 then None else Some (a mod b).

(** A left fold whose step may raise. *)
Fixpoint fold_opt {A S} (f : S -> A -> option S) (l : list A) (s : S)
  : option S :=
  match l with
  | [] => Some s
  | a :: l' => match f s a with
               | Some s' => fold_opt f l' s'
               | None => None
               end
  end.

(** A resolved connection
    [(source_type, source_id, sink_type, sink_id, weight)]. *)
Definition Connection : Type := Z * Z * Z * Z * float.

Record Brain : Type := mkBrain {
  num_sensors : Z;
  num_actions : Z;
  num_internal : Z;
  connections : list Connection;
  neuron_outputs : gmap Z float;
}.

(** One iteration of the loop over [genome.genes] in [Brain.__init__]. *)
Definition resolve (n_sensors n_actions n_internal : Z) (gene : Gene)
  : option Connection :=
  src ← (if source_type gene =? 1 then py_mod (source_id gene) n_sensors
         else py_mod (source_id gene) n_internal);
  snk ← (if sink_type gene =? 1 then py_mod (sink_id gene) n_actions
         else py_mod (sink_id gene) n_internal);
  Some (source_type gene, src, sink_type gene, snk, weight gene).

(** [{i: 0.0 for i in range(n)}], built as the loops of the source do. *)
Definition zeros (n : Z) : gmap Z float :=
  foldl (fun m i => <[i := F64.zero]> m) ∅ (seqZ 0 n).

(** [Brain.__init__] on the genes of the genome, by value. *)
Definition Brain_init (genes : list Gene) (n_sensors n_actions n_internal : Z)
  : option Brain :=
  conns ← mapM (resolve n_sensors n_actions n_internal) genes;
  Some (mkBrain n_sensors n_actions n_internal conns (zeros n_internal)).

(** [Brain(genome, ...)]: the constructor reads the genome in the store. *)
Definition Brain_new (genome : loc) (n_sensors n_actions n_internal : Z)
  : M Brain := fun w =>
  genes ← genome_content w genome;
  b ← Brain_init genes n_sensors n_actions n_internal;
  Some (b, w).

Section LibM.

(** [math.tanh] and [math.sin]. *)
Variable tanh : float -> float.
Variable sin : float -> float.

(** The body of the loop over [self.connections] in
    [Brain.feed_forward]; the state is
    [(neuron_accumulators, action_accumulators)]. *)
Definition accumulate (self : Brain) (sensor_values : gmap Z float)
    (acc : gmap Z float * gmap Z float) (c : Connection)
  : option (gmap Z float * gmap Z float) :=
  let '(src_type, src_id, snk_type, snk_id, wt) := c in
  let source_value :=
    if src_type =? 1 then default F64.zero (sensor_values !! src_id)
    else default F64.zero (neuron_outputs self !! src_id) in
  let signal := F64.mul source_value wt in
  if snk_type =? 1
  then a ← snd acc !! snk_id;
       Some (fst acc, <[snk_id := F64.add a signal]> (snd acc))
  else a ← fst acc !! snk_id;
       Some (<[snk_id := F64.add a signal]> (fst acc), snd acc).

(** [for i in range(n): out[i] = math.tanh(acc[i])]. *)
Definition squash_into (acc out : gmap Z float) (n : Z)
  : option (gmap Z float) :=
  fold_opt (fun m i => a ← acc !! i; Some (<[i := tanh a]> m))
           (seqZ 0 n) out.

(** [Brain.feed_forward(sensor_values)]: the action outputs and the
    brain with its neuron memory updated; [None] is a [KeyError]. *)
Definition feed_forward (self : Brain) (sensor_values : gmap Z float)
  : option (gmap Z float * Brain) :=
  let neuron_accumulators := zeros (num_internal self) in
  let action_accumulators := zeros (num_actions self) in
  acc ← fold_opt (accumulate self sensor_values) (connections self)
                 (neuron_accumulators, action_accumulators);
  outs ← squash_into (fst acc) (neuron_outputs self) (num_internal self);
  action_outputs ← squash_into (snd acc) ∅ (num_actions self);
  Some (action_outputs,
        mkBrain (num_sensors self) (num_actions self) (num_internal self)
                (connections self) outs).

(** *** The reference evaluation, in the words of section 4.3 *)

(** The value a connection reads: the supplied sensor reading, or the
    neuron output stored before the call; missing keys read as 0.0. *)
Definition spec_source_value (stored sensor_values : gmap Z float)
    (c : Connection) : float :=
  let '(src_type, src_id, _, _, _) := c in
  if src_type =? 1 then default F64.zero (sensor_values !! src_id)
  else default F64.zero (stored !! src_id).

Definition spec_signal (stored sensor_values : gmap Z float)
    (c : Connection) : float :=
  F64.mul (spec_source_value stored sensor_values c) (snd c).

(** Does the connection end in sink [j] of the given kind (1 = action,
    anything else = neuron)? *)
Definition sinks_into (to_action : bool) (j : Z) (c : Connection) : bool :=
  let '(_, _, snk_type, snk_id, _) := c in
  bool_decide (snk_id = j) && eqb (snk_type =? 1) to_action.

(** The sum, in connection order and starting from 0.0, of the signals
    of the connections into sink [j]. *)
Definition spec_sum (stored sensor_values : gmap Z float)
    (conns : list Connection) (to_action : bool) (j : Z) : float :=
  foldl F64.add F64.zero
        (spec_signal stored sensor_values
           <$> filter (fun c => sinks_into to_action j c = true) conns).

Definition spec_action_output (self : Brain) (sensor_values : gmap Z float)
    (j : Z) : float :=
  tanh (spec_sum (neuron_outputs self) sensor_values (connections self)
                 true j).

Definition spec_neuron_output (self : Brain) (sensor_values : gmap Z float)
    (i : Z) : float :=
  tanh (spec_sum (neuron_outputs self) sensor_values (connections self)
                 false i).


(** ** grid.py *)

(** [data] is the numpy array, a cell being absent when it holds 0;
    [barriers] is the set of barrier coordinates. *)
Record Grid : Type := mkGrid {
  width : Z;
  height : Z;
  data : gmap (Z * Z) Z;
  barriers : gset (Z * Z);
}.

(** [Grid(width, height)]; [np.zeros] raises on a negative dimension. *)
Definition Grid_init (w h : Z) : option Grid :=
  if (w <? 0) || (h <? 0) then None else Some (mkGrid w h ∅ ∅).

(** A numpy index along an axis of length [n]: negative indices count
    from the end, anything else out of range is an [IndexError]. *)
Definition np_index (n i : Z) : option Z :=
  if (0 <=? i) && (i <? n) then Some i
  else if (- n <=? i) && (i <? 0) then Some (i + n)
  else None.

(** [self.data[x, y]]. *)
Definition cell (g : Grid) (x y : Z) : option Z :=
  i ← np_index (width g) x;
  j ← np_index (height g) y;
  Some (default 0 (data g !! (i, j))).

(** [self.data[x, y] = v]. *)
Definition set_cell (g : Grid) (x y v : Z) : option Grid :=
  i ← np_index (width g) x;
  j ← np_index (height g) y;
  Some (mkGrid (width g) (height g)
               (if v =? 0 then delete (i, j) (data g)
                else <[(i, j) := v]> (data g))
               (barriers g)).

Definition in_bounds (g : Grid) (x y : Z) : bool :=
  (0 <=? x) && (x <? width g) && ((0 <=? y) && (y <? height g)).

Definition is_barrier (g : Grid) (x y : Z) : bool :=
  bool_decide ((x, y) ∈ barriers g).

Definition is_empty (g : Grid) (x y : Z) : option bool :=
  v ← cell g x y;
  Some ((v =? 0) && negb (is_barrier g x y)).

Definition is_occupied (g : Grid) (x y : Z) : option bool :=
  v ← cell g x y;
  Some (negb (v =? 0)).

(** [Grid.set(x, y, index)] stores [index + 1]. *)
Definition Grid_set (g : Grid) (x y index : Z) : option Grid :=
  set_cell g x y (index + 1).

(** [Grid.move(old_x, old_y, new_x, new_y)]. *)
Definition Grid_move (g : Grid) (old_x old_y new_x new_y : Z)
  : option Grid :=
  v ← cell g old_x old_y;
  g1 ← set_cell g new_x new_y v;
  set_cell g1 old_x old_y 0.

(** [Grid.clear()]: occupancy is wiped, barriers stay. *)
Definition Grid_clear (g : Grid) : Grid :=
  mkGrid (width g) (height g) ∅ (barriers g).


(** ** individual.py *)

Definition NUM_SENSORS : Z := 12.
Definition NUM_ACTIONS : Z := 5.
Definition NUM_INTERNAL : Z := 4.

Record Individual : Type := mkIndividual {
  genome : loc;
  ind_x : Z;
  ind_y : Z;
  brain : Brain;
  alive : bool;
  last_dx : Z;
  last_dy : Z;
  responsiveness : float;
}.

(** [Individual(genome, x, y)]. *)
Definition Individual_init (genome : loc) (x y : Z) : M Individual :=
  let* b := Brain_new genome NUM_SENSORS NUM_ACTIONS NUM_INTERNAL in
  ret (mkIndividual genome x y b true 0 0 F64.half).

(** [a / b] on two Python ints. *)
Definition int_truediv (a b : Z) : option float :=
  if b =? 0 then None else Some (F64.div (F64.of_int a) (F64.of_int b)).

(** [x / n] for a float [x] and an int [n]. *)
Definition float_div_int (x : float) (n : Z) : option float :=
  if n =? 0 then None else Some (F64.div x (F64.of_int n)).

(** The loop counting the occupied orthogonal neighbours. *)
Definition count_adjacent (self : Individual) (grid : Grid) : option Z :=
  fold_opt (fun n d =>
              let nx := ind_x self + fst d in
              let ny := ind_y self + snd d in
              if in_bounds grid nx ny
              then occ ← is_occupied grid nx ny;
                   Some (if occ : bool then n + 1 else n)
              else Some n)
           [(-1, 0); (1, 0); (0, -1); (0, 1)] 0.

(** [Individual.compute_sensors(grid, step, steps_per_gen)]: the dict
    from sensor index to value. *)
Definition compute_sensors (self : Individual) (grid : Grid)
    (step steps_per_gen : Z) : M (gmap Z float) :=
  let x := ind_x self in
  let y := ind_y self in
  let* loc_x := lift_option (int_truediv x (width grid - 1)) in
  let* loc_y := lift_option (int_truediv y (height grid - 1)) in
  let dist_to_edge :=
    Z.min (Z.min (Z.min x y) (width grid - 1 - x)) (height grid - 1 - y) in
  let max_possible := Z.min (width grid) (height grid) / 2 in
  let* boundary := lift_option (int_truediv dist_to_edge max_possible) in
  let* age := lift_option (int_truediv step steps_per_gen) in
  let* dir_x := lift_option (int_truediv (last_dx self + 1) 2) in
  let* dir_y := lift_option (int_truediv (last_dy self + 1) 2) in
  let* rnd := random_random in
  let edge_x := if x <=? width grid - 1 - x then F64.zero else F64.one in
  let edge_y := if y <=? height grid - 1 - y then F64.zero else F64.one in
  let* neighbors := lift_option (count_adjacent self grid) in
  let density := F64.div (F64.of_int neighbors) F64.four in
  let fx := x + last_dx self in
  let fy := y + last_dy self in
  let* blocked :=
    (if negb (in_bounds grid fx fy) then ret F64.one
     else let* e := lift_option (is_empty grid fx fy) in
          ret (if negb e then F64.one else F64.zero)) in
  let* phase :=
    lift_option
      (float_div_int (F64.mul (F64.mul (F64.of_int 2) F64.pi)
                              (F64.of_int step))
                     steps_per_gen) in
  let osc := F64.div (F64.add (sin phase) (F64.of_int 1)) (F64.of_int 2) in
  ret (<[11 := osc]>
      (<[10 := blocked]>
      (<[9 := density]>
      (<[8 := edge_y]>
      (<[7 := edge_x]>
      (<[6 := rnd]>
      (<[5 := dir_y]>
      (<[4 := dir_x]>
      (<[3 := age]>
      (<[2 := boundary]>
      (<[1 := loc_y]>
      (<[0 := loc_x]> (zeros 12))))))))))))).

(** One of the four stochastic movement actions: with probability
    [abs(val) * responsiveness] the delta is added to the pending move. *)
Definition fires (self : Individual) (val : float) : M bool :=
  let prob := F64.mul (F64.abs val) (responsiveness self) in
  let* r := random_random in
  ret (F64.ltb r prob).

Definition sign_step (val : float) : Z :=
  if F64.ltb F64.zero val then 1 else -1.

(** [Individual.execute_actions(action_outputs, grid)]. *)
Definition execute_actions (self : Individual)
    (action_outputs : gmap Z float) (grid : Grid)
  : M (Individual * Grid) :=
  let move_dx := 0 in
  let move_dy := 0 in
  let* val := lift_option (action_outputs !! 0) in
  let* go := fires self val in
  let move_dx := if go : bool then move_dx + sign_step val else move_dx in
  let* val := lift_option (action_outputs !! 1) in
  let* go := fires self val in
  let move_dy := if go : bool then move_dy + sign_step val else move_dy in
  let* val := lift_option (action_outputs !! 2) in
  let* go := fires self val in
  let move_dx := if go : bool then move_dx + last_dx self else move_dx in
  let move_dy := if go : bool then move_dy + last_dy self else move_dy in
  let* val := lift_option (action_outputs !! 3) in
  let* go := fires self val in
  let* rnd_move :=
    (if go : bool
     then let* rx := choice [-1; 0; 1] in
          let* ry := choice [-1; 0; 1] in
          ret (rx, ry)
     else ret (0, 0)) in
  let move_dx := move_dx + fst rnd_move in
  let move_dy := move_dy + snd rnd_move in
  let* val := lift_option (action_outputs !! 4) in
  let resp :=
    F64.div (F64.add (responsiveness self)
                     (F64.div (F64.add val (F64.of_int 1)) (F64.of_int 2)))
            (F64.of_int 2) in
  let self1 := mkIndividual (genome self) (ind_x self) (ind_y self)
                 (brain self) (alive self) (last_dx self) (last_dy self)
                 resp in
  let move_dx := Z.max (-1) (Z.min 1 move_dx) in
  let move_dy := Z.max (-1) (Z.min 1 move_dy) in
  let new_x := ind_x self + move_dx in
  let new_y := ind_y self + move_dy in
  if negb (move_dx =? 0) || negb (move_dy =? 0)
  then
    if in_bounds grid new_x new_y
    then
      let* e := lift_option (is_empty grid new_x new_y) in
      if e : bool
      then
        let* grid' := lift_option (Grid_move grid (ind_x self) (ind_y self)
                                             new_x new_y) in
        ret (mkIndividual (genome self) new_x new_y (brain self)
               (alive self) move_dx move_dy resp, grid')
      else ret (self1, grid)
    else ret (self1, grid)
  else ret (self1, grid).

(** [Individual.take_step(grid, step, steps_per_gen)]. *)
Definition take_step (self : Individual) (grid : Grid)
    (step steps_per_gen : Z) : M (Individual * Grid) :=
  if negb (alive self) then ret (self, grid)
  else
    let* sensors := compute_sensors self grid step steps_per_gen in
    let* out := lift_option (feed_forward (brain self) sensors) in
    let self1 := mkIndividual (genome self) (ind_x self) (ind_y self)
                   (snd out) (alive self) (last_dx self) (last_dy self)
                   (responsiveness self) in
    execute_actions self1 (fst out) grid.


(** ** simulation.py *)

Definition RIGHT_HALF : Z := 0.
Definition LEFT_HALF : Z := 1.
Definition CENTER_CIRCLE : Z := 2.
Definition CORNERS : Z := 3.
Definition RIGHT_QUARTER : Z := 4.

(** One entry of [history]. *)
Record Stats : Type := mkStats {
  st_generation : Z;
  st_survivors : Z;
  st_survival_rate : float;
  st_kill_count : Z;
  st_avg_genome_length : float;
}.

Record Simulation : Type := mkSimulation {
  world_width : Z;
  world_height : Z;
  population_size : Z;
  genome_length : Z;
  num_internal_neurons : Z;
  steps_per_gen : Z;
  mutation_rate : float;
  selection : Z;
  grid : Grid;
  individuals : list Individual;
  generation : Z;
  current_step : Z;
  kill_count : Z;
  history : list Stats;
}.

(** [Simulation.__init__]. *)
Definition Simulation_init (world_width world_height population_size
    genome_length num_internal_neurons steps_per_gen : Z)
    (mutation_rate : float) (selection : Z) : option Simulation :=
  g ← Grid_init world_width world_height;
  Some (mkSimulation world_width world_height population_size genome_length
          num_internal_neurons steps_per_gen mutation_rate selection
          g [] 0 0 0 []).

Definition set_grid (s : Simulation) (g : Grid) : Simulation :=
  mkSimulation (world_width s) (world_height s) (population_size s)
    (genome_length s) (num_internal_neurons s) (steps_per_gen s)
    (mutation_rate s) (selection s) g (individuals s) (generation s)
    (current_step s) (kill_count s) (history s).

Definition set_individuals (s : Simulation) (l : list Individual)
  : Simulation :=
  mkSimulation (world_width s) (world_height s) (population_size s)
    (genome_length s) (num_internal_neurons s) (steps_per_gen s)
    (mutation_rate s) (selection s) (grid s) l (generation s)
    (current_step s) (kill_count s) (history s).

(** [Simulation._random_empty_location]; the [while True] loop is cut
    after [fuel] rounds, and running out of fuel gives no result. *)
Fixpoint random_empty_location (fuel : nat) (s : Simulation) : M (Z * Z) :=
  match fuel with
  | O => raise
  | S fuel' =>
      let* x := randint 0 (world_width s - 1) in
      let* y := randint 0 (world_height s - 1) in
      if (0 <=? x) && (x <? world_width s)
         && ((0 <=? y) && (y <? world_height s))
      then
        let* occ := lift_option (is_occupied (grid s) x y) in
        if negb occ && negb (is_barrier (grid s) x y)
        then ret (x, y)
        else random_empty_location fuel' s
      else random_empty_location fuel' s
  end.

(** The placement loop of [spawn_generation]; [i] is the index of the
    next creature. *)
Fixpoint place_all (fuel : nat) (s : Simulation) (i : Z)
    (genomes : list loc) : M Simulation :=
  match genomes with
  | [] => ret s
  | genome :: rest =>
      let* xy := random_empty_location fuel s in
      let* indiv := Individual_init genome (fst xy) (snd xy) in
      let s1 := set_individuals s (individuals s ++ [indiv]) in
      let* g := lift_option (Grid_set (grid s1) (fst xy) (snd xy) i) in
      place_all fuel (set_grid s1 g) (i + 1) rest
  end.

(** [Simulation.spawn_generation(genomes)]. *)
Definition spawn_generation (fuel : nat) (s : Simulation)
    (genomes : option (list loc)) : M Simulation :=
  let s1 :=
    mkSimulation (world_width s) (world_height s) (population_size s)
      (genome_length s) (num_internal_neurons s) (steps_per_gen s)
      (mutation_rate s) (selection s) (Grid_clear (grid s)) []
      (generation s) 0 0 (history s) in
  let* genomes :=
    match genomes with
    | Some l => ret l
    | None => repeatM (Z.to_nat (population_size s))
                      (Genome_random (genome_length s))
    end in
  place_all fuel s1 0 genomes.

(** The loop of [run_step] from position [i] of [self.individuals] on. *)
Fixpoint step_from (n : nat) (i : nat) (s : Simulation) : M Simulation :=
  match n with
  | O => ret s
  | S n' =>
      match individuals s !! i with
      | None => ret s
      | Some indiv =>
          if negb (alive indiv) then step_from n' (S i) s
          else
            let* r := take_step indiv (grid s) (current_step s)
                                (steps_per_gen s) in
            step_from n' (S i)
              (set_grid (set_individuals s (<[i := fst r]> (individuals s)))
                        (snd r))
      end
  end.

(** [Simulation.run_step()]. *)
Definition run_step (s : Simulation) : M Simulation :=
  let* s1 := step_from (length (individuals s)) 0 s in
  ret (mkSimulation (world_width s1) (world_height s1) (population_size s1)
         (genome_length s1) (num_internal_neurons s1) (steps_per_gen s1)
         (mutation_rate s1) (selection s1) (grid s1) (individuals s1)
         (generation s1) (current_step s1 + 1) (kill_count s1)
         (history s1)).

Fixpoint iterate_M {A} (n : nat) (f : A -> M A) (a : A) : M A :=
  match n with
  | O => ret a
  | S n' => let* a' := f a in iterate_M n' f a'
  end.

(** [Simulation.run_all_steps()]. *)
Definition run_all_steps (s : Simulation) : M Simulation :=
  iterate_M (Z.to_nat (steps_per_gen s)) run_step s.

(** [v ** 2] on a float. Python calls the [pow] of the C library; the
    model takes the correctly rounded square, which is what [pow]
    returns at least when the square is itself a float. *)
Definition float_sq (v : float) : float := F64.mul v v.

(** The [CENTER_CIRCLE] branch of [_survives]. It runs in floats:
    [w / 2] and [min(w, h) / 4] are true divisions of ints, and
    [indiv.x - cx] converts the int before subtracting. Where Python
    raises [OverflowError] (converting an int of 1024 bits or more, a
    square beyond the range of floats) the model has infinities. *)
Definition in_center_circle (w h x y : Z) : bool :=
  let cx := F64.div (F64.of_int w) (F64.of_int 2) in
  let cy := F64.div (F64.of_int h) (F64.of_int 2) in
  let radius := F64.div (F64.of_int (Z.min w h)) (F64.of_int 4) in
  let dist_sq :=
    F64.add (float_sq (F64.sub (F64.of_int x) cx))
            (float_sq (F64.sub (F64.of_int y) cy)) in
  F64.leb dist_sq (float_sq radius).

(** [Simulation._survives(indiv)] for the selection value [sel], a world
    of [w] by [h] cells and a creature at [(x, y)]. *)
Definition survives_at (sel w h x y : Z) : bool :=
  if sel =? RIGHT_HALF then w / 2 <=? x
  else if sel =? LEFT_HALF then x <? w / 2
  else if sel =? CENTER_CIRCLE then in_center_circle w h x y
  else if sel =? CORNERS then
    let quarter_w := w / 4 in
    let quarter_h := h / 4 in
    let in_left := x <? quarter_w in
    let in_right := w - quarter_w <=? x in
    let in_bottom := y <? quarter_h in
    let in_top := h - quarter_h <=? y in
    (in_left || in_right) && (in_bottom || in_top)
  else if sel =? RIGHT_QUARTER then w * 3 / 4 <=? x
  else true.

Definition survives (s : Simulation) (indiv : Individual) : bool :=
  survives_at (selection s) (world_width s) (world_height s)
              (ind_x indiv) (ind_y indiv).

(** [Simulation.apply_selection()]. *)
Definition apply_selection (s : Simulation) : list Individual :=
  filter (fun indiv => alive indiv = true ∧ survives s indiv = true)
         (individuals s).

(** One child of the asexual branch of [reproduce]. *)
Definition clone_child (s : Simulation) (parent : loc) : M loc :=
  let* genes := read_genome parent in
  let* copies := map_M Gene_copy genes in
  let* child := alloc_genome copies in
  do* Genome_mutate child (mutation_rate s) in
  ret child.

(** One child of the sexual branch of [reproduce]. *)
Definition cross_child (s : Simulation) (survivors : list Individual)
  : M loc :=
  let* parents := sample2 survivors in
  let* child := Genome_crossover (genome (fst parents))
                                 (genome (snd parents)) in
  do* Genome_mutate child (mutation_rate s) in
  ret child.

(** [Simulation.reproduce(survivors)]. *)
Definition reproduce (s : Simulation) (survivors : list Individual)
  : M (list loc) :=
  match survivors with
  | [] => repeatM (Z.to_nat (population_size s))
                  (Genome_random (genome_length s))
  | [only] => repeatM (Z.to_nat (population_size s))
                      (clone_child s (genome only))
  | _ => repeatM (Z.to_nat (population_size s)) (cross_child s survivors)
  end.

(** [sum(len(s.genome.genes) for s in survivors)]. *)
Definition total_genes (survivors : list Individual) : M Z :=
  let* lens := map_M (fun i => let* g := read_genome (genome i) in
                               ret (Z.of_nat (length g))) survivors in
  ret (foldl Z.add 0 lens).

(** [Simulation.run_one_generation()]. *)
Definition run_one_generation (fuel : nat) (s : Simulation)
  : M (Stats * Simulation) :=
  let* s1 := run_all_steps s in
  let survivors := apply_selection s1 in
  let num_survivors := Z.of_nat (length survivors) in
  let* survival_rate :=
    lift_option (int_truediv num_survivors (population_size s1)) in
  let* avg_genome_len :=
    match survivors with
    | [] => ret F64.zero
    | _ => let* t := total_genes survivors in
           lift_option (int_truediv t num_survivors)
    end in
  let stats := mkStats (generation s1) num_survivors survival_rate
                       (kill_count s1) avg_genome_len in
  let s2 :=
    mkSimulation (world_width s1) (world_height s1) (population_size s1)
      (genome_length s1) (num_internal_neurons s1) (steps_per_gen s1)
      (mutation_rate s1) (selection s1) (grid s1) (individuals s1)
      (generation s1) (current_step s1) (kill_count s1)
      (history s1 ++ [stats]) in
  let* child_genomes := reproduce s2 survivors in
  let s3 :=
    mkSimulation (world_width s2) (world_height s2) (population_size s2)
      (genome_length s2) (num_internal_neurons s2) (steps_per_gen s2)
      (mutation_rate s2) (selection s2) (grid s2) (individuals s2)
      (generation s2 + 1) (current_step s2) (kill_count s2) (history s2) in
  let* s4 := spawn_generation fuel s3 (Some child_genomes) in
  ret (stats, s4).

(** [Simulation.run(num_generations)]. *)
Definition run (fuel : nat) (num_generations : Z) (s : Simulation)
  : M Simulation :=
  iterate_M (Z.to_nat num_generations)
            (fun s => let* r := run_one_generation fuel s in ret (snd r)) s.

End LibM.


(** ** The survival predicates in the words of section 6

    Here [/] is exact division, on rationals. *)

Definition spec_survives (sel w h x y : Z) : Prop :=
  let W := inject_Z w in
  let H := inject_Z h in
  let X := inject_Z x in
  let Y := inject_Z y in
  if decide (sel = RIGHT_HALF) then (W / 2 <= X)%Q
  else if decide (sel = LEFT_HALF) then (X < W / 2)%Q
  else if decide (sel = CENTER_CIRCLE) then
    ((X - W / 2) ^ 2 + (Y - H / 2) ^ 2 <= (inject_Z (Z.min w h) / 4) ^ 2)%Q
  else if decide (sel = CORNERS) then
    ((X < W / 4)%Q \/ (3 * W / 4 <= X)%Q)
    /\ ((Y < H / 4)%Q \/ (3 * H / 4 <= Y)%Q)
  else if decide (sel = RIGHT_QUARTER) then (3 * W / 4 <= X)%Q
  else True.

(** The same with the floor divisions of the source. *)
Definition floor_survives (sel w h x y : Z) : Prop :=
  if decide (sel = RIGHT_HALF) then w / 2 <= x
  else if decide (sel = LEFT_HALF) then x < w / 2
  else if decide (sel = CENTER_CIRCLE) then
    ((inject_Z x - inject_Z w / 2) ^ 2 + (inject_Z y - inject_Z h / 2) ^ 2
     <= (inject_Z (Z.min w h) / 4) ^ 2)%Q
  else if decide (sel = CORNERS) then
    (x < w / 4 \/ w - w / 4 <= x) /\ (y < h / 4 \/ h - h / 4 <= y)
  else if decide (sel = RIGHT_QUARTER) then w * 3 / 4 <= x
  else True.

(** ** Well-formed genes *)

(** The genes section 8 calls valid: kinds 0 or 1, identifiers on 7 bits
    and a binary64 weight between -4.0 and 4.0. *)
Definition valid_gene (g : Gene) : Prop :=
  (source_type g = 0 \/ source_type g = 1)
  /\ (sink_type g = 0 \/ sink_type g = 1)
  /\ 0 <= source_id g <= 127
  /\ 0 <= sink_id g <= 127
  /\ valid_binary F64.prec F64.emax (weight g) = true
  /\ F64.leb F64.neg_four (weight g) = true
  /\ F64.leb (weight g) F64.four = true.

(** Reading the five fields back from a 32-bit word. *)
Definition has_fields (p skind sid kkind kid code16 : Z) : Prop :=
  0 <= p < 2 ^ 32
  /\ Z.testbit p 31 = (skind =? 1)
  /\ Z.land (Z.shiftr p 24) 0x7F = sid
  /\ Z.testbit p 23 = (kkind =? 1)
  /\ Z.land (Z.shiftr p 16) 0x7F = kid
  /\ Z.land p 0xFFFF = code16.

(** A gene with weight 0.25: the product 0.25 / 4.0 * 32767 is
    2047.9375. *)
Definition quarter_gene : Gene := mkGene 1 5 1 7 F64.quarter.

(** ** Checking a property on every 16-bit code *)

(** [f] holds on the [n] integers from [start] on. *)
Fixpoint all_from (n : nat) (start : Z) (f : Z -> bool) : bool :=
  match n with
  | O => true
  | S n' => f start && all_from n' (start + 1) f
  end.

(** What is checked, by evaluation, on each weight code [q] from 1 to
    32767: the quotient [q / 32767.0] is a positive normal float
    [md * 2 ** ed] of at most 1.0; truncating its product by 32767.0
    gives [q] back; and, in units of 1/32767, it lies within half a unit
    in the last place of [q]. *)
Definition code_check (q : Z) : bool :=
  match F64.div (F64.of_int q) F64.c32767 with
  | S754_finite false md ed =>
      let K := Z.shiftl 1 (Z.log2 q) in
      let lo := Z.shiftl (Z.shiftl q 53 - K) (- ed) in
      let hi := Z.shiftl (Z.shiftl (q + 1) 53 - K) (- ed) in
      let mid := Z.shiftl (32767 * Zpos md) 53 in
      (Zpos (digits2_pos md) =? 53) && (ed <=? -52) && (-80 <=? ed)
      && ((ed <? -52) || (Zpos md <=? 4503599627370496))
      && match F64.to_int (F64.mul (S754_finite false md ed) F64.c32767) with
         | Some t => t =? q
         | None => false
         end
      && (lo <=? mid) && (mid <=? hi)
  | _ => false
  end.

(** ** The value of a float *)

(** The rational a finite float stands for (0 for the others). *)
Definition F2Q (x : float) : Q :=
  match x with
  | S754_finite s m e => (inject_Z (cond_Zopp s (Zpos m)) * 2 ^ e)%Q
  | _ => 0%Q
  end.



(** ** Concrete inputs used by the examples *)

(** A tape of raw draws. *)
Definition sample_tape (n : nat) : Z := Z.of_nat n * 7919 + 13.

(** A gene from internal neuron 3 to action 0 with weight 1.0. *)
Definition neuron3_gene : Gene := mkGene 0 3 1 0 F64.one.

(** A store holding one genome, made of [neuron3_gene] alone. *)
Definition one_gene_world : World :=
  mkWorld {[ 1%positive := neuron3_gene ]} {[ 1%positive := [1%positive] ]}
          sample_tape 0.

(** What a run with [num_internal_neurons = k] spawns from that genome:
    for each creature, the neuron count of its brain, its resolved
    connections and the number of its neuron slots. *)
Definition spawned_brains (k : Z) : option (list (Z * list Connection * nat)) :=
  s ← Simulation_init 8 8 1 1 k 5 F64.zero RIGHT_HALF;
  r ← spawn_generation 10 s (Some [1%positive]) one_gene_world;
  Some ((fun i => (num_internal (brain i), connections (brain i),
                   size (neuron_outputs (brain i))))
          <$> individuals (fst r)).


(** ** Round to nearest, ties to even, on integer fractions *)

(** The integer nearest to [a / b], the even one on a tie ([0 < b]). *)
Definition rne (a b : Z) : Z :=
  let q := a / b in
  match 2 * (a mod b) ?= b with
  | Lt => q
  | Gt => q + 1
  | Eq => if Z.even q then q else q + 1
  end.

(** The float with sign [s] and magnitude [m * 2 ^ e], for a mantissa
    [0 <= m <= 2 ^ 53] that was rounded at exponent [e]. *)
Definition pack_rounded (s : bool) (m e : Z) : float :=
  if m =? 0 then S754_zero s
  else
    let m' := if m =? 2 ^ 53 then 2 ^ 52 else m in
    let e' := if m =? 2 ^ 53 then e + 1 else e in
    if e' <=? F64.emax - F64.prec then S754_finite s (Z.to_pos m') e'
    else S754_infinity s.

(** The number of binary digits the rounding drops from a mantissa [m]
    held at exponent [e]. *)
Definition dropped (m e : Z) : Z :=
  Z.max 0 (fexp F64.prec F64.emax (Zdigits2 m + e) - e).

(** A float that is a zero or finite with a mantissa below [2 ^ 53] and
    an exponent of at most [emax]. *)
Definition small (emax : Z) (x : float) : Prop :=
  match x with
  | S754_zero _ => True
  | S754_finite _ m e => Zpos m < 2 ^ 53 /\ e <= emax
  | _ => False
  end.


(** A zero, or a finite float in canonical form of magnitude at most
    [2 ^ c]. *)
Definition below_pow2 (c : Z) (x : float) : Prop :=
  match x with
  | S754_zero _ => True
  | S754_finite _ m e => e <= c - 52 /\ (e = c - 52 -> Zpos m <= 2 ^ 52)
  | _ => False
  end.

(** The float nearest to [n * 2 ^ e]; [float(n)] is [dyadic n 0]. *)
Definition dyadic (n e : Z) : float :=
  binary_normalize F64.prec F64.emax n e false.

(** ** Auxiliary notions for the forward pass *)

(** The accumulator a connection adds to does exist. *)
Definition sink_present (acc : gmap Z float * gmap Z float) (c : Connection)
  : Prop :=
  let '(_, _, snk_type, snk_id, _) := c in
  if snk_type =? 1 then is_Some (snd acc !! snk_id)
  else is_Some (fst acc !! snk_id).

Definition sink_in_range (n_actions n_internal : Z) (c : Connection) : Prop :=
  let '(_, _, snk_type, snk_id, _) := c in
  if snk_type =? 1 then 0 <= snk_id < n_actions
  else 0 <= snk_id < n_internal.

(** What the loop over the connections has added to slot [j]. *)
Definition added (stored sv : gmap Z float) (conns : list Connection)
    (to_action : bool) (j : Z) (a : float) : float :=
  foldl F64.add a
        (spec_signal stored sv
           <$> filter (fun c => sinks_into to_action j c = true) conns).

Definition side (b : bool) (acc : gmap Z float * gmap Z float)
  : gmap Z float :=
  if b then snd acc else fst acc.


(** ** Further methods of [Grid] *)

(** [Grid.get(x, y)]: the creature index, [None] for an empty cell; the
    outer option is the [IndexError]. *)
Definition Grid_get (g : Grid) (x y : Z) : option (option Z) :=
  val ← cell g x y;
  Some (if 0 <? val then Some (val - 1) else None).

(** The body of the two loops of [Grid.count_neighbors]. *)
Definition count_cell (g : Grid) (x y dx : Z) (count dy : Z) : option Z :=
  if (dx =? 0) && (dy =? 0) then Some count
  else
    let nx := x + dx in
    let ny := y + dy in
    if in_bounds g nx ny
    then occ ← is_occupied g nx ny;
         Some (if occ : bool then count + 1 else count)
    else Some count.

(** [Grid.count_neighbors(x, y, radius)]. *)
Definition count_neighbors (g : Grid) (x y radius : Z) : option Z :=
  fold_opt (fun count dx =>
              fold_opt (count_cell g x y dx)
                       (seqZ (- radius) (radius + 1 - - radius)) count)
           (seqZ (- radius) (radius + 1 - - radius)) 0.

(** The number of cells a column (or a cell of the centre column)
    contributes at most: [k] at offset 0 and [k + 1] elsewhere. *)
Definition off_centre (k a : Z) : Z := if a =? 0 then k else k + 1.

(** A grid with a creature in a corner and a barrier next to it. *)
Definition sample_grid : Grid :=
  mkGrid 4 3 {[ (0, 0) := 1 ]} {[ (1, 0) ]}.

(** ** Reasoning on the store *)

(** The call [m] returns from the world [w], with a result and a final
    world that satisfy [Q]. *)
Definition returns {A} (m : M A) (w : World) (Q : A -> World -> Prop)
  : Prop :=
  exists a w', m w = Some (a, w') /\ Q a w'.

(** The world after [n] more draws. *)
Definition advance (n : nat) (w : World) : World :=
  mkWorld (gene_store w) (genome_store w) (tape w) (n + cursor w).

(** The gene objects [gs] exist. *)
Definition genes_exist (w : World) (gs : list loc) : Prop :=
  Forall (fun g => is_Some (gene_store w !! g)) gs.

(** Every gene of the store can be packed, and every genome of the store
    lists genes of the store. *)
Definition heap_ok (w : World) : Prop :=
  (forall l g, gene_store w !! l = Some g -> is_Some (to_int g))
  /\ (forall l gs, genome_store w !! l = Some gs -> genes_exist w gs).

(** From [w] to [w'] the only objects that may have changed are the
    genes of [D] and the genomes of [DG]; no object has disappeared and
    the generator has only moved forward. *)
Definition changes (D DG : gset loc) (w w' : World) : Prop :=
  (forall x g, x ∉ D -> gene_store w !! x = Some g ->
               gene_store w' !! x = Some g)
  /\ (forall x gs, x ∉ DG -> genome_store w !! x = Some gs ->
                   genome_store w' !! x = Some gs)
  /\ (forall x, is_Some (gene_store w !! x) -> is_Some (gene_store w' !! x))
  /\ (forall x, is_Some (genome_store w !! x) ->
                is_Some (genome_store w' !! x))
  /\ tape w' = tape w /\ (cursor w <= cursor w')%nat.

(** Every object of [w] is unchanged in [w']. *)
Definition extends (w w' : World) : Prop := changes ∅ ∅ w w'.

(** The genes at the locations [gs], by value. *)
Definition gene_values (w : World) (gs : list loc) : option (list Gene) :=
  mapM (fun g => gene_store w !! g) gs.

(** A store with two genomes of two genes each. *)
Definition two_genome_world : World :=
  mkWorld {[ 1%positive := neuron3_gene; 2%positive := quarter_gene;
             3%positive := quarter_gene; 4%positive := neuron3_gene ]}
          {[ 1%positive := [1%positive; 2%positive];
             2%positive := [3%positive; 4%positive] ]}
          sample_tape 0.

(** [ls] are new, pairwise distinct gene objects of [w'] that did not
    exist in [w]. *)
Definition new_genes (w : World) (ls : list loc) (w' : World) : Prop :=
  NoDup ls
  /\ Forall (fun l => gene_store w !! l = None) ls
  /\ genes_exist w' ls.

(** A step that only allocates genes: the old objects are unchanged,
    the genomes are the same and the store stays well formed. *)
Definition allocates (w w' : World) : Prop :=
  extends w w' /\ genome_store w' = genome_store w
  /\ (heap_ok w -> heap_ok w').

(** [c] is a new genome object of [w'], made of new gene objects, and
    nothing that existed in [w] has changed. *)
Definition new_genome (w : World) (c : loc) (w' : World) : Prop :=
  extends w w' /\ heap_ok w'
  /\ genome_store w !! c = None
  /\ exists gs, genome_store w' !! c = Some gs /\ new_genes w gs w'.

(** What [Genome.mutate] can do to the list of genes [gs]: drop one gene
    when there are at least two, then append a gene that is new in [w]
    when there are fewer than 50. *)
Definition mutated_list (w : World) (gs gs' : list loc) : Prop :=
  exists mid,
    (mid = gs
     \/ exists i, (i < length gs)%nat /\ (1 < length gs)%nat
                  /\ mid = delete i gs)
    /\ (gs' = mid
        \/ exists l, gs' = mid ++ [l] /\ (length mid < 50)%nat
                     /\ gene_store w !! l = None).

(** A simulation of three creatures on an 8 by 8 grid, and two
    survivors that own the genomes of [two_genome_world]. *)
Definition sample_simulation : Simulation :=
  mkSimulation 8 8 3 2 3 5 F64.zero RIGHT_HALF (mkGrid 8 8 ∅ ∅) [] 0 0 0 [].

Definition sample_survivors : list Individual :=
  [mkIndividual 1%positive 5 1 (mkBrain 12 5 4 [] ∅) true 0 0 F64.half;
   mkIndividual 2%positive 6 2 (mkBrain 12 5 4 [] ∅) true 0 0 F64.half].

(** ** Invariants of a running simulation *)

(** A brain whose connections all end in an existing action or neuron,
    with the five actions of the program. *)
Definition brain_ok (b : Brain) : Prop :=
  num_actions b = NUM_ACTIONS
  /\ Forall (sink_in_range (num_actions b) (num_internal b)) (connections b).

(** The creature of index [i] stands inside the grid, on a cell that
    holds [i + 1]; its last move was of at most one cell per axis. *)
Definition placed (g : Grid) (i : nat) (ind : Individual) : Prop :=
  in_bounds g (ind_x ind) (ind_y ind) = true
  /\ cell g (ind_x ind) (ind_y ind) = Some (Z.of_nat i + 1)
  /\ brain_ok (brain ind)
  /\ -1 <= last_dx ind <= 1 /\ -1 <= last_dy ind <= 1.

(** The grid has the size of the world, at least 2 by 2 and small enough
    for the coordinates to convert to floats exactly, and a generation
    has a number of steps other than 0. *)
Definition arena_ok (s : Simulation) : Prop :=
  width (grid s) = world_width s /\ height (grid s) = world_height s
  /\ 2 <= world_width s < 2 ^ 53 /\ 2 <= world_height s < 2 ^ 53
  /\ steps_per_gen s <> 0 /\ Z.abs (steps_per_gen s) < 2 ^ 53.

(** The arena is fine and every creature is placed. *)
Definition consistent (s : Simulation) : Prop :=
  arena_ok s
  /\ forall i ind, individuals s !! i = Some ind -> placed (grid s) i ind.

(** Every creature is placed on the grid, on a cell of the world. *)
Definition all_placed (s : Simulation) : Prop :=
  forall i ind,
    individuals s !! i = Some ind ->
    placed (grid s) i ind
    /\ 0 <= ind_x ind < world_width s /\ 0 <= ind_y ind < world_height s.

(** The settings of a simulation and its counters, the step counter
    aside, are the same. *)
Definition same_settings (s s' : Simulation) : Prop :=
  world_width s' = world_width s /\ world_height s' = world_height s
  /\ population_size s' = population_size s
  /\ genome_length s' = genome_length s
  /\ num_internal_neurons s' = num_internal_neurons s
  /\ steps_per_gen s' = steps_per_gen s
  /\ mutation_rate s' = mutation_rate s /\ selection s' = selection s
  /\ generation s' = generation s /\ kill_count s' = kill_count s
  /\ history s' = history s.

(** A creature as [spawn_generation] makes it from the genome [gl]. *)
Definition newborn (ind : Individual) (gl : loc) : Prop :=
  genome ind = gl /\ alive ind = true /\ last_dx ind = 0 /\ last_dy ind = 0
  /\ responsiveness ind = F64.half.

(** What a step leaves of a creature: its genome and whether it is
    alive. *)
Definition same_creature (a b : Individual) : Prop :=
  genome b = genome a /\ alive b = alive a.

(** The move [execute_actions] has made, if any, from the creature
    [self] on the grid [g]. *)
Definition moved (self : Individual) (g : Grid) (self' : Individual)
    (g' : Grid) : Prop :=
  (ind_x self' = ind_x self /\ ind_y self' = ind_y self /\ g' = g
   /\ last_dx self' = last_dx self /\ last_dy self' = last_dy self)
  \/ (let dx := ind_x self' - ind_x self in
      let dy := ind_y self' - ind_y self in
      -1 <= dx <= 1 /\ -1 <= dy <= 1 /\ (dx <> 0 \/ dy <> 0)
      /\ in_bounds g (ind_x self') (ind_y self') = true
      /\ is_empty g (ind_x self') (ind_y self') = Some true
      /\ Grid_move g (ind_x self) (ind_y self) (ind_x self') (ind_y self')
         = Some g'
      /\ last_dx self' = dx /\ last_dy self' = dy).

(** A creature in the corner of [sample_grid], with a brain of one
    connection. *)
Definition sample_creature : Individual :=
  mkIndividual 1%positive 0 0
    (mkBrain 12 5 4 [(0, 3, 1, 0, F64.one)] (zeros 4)) true 0 0 F64.half.

(** Action outputs that push east. *)
Definition sample_outputs : gmap Z float :=
  <[0 := F64.one]> (zeros 5).

(** A world of 8 by 8 cells with one creature, in the corner, two steps
    per generation and a population of one. *)
Definition sample_running : Simulation :=
  mkSimulation 8 8 1 1 3 2 F64.zero RIGHT_HALF
    (mkGrid 8 8 {[ (0, 0) := 1 ]} ∅) [sample_creature] 0 0 0 [].

(** A simulation whose population size is 0. *)
Definition empty_simulation : Simulation :=
  mkSimulation 8 8 0 1 3 2 F64.zero RIGHT_HALF (mkGrid 8 8 ∅ ∅) [] 0 0 0 [].

(** A world of 8 by 8 cells whose generations have no steps. *)
Definition idle_arena : Simulation :=
  mkSimulation 8 8 1 1 3 0 F64.zero RIGHT_HALF (mkGrid 8 8 ∅ ∅) [] 0 0 0 [].

(** A world of 1 by 3 cells whose generations have no steps. *)
Definition strip_arena : Simulation :=
  mkSimulation 1 3 4 1 3 0 F64.zero RIGHT_HALF (mkGrid 1 3 ∅ ∅) [] 0 0 0 [].

(** * The neuron count of spawned brains *)

(** C1 fails on the source: whatever [num_internal_neurons] the engine is
    constructed with, the creature spawned from a genome holding the gene
    neuron 3 -> action 0 gets a brain with 4 neuron slots that resolves
    the source to index 3 = 3 mod 4; with 3 internal neurons the index
    would be 3 mod 3 = 0. *)
Theorem spawn_ignores_num_internal_neurons (k : Z) :
  spawned_brains k = Some [(4, [(0, 3, 1, 0, F64.one)], 4%nat)]
  /\ resolve NUM_SENSORS NUM_ACTIONS 3 neuron3_gene
     = Some (0, 0, 1, 0, F64.one).
Proof.
  split; vm_compute; reflexivity.
Qed.

(** * The forward pass of the brain *)

Section FeedForward.

Variable tanh : float -> float.

Lemma foldl_insert_lookup (l : list Z) (v : float) (m : gmap Z float) (j : Z) :
  foldl (fun m i => <[i := v]> m) m l !! j
  = if bool_decide (j ∈ l) then Some v else m !! j.
Proof.
  revert m. induction l as [| a l IH]; intros m; cbn [foldl].
  - rewrite bool_decide_eq_false_2; [done | apply not_elem_of_nil].
  - rewrite IH. destruct (decide (j ∈ l)) as [Hin | Hnin].
    + rewrite !bool_decide_eq_true_2; [done | by right | done].
    + rewrite (bool_decide_eq_false_2 (j ∈ l)) by done.
      destruct (decide (j = a)) as [-> | Hne].
      * rewrite lookup_insert_eq, bool_decide_eq_true_2; [done | by left].
      * rewrite lookup_insert_ne by done.
        rewrite bool_decide_eq_false_2; [done |].
        rewrite elem_of_cons. tauto.
Qed.

Lemma in_range_seqZ (j n : Z) : j ∈ seqZ 0 n <-> 0 <= j < n.
Proof. rewrite elem_of_seqZ. lia. Qed.

Lemma zeros_lookup (n j : Z) :
  zeros n !! j = if bool_decide (0 <= j < n) then Some F64.zero else None.
Proof.
  unfold zeros. rewrite foldl_insert_lookup, lookup_empty.
  by rewrite (bool_decide_ext _ _ (in_range_seqZ j n)).
Qed.

Lemma added_cons stored sv c conns b j a :
  added stored sv (c :: conns) b j a
  = added stored sv conns b j
      (if sinks_into b j c then F64.add a (spec_signal stored sv c) else a).
Proof.
  unfold added. destruct (sinks_into b j c) eqn:E.
  - rewrite filter_cons_True by done. reflexivity.
  - rewrite filter_cons_False by (rewrite E; done). reflexivity.
Qed.

Lemma accumulate_total self sv acc c :
  sink_present acc c -> is_Some (accumulate self sv acc c).
Proof.
  destruct c as [[[[st sid] kt] kid] wt]. unfold sink_present, accumulate.
  destruct (kt =? 1); intros [a ->]; simpl; eauto.
Qed.

(** One connection adds its signal to the slot it ends in and leaves
    every other slot alone. *)
Lemma accumulate_lookup self sv acc c acc' b j :
  accumulate self sv acc c = Some acc' ->
  side b acc' !! j
  = (fun a => if sinks_into b j c
              then F64.add a (spec_signal (neuron_outputs self) sv c)
              else a) <$> side b acc !! j.
Proof.
  destruct c as [[[[st sid] kt] kid] wt]. unfold accumulate, sinks_into.
  unfold spec_signal, spec_source_value. cbn [snd].
  destruct (kt =? 1) eqn:Ek.
  - destruct (acc.2 !! kid) as [a |] eqn:E; simpl; [| discriminate].
    intros [= <-]. destruct b; simpl.
    + destruct (decide (kid = j)) as [-> | Hne].
      * rewrite lookup_insert_eq, E, bool_decide_eq_true_2 by done. done.
      * rewrite lookup_insert_ne, bool_decide_eq_false_2 by done.
        by destruct (acc.2 !! j).
    + rewrite andb_false_r. by destruct (acc.1 !! j).
  - destruct (acc.1 !! kid) as [a |] eqn:E; simpl; [| discriminate].
    intros [= <-]. destruct b; simpl.
    + rewrite andb_false_r. by destruct (acc.2 !! j).
    + destruct (decide (kid = j)) as [-> | Hne].
      * rewrite lookup_insert_eq, E, bool_decide_eq_true_2 by done. done.
      * rewrite lookup_insert_ne, bool_decide_eq_false_2 by done.
        by destruct (acc.1 !! j).
Qed.

Lemma sink_present_step self sv acc c acc' c' :
  accumulate self sv acc c = Some acc' ->
  sink_present acc c' -> sink_present acc' c'.
Proof.
  intros Hacc. destruct c' as [[[[st sid] kt] kid] wt]. unfold sink_present.
  destruct (kt =? 1).
  - intros [a Ha]. change (acc'.2) with (side true acc').
    rewrite (accumulate_lookup _ _ _ _ _ _ _ Hacc). simpl. rewrite Ha.
    simpl. eauto.
  - intros [a Ha]. change (acc'.1) with (side false acc').
    rewrite (accumulate_lookup _ _ _ _ _ _ _ Hacc). simpl. rewrite Ha.
    simpl. eauto.
Qed.

Lemma fold_accumulate self sv conns :
  forall acc,
    Forall (sink_present acc) conns ->
    exists acc',
      fold_opt (accumulate self sv) conns acc = Some acc'
      /\ forall b j, side b acc' !! j
                     = added (neuron_outputs self) sv conns b j
                         <$> side b acc !! j.
Proof.
  induction conns as [| c conns IH]; intros acc Hp.
  - exists acc. split; [done |]. intros b j. unfold added. simpl.
    by destruct (_ !! j).
  - apply Forall_cons in Hp as [Hc Hp].
    destruct (accumulate_total self sv acc c Hc) as [acc1 Hacc1].
    simpl. rewrite Hacc1.
    destruct (IH acc1) as (acc' & Hfold & Hlk).
    { eapply Forall_impl; [exact Hp |]. intros c'.
      eapply sink_present_step; eauto. }
    exists acc'. split; [exact Hfold |]. intros b j.
    rewrite Hlk, (accumulate_lookup _ _ _ _ _ _ _ Hacc1).
    destruct (side b acc !! j); simpl; [| done].
    by rewrite added_cons.
Qed.

Lemma squash_fold (acc : gmap Z float) (l : list Z) :
  forall out : gmap Z float,
    Forall (fun i => is_Some (acc !! i)) l ->
    exists out' : gmap Z float,
      fold_opt (fun m i => a ← acc !! i; Some (<[i := tanh a]> m)) l out
      = Some out'
      /\ forall j, out' !! j
                   = if bool_decide (j ∈ l) then tanh <$> acc !! j
                     else out !! j.
Proof.
  induction l as [| i l IH]; intros out Hl.
  - exists out. split; [done |]. intros j.
    rewrite bool_decide_eq_false_2; [done | apply not_elem_of_nil].
  - apply Forall_cons in Hl as [[a Hi] Hl]. simpl. rewrite Hi. simpl.
    destruct (IH (<[i := tanh a]> out) Hl) as (out' & Hf & Hlk).
    exists out'. split; [exact Hf |]. intros j. rewrite Hlk.
    destruct (decide (j ∈ l)) as [Hin | Hnin].
    + rewrite !bool_decide_eq_true_2; [done | by right | done].
    + rewrite (bool_decide_eq_false_2 (j ∈ l)) by done.
      destruct (decide (j = i)) as [-> | Hne].
      * rewrite lookup_insert_eq, bool_decide_eq_true_2 by (by left).
        by rewrite Hi.
      * rewrite lookup_insert_ne by done.
        rewrite bool_decide_eq_false_2; [done |].
        rewrite elem_of_cons. tauto.
Qed.

Lemma squash_into_lookup (acc out : gmap Z float) (n : Z) :
  (forall i, 0 <= i < n -> is_Some (acc !! i)) ->
  exists out',
    squash_into tanh acc out n = Some out'
    /\ forall j, out' !! j
                 = if bool_decide (0 <= j < n) then tanh <$> acc !! j
                   else out !! j.
Proof.
  intros Hacc. unfold squash_into.
  destruct (squash_fold acc (seqZ 0 n) out) as (out' & Hf & Hlk).
  { apply Forall_forall. intros i Hi. apply Hacc, in_range_seqZ, Hi. }
  exists out'. split; [exact Hf |]. intros j. rewrite Hlk.
  destruct (decide (0 <= j < n)) as [Hj | Hj].
  - rewrite !bool_decide_eq_true_2; [done | done | by apply in_range_seqZ].
  - rewrite !bool_decide_eq_false_2; [done | done | by rewrite in_range_seqZ].
Qed.

Lemma py_mod_range (a n r : Z) : 0 <= n -> py_mod a n = Some r -> 0 <= r < n.
Proof.
  unfold py_mod. intros Hn. destruct (Z.eqb_spec n 0); [discriminate |].
  intros [= <-]. apply Z.mod_pos_bound. lia.
Qed.

(** The constructor only produces sinks that are in range. *)
Lemma resolve_sink_in_range ns na ni g c :
  0 <= na -> 0 <= ni ->
  resolve ns na ni g = Some c -> sink_in_range na ni c.
Proof.
  intros Hna Hni. unfold resolve.
  destruct (if source_type g =? 1 then _ else _) as [src |]; simpl;
    [| discriminate].
  destruct (sink_type g =? 1) eqn:Ek.
  - destruct (py_mod (sink_id g) na) as [snk |] eqn:Es; simpl;
      [| discriminate].
    intros [= <-]. unfold sink_in_range. rewrite Ek.
    eapply py_mod_range; eauto.
  - destruct (py_mod (sink_id g) ni) as [snk |] eqn:Es; simpl;
      [| discriminate].
    intros [= <-]. unfold sink_in_range. rewrite Ek.
    eapply py_mod_range; eauto.
Qed.

Lemma resolved_sinks_in_range ns na ni genes conns :
  0 <= na -> 0 <= ni ->
  mapM (resolve ns na ni) genes = Some conns ->
  Forall (sink_in_range na ni) conns.
Proof.
  intros Hna Hni H. apply mapM_Some in H.
  induction H as [| g c genes conns Hgc _ IH]; constructor; [| exact IH].
  eapply resolve_sink_in_range; eauto.
Qed.

Lemma feed_forward_in_range (self : Brain) (sv : gmap Z float) :
  Forall (sink_in_range (num_actions self) (num_internal self))
         (connections self) ->
  exists outs stored',
    feed_forward tanh self sv
    = Some (outs, mkBrain (num_sensors self) (num_actions self)
                          (num_internal self) (connections self) stored')
    /\ (forall j, outs !! j
                  = if bool_decide (0 <= j < num_actions self)
                    then Some (spec_action_output tanh self sv j) else None)
    /\ (forall i, stored' !! i
                  = if bool_decide (0 <= i < num_internal self)
                    then Some (spec_neuron_output tanh self sv i)
                    else neuron_outputs self !! i).
Proof.
  intros Hwf. unfold feed_forward.
  destruct (fold_accumulate self sv (connections self)
              (zeros (num_internal self), zeros (num_actions self)))
    as (acc & Hfold & Hlk).
  { eapply Forall_impl; [exact Hwf |].
    intros [[[[st sid] kt] kid] wt]. unfold sink_in_range, sink_present.
    simpl. destruct (kt =? 1); intros Hr; rewrite zeros_lookup;
      rewrite bool_decide_eq_true_2 by done; eauto. }
  rewrite Hfold. simpl.
  pose proof (Hlk false) as Hn. pose proof (Hlk true) as Ha.
  simpl in Hn, Ha.
  destruct (squash_into_lookup (fst acc) (neuron_outputs self)
              (num_internal self)) as (outs_n & Hsn & Hln).
  { intros i Hi. rewrite Hn, zeros_lookup, bool_decide_eq_true_2 by done.
    simpl. eauto. }
  destruct (squash_into_lookup (snd acc) ∅ (num_actions self))
    as (outs_a & Hsa & Hla).
  { intros i Hi. rewrite Ha, zeros_lookup, bool_decide_eq_true_2 by done.
    simpl. eauto. }
  rewrite Hsn. simpl. rewrite Hsa. simpl.
  exists outs_a, outs_n. split; [reflexivity |]. split.
  - intros j. rewrite Hla. case_bool_decide as Hj; [| apply lookup_empty].
    rewrite Ha, zeros_lookup, bool_decide_eq_true_2 by done. reflexivity.
  - intros i. rewrite Hln. case_bool_decide as Hi; [| reflexivity].
    rewrite Hn, zeros_lookup, bool_decide_eq_true_2 by done. reflexivity.
Qed.

(** C5: for a brain built by the constructor from any genes, with any
    stored neuron state and any sensor map, [feed_forward] returns; the
    output for action [j] is tanh of the sum, in connection order, of
    source_value * weight over the connections into action [j]; the
    stored neuron vector becomes tanh of the neuron sums; both sums read
    the neuron outputs stored before the call and read missing sensor
    keys as 0.0. The result is a function of the brain and the sensor
    map alone. *)
Theorem feed_forward_reference (genes : list Gene) (ns na ni : Z)
    (conns : list Connection) (stored sv : gmap Z float) :
  0 <= na -> 0 <= ni ->
  mapM (resolve ns na ni) genes = Some conns ->
  let self := mkBrain ns na ni conns stored in
  exists outs stored',
    feed_forward tanh self sv = Some (outs, mkBrain ns na ni conns stored')
    /\ (forall j, outs !! j
                  = if bool_decide (0 <= j < na)
                    then Some (spec_action_output tanh self sv j) else None)
    /\ (forall i, stored' !! i
                  = if bool_decide (0 <= i < ni)
                    then Some (spec_neuron_output tanh self sv i)
                    else stored !! i).
Proof.
  intros Hna Hni Hres self.
  apply (feed_forward_in_range self sv).
  eapply resolved_sinks_in_range; eauto.
Qed.

End FeedForward.

Lemma feed_forward_reference_witness :
  0 <= 5 /\ 0 <= 4
  /\ mapM (resolve 12 5 4) [neuron3_gene] = Some [(0, 3, 1, 0, F64.one)]
  /\ exists outs stored',
       feed_forward (fun x => x)
         (mkBrain 12 5 4 [(0, 3, 1, 0, F64.one)] ∅) ∅
       = Some (outs, mkBrain 12 5 4 [(0, 3, 1, 0, F64.one)] stored')
       /\ (forall j, outs !! j
                     = if bool_decide (0 <= j < 5)
                       then Some (spec_action_output (fun x => x)
                                    (mkBrain 12 5 4 [(0, 3, 1, 0, F64.one)] ∅)
                                    ∅ j)
                       else None)
       /\ (forall i, stored' !! i
                     = if bool_decide (0 <= i < 4)
                       then Some (spec_neuron_output (fun x => x)
                                    (mkBrain 12 5 4 [(0, 3, 1, 0, F64.one)] ∅)
                                    ∅ i)
                       else (∅ : gmap Z float) !! i).
Proof.
  split; [lia |]. split; [lia |]. split; [reflexivity |].
  apply (feed_forward_reference (fun x => x) [neuron3_gene] 12 5 4
           [(0, 3, 1, 0, F64.one)] ∅ ∅); [lia | lia | reflexivity].
Defined.

(** * Binary64 rounding *)

Module Rounding.

Lemma digits2_size (p : positive) : digits2_pos p = Pos.size p.
Proof. induction p; simpl; congruence. Qed.

Lemma Zdigits2_pos_bounds (p : positive) :
  2 ^ (Zpos (digits2_pos p) - 1) <= Zpos p < 2 ^ Zpos (digits2_pos p).
Proof.
  rewrite digits2_size. split.
  - pose proof (Pos.size_le p) as H.
    assert (H2 : 2 ^ Zpos (Pos.size p) <= 2 * Zpos p).
    { rewrite <- (Pos2Z.inj_pow 2). change (2 * Zpos p) with (Zpos (2 * p)).
      apply Pos2Z.pos_le_pos. exact H. }
    replace (Zpos (Pos.size p)) with (Z.succ (Zpos (Pos.size p) - 1)) in H2
      by lia.
    rewrite Z.pow_succ_r in H2 by lia. lia.
  - pose proof (Pos.size_gt p) as H.
    rewrite <- (Pos2Z.inj_pow 2). apply Pos2Z.pos_lt_pos. exact H.
Qed.

Lemma Zdigits2_bounds (m : Z) :
  0 < m -> 2 ^ (Zdigits2 m - 1) <= m < 2 ^ Zdigits2 m.
Proof. destruct m; try lia. intros _. apply Zdigits2_pos_bounds. Qed.

Lemma Zdigits2_nonneg (m : Z) : 0 <= Zdigits2 m.
Proof. destruct m; simpl; lia. Qed.

Lemma Zdigits2_pos (m : Z) : 0 < m -> 0 < Zdigits2 m.
Proof. destruct m; simpl; lia. Qed.

Lemma Zdigits2_unique (m d : Z) :
  2 ^ (d - 1) <= m < 2 ^ d -> 0 < m -> Zdigits2 m = d.
Proof.
  intros [Hlo Hhi] Hm. pose proof (Zdigits2_bounds m Hm) as [Hl Hh].
  pose proof (Zdigits2_pos m Hm) as Hp.
  assert (0 < d).
  { destruct (Z_lt_le_dec 0 d); [done |].
    assert (2 ^ d <= 2 ^ 0) by (apply Z.pow_le_mono_r; lia).
    change (2 ^ 0) with 1 in *. lia. }
  destruct (Z_lt_le_dec (Zdigits2 m) d) as [Hlt | Hge].
  - assert (2 ^ Zdigits2 m <= 2 ^ (d - 1)) by (apply Z.pow_le_mono_r; lia).
    lia.
  - destruct (Z_lt_le_dec d (Zdigits2 m)) as [Hlt | Hle]; [| lia].
    assert (2 ^ d <= 2 ^ (Zdigits2 m - 1)) by (apply Z.pow_le_mono_r; lia).
    lia.
Qed.

Lemma Zdigits2_le (m k : Z) : 0 <= k -> 0 <= m < 2 ^ k -> Zdigits2 m <= k.
Proof.
  intros Hk [Hm Hlt]. destruct (Z.eq_dec m 0) as [-> | Hne]; [simpl; lia |].
  pose proof (Zdigits2_bounds m ltac:(lia)) as [Hl Hh].
  destruct (Z_le_gt_dec (Zdigits2 m) k) as [| Hgt]; [done |].
  assert (2 ^ k <= 2 ^ (Zdigits2 m - 1)) by (apply Z.pow_le_mono_r; lia).
  lia.
Qed.

(** *** Shifting a mantissa right *)

Lemma iter_pos_iter {A} (f : A -> A) (p : positive) (x : A) :
  SpecFloat.iter_pos f p x = Pos.iter f x p.
Proof.
  revert x. induction p as [p IH | p IH |]; intros x; simpl.
  - rewrite !IH, !Pos.iter_swap. reflexivity.
  - rewrite !IH. reflexivity.
  - reflexivity.
Qed.

Lemma shr_1_nonneg (m : Z) (r s : bool) :
  0 <= m ->
  shr_1 (Build_shr_record m r s) = Build_shr_record (m / 2) (Z.odd m) (r || s).
Proof.
  intros Hm. rewrite <- Z.div2_div.
  destruct m as [| p | p]; [reflexivity | | lia].
  destruct p; reflexivity.
Qed.

Lemma mod_pow2_succ (m k : Z) :
  0 <= k ->
  m mod 2 ^ (k + 1) = m mod 2 ^ k + 2 ^ k * (if Z.testbit m k then 1 else 0).
Proof.
  intros Hk. rewrite Z.pow_add_r, Z.pow_1_r by lia.
  rewrite Z.rem_mul_r by lia. f_equal. f_equal.
  rewrite Z.testbit_odd, Z.shiftr_div_pow2 by lia.
  rewrite Zmod_odd. reflexivity.
Qed.

(** After [p >= 1] shifts the record holds the quotient, the last bit
    shifted out and whether anything was lost below it. *)
Lemma iter_shr_1 (p : positive) (m : Z) (r s : bool) :
  0 <= m ->
  SpecFloat.iter_pos shr_1 p (Build_shr_record m r s)
  = Build_shr_record (m / 2 ^ Zpos p) (Z.testbit m (Zpos p - 1))
      (negb (m mod 2 ^ (Zpos p - 1) =? 0) || (r || s)).
Proof.
  intros Hm. rewrite iter_pos_iter.
  induction p as [| p IH] using Pos.peano_ind.
  - cbn [Pos.iter]. rewrite shr_1_nonneg by done.
    change (Zpos 1 - 1) with 0. rewrite Z.pow_0_r, Z.mod_1_r, Z.bit0_odd.
    reflexivity.
  - rewrite Pos.iter_succ, IH.
    rewrite shr_1_nonneg by (apply Z.div_pos; lia).
    rewrite Pos2Z.inj_succ.
    replace (Z.succ (Zpos p) - 1) with (Zpos p) by lia.
    f_equal.
    + rewrite Z.div_div by lia. f_equal. rewrite Z.pow_succ_r by lia. lia.
    + rewrite Z.testbit_odd, Z.shiftr_div_pow2 by lia. reflexivity.
    + pose proof (mod_pow2_succ m (Zpos p - 1) ltac:(lia)) as E.
      replace (Zpos p - 1 + 1) with (Zpos p) in E by lia. rewrite E.
      pose proof (Z.mod_pos_bound m (2 ^ (Zpos p - 1)) ltac:(lia)) as Hb.
      assert (0 < 2 ^ (Zpos p - 1)) by lia.
      destruct (Z.testbit m (Zpos p - 1)); simpl.
      * destruct (Z.eqb_spec (m mod 2 ^ (Zpos p - 1) + 2 ^ (Zpos p - 1) * 1) 0);
          [lia | reflexivity].
      * rewrite Z.mul_0_r, Z.add_0_r. reflexivity.
Qed.

(** *** The location of a fraction *)

Lemma new_location_compare (b r : Z) :
  0 < b -> 0 <= r < b ->
  new_location b r
  = if r =? 0 then loc_Exact else loc_Inexact (2 * r ?= b).
Proof.
  intros Hb Hr. unfold new_location, new_location_even, new_location_odd.
  destruct (Z.even b) eqn:Eb; [reflexivity |].
  destruct (r =? 0); [reflexivity |]. f_equal.
  assert (Hodd : Z.odd b = true) by (rewrite <- Z.negb_even, Eb; done).
  apply Z.odd_spec in Hodd as [k Hk].
  destruct (Z.compare_spec (2 * r + 1) b), (Z.compare_spec (2 * r) b);
    try reflexivity; lia.
Qed.

Lemma loc_of_shr_record_of_loc (m : Z) (l : location) :
  loc_of_shr_record (shr_record_of_loc m l) = l.
Proof. destruct l as [| []]; reflexivity. Qed.

Lemma shr_m_record_of_loc (m : Z) (l : location) :
  shr_m (shr_record_of_loc m l) = m.
Proof. destruct l as [| []]; reflexivity. Qed.

Lemma rne_no_shift (a b : Z) :
  0 <= a -> 0 < b ->
  round_nearest_even (a / b) (new_location b (a mod b)) = rne a (b * 2 ^ 0).
Proof.
  intros Ha Hb. rewrite Z.pow_0_r, Z.mul_1_r.
  pose proof (Z.mod_pos_bound a b Hb) as Hr.
  rewrite new_location_compare by done. unfold rne.
  destruct (Z.eqb_spec (a mod b) 0) as [E | E].
  - rewrite E. simpl. destruct b; try lia; reflexivity.
  - simpl. destruct (2 * (a mod b) ?= b); reflexivity.
Qed.

Lemma rne_shift (a b : Z) (p : positive) :
  0 <= a -> 0 < b ->
  let mrs := SpecFloat.iter_pos shr_1 p
               (shr_record_of_loc (a / b) (new_location b (a mod b))) in
  round_nearest_even (shr_m mrs) (loc_of_shr_record mrs)
  = rne a (b * 2 ^ Zpos p).
Proof.
  intros Ha Hb mrs.
  pose proof (Z.mod_pos_bound a b Hb) as Hr.
  assert (HM : 0 <= a / b) by (apply Z.div_pos; lia).
  set (M := a / b) in *. set (r0 := a mod b) in *.
  assert (Hp : 0 < 2 ^ (Zpos p - 1)) by lia.
  assert (Hpow : 2 ^ Zpos p = 2 * 2 ^ (Zpos p - 1)).
  { rewrite <- Z.pow_succ_r by lia. f_equal. lia. }
  set (low := M mod 2 ^ (Zpos p - 1)).
  pose proof (Z.mod_pos_bound M (2 ^ (Zpos p - 1)) Hp) as Hlow.
  fold low in Hlow.
  assert (Hrem : a mod (b * 2 ^ Zpos p)
                 = r0 + b * (low + 2 ^ (Zpos p - 1)
                                   * (if Z.testbit M (Zpos p - 1)
                                      then 1 else 0))).
  { rewrite Z.rem_mul_r by lia. fold r0 M. f_equal. f_equal.
    pose proof (mod_pow2_succ M (Zpos p - 1) ltac:(lia)) as E.
    replace (Zpos p - 1 + 1) with (Zpos p) in E by lia. exact E. }
  assert (Hquo : a / (b * 2 ^ Zpos p) = M / 2 ^ Zpos p).
  { rewrite <- Z.div_div by lia. reflexivity. }
  unfold rne. rewrite Hrem, Hquo.
  assert (Hmrs : exists r s,
             shr_record_of_loc M (new_location b r0) = Build_shr_record M r s
             /\ (r || s = negb (r0 =? 0))).
  { rewrite new_location_compare by done.
    destruct (r0 =? 0); [exists false, false; done |].
    destruct (2 * r0 ?= b); simpl; eauto. }
  destruct Hmrs as (r & s0 & Hrec & Hrs).
  subst mrs. rewrite Hrec, iter_shr_1 by done. fold low. rewrite Hrs.
  cbn [shr_m loc_of_shr_record].
  destruct (Z.testbit M (Zpos p - 1)).
  - destruct (Z.eqb_spec low 0) as [El | El];
      destruct (Z.eqb_spec r0 0) as [Er | Er]; simpl.
    + rewrite El, Er. rewrite Z.add_0_l, Z.add_0_l, Z.mul_1_r.
      replace (2 * (b * 2 ^ (Zpos p - 1))) with (b * 2 ^ Zpos p) by lia.
      rewrite Z.compare_refl. reflexivity.
    + assert (Hgt : (2 * (r0 + b * (low + 2 ^ (Zpos p - 1) * 1))
                     ?= b * 2 ^ Zpos p) = Gt)
        by (apply Z.compare_gt_iff; nia).
      rewrite Hgt. reflexivity.
    + assert (Hgt : (2 * (r0 + b * (low + 2 ^ (Zpos p - 1) * 1))
                     ?= b * 2 ^ Zpos p) = Gt)
        by (apply Z.compare_gt_iff; nia).
      rewrite Hgt. reflexivity.
    + assert (Hgt : (2 * (r0 + b * (low + 2 ^ (Zpos p - 1) * 1))
                     ?= b * 2 ^ Zpos p) = Gt)
        by (apply Z.compare_gt_iff; nia).
      rewrite Hgt. reflexivity.
  - assert (Hlt : (2 * (r0 + b * (low + 2 ^ (Zpos p - 1) * 0))
                   ?= b * 2 ^ Zpos p) = Lt)
      by (apply Z.compare_lt_iff; nia).
    rewrite Hlt.
    destruct (negb (low =? 0) || negb (r0 =? 0)); reflexivity.
Qed.

(** *** Elementary facts on [rne] *)

Lemma rne_bounds (a b : Z) :
  0 < b -> a / b <= rne a b <= a / b + 1.
Proof.
  intros Hb. unfold rne.
  destruct (2 * (a mod b) ?= b); [destruct (Z.even (a / b)) | |]; lia.
Qed.

(** [rne a b] is within one half of [a / b]. *)
Lemma rne_error (a b : Z) :
  0 < b -> - b <= 2 * (rne a b * b - a) <= b.
Proof.
  intros Hb. unfold rne.
  pose proof (Z.div_mod a b ltac:(lia)) as Hdm.
  pose proof (Z.mod_pos_bound a b Hb) as Hr.
  destruct (Z.compare_spec (2 * (a mod b)) b) as [E | E | E];
    [destruct (Z.even (a / b)) | |]; nia.
Qed.

Lemma rne_exact (q b : Z) : 0 < b -> rne (q * b) b = q.
Proof.
  intros Hb. unfold rne. rewrite Z.div_mul, Z.mod_mul by lia.
  simpl. destruct b; try lia; reflexivity.
Qed.

Lemma rne_monotone (a a' b : Z) : 0 < b -> a <= a' -> rne a b <= rne a' b.
Proof.
  intros Hb Hle.
  pose proof (Z.div_le_mono a a' b Hb Hle) as Hq.
  destruct (Z.eq_dec (a / b) (a' / b)) as [E | E].
  - assert (Hr : a mod b <= a' mod b).
    { pose proof (Z.div_mod a b ltac:(lia)).
      pose proof (Z.div_mod a' b ltac:(lia)). nia. }
    unfold rne. rewrite E.
    destruct (Z.compare_spec (2 * (a mod b)) b),
             (Z.compare_spec (2 * (a' mod b)) b);
      destruct (Z.even (a' / b)); lia.
  - pose proof (rne_bounds a b Hb). pose proof (rne_bounds a' b Hb). lia.
Qed.

(** *** [binary_round_aux] *)

Lemma fexp_eq (e : Z) :
  fexp F64.prec F64.emax e = Z.max (e - 53) (-1074).
Proof. reflexivity. Qed.

Lemma dropped_facts (M E : Z) :
  0 <= M ->
  let n := dropped M E in
  0 <= n /\ -1074 <= E + n /\ M / 2 ^ n < 2 ^ 53
  /\ (fexp F64.prec F64.emax (Zdigits2 M + E) - E <= 0 -> n = 0)
  /\ (0 < fexp F64.prec F64.emax (Zdigits2 M + E) - E ->
      n = fexp F64.prec F64.emax (Zdigits2 M + E) - E).
Proof.
  intros HM. cbv zeta. unfold dropped. rewrite fexp_eq.
  set (n := Z.max 0 _).
  assert (Hn : 0 <= n) by (subst n; lia).
  assert (Hnd : Zdigits2 M - 53 <= n) by (subst n; lia).
  repeat split; try (subst n; lia).
  clearbody n.
  destruct (Z.eq_dec M 0) as [-> | HM0].
  { rewrite Z.div_0_l by lia. lia. }
  pose proof (Zdigits2_bounds M ltac:(lia)) as [_ Hhi].
  apply Z.div_lt_upper_bound; [lia |].
  rewrite <- Z.pow_add_r by lia.
  assert (2 ^ Zdigits2 M <= 2 ^ (n + 53)); [| lia].
  apply Z.pow_le_mono_r; lia.
Qed.

(** The rounding step of every operation: the mantissa [a / b] with the
    location of its remainder, held at exponent [E], is rounded to the
    nearest multiple of the unit in the last place. *)
Lemma binary_round_aux_rne (sx : bool) (a b E : Z) :
  0 <= a -> 0 < b ->
  let n := dropped (a / b) E in
  binary_round_aux F64.prec F64.emax sx (a / b) E
    (new_location b (a mod b))
  = pack_rounded sx (rne a (b * 2 ^ n)) (E + n).
Proof.
  intros Ha Hb n.
  assert (HM : 0 <= a / b) by (apply Z.div_pos; lia).
  destruct (dropped_facts (a / b) E HM) as (Hn & He & Hq & Hz & Hp).
  fold n in Hn, He, Hq, Hz, Hp.
  set (m1 := rne a (b * 2 ^ n)).
  assert (Hquo : a / (b * 2 ^ n) = a / b / 2 ^ n).
  { rewrite Z.div_div by lia. reflexivity. }
  assert (Hm1 : 0 <= m1 <= 2 ^ 53).
  { pose proof (rne_bounds a (b * 2 ^ n) ltac:(nia)) as Hb1.
    fold m1 in Hb1. rewrite Hquo in Hb1.
    assert (0 <= a / b / 2 ^ n) by (apply Z.div_pos; lia). lia. }
  unfold binary_round_aux, shr_fexp.
  assert (Hfirst :
    let '(mrs, e') :=
      shr (shr_record_of_loc (a / b) (new_location b (a mod b))) E
          (fexp F64.prec F64.emax (Zdigits2 (a / b) + E) - E) in
    e' = E + n
    /\ round_nearest_even (shr_m mrs) (loc_of_shr_record mrs) = m1).
  { unfold shr.
    destruct (fexp F64.prec F64.emax (Zdigits2 (a / b) + E) - E)
      as [| p | p] eqn:Ez.
    - rewrite Hz by lia. split; [lia |].
      rewrite shr_m_record_of_loc, loc_of_shr_record_of_loc.
      subst m1. rewrite Hz by lia. apply rne_no_shift; done.
    - rewrite Hp by lia. split; [lia |].
      subst m1. rewrite Hp by lia. apply rne_shift; done.
    - rewrite Hz by lia. split; [lia |].
      rewrite shr_m_record_of_loc, loc_of_shr_record_of_loc.
      subst m1. rewrite Hz by lia. apply rne_no_shift; done. }
  destruct (shr _ E _) as [mrs e']. destruct Hfirst as [-> ->].
  unfold pack_rounded, shr, shr_record_of_loc.
  destruct (Z.eqb_spec m1 (2 ^ 53)) as [E53 | E53].
  - rewrite E53.
    change (Zdigits2 (2 ^ 53)) with 54. rewrite fexp_eq.
    replace (Z.max (54 + (E + n) - 53) (-1074) - (E + n)) with 1 by lia.
    change (2 ^ 53 =? 0) with false. cbv iota. reflexivity.
  - assert (Hlt : m1 < 2 ^ 53) by lia.
    pose proof (Zdigits2_le m1 53 ltac:(lia) ltac:(lia)) as Hd.
    pose proof (Zdigits2_nonneg m1) as Hd0.
    rewrite fexp_eq.
    destruct (Z.max (Zdigits2 m1 + (E + n) - 53) (-1074) - (E + n))
      as [| p | p] eqn:Ez2; try lia; cbn [shr_m fst snd];
      (destruct m1 as [| q | q]; [reflexivity | | lia]);
      rewrite Pos2Z.id; reflexivity.
Qed.

End Rounding.

(** * The arithmetic operators on finite floats *)

Module Ops.

Import Rounding.

Lemma rne_dropped_bounds (a b E : Z) :
  0 <= a -> 0 < b ->
  0 <= rne a (b * 2 ^ dropped (a / b) E) <= 2 ^ 53.
Proof.
  intros Ha Hb.
  assert (HM : 0 <= a / b) by (apply Z.div_pos; lia).
  destruct (dropped_facts (a / b) E HM) as (Hn & _ & Hq & _).
  set (n := dropped (a / b) E) in *.
  pose proof (rne_bounds a (b * 2 ^ n) ltac:(nia)) as Hb1.
  rewrite <- Z.div_div in Hb1 by lia.
  assert (0 <= a / b / 2 ^ n) by (apply Z.div_pos; lia). lia.
Qed.

(** What [pack_rounded] returns for a mantissa in range, short of
    overflow. *)
Lemma pack_rounded_shape (s : bool) (m e : Z) :
  0 <= m <= 2 ^ 53 -> e < 971 ->
  (m = 0 /\ pack_rounded s m e = S754_zero s)
  \/ exists m' e',
       pack_rounded s m e = S754_finite s m' e'
       /\ Zpos m' < 2 ^ 53 /\ e <= e' <= e + 1
       /\ Zpos m' * 2 ^ (e' - e) = m.
Proof.
  intros Hm He. unfold pack_rounded.
  destruct (Z.eqb_spec m 0) as [-> | Hm0]; [left; done |]. right.
  destruct (Z.eqb_spec m (2 ^ 53)) as [-> | Hm53].
  - exists (Z.to_pos (2 ^ 52)), (e + 1).
    replace (e + 1 <=? F64.emax - F64.prec) with true
      by (symmetry; apply Z.leb_le; unfold F64.emax, F64.prec; lia).
    split; [reflexivity |]. split; [reflexivity |]. split; [lia |].
    replace (e + 1 - e) with 1 by lia. reflexivity.
  - exists (Z.to_pos m), e.
    replace (e <=? F64.emax - F64.prec) with true
      by (symmetry; apply Z.leb_le; unfold F64.emax, F64.prec; lia).
    split; [reflexivity |]. rewrite Z2Pos.id by lia.
    split; [lia |]. split; [lia |].
    rewrite Z.sub_diag, Z.pow_0_r. lia.
Qed.

(** *** Multiplication *)

Lemma mul_finite (sx sy : bool) (mx my : positive) (ex ey : Z) :
  let a := Zpos mx * Zpos my in
  let n := dropped a (ex + ey) in
  F64.mul (S754_finite sx mx ex) (S754_finite sy my ey)
  = pack_rounded (xorb sx sy) (rne a (2 ^ n)) (ex + ey + n).
Proof.
  intros a n. unfold F64.mul, SFmul.
  pose proof (binary_round_aux_rne (xorb sx sy) a 1 (ex + ey)
                ltac:(lia) ltac:(lia)) as H.
  cbv zeta in H. rewrite Z.div_1_r, Z.mod_1_r, Z.mul_1_l in H.
  change (new_location 1 0) with loc_Exact in H.
  exact H.
Qed.

(** *** Division *)

Lemma div_finite (sx sy : bool) (mx my : positive) (ex ey : Z) :
  let e' := Z.min (fexp F64.prec F64.emax
                     (Zdigits2 (Zpos mx) + ex - (Zdigits2 (Zpos my) + ey)))
                  (ex - ey) in
  let a := Zpos mx * 2 ^ (ex - ey - e') in
  let n := dropped (a / Zpos my) e' in
  F64.div (S754_finite sx mx ex) (S754_finite sy my ey)
  = pack_rounded (xorb sx sy) (rne a (Zpos my * 2 ^ n)) (e' + n).
Proof.
  intros e' a n. unfold F64.div, SFdiv, SFdiv_core_binary.
  fold e'.
  assert (Hs : 0 <= ex - ey - e') by (subst e'; lia).
  assert (Hm' : match ex - ey - e' with
                | Z0 => Zpos mx
                | Zpos _ => Z.shiftl (Zpos mx) (ex - ey - e')
                | Zneg _ => 0
                end = a).
  { subst a. destruct (ex - ey - e') as [| p | p] eqn:Es.
    - rewrite Z.pow_0_r. lia.
    - rewrite Z.shiftl_mul_pow2 by lia. reflexivity.
    - lia. }
  rewrite Hm'.
  assert (Hde : Z.div_eucl a (Zpos my) = (a / Zpos my, a mod Zpos my)).
  { unfold Z.div, Z.modulo. destruct (Z.div_eucl a (Zpos my)). reflexivity. }
  rewrite Hde.
  apply binary_round_aux_rne; subst a; lia.
Qed.

(** *** Results that cannot overflow *)

Lemma dropped_exp_le (M E k : Z) :
  0 <= k -> 0 <= M < 2 ^ k ->
  E + dropped M E <= Z.max E (Z.max (k + E - 53) (-1074)).
Proof.
  intros Hk HM. unfold dropped. rewrite fexp_eq.
  pose proof (Zdigits2_le M k Hk HM). lia.
Qed.

Lemma pack_rounded_small (s : bool) (m e : Z) :
  0 <= m <= 2 ^ 53 -> e < 971 -> small (e + 1) (pack_rounded s m e).
Proof.
  intros Hm He.
  destruct (pack_rounded_shape s m e Hm He)
    as [[_ ->] | (m' & e' & -> & Hm' & He' & _)]; simpl; [done | lia].
Qed.

Lemma mul_small (x y : float) (bx by_ : Z) :
  small bx x -> small by_ y -> bx + by_ < 917 ->
  small (Z.max (bx + by_ + 54) (-1073)) (F64.mul x y).
Proof.
  intros Hx Hy Hb.
  destruct x as [sx | | | sx mx ex], y as [sy | | | sy my ey];
    simpl in Hx, Hy; try done.
  destruct Hx as [Hmx Hex], Hy as [Hmy Hey].
  rewrite mul_finite. cbv zeta.
  set (a := Zpos mx * Zpos my).
  assert (Ha : 0 <= a < 2 ^ 106).
  { subst a. change (2 ^ 106) with (2 ^ 53 * 2 ^ 53). nia. }
  pose proof (dropped_exp_le a (ex + ey) 106 ltac:(lia) Ha) as Hd.
  pose proof (rne_dropped_bounds a 1 (ex + ey) ltac:(lia) ltac:(lia)) as Hr.
  rewrite Z.div_1_r, Z.mul_1_l in Hr.
  pose proof (pack_rounded_small (xorb sx sy) _ (ex + ey + dropped a (ex + ey))
                Hr ltac:(lia)) as Hs.
  destruct (pack_rounded _ _ _); simpl in *; try done. lia.
Qed.

Lemma digits_pow2_mul (m k : Z) :
  0 < m -> 0 <= k -> Zdigits2 (m * 2 ^ k) = Zdigits2 m + k.
Proof.
  intros Hm Hk. pose proof (Zdigits2_bounds m Hm) as [Hl Hh].
  pose proof (Zdigits2_pos m Hm).
  apply Zdigits2_unique; [| nia].
  replace (Zdigits2 m + k - 1) with (Zdigits2 m - 1 + k) by lia.
  rewrite !Z.pow_add_r by lia. nia.
Qed.

(** Division by a normal number: the quotient of a small float stays
    small. *)
Lemma div_small (x : float) (sy : bool) (my : positive) (ey bx : Z) :
  small bx x -> 2 ^ 52 <= Zpos my < 2 ^ 53 ->
  bx - ey < 917 ->
  small (Z.max (bx - ey + 2) (-1073)) (F64.div x (S754_finite sy my ey)).
Proof.
  intros Hx Hmy Hb.
  destruct x as [sx | | | sx mx ex]; simpl in Hx; try done.
  destruct Hx as [Hmx Hex].
  rewrite div_finite. cbv zeta.
  set (e' := Z.min _ _). set (a := Zpos mx * 2 ^ (ex - ey - e')).
  assert (Hs : 0 <= ex - ey - e') by (subst e'; lia).
  assert (Ha : 0 <= a) by (subst a; nia).
  assert (Hq : 0 <= a / Zpos my < 2 ^ (ex - ey - e' + 1)).
  { split; [apply Z.div_pos; lia |].
    apply Z.div_lt_upper_bound; [lia |].
    rewrite Z.pow_add_r by lia. subst a.
    assert (0 < 2 ^ (ex - ey - e')) by lia.
    change (2 ^ 1) with 2. change (2 ^ 52) with 4503599627370496 in Hmy.
    change (2 ^ 53) with 9007199254740992 in Hmx. nia. }
  pose proof (dropped_exp_le (a / Zpos my) e' (ex - ey - e' + 1)
                ltac:(lia) Hq) as Hd.
  pose proof (rne_dropped_bounds a (Zpos my) e' Ha ltac:(lia)) as Hr.
  assert (He' : e' <= ex - ey) by (subst e'; lia).
  pose proof (pack_rounded_small (xorb sx sy) _
                (e' + dropped (a / Zpos my) e') Hr ltac:(lia)) as Hsm.
  destruct (pack_rounded _ _ _); simpl in *; try done. lia.
Qed.

Lemma small_to_int (b : Z) (x : float) :
  small b x -> is_Some (F64.to_int x).
Proof. destruct x; simpl; try done; eauto. Qed.

Lemma valid_shape (s : bool) (m : positive) (e : Z) :
  valid_binary F64.prec F64.emax (S754_finite s m e) = true ->
  Zpos m < 2 ^ 53 /\ -1074 <= e <= 971
  /\ (Zdigits2 (Zpos m) = 53 \/ (e = -1074 /\ Zdigits2 (Zpos m) < 53)).
Proof.
  unfold valid_binary, bounded, canonical_mantissa.
  rewrite andb_true_iff, Z.eqb_eq, Z.leb_le, fexp_eq.
  change (Zpos (digits2_pos m)) with (Zdigits2 (Zpos m)).
  unfold F64.emax, F64.prec. intros [Hc He].
  pose proof (Zdigits2_bounds (Zpos m) ltac:(lia)) as [_ Hh].
  assert (Hd : Zdigits2 (Zpos m) <= 53) by lia.
  assert (2 ^ Zdigits2 (Zpos m) <= 2 ^ 53)
    by (apply Z.pow_le_mono_r; lia).
  lia.
Qed.

(** A float between -4.0 and 4.0 is a zero or has an exponent of at
    most -50. *)
Lemma within_four_shape (w : float) :
  F64.leb F64.neg_four w = true -> F64.leb w F64.four = true ->
  match w with
  | S754_zero _ => True
  | S754_finite _ _ e => e <= -50
  | _ => False
  end.
Proof.
  unfold F64.leb, SFleb, SFcompare, F64.neg_four, F64.four.
  destruct w as [s | s | | s m e]; try done.
  - destruct s; done.
  - destruct s.
    + intros H _. destruct (Z.compare_spec (-50) e); try lia; discriminate.
    + intros _ H. destruct (Z.compare_spec e (-50)); try lia; discriminate.
Qed.

End Ops.

(** * The packed form of a gene *)

Module Packing.

Import Rounding Ops.

Lemma lor_shift_add (hi lo n : Z) :
  0 <= n -> 0 <= lo < 2 ^ n ->
  Z.lor (Z.shiftl hi n) lo = hi * 2 ^ n + lo.
Proof.
  intros Hn Hlo.
  assert (Hland : Z.land (Z.shiftl hi n) lo = 0).
  { apply Z.bits_inj'. intros i Hi. rewrite Z.land_spec, Z.bits_0.
    destruct (Z_lt_le_dec i n) as [Hlt | Hge].
    - rewrite Z.shiftl_spec_low by lia. reflexivity.
    - rewrite andb_false_iff. right.
      destruct (Z.eq_dec lo 0) as [-> | Hne]; [apply Z.bits_0 |].
      apply Z.bits_above_log2; [lia |].
      apply Z.log2_lt_pow2; [lia |].
      assert (2 ^ n <= 2 ^ i) by (apply Z.pow_le_mono_r; lia). lia. }
  rewrite <- Z.lxor_lor by exact Hland.
  rewrite <- Z.add_nocarry_lxor by exact Hland.
  rewrite Z.shiftl_mul_pow2 by lia. reflexivity.
Qed.

(** The five shifted fields of [Gene.to_int] do not overlap. *)
Lemma pack_fields (st sid kt kid wu : Z) :
  0 <= st <= 1 -> 0 <= sid <= 127 -> 0 <= kt <= 1 -> 0 <= kid <= 127 ->
  0 <= wu < 2 ^ 16 ->
  Z.lor (Z.lor (Z.lor (Z.lor (Z.shiftl st 31) (Z.shiftl sid 24))
                      (Z.shiftl kt 23))
               (Z.shiftl kid 16)) wu
  = st * 2 ^ 31 + sid * 2 ^ 24 + kt * 2 ^ 23 + kid * 2 ^ 16 + wu.
Proof.
  intros Hst Hsid Hkt Hkid Hwu.
  assert (E : Z.lor (Z.lor (Z.lor (Z.lor (Z.shiftl st 31) (Z.shiftl sid 24))
                                  (Z.shiftl kt 23))
                           (Z.shiftl kid 16)) wu
              = Z.lor (Z.shiftl
                         (Z.lor (Z.shiftl
                                   (Z.lor (Z.shiftl
                                             (Z.lor (Z.shiftl st 7) sid) 1)
                                          kt) 7)
                                kid) 16) wu).
  { rewrite !Z.shiftl_lor, !Z.shiftl_shiftl by lia. reflexivity. }
  rewrite E.
  rewrite (lor_shift_add st sid 7) by lia.
  rewrite (lor_shift_add _ kt 1) by lia.
  rewrite (lor_shift_add _ kid 7) by lia.
  rewrite (lor_shift_add _ wu 16) by lia.
  lia.
Qed.

Lemma land_ones_mod (a n : Z) (mask : Z) :
  0 <= n -> mask = Z.ones n -> Z.land a mask = a mod 2 ^ n.
Proof. intros Hn ->. apply Z.land_ones. exact Hn. Qed.

(** The word made of five fields in range gives them back. *)
Lemma layout_fields (st sid kt kid code : Z) :
  0 <= st <= 1 -> 0 <= sid <= 127 -> 0 <= kt <= 1 -> 0 <= kid <= 127 ->
  has_fields (layout st sid kt kid code) st sid kt kid (code mod 2 ^ 16).
Proof.
  intros Hst Hsid Hkt Hkid. unfold has_fields, layout.
  pose proof (Z.mod_pos_bound code (2 ^ 16) ltac:(lia)) as Hc.
  set (c := code mod 2 ^ 16) in *.
  set (p := st * 2 ^ 31 + sid * 2 ^ 24 + kt * 2 ^ 23 + kid * 2 ^ 16 + c).
  change (2 ^ 16) with 65536 in *.
  assert (Hp : 0 <= p < 2 ^ 32) by (subst p; lia).
  split; [exact Hp |].
  rewrite !Z.testbit_odd, !Z.shiftr_div_pow2 by lia.
  rewrite (land_ones_mod _ 7 0x7F), (land_ones_mod _ 7 0x7F),
    (land_ones_mod _ 16 0xFFFF) by (lia || reflexivity).
  assert (E31 : p / 2 ^ 31 = st)
    by (subst p; Z.div_mod_to_equations; lia).
  assert (E24 : (p / 2 ^ 24) mod 2 ^ 7 = sid)
    by (subst p; Z.div_mod_to_equations; lia).
  assert (E23 : p / 2 ^ 23 = st * 2 ^ 8 + sid * 2 + kt)
    by (subst p; Z.div_mod_to_equations; lia).
  assert (E16 : (p / 2 ^ 16) mod 2 ^ 7 = kid)
    by (subst p; Z.div_mod_to_equations; lia).
  assert (E0 : p mod 2 ^ 16 = c)
    by (subst p; Z.div_mod_to_equations; lia).
  rewrite E31, E24, E23, E16, E0.
  repeat split; try reflexivity.
  - assert (st = 0 \/ st = 1) as [-> | ->] by lia; reflexivity.
  - replace (st * 2 ^ 8 + sid * 2 + kt) with (kt + 2 * (st * 128 + sid))
      by lia.
    rewrite Z.odd_add_mul_2.
    assert (kt = 0 \/ kt = 1) as [-> | ->] by lia; reflexivity.
Qed.

(** [int()] does not raise on a weight between -4.0 and 4.0. *)
Lemma weight_code_total (w : float) :
  valid_binary F64.prec F64.emax w = true ->
  F64.leb F64.neg_four w = true -> F64.leb w F64.four = true ->
  exists t, F64.to_int (F64.mul (F64.div w F64.four) F64.c32767) = Some t
            /\ weight_code w = Some (Z.max (-32768) (Z.min 32767 t)).
Proof.
  intros Hv Hlo Hhi.
  assert (Hsmall : small (-50) w).
  { pose proof (within_four_shape w Hlo Hhi) as Hs.
    destruct w as [s | s | | s m e]; try done.
    apply valid_shape in Hv. simpl. lia. }
  assert (Hx : small (Z.max (-50 - -50 + 2) (-1073)) (F64.div w F64.four)).
  { unfold F64.four. apply div_small; [exact Hsmall | lia | lia]. }
  assert (Hy : small (Z.max (Z.max (-50 - -50 + 2) (-1073) + -38 + 54)
                            (-1073))
                     (F64.mul (F64.div w F64.four) F64.c32767)).
  { apply mul_small; [exact Hx | unfold F64.c32767; simpl; lia | lia]. }
  destruct (small_to_int _ _ Hy) as [t Ht].
  exists t. split; [exact Ht |]. unfold weight_code. rewrite Ht. reflexivity.
Qed.

End Packing.

(** X1: For every valid gene, [to_int] returns a 32-bit word with
    bit 31 = source kind, bits 30-24 = source id, bit 23 = sink kind,
    bits 22-16 = sink id and bits 15-0 = the two's-complement 16-bit
    code of [int(weight / 4.0 * 32767)], the product truncated toward
    zero, clamped to [-32768, 32767]. *)
Theorem to_int_layout (g : Gene) :
  valid_gene g ->
  exists t p,
    F64.to_int (F64.mul (F64.div (weight g) F64.four) F64.c32767) = Some t
    /\ to_int g = Some p
    /\ p = layout (source_type g) (source_id g) (sink_type g) (sink_id g)
                  (Z.max (-32768) (Z.min 32767 t))
    /\ has_fields p (source_type g) (source_id g) (sink_type g) (sink_id g)
                  (Z.max (-32768) (Z.min 32767 t) mod 2 ^ 16).
Proof.
  intros (Hst & Hkt & Hsid & Hkid & Hv & Hlo & Hhi).
  destruct (Packing.weight_code_total (weight g) Hv Hlo Hhi) as (t & Ht & Hc).
  exists t, (layout (source_type g) (source_id g) (sink_type g) (sink_id g)
                    (Z.max (-32768) (Z.min 32767 t))).
  split; [exact Ht |]. split; [| split; [reflexivity |]].
  - unfold to_int. rewrite Hc. simpl. f_equal.
    change 127 with (Z.ones 7). change 65535 with (Z.ones 16).
    rewrite !Z.land_ones by lia.
    rewrite (Z.mod_small (source_id g)), (Z.mod_small (sink_id g))
      by (change (2 ^ 7) with 128; lia).
    pose proof (Z.mod_pos_bound (Z.max (-32768) (Z.min 32767 t)) (2 ^ 16)
                  ltac:(lia)).
    apply Packing.pack_fields; lia.
  - apply Packing.layout_fields; lia.
Qed.

Lemma to_int_layout_witness :
  valid_gene quarter_gene
  /\ exists t p,
       F64.to_int (F64.mul (F64.div (weight quarter_gene) F64.four)
                           F64.c32767) = Some t
       /\ to_int quarter_gene = Some p
       /\ p = layout (source_type quarter_gene) (source_id quarter_gene)
                     (sink_type quarter_gene) (sink_id quarter_gene)
                     (Z.max (-32768) (Z.min 32767 t))
       /\ has_fields p (source_type quarter_gene) (source_id quarter_gene)
                     (sink_type quarter_gene) (sink_id quarter_gene)
                     (Z.max (-32768) (Z.min 32767 t) mod 2 ^ 16).
Proof.
  assert (H : valid_gene quarter_gene).
  { unfold valid_gene, quarter_gene. simpl.
    repeat split; try lia; try (right; reflexivity). }
  split; [exact H |]. apply (to_int_layout quarter_gene H).
Defined.

(** The weight code is truncated, not rounded to nearest: the valid
    gene with weight 0.25 packs to the code 2047, where rounding
    2047.9375 gives 2048. *)
Lemma to_int_truncates :
  valid_gene quarter_gene
  /\ to_int quarter_gene = Some 2240219135
  /\ spec_pack quarter_gene = Some 2240219136.
Proof.
  split; [exact (proj1 to_int_layout_witness) |].
  split; vm_compute; reflexivity.
Qed.

(** * Truncating a rounded product *)

Module Trunc.

Import Rounding Ops.

Lemma pow2_lt_inv (a b : Z) : 0 <= a -> 0 <= b -> 2 ^ a < 2 ^ b -> a < b.
Proof.
  intros Ha Hb H. destruct (Z_lt_le_dec a b) as [| Hge]; [done |].
  assert (2 ^ b <= 2 ^ a) by (apply Z.pow_le_mono_r; lia). lia.
Qed.

(** [T] has [n + 53] binary digits; it is rounded to [m1] units of
    [2 ^ n] and [q] is [m1] truncated to units of [2 ^ (n + r)]. Then
    [T] lies within half a unit in the last place of the interval
    [[q, q + 1]], in units of [2 ^ (n + r)]. *)
Lemma trunc_bounds (T n r q k : Z) :
  0 <= n -> 0 <= r ->
  2 ^ (n + 52) <= T < 2 ^ (n + 53) ->
  q = rne T (2 ^ n) / 2 ^ r ->
  1 <= q -> k = Z.log2 q ->
  (q * 2 ^ 53 - 2 ^ k) * 2 ^ (n + r) <= T * 2 ^ 53
  /\ T * 2 ^ 53 <= ((q + 1) * 2 ^ 53 - 2 ^ k) * 2 ^ (n + r).
Proof.
  intros Hn Hr HT Hq Hq1 Hk.
  set (m1 := rne T (2 ^ n)) in *.
  pose proof (rne_error T (2 ^ n) ltac:(lia)) as Herr. fold m1 in Herr.
  pose proof (rne_bounds T (2 ^ n) ltac:(lia)) as Hb. fold m1 in Hb.
  assert (HTn : T / 2 ^ n < 2 ^ 53).
  { apply Z.div_lt_upper_bound; [lia |]. rewrite <- Z.pow_add_r by lia.
    lia. }
  assert (Hm1 : 0 <= m1 <= 2 ^ 53).
  { assert (0 <= T / 2 ^ n) by (apply Z.div_pos; lia). lia. }
  assert (HqR : q * 2 ^ r <= m1 < (q + 1) * 2 ^ r).
  { subst q. pose proof (Z.mul_div_le m1 (2 ^ r) ltac:(lia)).
    pose proof (Z.mul_succ_div_gt m1 (2 ^ r) ltac:(lia)). lia. }
  assert (Hkq : 2 ^ k <= q < 2 ^ (k + 1)).
  { subst k. pose proof (Z.log2_spec q ltac:(lia)) as H.
    replace (Z.succ (Z.log2 q)) with (Z.log2 q + 1) in H by lia. exact H. }
  assert (Hk0 : 0 <= k) by (subst k; apply Z.log2_nonneg).
  rewrite Z.pow_add_r in Hkq by lia. change (2 ^ 1) with 2 in Hkq.
  assert (Hq53 : q <= 2 ^ 53).
  { assert (1 <= 2 ^ r) by lia. nia. }
  rewrite (Z.pow_add_r 2 n r) by lia.
  rewrite !Z.pow_add_r in HT by lia.
  set (N := 2 ^ n) in *. set (R := 2 ^ r) in *. set (K := 2 ^ k) in *.
  assert (HN : 0 < N) by (subst N; lia).
  assert (HR : 0 < R) by (subst R; lia).
  assert (HK : 0 < K) by (subst K; lia).
  set (P := 2 ^ 53) in *.
  assert (HP : P = 2 * 2 ^ 52) by reflexivity.
  split.
  - destruct (Z_le_gt_dec (q * (N * R)) T) as [Hge | Hlt]; [nia |].
    assert (HKR : 2 ^ 52 <= K * R).
    { assert (Hlt2 : 2 ^ (n + 52) < 2 ^ (k + 1 + (n + r))).
      { rewrite !Z.pow_add_r by lia. fold N R K.
        change (2 ^ 1) with 2. nia. }
      apply pow2_lt_inv in Hlt2; [| lia | lia].
      subst K R. rewrite <- Z.pow_add_r by lia.
      apply Z.pow_le_mono_r; lia. }
    assert (2 * T >= 2 * (q * R) * N - N) by nia.
    assert (N * P <= 2 * (K * R) * N) by nia.
    nia.
  - destruct (Z_le_gt_dec (K * (N * R)) T) as [Hge | Hlt].
    + assert (HKR : 2 * (K * R) <= P).
      { assert (Hlt2 : 2 ^ (k + (n + r)) < 2 ^ (n + 53)).
        { rewrite !Z.pow_add_r by lia. fold N R K P. nia. }
        apply pow2_lt_inv in Hlt2; [| lia | lia].
        subst K R P. rewrite <- Z.pow_add_r by lia.
        rewrite <- Z.pow_succ_r by lia.
        apply Z.pow_le_mono_r; lia. }
      assert (2 * T <= 2 * ((q + 1) * R) * N - N) by nia.
      assert (2 * (K * R) * N <= N * P) by nia.
      nia.
    + assert (T * P <= K * (N * R) * P) by nia.
      assert (K * (N * R) * P <= q * (N * R) * P) by nia.
      assert (K * (N * R) <= P * (N * R)) by nia.
      nia.
Qed.

(** *** Dividing a normal number by 4.0 is exact *)

Lemma div_four_normal (s : bool) (m : positive) (e : Z) :
  Zdigits2 (Zpos m) = 53 -> -1071 <= e <= 971 ->
  F64.div (S754_finite s m e) F64.four = S754_finite s m (e - 2).
Proof.
  intros Hd He. unfold F64.four. rewrite div_finite. cbv zeta.
  rewrite Hd. change (Zdigits2 (Zpos 4503599627370496)) with 53.
  rewrite fexp_eq.
  replace (Z.min (Z.max (53 + e - (53 + -50) - 53) (-1074)) (e - -50))
    with (e - 3) by lia.
  replace (e - -50 - (e - 3)) with 53 by lia.
  assert (Ediv : Zpos m * 2 ^ 53 / 4503599627370496 = 2 * Zpos m).
  { change (2 ^ 53) with (2 * 4503599627370496).
    rewrite Z.mul_assoc, Z.div_mul by lia. lia. }
  rewrite Ediv.
  assert (Hdig : Zdigits2 (2 * Zpos m) = 54).
  { replace (2 * Zpos m) with (Zpos m * 2 ^ 1) by lia.
    rewrite digits_pow2_mul by lia. lia. }
  unfold dropped. rewrite Hdig, fexp_eq.
  replace (Z.max 0 (Z.max (54 + (e - 3) - 53) (-1074) - (e - 3))) with 1
    by lia.
  replace (Zpos m * 2 ^ 53) with (Zpos m * (4503599627370496 * 2 ^ 1))
    by (change (2 ^ 53) with (4503599627370496 * 2 ^ 1); reflexivity).
  rewrite rne_exact by lia.
  unfold pack_rounded.
  pose proof (Zdigits2_bounds (Zpos m) ltac:(lia)) as [_ Hh].
  rewrite Hd in Hh.
  destruct (Z.eqb_spec (Zpos m) 0); [lia |].
  destruct (Z.eqb_spec (Zpos m) (2 ^ 53)); [lia |].
  replace (e - 3 + 1 <=? F64.emax - F64.prec) with true
    by (symmetry; apply Z.leb_le; unfold F64.emax, F64.prec; lia).
  rewrite xorb_false_r. f_equal. lia.
Qed.

(** *** [int()] of a rounded value *)

Lemma to_int_pack_rounded (s : bool) (m e : Z) :
  0 <= m <= 2 ^ 53 -> e < 0 ->
  F64.to_int (pack_rounded s m e) = Some (cond_Zopp s (m / 2 ^ (- e))).
Proof.
  intros Hm He.
  destruct (pack_rounded_shape s m e Hm ltac:(lia))
    as [[-> ->] | (m' & e' & -> & Hm' & He' & Hval)].
  - simpl. rewrite Z.div_0_l by lia. destruct s; reflexivity.
  - unfold F64.to_int. f_equal. f_equal.
    destruct (Z.eq_dec e' 0) as [-> | He0].
    + assert (e = -1) by lia. subst e. simpl in Hval |- *.
      rewrite <- Hval. change (2 ^ 1) with 2. rewrite Z.div_mul by lia.
      reflexivity.
    + destruct e' as [| p | p]; try lia.
      rewrite Z.shiftr_div_pow2 by lia.
      rewrite <- Hval.
      replace (- e) with (Zpos p + (Zneg p - e)) by lia.
      rewrite Z.pow_add_r by lia.
      rewrite Z.mul_comm, (Z.mul_comm (2 ^ Zpos p)).
      rewrite Z.div_mul_cancel_l by lia. reflexivity.
Qed.

End Trunc.

(** * Conversions and sums that cannot overflow *)

Module Sums.

Import Rounding Ops.

Lemma small_weaken (b b' : Z) (x : float) : b <= b' -> small b x -> small b' x.
Proof. intros Hb. destruct x; simpl; try done. lia. Qed.

Lemma iter_xO (m d : positive) :
  Zpos (Pos.iter xO m d) = Zpos m * 2 ^ Zpos d.
Proof.
  induction d as [| d IH] using Pos.peano_ind.
  - simpl. lia.
  - rewrite Pos.iter_succ, Pos2Z.inj_xO, IH, Pos2Z.inj_succ.
    rewrite Z.pow_succ_r by lia. lia.
Qed.

Lemma shl_align_spec (m : positive) (e e' : Z) :
  let mz := fst (shl_align m e e') in
  let ez := snd (shl_align m e e') in
  ez = Z.min e e' /\ Zpos mz = Zpos m * 2 ^ (e - ez).
Proof.
  unfold shl_align. destruct (e' - e) as [| p | p] eqn:Ed; simpl.
  - split; [lia |]. rewrite Z.sub_diag. simpl. lia.
  - split; [lia |]. rewrite Z.sub_diag. simpl. lia.
  - split; [lia |]. rewrite iter_xO. f_equal. f_equal. lia.
Qed.

(** Rounding a mantissa below [2 ^ k] held at exponent [e]. *)
Lemma binary_round_small (s : bool) (m : positive) (e k : Z) :
  0 <= k -> Zpos m < 2 ^ k ->
  Z.max e (Z.max (k + e - 53) (-1074)) < 971 ->
  small (Z.max e (Z.max (k + e - 53) (-1074)) + 1)
        (binary_round F64.prec F64.emax s m e).
Proof.
  intros Hk Hm Hb. unfold binary_round.
  pose proof (shl_align_spec m e
                (fexp F64.prec F64.emax (Zpos (digits2_pos m) + e)))
    as [Hez Hmz].
  destruct (shl_align m e _) as [mz ez]. simpl in Hez, Hmz.
  assert (Hle : ez <= e) by lia.
  pose proof (binary_round_aux_rne s (Zpos mz) 1 ez ltac:(lia) ltac:(lia))
    as H.
  cbv zeta in H. rewrite Z.div_1_r, Z.mod_1_r, Z.mul_1_l in H.
  change (new_location 1 0) with loc_Exact in H. rewrite H.
  assert (Hmzk : 0 <= Zpos mz < 2 ^ (k + (e - ez))).
  { rewrite Hmz, Z.pow_add_r by lia.
    assert (0 < 2 ^ (e - ez)) by lia. nia. }
  pose proof (dropped_exp_le (Zpos mz) ez (k + (e - ez)) ltac:(lia) Hmzk)
    as Hd.
  pose proof (rne_dropped_bounds (Zpos mz) 1 ez ltac:(lia) ltac:(lia)) as Hr.
  rewrite Z.div_1_r, Z.mul_1_l in Hr.
  eapply small_weaken;
    [| apply pack_rounded_small; [exact Hr |]]; lia.
Qed.

(** [float(n)] for an int below [2 ** 53] in magnitude. *)
Lemma of_int_small (z : Z) : Z.abs z < 2 ^ 53 -> small 1 (F64.of_int z).
Proof.
  intros Hz. unfold F64.of_int, binary_normalize.
  destruct z as [| p | p]; [done | |].
  - apply (binary_round_small false p 0 53); lia.
  - apply (binary_round_small true p 0 53); lia.
Qed.

Lemma add_small (x y : float) (b : Z) :
  small b x -> small b y -> b < 900 ->
  small (Z.max (b + 2) (-1073)) (F64.add x y).
Proof.
  intros Hx Hy Hb.
  destruct x as [sx | | | sx mx ex], y as [sy | | | sy my ey];
    simpl in Hx, Hy; try done.
  - destruct sx, sy; done.
  - simpl. lia.
  - simpl. lia.
  - destruct Hx as [Hmx Hex], Hy as [Hmy Hey].
    unfold F64.add, SFadd.
    set (ez := Z.min ex ey).
    pose proof (shl_align_spec mx ex ez) as [Hx1 Hx2].
    pose proof (shl_align_spec my ey ez) as [Hy1 Hy2].
    cbv zeta in Hx2, Hy2.
    replace (snd (shl_align mx ex ez)) with ez in Hx2 by (subst ez; lia).
    replace (snd (shl_align my ey ez)) with ez in Hy2 by (subst ez; lia).
    set (ax := Zpos (fst (shl_align mx ex ez))) in *.
    set (ay := Zpos (fst (shl_align my ey ez))) in *.
    assert (Hax : 0 < ax < 2 ^ (53 + (ex - ez))).
    { rewrite Hx2, Z.pow_add_r by (subst ez; lia).
      assert (0 < 2 ^ (ex - ez)) by (subst ez; lia). nia. }
    assert (Hay : 0 < ay < 2 ^ (53 + (ey - ez))).
    { rewrite Hy2, Z.pow_add_r by (subst ez; lia).
      assert (0 < 2 ^ (ey - ez)) by (subst ez; lia). nia. }
    set (k := 54 + (Z.max ex ey - ez)).
    assert (Hk : 2 ^ (53 + (ex - ez)) + 2 ^ (53 + (ey - ez)) <= 2 ^ k).
    { assert (2 ^ (53 + (ex - ez)) <= 2 ^ (k - 1))
        by (apply Z.pow_le_mono_r; subst k ez; lia).
      assert (2 ^ (53 + (ey - ez)) <= 2 ^ (k - 1))
        by (apply Z.pow_le_mono_r; subst k ez; lia).
      replace k with (Z.succ (k - 1)) by lia.
      rewrite Z.pow_succ_r by (subst k ez; lia). lia. }
    set (S := cond_Zopp sx ax + cond_Zopp sy ay).
    assert (HS : Z.abs S < 2 ^ k) by (subst S; destruct sx, sy; simpl; lia).
    unfold binary_normalize.
    destruct S as [| p | p]; [done | |].
    + eapply small_weaken;
        [| apply (binary_round_small false p ez k)]; subst k ez; lia.
    + eapply small_weaken;
        [| apply (binary_round_small true p ez k)]; subst k ez; lia.
Qed.

(** [random.random()] computes a small float from any raw draw. *)
Lemma unit_draw_small (k : Z) :
  small (-50) (F64.mul (F64.of_int (k mod 2 ^ 53)) F64.two_m53).
Proof.
  pose proof (Z.mod_pos_bound k (2 ^ 53) ltac:(lia)) as Hk.
  eapply small_weaken;
    [| apply (mul_small _ _ 1 (-105));
       [apply of_int_small; lia | simpl; lia | lia]].
  lia.
Qed.

(** The weight [random.uniform(-4.0, 4.0)] computes from any raw draw. *)
Lemma uniform_weight_small (k : Z) :
  small (-43)
    (F64.add F64.neg_four
       (F64.mul (F64.sub F64.four F64.neg_four)
                (F64.mul (F64.of_int (k mod 2 ^ 53)) F64.two_m53))).
Proof.
  assert (E8 : F64.sub F64.four F64.neg_four
               = S754_finite false 4503599627370496 (-49))
    by (vm_compute; reflexivity).
  rewrite E8.
  assert (H8r : small (-45)
                  (F64.mul (S754_finite false 4503599627370496 (-49))
                     (F64.mul (F64.of_int (k mod 2 ^ 53)) F64.two_m53))).
  { eapply small_weaken;
      [| apply (mul_small _ _ (-49) (-50));
         [simpl; lia | apply unit_draw_small | lia]].
    lia. }
  eapply small_weaken;
    [| apply (add_small _ _ (-45));
       [unfold F64.neg_four; simpl; lia | exact H8r | lia]].
  lia.
Qed.

(** Whatever the 16-bit pattern, the decoded weight is small. *)
Lemma decode_weight_small (u : Z) :
  0 <= u < 65536 -> small 45 (decode_weight u).
Proof.
  intros Hu. unfold decode_weight.
  set (w_int := if u <? 32768 then u else u - 65536).
  assert (Hw : Z.abs w_int < 2 ^ 53).
  { subst w_int. destruct (u <? 32768); lia. }
  assert (Hq : small 41 (F64.div (F64.of_int w_int) F64.c32767)).
  { eapply small_weaken;
      [| unfold F64.c32767;
         apply (div_small _ _ _ _ 1); [apply of_int_small; exact Hw | lia | lia]].
    lia. }
  eapply small_weaken;
    [| apply (mul_small _ _ 41 (-50));
       [exact Hq | unfold F64.four; simpl; lia | lia]].
  lia.
Qed.

(** A small weight can be packed: [int()] does not raise. *)
Lemma small_weight_code (w : float) :
  small 64 w ->
  exists c, weight_code w = Some c /\ -32768 <= c <= 32767.
Proof.
  intros Hw.
  assert (Hx : small 116 (F64.div w F64.four)).
  { eapply small_weaken;
      [| unfold F64.four; apply (div_small _ _ _ _ 64);
         [exact Hw | lia | lia]].
    lia. }
  assert (Hy : small 132 (F64.mul (F64.div w F64.four) F64.c32767)).
  { eapply small_weaken;
      [| apply (mul_small _ _ 116 (-38));
         [exact Hx | unfold F64.c32767; simpl; lia | lia]].
    lia. }
  destruct (small_to_int _ _ Hy) as [t Ht].
  unfold weight_code. rewrite Ht. simpl.
  eexists. split; [reflexivity | lia].
Qed.

End Sums.

(** * The 16-bit weight codes *)

Lemma all_from_spec (n : nat) (f : Z -> bool) :
  forall start,
    all_from n start f = true ->
    forall u, start <= u < start + Z.of_nat n -> f u = true.
Proof.
  induction n as [| n IH]; intros start H u Hu; [lia |].
  simpl in H. apply andb_true_iff in H as [H0 Hrest].
  destruct (Z.eq_dec u start) as [-> | Hne]; [exact H0 |].
  apply (IH (start + 1) Hrest). lia.
Qed.

Module Codes.

Import Rounding Ops Trunc.

(** *** Signs pass through the operations *)

Lemma pack_rounded_opp (s : bool) (m e : Z) :
  SFopp (pack_rounded s m e) = pack_rounded (negb s) m e.
Proof.
  unfold pack_rounded. destruct (m =? 0); [reflexivity |].
  destruct (m =? 2 ^ 53);
    match goal with |- context [if ?c then _ else _] => destruct c end;
    reflexivity.
Qed.

Lemma binary_round_exact (s : bool) (mz : positive) (ez : Z) :
  binary_round_aux F64.prec F64.emax s (Zpos mz) ez loc_Exact
  = pack_rounded s (rne (Zpos mz) (2 ^ dropped (Zpos mz) ez))
                 (ez + dropped (Zpos mz) ez).
Proof.
  pose proof (binary_round_aux_rne s (Zpos mz) 1 ez ltac:(lia) ltac:(lia))
    as H.
  cbv zeta in H. rewrite Z.div_1_r, Z.mod_1_r, Z.mul_1_l in H.
  exact H.
Qed.

Lemma of_int_opp (p : positive) :
  F64.of_int (Zneg p) = SFopp (F64.of_int (Zpos p)).
Proof.
  unfold F64.of_int, binary_normalize, binary_round.
  destruct (shl_align p 0 _) as [mz ez].
  rewrite !binary_round_exact, pack_rounded_opp. reflexivity.
Qed.

Lemma div_opp (x : float) (sy : bool) (my : positive) (ey : Z) :
  F64.div (SFopp x) (S754_finite sy my ey)
  = SFopp (F64.div x (S754_finite sy my ey)).
Proof.
  destruct x as [sx | sx | | sx mx ex].
  - simpl. destruct sx, sy; reflexivity.
  - simpl. destruct sx, sy; reflexivity.
  - reflexivity.
  - change (SFopp (S754_finite sx mx ex)) with (S754_finite (negb sx) mx ex).
    rewrite !div_finite, pack_rounded_opp, negb_xorb_l. reflexivity.
Qed.

Lemma mul_opp (sx : bool) (mx : positive) (ex : Z) (sy : bool)
    (my : positive) (ey : Z) :
  F64.mul (S754_finite (negb sx) mx ex) (S754_finite sy my ey)
  = SFopp (F64.mul (S754_finite sx mx ex) (S754_finite sy my ey)).
Proof.
  rewrite !mul_finite, pack_rounded_opp, negb_xorb_l. reflexivity.
Qed.

Lemma to_int_opp (y : float) :
  F64.to_int (SFopp y) = Z.opp <$> F64.to_int y.
Proof.
  destruct y as [s | s | | s m e]; try reflexivity.
  simpl. f_equal. destruct s; simpl; lia.
Qed.

(** *** Multiplying a normal number by 4.0 is exact *)

Lemma mul_four_exact (s : bool) (m : positive) (e : Z) :
  Zdigits2 (Zpos m) = 53 -> -1076 <= e <= 969 ->
  F64.mul (S754_finite s m e) F64.four = S754_finite s m (e + 2).
Proof.
  intros Hd He. unfold F64.four. rewrite mul_finite. cbv zeta.
  change (Zpos 4503599627370496) with (2 ^ 52).
  assert (Hdig : Zdigits2 (Zpos m * 2 ^ 52) = 105).
  { rewrite digits_pow2_mul by lia. lia. }
  unfold dropped. rewrite Hdig, fexp_eq.
  replace (Z.max 0 (Z.max (105 + (e + -50) - 53) (-1074) - (e + -50)))
    with 52 by lia.
  rewrite rne_exact by lia.
  pose proof (Zdigits2_bounds (Zpos m) ltac:(lia)) as [_ Hh].
  rewrite Hd in Hh. unfold pack_rounded.
  destruct (Z.eqb_spec (Zpos m) 0); [lia |].
  destruct (Z.eqb_spec (Zpos m) (2 ^ 53)); [lia |].
  replace (e + -50 + 52 <=? F64.emax - F64.prec) with true
    by (symmetry; apply Z.leb_le; unfold F64.emax, F64.prec; lia).
  rewrite xorb_false_r. f_equal. lia.
Qed.

(** *** The check on the 32767 positive codes *)

(** The float operations are evaluated on each code. *)
Lemma all_codes_check : all_from (Z.to_nat 32767) 1 code_check = true.
Proof. vm_cast_no_check (eq_refl true). Qed.

(** What the check gives for the code [q], with either sign. *)
Lemma code_facts (q : Z) (s : bool) :
  1 <= q <= 32767 ->
  exists md ed,
    decode_weight (cond_Zopp s q mod 65536) = S754_finite s md (ed + 2)
    /\ Zdigits2 (Zpos md) = 53 /\ -80 <= ed <= -52
    /\ (ed = -52 -> Zpos md <= 2 ^ 52)
    /\ weight_code (S754_finite s md (ed + 2)) = Some (cond_Zopp s q)
    /\ (q * 2 ^ 53 - 2 ^ Z.log2 q) * 2 ^ (- ed) <= 32767 * Zpos md * 2 ^ 53
    /\ 32767 * Zpos md * 2 ^ 53
       <= ((q + 1) * 2 ^ 53 - 2 ^ Z.log2 q) * 2 ^ (- ed).
Proof.
  intros Hq.
  pose proof (all_from_spec _ _ _ all_codes_check q) as Hchk.
  rewrite Z2Nat.id in Hchk by lia. specialize (Hchk ltac:(lia)).
  unfold code_check in Hchk.
  destruct (F64.div (F64.of_int q) F64.c32767)
    as [| | | [|] md ed] eqn:Ediv; try discriminate Hchk.
  cbv zeta in Hchk. rewrite !andb_true_iff in Hchk.
  destruct Hchk as ((((((Hdig & Hhi) & Hlo) & Hm) & Hint) & Hl) & Hh).
  apply Z.eqb_eq in Hdig. apply Z.leb_le in Hhi, Hlo, Hl, Hh.
  change (Zpos (digits2_pos md)) with (Zdigits2 (Zpos md)) in Hdig.
  assert (Hlog : 0 <= Z.log2 q) by apply Z.log2_nonneg.
  rewrite !Z.shiftl_mul_pow2 in Hl, Hh by lia. rewrite Z.mul_1_l in Hl, Hh.
  destruct (F64.to_int (F64.mul (S754_finite false md ed) F64.c32767))
    as [t |] eqn:Et; [| discriminate Hint].
  apply Z.eqb_eq in Hint. subst t.
  exists md, ed.
  assert (Hm4 : ed = -52 -> Zpos md <= 2 ^ 52).
  { intros ->. apply orb_true_iff in Hm as [Hm | Hm];
      [apply Z.ltb_lt in Hm; lia | apply Z.leb_le in Hm; exact Hm]. }
  assert (Hdec : F64.mul (F64.div (F64.of_int (cond_Zopp s q)) F64.c32767)
                         F64.four
                 = S754_finite s md (ed + 2)).
  { destruct s; simpl cond_Zopp.
    - destruct q as [| p | p]; try lia.
      change (- Zpos p) with (Zneg p).
      rewrite of_int_opp. unfold F64.c32767 in *. rewrite div_opp, Ediv.
      change (SFopp (S754_finite false md ed)) with (S754_finite true md ed).
      apply mul_four_exact; [exact Hdig | lia].
    - rewrite Ediv. apply mul_four_exact; [exact Hdig | lia]. }
  assert (Hu : decode_weight (cond_Zopp s q mod 65536)
               = S754_finite s md (ed + 2)).
  { rewrite <- Hdec. unfold decode_weight. f_equal. f_equal. f_equal.
    destruct s; simpl cond_Zopp.
    - replace (- q mod 65536) with (65536 - q)
        by (apply Z.mod_unique with (q := -1); lia).
      destruct (Z.ltb_spec (65536 - q) 32768); lia.
    - rewrite Z.mod_small by lia.
      destruct (Z.ltb_spec q 32768); lia. }
  split; [exact Hu |]. split; [exact Hdig |]. split; [lia |].
  split; [exact Hm4 |]. split; [| split; [exact Hl | exact Hh]].
  unfold weight_code. rewrite div_four_normal by (done || lia).
  replace (ed + 2 - 2) with ed by lia.
  destruct s; simpl cond_Zopp.
  - unfold F64.c32767 in *.
    rewrite (mul_opp false md ed), to_int_opp, Et. simpl.
    f_equal. lia.
  - rewrite Et. simpl. f_equal. lia.
Qed.

Lemma decode_zero : decode_weight 0 = S754_zero false.
Proof. vm_compute. reflexivity. Qed.

End Codes.

Lemma weight_code_decode (u : Z) :
  0 <= u < 65536 ->
  exists c, weight_code (decode_weight u) = Some c /\ Z.land c 0xFFFF = u.
Proof.
  intros Hu.
  destruct (Z.eq_dec u 0) as [-> | H0].
  { exists 0. split; vm_compute; reflexivity. }
  destruct (Z.eq_dec u 32768) as [-> | H8].
  { exists (-32768). split; vm_compute; reflexivity. }
  change 65535 with (Z.ones 16).
  destruct (Z_lt_le_dec u 32768) as [Hlt | Hge].
  - destruct (Codes.code_facts u false ltac:(lia))
      as (md & ed & Hd & _ & _ & _ & Hc & _).
    simpl cond_Zopp in Hd, Hc. rewrite Z.mod_small in Hd by lia.
    exists u. rewrite Hd. split; [exact Hc |].
    rewrite Z.land_ones by lia. apply Z.mod_small. lia.
  - destruct (Codes.code_facts (65536 - u) true ltac:(lia))
      as (md & ed & Hd & _ & _ & _ & Hc & _).
    simpl cond_Zopp in Hd, Hc.
    replace (- (65536 - u) mod 65536) with u in Hd
      by (apply Z.mod_unique with (q := -1); lia).
    exists (- (65536 - u)). rewrite Hd. split; [exact Hc |].
    rewrite Z.land_ones by lia.
    symmetry. apply Z.mod_unique with (q := -1); lia.
Qed.

(** Whatever the word, the gene [from_int] builds can be packed. *)
Lemma from_int_packable (p : Z) : is_Some (to_int (from_int p)).
Proof.
  unfold to_int, from_int. cbn [weight source_type source_id sink_type sink_id].
  destruct (weight_code_decode (Z.land p 0xFFFF)) as (c & Hc & _).
  { change 65535 with (Z.ones 16). rewrite Z.land_ones by lia.
    apply Z.mod_pos_bound. lia. }
  rewrite Hc. simpl. eauto.
Qed.

(** X2: For every 32-bit word [p], packing the gene decoded from [p]
    succeeds and gives [p] back. *)
Theorem to_int_from_int (p : Z) :
  0 <= p < 2 ^ 32 -> to_int (from_int p) = Some p.
Proof.
  intros Hp. unfold to_int, from_int.
  cbn [weight source_type source_id sink_type sink_id].
  assert (Hu : 0 <= Z.land p 0xFFFF < 65536).
  { change 65535 with (Z.ones 16). rewrite Z.land_ones by lia.
    apply Z.mod_pos_bound. lia. }
  destruct (weight_code_decode (Z.land p 0xFFFF) Hu) as (c & Hc & Hcu).
  rewrite Hc. simpl. f_equal. rewrite Hcu.
  change 1 with (Z.ones 1). change 127 with (Z.ones 7).
  change 65535 with (Z.ones 16) in *.
  rewrite !Z.land_ones in * by lia. rewrite !Z.shiftr_div_pow2 by lia.
  rewrite !Z.mod_mod by lia.
  rewrite Packing.pack_fields; Z.div_mod_to_equations; lia.
Qed.

Lemma to_int_from_int_witness :
  0 <= 2240219135 < 2 ^ 32
  /\ to_int (from_int 2240219135) = Some 2240219135.
Proof.
  split; [lia |]. apply (to_int_from_int 2240219135). lia.
Defined.

(** * Floats that stay between -4.0 and 4.0 *)

Module Validity.

Import Rounding Ops Trunc Sums Codes.

Lemma valid_intro (s : bool) (m : positive) (e : Z) :
  -1074 <= e <= 971 ->
  Zdigits2 (Zpos m) = 53 \/ (e = -1074 /\ Zdigits2 (Zpos m) < 53) ->
  valid_binary F64.prec F64.emax (S754_finite s m e) = true.
Proof.
  intros He Hd. unfold valid_binary, bounded, canonical_mantissa.
  rewrite andb_true_iff, Z.eqb_eq, Z.leb_le, fexp_eq.
  change (Zpos (digits2_pos m)) with (Zdigits2 (Zpos m)).
  unfold F64.emax, F64.prec.
  pose proof (Zdigits2_pos (Zpos m) ltac:(lia)). lia.
Qed.

Lemma pow2_le_inv (a b : Z) : 0 <= b -> 2 ^ a <= 2 ^ b -> a <= b.
Proof.
  intros Hb H. destruct (Z_le_gt_dec a b) as [| Hgt]; [assumption |].
  assert (2 ^ (b + 1) <= 2 ^ a) by (apply Z.pow_le_mono_r; lia).
  rewrite Z.pow_add_r in * by lia. change (2 ^ 1) with 2 in *.
  assert (0 < 2 ^ b) by (apply Z.pow_pos_nonneg; lia). lia.
Qed.

Lemma pack_rounded_valid (s : bool) (R E : Z) :
  0 <= R <= 2 ^ 53 -> -1074 <= E < 971 ->
  2 ^ 52 <= R \/ E = -1074 ->
  valid_binary F64.prec F64.emax (pack_rounded s R E) = true.
Proof.
  intros HR HE Hn. unfold pack_rounded.
  destruct (Z.eqb_spec R 0) as [-> | H0]; [reflexivity |].
  destruct (Z.eqb_spec R (2 ^ 53)) as [-> | H53].
  - replace (E + 1 <=? F64.emax - F64.prec) with true
      by (symmetry; apply Z.leb_le; unfold F64.emax, F64.prec; lia).
    apply valid_intro; [lia |]. left. reflexivity.
  - replace (E <=? F64.emax - F64.prec) with true
      by (symmetry; apply Z.leb_le; unfold F64.emax, F64.prec; lia).
    apply valid_intro; [lia |]. rewrite Z2Pos.id by lia.
    destruct (Z_le_gt_dec (2 ^ 52) R) as [Hge | Hlt].
    + left. apply Zdigits2_unique; lia.
    + right. split; [lia |].
      pose proof (Zdigits2_le R 52 ltac:(lia) ltac:(lia)). lia.
Qed.

(** What [binary_round] computes from the integer [p] held at exponent
    [e]: the mantissa is shifted to the canonical exponent [f], exactly
    when that is below [e] and with a rounding otherwise. *)
Lemma binary_round_spec (s : bool) (p : positive) (e : Z) :
  let f := Z.max (Zdigits2 (Zpos p) + e - 53) (-1074) in
  binary_round F64.prec F64.emax s p e
  = pack_rounded s (if f <=? e then Zpos p * 2 ^ (e - f)
                    else rne (Zpos p) (2 ^ (f - e))) f.
Proof.
  intros f. unfold binary_round.
  pose proof (shl_align_spec p e
                (fexp F64.prec F64.emax (Zpos (digits2_pos p) + e)))
    as [Hez Hmz].
  destruct (shl_align p e _) as [mz ez]. simpl in Hez, Hmz.
  rewrite fexp_eq in Hez.
  change (Zpos (digits2_pos p)) with (Zdigits2 (Zpos p)) in Hez.
  fold f in Hez.
  rewrite binary_round_exact.
  assert (Hd : Zdigits2 (Zpos mz) + ez = Zdigits2 (Zpos p) + e).
  { rewrite Hmz, digits_pow2_mul by lia. lia. }
  unfold dropped. rewrite Hd, fexp_eq. fold f.
  destruct (Z.leb_spec f e) as [Hle | Hgt].
  - replace ez with f by lia. replace (Z.max 0 (f - f)) with 0 by lia.
    rewrite Z.add_0_r. f_equal.
    replace (Zpos mz) with (Zpos mz * 2 ^ 0) at 1 by (simpl; lia).
    rewrite rne_exact by (simpl; lia). rewrite Hmz. f_equal. f_equal. lia.
  - replace ez with e in * by lia.
    replace (Z.max 0 (f - e)) with (f - e) by lia.
    rewrite Hmz, Z.sub_diag. change (2 ^ 0) with 1. rewrite Z.mul_1_r.
    f_equal. lia.
Qed.

Lemma binary_round_mantissa (p : positive) (e : Z) :
  let d := Zdigits2 (Zpos p) in
  let f := Z.max (d + e - 53) (-1074) in
  let R := if f <=? e then Zpos p * 2 ^ (e - f)
           else rne (Zpos p) (2 ^ (f - e)) in
  0 <= R <= 2 ^ 53 /\ (2 ^ 52 <= R \/ f = -1074).
Proof.
  intros d f R.
  pose proof (Zdigits2_bounds (Zpos p) ltac:(lia)) as [Hlo Hhi].
  pose proof (Zdigits2_pos (Zpos p) ltac:(lia)) as Hd. fold d in Hlo, Hhi, Hd.
  subst R. destruct (Z.leb_spec f e) as [Hle | Hgt].
  - assert (Hup : Zpos p * 2 ^ (e - f) < 2 ^ (d + (e - f))).
    { rewrite Z.pow_add_r by lia.
      assert (0 < 2 ^ (e - f)) by (apply Z.pow_pos_nonneg; lia). nia. }
    assert (H53 : 2 ^ (d + (e - f)) <= 2 ^ 53)
      by (apply Z.pow_le_mono_r; lia).
    split; [lia |].
    destruct (Z.eq_dec f (-1074)) as [| Hf]; [right; assumption | left].
    assert (Ef : f = d + e - 53) by lia.
    replace 52 with (d - 1 + (e - f)) by lia.
    rewrite Z.pow_add_r by lia.
    assert (0 < 2 ^ (e - f)) by (apply Z.pow_pos_nonneg; lia). nia.
  - set (n := f - e) in *.
    assert (Hn : 0 < 2 ^ n) by (apply Z.pow_pos_nonneg; lia).
    pose proof (rne_bounds (Zpos p) (2 ^ n) Hn) as [Hr1 Hr2].
    assert (Hq0 : 0 <= Zpos p / 2 ^ n) by (apply Z.div_pos; lia).
    assert (Hq : Zpos p / 2 ^ n < 2 ^ 53).
    { apply Z.div_lt_upper_bound; [lia |].
      rewrite <- Z.pow_add_r by lia.
      assert (2 ^ d <= 2 ^ (n + 53)) by (apply Z.pow_le_mono_r; lia). lia. }
    split; [lia |].
    destruct (Z.eq_dec f (-1074)) as [| Hf]; [right; assumption | left].
    assert (En : n = d - 53) by lia.
    assert (2 ^ 52 <= Zpos p / 2 ^ n); [| lia].
    apply Z.div_le_lower_bound; [lia |].
    rewrite <- Z.pow_add_r by lia. replace (n + 52) with (d - 1) by lia.
    exact Hlo.
Qed.

Lemma binary_round_valid (s : bool) (p : positive) (e : Z) :
  Zdigits2 (Zpos p) + e - 53 < 971 ->
  valid_binary F64.prec F64.emax (binary_round F64.prec F64.emax s p e)
  = true.
Proof.
  intros Hb. rewrite binary_round_spec. cbv zeta.
  destruct (binary_round_mantissa p e) as [HR Hn]. cbv zeta in HR, Hn.
  apply pack_rounded_valid; [exact HR | lia | exact Hn].
Qed.

(** Rounding keeps a magnitude of at most [2 ^ c] at most [2 ^ c]. *)
Lemma binary_round_below (s : bool) (p : positive) (e c : Z) :
  -1022 <= c < 1000 -> e <= c -> Zpos p <= 2 ^ (c - e) ->
  below_pow2 c (binary_round F64.prec F64.emax s p e).
Proof.
  intros Hc Hec Hp.
  pose proof (Zdigits2_bounds (Zpos p) ltac:(lia)) as [Hlo Hhi].
  pose proof (Zdigits2_pos (Zpos p) ltac:(lia)) as Hd.
  assert (Hde : Zdigits2 (Zpos p) - 1 <= c - e)
    by (apply pow2_le_inv; lia).
  pose proof (binary_round_valid s p e ltac:(lia)) as Hv.
  rewrite binary_round_spec in *. cbv zeta in *.
  destruct (binary_round_mantissa p e) as [HR _]. cbv zeta in HR.
  set (f := Z.max (Zdigits2 (Zpos p) + e - 53) (-1074)) in *.
  set (R := if f <=? e then _ else _) in *.
  assert (HRc : R <= 2 ^ (c - f)).
  { subst R. destruct (Z.leb_spec f e) as [Hle | Hgt].
    - replace (c - f) with (c - e + (e - f)) by lia.
      rewrite Z.pow_add_r by lia.
      assert (0 < 2 ^ (e - f)) by (apply Z.pow_pos_nonneg; lia). nia.
    - assert (Hn : 0 < 2 ^ (f - e)) by (apply Z.pow_pos_nonneg; lia).
      pose proof (rne_monotone (Zpos p) (2 ^ (c - e)) (2 ^ (f - e)) Hn Hp)
        as Hm.
      replace (2 ^ (c - e)) with (2 ^ (c - f) * 2 ^ (f - e)) in Hm
        by (rewrite <- Z.pow_add_r by lia; f_equal; lia).
      rewrite rne_exact in Hm by exact Hn. exact Hm. }
  destruct (pack_rounded_shape s R f HR ltac:(lia))
    as [[_ ->] | (m' & e' & Epk & Hm' & He' & HmR)]; [exact I |].
  rewrite Epk in Hv |- *. cbn [below_pow2].
  apply valid_shape in Hv as (_ & _ & Hdig).
  assert (Hpw : 0 < 2 ^ (e' - f)) by (apply Z.pow_pos_nonneg; lia).
  destruct Hdig as [H53 | [Esub Hlt]].
  - pose proof (Zdigits2_bounds (Zpos m') ltac:(lia)) as [Hl' _].
    rewrite H53 in Hl'. change (2 ^ (53 - 1)) with (2 ^ 52) in Hl'.
    assert (Hexp : 52 + (e' - f) <= c - f).
    { apply pow2_le_inv; [lia |]. rewrite Z.pow_add_r by lia. nia. }
    split; [lia |]. intros ->.
    replace (c - f) with (52 + (c - 52 - f)) in HRc by lia.
    rewrite Z.pow_add_r in HRc by lia. nia.
  - split; [lia |]. intros Ee.
    pose proof (Zdigits2_bounds (Zpos m') ltac:(lia)) as [_ Hh'].
    assert (2 ^ Zdigits2 (Zpos m') <= 2 ^ 52)
      by (apply Z.pow_le_mono_r; lia).
    lia.
Qed.

Lemma below_four_leb (y : float) :
  below_pow2 2 y ->
  F64.leb F64.neg_four y = true /\ F64.leb y F64.four = true.
Proof.
  unfold F64.leb, SFleb, SFcompare, F64.neg_four, F64.four.
  destruct y as [s | s | | s m e]; cbn [below_pow2];
    [intros _; destruct s; split; reflexivity | done | done |].
  intros [He Hm]. replace (2 - 52) with (-50) in * by lia.
  change (@PosDef.Pos.compare_cont) with (@Pos.compare_cont).
  rewrite !Pos.compare_cont_spec. cbn [Pos.switch_Eq].
  destruct s.
  - split; [| reflexivity].
    destruct (Z.compare_spec (-50) e) as [E | E | E]; [| lia | reflexivity].
    specialize (Hm (eq_sym E)).
    destruct (4503599627370496 ?= m)%positive eqn:Ec; cbn [CompOpp];
      try reflexivity.
    apply Pos.compare_lt_iff in Ec.
    apply Pos2Z.pos_lt_pos in Ec. lia.
  - split; [reflexivity |].
    destruct (Z.compare_spec e (-50)) as [E | E | E]; [| reflexivity | lia].
    specialize (Hm E).
    destruct (m ?= 4503599627370496)%positive eqn:Ec; try reflexivity.
    apply Pos.compare_gt_iff in Ec.
    apply Pos2Z.pos_lt_pos in Ec. lia.
Qed.

(** *** Exact operations *)

Lemma of_int_normal (n : Z) :
  0 < n < 2 ^ 53 ->
  exists m e,
    F64.of_int n = S754_finite false m e
    /\ Zdigits2 (Zpos m) = 53 /\ -52 <= e <= 0
    /\ Zpos m = n * 2 ^ (- e).
Proof.
  intros Hn. destruct n as [| p | p]; try lia.
  unfold F64.of_int, binary_normalize. rewrite binary_round_spec. cbv zeta.
  pose proof (Zdigits2_bounds (Zpos p) ltac:(lia)) as [Hlo Hhi].
  pose proof (Zdigits2_pos (Zpos p) ltac:(lia)) as Hd.
  pose proof (Zdigits2_le (Zpos p) 53 ltac:(lia) ltac:(lia)) as Hd53.
  set (d := Zdigits2 (Zpos p)) in *.
  replace (Z.max (d + 0 - 53) (-1074)) with (d - 53) by lia.
  destruct (Z.leb_spec (d - 53) 0) as [_ | ?]; [| lia].
  replace (0 - (d - 53)) with (53 - d) by lia.
  assert (Hpw : 0 < 2 ^ (53 - d)) by (apply Z.pow_pos_nonneg; lia).
  assert (HR : 2 ^ 52 <= Zpos p * 2 ^ (53 - d) < 2 ^ 53).
  { split.
    - replace 52 with (d - 1 + (53 - d)) by lia.
      rewrite Z.pow_add_r by lia. nia.
    - replace 53 with (d + (53 - d)) at 2 by lia.
      rewrite Z.pow_add_r by lia. nia. }
  unfold pack_rounded.
  destruct (Z.eqb_spec (Zpos p * 2 ^ (53 - d)) 0); [lia |].
  destruct (Z.eqb_spec (Zpos p * 2 ^ (53 - d)) (2 ^ 53)); [lia |].
  replace (d - 53 <=? F64.emax - F64.prec) with true
    by (symmetry; apply Z.leb_le; unfold F64.emax, F64.prec; lia).
  eexists _, _. split; [reflexivity |].
  rewrite Z2Pos.id by lia.
  split; [apply Zdigits2_unique; lia |]. split; [lia |].
  f_equal. f_equal. lia.
Qed.

Lemma mul_pow2_exact_r (s : bool) (m : positive) (e c : Z) :
  Zdigits2 (Zpos m) = 53 -> -1074 <= e + c + 52 <= 971 ->
  F64.mul (S754_finite s m e) (S754_finite false 4503599627370496 c)
  = S754_finite s m (e + c + 52).
Proof.
  intros Hd He. rewrite mul_finite. cbv zeta.
  change (Zpos 4503599627370496) with (2 ^ 52).
  assert (Hdig : Zdigits2 (Zpos m * 2 ^ 52) = 105).
  { rewrite digits_pow2_mul by lia. lia. }
  unfold dropped. rewrite Hdig, fexp_eq.
  replace (Z.max 0 (Z.max (105 + (e + c) - 53) (-1074) - (e + c)))
    with 52 by lia.
  rewrite rne_exact by lia.
  pose proof (Zdigits2_bounds (Zpos m) ltac:(lia)) as [_ Hh].
  rewrite Hd in Hh. unfold pack_rounded.
  destruct (Z.eqb_spec (Zpos m) 0); [lia |].
  destruct (Z.eqb_spec (Zpos m) (2 ^ 53)); [lia |].
  replace (e + c + 52 <=? F64.emax - F64.prec) with true
    by (symmetry; apply Z.leb_le; unfold F64.emax, F64.prec; lia).
  rewrite xorb_false_r. reflexivity.
Qed.

Lemma mul_pow2_exact_l (s : bool) (m : positive) (e c : Z) :
  Zdigits2 (Zpos m) = 53 -> -1074 <= e + c + 52 <= 971 ->
  F64.mul (S754_finite false 4503599627370496 c) (S754_finite s m e)
  = S754_finite s m (e + c + 52).
Proof.
  intros Hd He. rewrite mul_finite. cbv zeta.
  change (Zpos 4503599627370496) with (2 ^ 52).
  rewrite (Z.mul_comm (2 ^ 52) (Zpos m)).
  assert (Hdig : Zdigits2 (Zpos m * 2 ^ 52) = 105).
  { rewrite digits_pow2_mul by lia. lia. }
  unfold dropped. rewrite Hdig, fexp_eq.
  replace (Z.max 0 (Z.max (105 + (c + e) - 53) (-1074) - (c + e)))
    with 52 by lia.
  rewrite rne_exact by lia.
  pose proof (Zdigits2_bounds (Zpos m) ltac:(lia)) as [_ Hh].
  rewrite Hd in Hh. unfold pack_rounded.
  destruct (Z.eqb_spec (Zpos m) 0); [lia |].
  destruct (Z.eqb_spec (Zpos m) (2 ^ 53)); [lia |].
  replace (c + e + 52 <=? F64.emax - F64.prec) with true
    by (symmetry; apply Z.leb_le; unfold F64.emax, F64.prec; lia).
  cbn [xorb]. f_equal. lia.
Qed.

(** *** The weight [random.uniform(-4.0, 4.0)] draws *)

Lemma uniform_weight_valid (k : Z) :
  let wt := F64.add F64.neg_four
              (F64.mul (F64.sub F64.four F64.neg_four)
                 (F64.mul (F64.of_int (k mod 2 ^ 53)) F64.two_m53)) in
  valid_binary F64.prec F64.emax wt = true
  /\ F64.leb F64.neg_four wt = true /\ F64.leb wt F64.four = true.
Proof.
  cbv zeta.
  pose proof (Z.mod_pos_bound k (2 ^ 53) ltac:(lia)) as Hn.
  set (n := k mod 2 ^ 53) in *.
  destruct (Z.eq_dec n 0) as [-> | Hn0].
  { vm_compute. auto. }
  destruct (of_int_normal n ltac:(lia)) as (m & e & -> & Hd & He & Hm).
  unfold F64.two_m53. rewrite mul_pow2_exact_r by (assumption || lia).
  replace (F64.sub F64.four F64.neg_four)
    with (S754_finite false 4503599627370496 (-49))
    by (vm_compute; reflexivity).
  rewrite mul_pow2_exact_l by (assumption || lia).
  replace (e + -105 + 52 + -49 + 52) with (e - 50) by lia.
  unfold F64.add, SFadd, F64.neg_four.
  set (ez := Z.min (-50) (e - 50)).
  assert (Eez : ez = e - 50) by (subst ez; lia).
  pose proof (shl_align_spec 4503599627370496 (-50) ez) as [_ HA].
  pose proof (shl_align_spec m (e - 50) ez) as [_ HB].
  cbv zeta in HA, HB.
  replace (snd (shl_align 4503599627370496 (-50) ez)) with ez in HA
    by (pose proof (shl_align_spec 4503599627370496 (-50) ez) as [H _];
        cbv zeta in H; lia).
  replace (snd (shl_align m (e - 50) ez)) with ez in HB
    by (pose proof (shl_align_spec m (e - 50) ez) as [H _];
        cbv zeta in H; lia).
  set (A := Zpos (fst (shl_align 4503599627370496 (-50) ez))) in *.
  set (B := Zpos (fst (shl_align m (e - 50) ez))) in *.
  change (Zpos 4503599627370496) with (2 ^ 52) in HA.
  assert (EA : A = 2 ^ (2 - ez)).
  { rewrite HA, <- Z.pow_add_r by lia. f_equal. lia. }
  assert (EB : B = Zpos m).
  { rewrite HB. replace (e - 50 - ez) with 0 by lia. simpl. lia. }
  pose proof (Zdigits2_bounds (Zpos m) ltac:(lia)) as [Hml Hmh].
  rewrite Hd in Hml, Hmh. change (2 ^ (53 - 1)) with (2 ^ 52) in Hml.
  assert (HA52 : 2 ^ 52 <= A).
  { rewrite EA. apply Z.pow_le_mono_r; lia. }
  assert (HmA : Zpos m <= 2 * A).
  { rewrite EA. replace (2 * 2 ^ (2 - ez)) with (2 ^ (3 - ez))
      by (replace (3 - ez) with (1 + (2 - ez)) by lia;
          rewrite Z.pow_add_r by lia; reflexivity).
    assert (2 ^ 53 <= 2 ^ (3 - ez)) by (apply Z.pow_le_mono_r; lia). lia. }
  cbn [cond_Zopp]. rewrite EB.
  assert (HAd : Zdigits2 A = 3 - ez).
  { apply Zdigits2_unique; [| lia]. rewrite EA.
    replace (3 - ez - 1) with (2 - ez) by lia. split; [lia |].
    apply Z.pow_lt_mono_r; lia. }
  unfold binary_normalize.
  destruct (- A + Zpos m) as [| q | q] eqn:ES.
  - split; [reflexivity |]. apply below_four_leb. exact I.
  - assert (Hq : Zpos q <= A) by lia.
    assert (Hqd : Zdigits2 (Zpos q) <= 3 - ez).
    { apply Zdigits2_le; [lia |]. split; [lia |].
      assert (A < 2 ^ (3 - ez)); [| lia].
      rewrite <- HAd. apply Zdigits2_bounds. lia. }
    split; [apply binary_round_valid; lia |].
    apply below_four_leb, binary_round_below; [lia | lia |].
    rewrite <- EA. exact Hq.
  - assert (Hq : Zpos q <= A) by lia.
    assert (Hqd : Zdigits2 (Zpos q) <= 3 - ez).
    { apply Zdigits2_le; [lia |]. split; [lia |].
      assert (A < 2 ^ (3 - ez)); [| lia].
      rewrite <- HAd. apply Zdigits2_bounds. lia. }
    split; [apply binary_round_valid; lia |].
    apply below_four_leb, binary_round_below; [lia | lia |].
    rewrite <- EA. exact Hq.
Qed.

(** *** The weights [Gene.from_int] decodes *)

Lemma decode_weight_valid (u : Z) :
  0 <= u < 65536 -> u <> 32768 ->
  valid_binary F64.prec F64.emax (decode_weight u) = true
  /\ F64.leb F64.neg_four (decode_weight u) = true
  /\ F64.leb (decode_weight u) F64.four = true.
Proof.
  intros Hu Hne.
  destruct (Z.eq_dec u 0) as [-> | H0]; [vm_compute; auto |].
  assert (Hex : exists s md ed,
             decode_weight u = S754_finite s md (ed + 2)
             /\ Zdigits2 (Zpos md) = 53 /\ -80 <= ed <= -52
             /\ (ed = -52 -> Zpos md <= 2 ^ 52)).
  { destruct (Z_lt_le_dec u 32768) as [Hlt | Hge].
    - destruct (code_facts u false ltac:(lia))
        as (md & ed & Hd & Hdig & Hed & Hm & _).
      simpl cond_Zopp in Hd. rewrite Z.mod_small in Hd by lia. eauto 10.
    - destruct (code_facts (65536 - u) true ltac:(lia))
        as (md & ed & Hd & Hdig & Hed & Hm & _).
      simpl cond_Zopp in Hd.
      replace (- (65536 - u) mod 65536) with u in Hd
        by (apply Z.mod_unique with (q := -1); lia).
      eauto 10. }
  destruct Hex as (s & md & ed & -> & Hdig & Hed & Hm).
  split; [apply valid_intro; [lia | left; exact Hdig] |].
  apply below_four_leb. cbn [below_pow2]. split; [lia |].
  intros E. apply Hm. lia.
Qed.

End Validity.

(** * Exact arithmetic on small dyadic numbers *)

(** Integers below [2 ^ 53] in magnitude, scaled by a power of two of a
    moderate exponent, are floats, and the operations of the circle test
    are exact on them as long as their results are of that kind too. *)

Module Exact.

Import Rounding Ops Sums Codes Validity.

Lemma pack_rounded_normal (s : bool) (R f : Z) :
  2 ^ 52 <= R < 2 ^ 53 -> f <= 971 ->
  pack_rounded s R f = S754_finite s (Z.to_pos R) f.
Proof.
  intros HR Hf. unfold pack_rounded.
  destruct (Z.eqb_spec R 0); [lia |].
  destruct (Z.eqb_spec R (2 ^ 53)); [lia |].
  replace (f <=? F64.emax - F64.prec) with true
    by (symmetry; apply Z.leb_le; unfold F64.emax, F64.prec; lia).
  reflexivity.
Qed.

(** The mantissa of [p], shifted to 53 digits. *)
Lemma normal_mantissa (p : positive) :
  Zpos p < 2 ^ 53 ->
  let d := Zdigits2 (Zpos p) in
  1 <= d <= 53 /\ 2 ^ 52 <= Zpos p * 2 ^ (53 - d) < 2 ^ 53.
Proof.
  intros Hp d.
  pose proof (Zdigits2_bounds (Zpos p) ltac:(lia)) as [Hlo Hhi].
  pose proof (Zdigits2_pos (Zpos p) ltac:(lia)) as Hd.
  pose proof (Zdigits2_le (Zpos p) 53 ltac:(lia) ltac:(lia)) as Hd53.
  fold d in Hlo, Hhi, Hd, Hd53.
  split; [lia |].
  assert (Hpw : 0 < 2 ^ (53 - d)) by (apply Z.pow_pos_nonneg; lia).
  split.
  - replace 52 with (d - 1 + (53 - d)) by lia.
    rewrite Z.pow_add_r by lia. nia.
  - replace 53 with (d + (53 - d)) at 2 by lia.
    rewrite Z.pow_add_r by lia. nia.
Qed.

Lemma round_normal (s : bool) (p q : positive) (k e : Z) :
  Zpos p < 2 ^ 53 -> 0 <= k -> Zpos q = Zpos p * 2 ^ k ->
  -1000 <= e <= 900 ->
  let d := Zdigits2 (Zpos p) in
  binary_round F64.prec F64.emax s q (e - k)
  = S754_finite s (Z.to_pos (Zpos p * 2 ^ (53 - d))) (e + d - 53).
Proof.
  intros Hp Hk Hq He d.
  destruct (normal_mantissa p Hp) as [Hd HR]. fold d in Hd, HR.
  rewrite binary_round_spec. cbv zeta.
  assert (Hdq : Zdigits2 (Zpos q) = d + k).
  { rewrite Hq. apply digits_pow2_mul; lia. }
  rewrite Hdq.
  replace (Z.max (d + k + (e - k) - 53) (-1074)) with (e + d - 53) by lia.
  assert (HRq : (if e + d - 53 <=? e - k
                 then Zpos q * 2 ^ (e - k - (e + d - 53))
                 else rne (Zpos q) (2 ^ (e + d - 53 - (e - k))))
                = Zpos p * 2 ^ (53 - d)).
  { destruct (Z.leb_spec (e + d - 53) (e - k)) as [Hle | Hgt].
    - rewrite Hq, <- Z.mul_assoc, <- Z.pow_add_r by lia.
      f_equal. f_equal. lia.
    - replace (Zpos q)
        with (Zpos p * 2 ^ (53 - d) * 2 ^ (e + d - 53 - (e - k))).
      + apply rne_exact. apply Z.pow_pos_nonneg; lia.
      + rewrite Hq, <- Z.mul_assoc, <- Z.pow_add_r by lia.
        f_equal. f_equal. lia. }
  rewrite HRq. apply pack_rounded_normal; lia.
Qed.

(** The float of [n * 2 ^ e], however the number is presented. *)
Lemma dyadic_normal (n k e : Z) :
  n <> 0 -> Z.abs n < 2 ^ 53 -> 0 <= k -> -1000 <= e <= 900 ->
  let d := Zdigits2 (Z.abs n) in
  dyadic (n * 2 ^ k) (e - k)
  = S754_finite (n <? 0) (Z.to_pos (Z.abs n * 2 ^ (53 - d))) (e + d - 53).
Proof.
  intros Hn Hb Hk He d.
  assert (Hpw : 0 < 2 ^ k) by (apply Z.pow_pos_nonneg; lia).
  unfold dyadic, binary_normalize.
  destruct n as [| p | p]; [lia | |].
  - destruct (Zpos p * 2 ^ k) as [| q | q] eqn:Eq; [lia | | lia].
    apply (round_normal false p q k e); [exact Hb | exact Hk | | exact He].
    symmetry. exact Eq.
  - destruct (Zneg p * 2 ^ k) as [| q | q] eqn:Eq; [lia | lia |].
    apply (round_normal true p q k e); [exact Hb | exact Hk | | exact He].
    change (Zneg p) with (- Zpos p) in Eq.
    change (Zneg q) with (- Zpos q) in Eq. lia.
Qed.

Lemma dyadic_zero (e : Z) : dyadic 0 e = S754_zero false.
Proof. reflexivity. Qed.

Lemma dyadic_formula (n e : Z) :
  n <> 0 -> Z.abs n < 2 ^ 53 -> -1000 <= e <= 900 ->
  let d := Zdigits2 (Z.abs n) in
  dyadic n e
  = S754_finite (n <? 0) (Z.to_pos (Z.abs n * 2 ^ (53 - d))) (e + d - 53).
Proof.
  intros Hn Hb He d.
  pose proof (dyadic_normal n 0 e Hn Hb ltac:(lia) He) as H.
  cbv zeta in H. rewrite Z.pow_0_r, Z.mul_1_r, Z.sub_0_r in H. exact H.
Qed.

(** The same float in the form the proofs below use: a mantissa of 53
    digits that is [n] shifted left by [c]. *)
Lemma dyadic_shape (n e : Z) :
  n <> 0 -> Z.abs n < 2 ^ 53 -> -1000 <= e <= 900 ->
  exists m c,
    dyadic n e = S754_finite (n <? 0) m (e - c)
    /\ 0 <= c <= 52 /\ Zdigits2 (Zpos m) = 53
    /\ Zpos m = Z.abs n * 2 ^ c.
Proof.
  intros Hn Hb He. rewrite (dyadic_formula n e Hn Hb He). cbv zeta.
  destruct (Z.abs n) as [| p | p] eqn:Ea; [lia | | lia].
  destruct (normal_mantissa p ltac:(lia)) as [Hd HR].
  exists (Z.to_pos (Zpos p * 2 ^ (53 - Zdigits2 (Zpos p)))),
         (53 - Zdigits2 (Zpos p)).
  split; [f_equal; lia |]. split; [lia |].
  rewrite Z2Pos.id by lia.
  split; [apply Zdigits2_unique; lia | reflexivity].
Qed.

Lemma dyadic_scale (n k e : Z) :
  Z.abs n < 2 ^ 53 -> 0 <= k -> -1000 <= e <= 900 ->
  dyadic (n * 2 ^ k) (e - k) = dyadic n e.
Proof.
  intros Hb Hk He. destruct (Z.eq_dec n 0) as [-> | Hn].
  - rewrite Z.mul_0_l. reflexivity.
  - rewrite dyadic_normal, dyadic_formula by assumption. reflexivity.
Qed.

Lemma of_int_dyadic (n : Z) : F64.of_int n = dyadic n 0.
Proof. reflexivity. Qed.

(** *** Sums and differences *)

Lemma signed_mantissa (n : Z) (m : positive) (c : Z) :
  Zpos m = Z.abs n * 2 ^ c -> cond_Zopp (n <? 0) (Zpos m) = n * 2 ^ c.
Proof.
  intros Hm. rewrite Hm. destruct (Z.ltb_spec n 0); simpl cond_Zopp.
  - rewrite Z.abs_neq by lia. lia.
  - rewrite Z.abs_eq by lia. reflexivity.
Qed.

(** The two operands of a sum, aligned on the smaller exponent. *)
Lemma aligned_operand (n : Z) (m : positive) (c e ez : Z) :
  Zpos m = Z.abs n * 2 ^ c -> 0 <= c -> ez <= e - c ->
  cond_Zopp (n <? 0) (Zpos (fst (shl_align m (e - c) ez)))
  = n * 2 ^ (e - ez).
Proof.
  intros Hm Hc Hez.
  pose proof (shl_align_spec m (e - c) ez) as [Hz Hmz]. cbv zeta in Hz, Hmz.
  replace (snd (shl_align m (e - c) ez)) with ez in Hmz by lia.
  assert (E : Zpos (fst (shl_align m (e - c) ez))
              = Z.abs n * 2 ^ (e - ez)).
  { rewrite Hmz, Hm, <- Z.mul_assoc, <- Z.pow_add_r by lia.
    f_equal. f_equal. lia. }
  destruct (fst (shl_align m (e - c) ez)) as [q | q |] eqn:Eq;
    apply signed_mantissa; exact E.
Qed.

Lemma add_dyadic (a b e : Z) :
  Z.abs a < 2 ^ 53 -> Z.abs b < 2 ^ 53 -> Z.abs (a + b) < 2 ^ 53 ->
  -1000 <= e <= 900 ->
  F64.add (dyadic a e) (dyadic b e) = dyadic (a + b) e.
Proof.
  intros Ha Hb Hab He.
  destruct (Z.eq_dec a 0) as [-> | Na].
  { rewrite dyadic_zero, Z.add_0_l.
    destruct (Z.eq_dec b 0) as [-> | Nb]; [reflexivity |].
    destruct (dyadic_shape b e Nb Hb He) as (m & c & -> & _). reflexivity. }
  destruct (Z.eq_dec b 0) as [-> | Nb].
  { rewrite dyadic_zero, Z.add_0_r.
    destruct (dyadic_shape a e Na Ha He) as (m & c & -> & _). reflexivity. }
  destruct (dyadic_shape a e Na Ha He) as (ma & ca & -> & Hca & _ & Hma).
  destruct (dyadic_shape b e Nb Hb He) as (mb & cb & -> & Hcb & _ & Hmb).
  unfold F64.add, SFadd.
  set (ez := Z.min (e - ca) (e - cb)).
  rewrite (aligned_operand a ma ca e ez Hma) by (unfold ez; lia).
  rewrite (aligned_operand b mb cb e ez Hmb) by (unfold ez; lia).
  rewrite <- Z.mul_add_distr_r.
  replace ez with (e - (e - ez)) at 2 by lia.
  apply (dyadic_scale (a + b) (e - ez) e); [exact Hab | unfold ez; lia | exact He].
Qed.

Lemma sub_dyadic (a b e : Z) :
  Z.abs a < 2 ^ 53 -> Z.abs b < 2 ^ 53 -> Z.abs (a - b) < 2 ^ 53 ->
  -1000 <= e <= 900 ->
  F64.sub (dyadic a e) (dyadic b e) = dyadic (a - b) e.
Proof.
  intros Ha Hb Hab He.
  destruct (Z.eq_dec b 0) as [-> | Nb].
  { rewrite dyadic_zero, Z.sub_0_r.
    destruct (Z.eq_dec a 0) as [-> | Na]; [reflexivity |].
    destruct (dyadic_shape a e Na Ha He) as (m & c & -> & _). reflexivity. }
  destruct (Z.eq_dec a 0) as [-> | Na].
  { rewrite dyadic_zero, Z.sub_0_l.
    rewrite (dyadic_formula b e Nb Hb He).
    rewrite (dyadic_formula (- b) e) by lia.
    cbv zeta. rewrite Z.abs_opp. unfold F64.sub, SFsub.
    f_equal. destruct (Z.ltb_spec b 0), (Z.ltb_spec (- b) 0);
      try reflexivity; lia. }
  destruct (dyadic_shape a e Na Ha He) as (ma & ca & -> & Hca & _ & Hma).
  destruct (dyadic_shape b e Nb Hb He) as (mb & cb & -> & Hcb & _ & Hmb).
  unfold F64.sub, SFsub.
  set (ez := Z.min (e - ca) (e - cb)).
  rewrite (aligned_operand a ma ca e ez Hma) by (unfold ez; lia).
  rewrite (aligned_operand b mb cb e ez Hmb) by (unfold ez; lia).
  rewrite <- Z.mul_sub_distr_r.
  replace ez with (e - (e - ez)) at 2 by lia.
  apply (dyadic_scale (a - b) (e - ez) e); [exact Hab | unfold ez; lia | exact He].
Qed.

(** *** Squares *)

(** A product of more than 53 digits is rounded as [dyadic] rounds. *)
Lemma mul_as_dyadic (s : bool) (mx my : positive) (ex ey : Z) :
  53 <= Zdigits2 (Zpos (mx * my)) ->
  F64.mul (S754_finite s mx ex) (S754_finite s my ey)
  = dyadic (Zpos (mx * my)) (ex + ey).
Proof.
  intros Hd. unfold F64.mul, SFmul, dyadic, binary_normalize, binary_round.
  rewrite xorb_nilpotent.
  change (Zpos (digits2_pos (mx * my))) with (Zdigits2 (Zpos (mx * my))).
  rewrite fexp_eq. unfold shl_align.
  destruct (Z.max (Zdigits2 (Zpos (mx * my)) + (ex + ey) - 53) (-1074)
            - (ex + ey)) as [| q | q] eqn:Eq; try reflexivity.
  lia.
Qed.

Lemma sq_dyadic (a e : Z) :
  Z.abs (a * a) < 2 ^ 53 -> -500 <= e <= 450 ->
  float_sq (dyadic a e) = dyadic (a * a) (2 * e).
Proof.
  intros Haa He. unfold float_sq.
  destruct (Z.eq_dec a 0) as [-> | Na]; [reflexivity |].
  assert (Ha : Z.abs a < 2 ^ 53) by nia.
  destruct (dyadic_shape a e Na Ha ltac:(lia))
    as (m & c & -> & Hc & Hdm & Hm).
  pose proof (Zdigits2_bounds (Zpos m) ltac:(lia)) as [Hlo _].
  rewrite Hdm in Hlo.
  assert (H53 : 53 <= Zdigits2 (Zpos (m * m))).
  { destruct (Z_le_gt_dec 53 (Zdigits2 (Zpos (m * m)))) as [? | Hlt];
      [assumption |].
    pose proof (Zdigits2_bounds (Zpos (m * m)) ltac:(lia)) as [_ Hhi].
    pose proof (Zdigits2_nonneg (Zpos (m * m))) as H0.
    assert (2 ^ Zdigits2 (Zpos (m * m)) <= 2 ^ 53)
      by (apply Z.pow_le_mono_r; lia).
    rewrite Pos2Z.inj_mul in *.
    assert (Hm52 : 2 ^ 52 <= Zpos m) by (replace 52 with (53 - 1) by lia; exact Hlo).
    pose proof (Z.mul_le_mono_nonneg (2 ^ 52) (Zpos m) (2 ^ 52) (Zpos m)
                  ltac:(lia) Hm52 ltac:(lia) Hm52) as Hsq.
    change (2 ^ 52 * 2 ^ 52) with (2 ^ 104) in Hsq.
    assert (2 ^ 53 < 2 ^ 104) by (apply Z.pow_lt_mono_r; lia).
    lia. }
  rewrite mul_as_dyadic by exact H53.
  rewrite Pos2Z.inj_mul, Hm.
  replace (Z.abs a * 2 ^ c * (Z.abs a * 2 ^ c))
    with (a * a * 2 ^ (2 * c)).
  - replace (e - c + (e - c)) with (2 * e - 2 * c) by lia.
    apply dyadic_scale; lia.
  - replace (2 * c) with (c + c) by lia. rewrite Z.pow_add_r by lia.
    destruct (Z.abs_spec a) as [[_ ->] | [_ ->]]; ring.
Qed.

(** *** Halves and quarters *)

Lemma div_pow2_normal (s : bool) (m : positive) (e c : Z) :
  Zdigits2 (Zpos m) = 53 -> -1073 <= e - c - 52 <= 971 ->
  F64.div (S754_finite s m e) (S754_finite false 4503599627370496 c)
  = S754_finite s m (e - c - 52).
Proof.
  intros Hd He. rewrite div_finite. cbv zeta.
  rewrite Hd. change (Zdigits2 (Zpos 4503599627370496)) with 53.
  rewrite fexp_eq.
  replace (Z.min (Z.max (53 + e - (53 + c) - 53) (-1074)) (e - c))
    with (e - c - 53) by lia.
  replace (e - c - (e - c - 53)) with 53 by lia.
  assert (Ediv : Zpos m * 2 ^ 53 / 4503599627370496 = 2 * Zpos m).
  { change (2 ^ 53) with (2 * 4503599627370496).
    rewrite Z.mul_assoc, Z.div_mul by lia. lia. }
  rewrite Ediv.
  assert (Hdig : Zdigits2 (2 * Zpos m) = 54).
  { replace (2 * Zpos m) with (Zpos m * 2 ^ 1) by lia.
    rewrite digits_pow2_mul by lia. lia. }
  unfold dropped. rewrite Hdig, fexp_eq.
  replace (Z.max 0 (Z.max (54 + (e - c - 53) - 53) (-1074) - (e - c - 53)))
    with 1 by lia.
  replace (Zpos m * 2 ^ 53) with (Zpos m * (4503599627370496 * 2 ^ 1))
    by (change (2 ^ 53) with (4503599627370496 * 2 ^ 1); reflexivity).
  rewrite rne_exact by lia.
  pose proof (Zdigits2_bounds (Zpos m) ltac:(lia)) as Hb.
  rewrite Hd in Hb. replace (53 - 1) with 52 in Hb by lia.
  rewrite pack_rounded_normal by lia.
  rewrite xorb_false_r. f_equal. lia.
Qed.

Lemma div_dyadic (n e c : Z) :
  Z.abs n < 2 ^ 53 -> -900 <= e <= 800 -> -60 <= c <= 60 ->
  F64.div (dyadic n e) (S754_finite false 4503599627370496 (c - 52))
  = dyadic n (e - c).
Proof.
  intros Hn He Hc. destruct (Z.eq_dec n 0) as [-> | Nn]; [reflexivity |].
  rewrite (dyadic_formula n e) by (try assumption; lia).
  rewrite (dyadic_formula n (e - c)) by (try assumption; lia).
  cbv zeta.
  destruct (Z.abs n) as [| p | p] eqn:Ea; [lia | | lia].
  destruct (normal_mantissa p ltac:(lia)) as [Hd HR].
  rewrite div_pow2_normal.
  - f_equal. lia.
  - rewrite Z2Pos.id by lia. apply Zdigits2_unique; lia.
  - lia.
Qed.

Lemma half_dyadic (n : Z) :
  Z.abs n < 2 ^ 53 ->
  F64.div (F64.of_int n) (F64.of_int 2) = dyadic n (-1).
Proof.
  intros Hn. rewrite of_int_dyadic.
  change (F64.of_int 2) with (S754_finite false 4503599627370496 (1 - 52)).
  apply (div_dyadic n 0 1); lia.
Qed.

Lemma quarter_dyadic (n : Z) :
  Z.abs n < 2 ^ 53 ->
  F64.div (F64.of_int n) (F64.of_int 4) = dyadic n (-2).
Proof.
  intros Hn. rewrite of_int_dyadic.
  change (F64.of_int 4) with (S754_finite false 4503599627370496 (2 - 52)).
  apply (div_dyadic n 0 2); lia.
Qed.

(** *** Comparisons *)

Lemma digits_lt (a b : Z) :
  0 < a -> 0 < b -> Zdigits2 a < Zdigits2 b -> a < b.
Proof.
  intros Ha Hb Hd.
  pose proof (Zdigits2_bounds a Ha) as [_ Hhi].
  pose proof (Zdigits2_bounds b Hb) as [Hlo _].
  pose proof (Zdigits2_pos a Ha).
  assert (2 ^ Zdigits2 a <= 2 ^ (Zdigits2 b - 1))
    by (apply Z.pow_le_mono_r; lia).
  lia.
Qed.

(** Two positive floats in normal form compare as their values. *)
Lemma compare_normal (a b e : Z) :
  0 < a < 2 ^ 53 -> 0 < b < 2 ^ 53 ->
  let da := Zdigits2 a in
  let db := Zdigits2 b in
  match e + da - 53 ?= e + db - 53 with
  | Lt => Lt
  | Gt => Gt
  | Eq => Pos.compare_cont Eq (Z.to_pos (a * 2 ^ (53 - da)))
                              (Z.to_pos (b * 2 ^ (53 - db)))
  end = (a ?= b).
Proof.
  intros Ha Hb da db. symmetry.
  destruct (Z.compare_spec (e + da - 53) (e + db - 53)) as [E | L | G].
  - assert (Ed : da = db) by lia. rewrite <- Ed.
    pose proof (Zdigits2_pos a ltac:(lia)) as Hd. fold da in Hd.
    pose proof (Zdigits2_le a 53 ltac:(lia) ltac:(lia)) as H53.
    fold da in H53.
    assert (Hpw : 0 < 2 ^ (53 - da)) by (apply Z.pow_pos_nonneg; lia).
    change (Pos.compare_cont Eq ?x ?y) with (Pos.compare x y).
    rewrite <- Z2Pos.inj_compare by nia.
    destruct (Z.compare_spec a b) as [E1 | L1 | G1]; symmetry.
    + apply Z.compare_eq_iff. congruence.
    + apply Z.compare_lt_iff. nia.
    + apply Z.compare_gt_iff. nia.
  - apply Z.compare_lt_iff. apply digits_lt; lia.
  - apply Z.compare_gt_iff. apply digits_lt; lia.
Qed.

Lemma leb_dyadic (a b e : Z) :
  Z.abs a < 2 ^ 53 -> Z.abs b < 2 ^ 53 -> -1000 <= e <= 900 ->
  F64.leb (dyadic a e) (dyadic b e) = (a <=? b).
Proof.
  intros Ha Hb He. unfold F64.leb, SFleb.
  destruct (Z.eq_dec a 0) as [-> | Na];
    destruct (Z.eq_dec b 0) as [-> | Nb].
  - reflexivity.
  - rewrite dyadic_zero, (dyadic_formula b e Nb Hb He). cbv zeta.
    unfold SFcompare.
    destruct (Z.ltb_spec b 0), (Z.leb_spec 0 b); try reflexivity; lia.
  - rewrite dyadic_zero, (dyadic_formula a e Na Ha He). cbv zeta.
    unfold SFcompare.
    destruct (Z.ltb_spec a 0), (Z.leb_spec a 0); try reflexivity; lia.
  - rewrite (dyadic_formula a e Na Ha He), (dyadic_formula b e Nb Hb He).
    cbv zeta. unfold SFcompare.
    destruct (Z.ltb_spec a 0) as [La | La],
             (Z.ltb_spec b 0) as [Lb | Lb].
    + pose proof (compare_normal (Z.abs a) (Z.abs b) e
                    ltac:(lia) ltac:(lia)) as H.
      cbv zeta in H.
      assert (Hopp : forall (c X : comparison),
                 match c with
                 | Eq => CompOpp X
                 | Lt => Gt
                 | Gt => Lt
                 end
                 = CompOpp match c with
                           | Eq => X
                           | Lt => Lt
                           | Gt => Gt
                           end)
        by (intros [] X; reflexivity).
      rewrite Hopp, H.
      destruct (Z.compare_spec (Z.abs a) (Z.abs b));
        destruct (Z.leb_spec a b); simpl; try reflexivity; lia.
    + destruct (Z.leb_spec a b); [reflexivity | lia].
    + destruct (Z.leb_spec a b); [lia | reflexivity].
    + pose proof (compare_normal (Z.abs a) (Z.abs b) e
                    ltac:(lia) ltac:(lia)) as H.
      cbv zeta in H. rewrite H.
      destruct (Z.compare_spec (Z.abs a) (Z.abs b));
        destruct (Z.leb_spec a b); simpl; try reflexivity; lia.
Qed.

(** *** The circle test *)

Lemma sq_bound (u K : Z) : Z.abs u < K -> 0 <= u * u < K * K.
Proof.
  intros H. rewrite <- Z.abs_square.
  pose proof (Z.abs_nonneg u).
  split; [apply Z.mul_nonneg_nonneg; lia |].
  apply Z.mul_lt_mono_nonneg; lia.
Qed.

(** Below [2 ** 23] every intermediate result of the circle test is a
    float, so the test decides the inequality it spells, here scaled by
    16 to stay in the integers. *)
Lemma in_center_circle_exact (w h x y : Z) :
  Z.abs w < 2 ^ 23 -> Z.abs h < 2 ^ 23 ->
  Z.abs x < 2 ^ 23 -> Z.abs y < 2 ^ 23 ->
  in_center_circle w h x y
  = (4 * ((2 * x - w) ^ 2 + (2 * y - h) ^ 2) <=? Z.min w h ^ 2).
Proof.
  intros Hw Hh Hx Hy. unfold in_center_circle. cbv zeta.
  change (2 ^ 23) with 8388608 in *.
  assert (P53 : 2 ^ 53 = 9007199254740992) by reflexivity.
  set (m := Z.min w h).
  pose proof (sq_bound (x * 2 - w) 25165824 ltac:(lia)) as HA.
  pose proof (sq_bound (y * 2 - h) 25165824 ltac:(lia)) as HB.
  pose proof (sq_bound m 8388608 ltac:(unfold m; lia)) as Hm.
  rewrite !half_dyadic, quarter_dyadic by (fold m; lia).
  rewrite !of_int_dyadic.
  rewrite <- (dyadic_scale x 1 0), <- (dyadic_scale y 1 0) by lia.
  change (0 - 1) with (-1). change (2 ^ 1) with 2.
  rewrite !sub_dyadic by lia.
  rewrite !sq_dyadic by lia.
  change (2 * -1) with (-2). change (2 * -2) with (-4).
  rewrite add_dyadic by lia.
  rewrite <- (dyadic_scale ((x * 2 - w) * (x * 2 - w)
                            + (y * 2 - h) * (y * 2 - h)) 2 (-2)) by lia.
  change (-2 - 2) with (-4). change (2 ^ 2) with 4.
  rewrite leb_dyadic by lia.
  rewrite !Z.pow_2_r. f_equal. ring.
Qed.

End Exact.

(** * The survival predicate *)

Lemma half_offset (a b : Z) :
  (inject_Z a - inject_Z b / 2 == inject_Z (2 * a - b) / 2)%Q.
Proof.
  unfold Z.sub. rewrite inject_Z_plus, inject_Z_mult, inject_Z_opp.
  change (inject_Z 2) with 2%Q. field.
Qed.

(** The circle test on exact rationals is the scaled integer test. *)
Lemma circle_exact (a b c d m : Z) :
  ((inject_Z a - inject_Z c / 2) ^ 2 + (inject_Z b - inject_Z d / 2) ^ 2
   <= (inject_Z m / 4) ^ 2)%Q
  <-> 4 * ((2 * a - c) ^ 2 + (2 * b - d) ^ 2) <= m ^ 2.
Proof.
  rewrite !half_offset.
  assert (E1 : ((inject_Z (2 * a - c) / 2) ^ 2
                + (inject_Z (2 * b - d) / 2) ^ 2
                == inject_Z (4 * ((2 * a - c) ^ 2 + (2 * b - d) ^ 2)) / 16)%Q).
  { rewrite inject_Z_mult, inject_Z_plus.
    rewrite !Z.pow_2_r, !inject_Z_mult. change (inject_Z 4) with 4%Q.
    simpl Qpower. field. }
  assert (E2 : ((inject_Z m / 4) ^ 2 == inject_Z (m ^ 2) / 16)%Q).
  { rewrite Z.pow_2_r, inject_Z_mult. simpl Qpower. field. }
  rewrite E1, E2. unfold Qdiv.
  rewrite Zle_Qle. split; intros H.
  - apply Qmult_le_r in H; [exact H | reflexivity].
  - apply Qmult_le_r; [reflexivity | exact H].
Qed.

(** C8, as amended: the survival test of the source holds exactly when
    the predicate with floor divisions does (the circle with exact
    halves and quarters), for every selection value, world size and
    position; for the circle, which the source computes in floats, this
    is for sizes and coordinates below [2 ** 23] in magnitude, where
    the floats are exact. An unrecognised selection value lets everyone
    survive. In an 8 by 8 world (6,3) passes RIGHT_HALF and
    RIGHT_QUARTER but not CORNERS, while (7,7) passes RIGHT_HALF,
    RIGHT_QUARTER and CORNERS but not CENTER_CIRCLE. The bound on the
    circle is not idle: in a world of [2 ** 29] cells a side the
    creature at [(2 ** 28 + 2 ** 27, 2 ** 28 + 1)] is outside the exact
    circle and survives the float test. *)
Theorem survives_at_floor (sel w h x y : Z) :
  ((sel = CENTER_CIRCLE ->
    Z.abs w < 2 ^ 23 /\ Z.abs h < 2 ^ 23
    /\ Z.abs x < 2 ^ 23 /\ Z.abs y < 2 ^ 23) ->
   (survives_at sel w h x y = true <-> floor_survives sel w h x y))
  /\ (~ (0 <= sel <= 4) -> survives_at sel w h x y = true)
  /\ survives_at RIGHT_HALF 8 8 6 3 = true
  /\ survives_at RIGHT_QUARTER 8 8 6 3 = true
  /\ survives_at CORNERS 8 8 6 3 = false
  /\ survives_at RIGHT_HALF 8 8 7 7 = true
  /\ survives_at RIGHT_QUARTER 8 8 7 7 = true
  /\ survives_at CORNERS 8 8 7 7 = true
  /\ survives_at CENTER_CIRCLE 8 8 7 7 = false
  /\ survives_at CENTER_CIRCLE (2 ^ 29) (2 ^ 29) (2 ^ 28 + 2 ^ 27)
                  (2 ^ 28 + 1) = true
  /\ ~ floor_survives CENTER_CIRCLE (2 ^ 29) (2 ^ 29) (2 ^ 28 + 2 ^ 27)
                      (2 ^ 28 + 1).
Proof.
  split; [| split; [| repeat split; try (vm_compute; reflexivity)]].
  - intros Hb.
    unfold survives_at, floor_survives, RIGHT_HALF, LEFT_HALF, CENTER_CIRCLE,
      CORNERS, RIGHT_QUARTER in *.
    destruct (Z.eqb_spec sel 0); [rewrite decide_True by done; lia |].
    rewrite decide_False by done.
    destruct (Z.eqb_spec sel 1); [rewrite decide_True by done; lia |].
    rewrite decide_False by done.
    destruct (Z.eqb_spec sel 2) as [E2 | N2].
    { rewrite decide_True by done.
      destruct (Hb E2) as (Bw & Bh & Bx & By).
      rewrite (Exact.in_center_circle_exact w h x y Bw Bh Bx By).
      rewrite circle_exact. lia. }
    rewrite decide_False by done.
    destruct (Z.eqb_spec sel 3).
    { rewrite decide_True by done. cbv zeta.
      rewrite andb_true_iff, !orb_true_iff. lia. }
    rewrite decide_False by done.
    destruct (Z.eqb_spec sel 4); [rewrite decide_True by done; lia |].
    rewrite decide_False by done. tauto.
  - intros Hsel. unfold survives_at, RIGHT_HALF, LEFT_HALF, CENTER_CIRCLE,
      CORNERS, RIGHT_QUARTER.
    destruct (Z.eqb_spec sel 0); [lia |].
    destruct (Z.eqb_spec sel 1); [lia |].
    destruct (Z.eqb_spec sel 2); [lia |].
    destruct (Z.eqb_spec sel 3); [lia |].
    destruct (Z.eqb_spec sel 4); [lia | reflexivity].
  - unfold floor_survives, RIGHT_HALF, LEFT_HALF, CENTER_CIRCLE.
    rewrite decide_False by done. rewrite decide_False by done.
    rewrite decide_True by done. rewrite circle_exact.
    vm_compute. intros H. apply H. reflexivity.
Qed.

Lemma survives_at_floor_witness :
  (CENTER_CIRCLE = CENTER_CIRCLE ->
   Z.abs 9 < 2 ^ 23 /\ Z.abs 7 < 2 ^ 23
   /\ Z.abs 5 < 2 ^ 23 /\ Z.abs 3 < 2 ^ 23)
  /\ (survives_at CENTER_CIRCLE 9 7 5 3 = true
      <-> floor_survives CENTER_CIRCLE 9 7 5 3)
  /\ ~ (0 <= 9 <= 4) /\ survives_at 9 5 5 0 0 = true.
Proof.
  assert (H1 : CENTER_CIRCLE = CENTER_CIRCLE ->
               Z.abs 9 < 2 ^ 23 /\ Z.abs 7 < 2 ^ 23
               /\ Z.abs 5 < 2 ^ 23 /\ Z.abs 3 < 2 ^ 23)
    by (intros _; cbn; lia).
  assert (H2 : ~ (0 <= 9 <= 4)) by lia.
  split; [exact H1 |].
  split; [exact (proj1 (survives_at_floor CENTER_CIRCLE 9 7 5 3) H1) |].
  split; [exact H2 |].
  exact (proj1 (proj2 (survives_at_floor 9 5 5 0 0)) H2).
Defined.

(** C8 as stated fails: in a world 5 cells wide a creature at x = 2
    passes the RIGHT_HALF test of the source although 2 < 5/2. *)
Lemma survives_at_not_exact_half :
  ~ (forall sel w h x y,
        survives_at sel w h x y = true <-> spec_survives sel w h x y).
Proof.
  intros H. specialize (H RIGHT_HALF 5 5 2 0).
  destruct H as [H _]. specialize (H eq_refl).
  unfold spec_survives in H. rewrite decide_True in H by done.
  cbv in H. apply H. reflexivity.
Qed.

(** * Encoding, then decoding *)

Module RoundTrip.

Import Rounding Ops Trunc.

Lemma within_four_mantissa (s : bool) (m : positive) (e : Z) :
  F64.leb F64.neg_four (S754_finite s m e) = true ->
  F64.leb (S754_finite s m e) F64.four = true ->
  e <= -50 /\ (e = -50 -> Zpos m <= 2 ^ 52).
Proof.
  intros Hlo Hhi.
  pose proof (within_four_shape _ Hlo Hhi) as He. simpl in He.
  split; [exact He |]. intros ->.
  revert Hlo Hhi.
  unfold F64.leb, SFleb, SFcompare, F64.neg_four, F64.four.
  change (-50 ?= -50) with Eq. cbv iota.
  change (@PosDef.Pos.compare_cont) with (@Pos.compare_cont).
  rewrite !Pos.compare_cont_spec.
  cbn [Pos.switch_Eq].
  change (2 ^ 52) with (Zpos 4503599627370496).
  destruct s.
  - intros H _.
    destruct (4503599627370496 ?= m)%positive eqn:Ec;
      cbn [CompOpp] in H; try discriminate H.
    + apply Pos.compare_eq in Ec. subst m. apply Z.le_refl.
    + apply Pos.compare_gt_iff in Ec. apply Z.lt_le_incl.
      apply Pos2Z.pos_lt_pos. exact Ec.
  - intros _ H.
    destruct (m ?= 4503599627370496)%positive eqn:Ec; try discriminate H.
    + apply Pos.compare_eq in Ec. subst m. apply Z.le_refl.
    + apply Pos.compare_lt_iff in Ec. apply Z.lt_le_incl.
      apply Pos2Z.pos_lt_pos. exact Ec.
Qed.

(** The weight code of a normal weight of magnitude at most 4. *)
Lemma weight_code_normal (s : bool) (m : positive) (e : Z) :
  Zdigits2 (Zpos m) = 53 -> -1071 <= e <= -50 ->
  (e = -50 -> Zpos m <= 2 ^ 52) ->
  let T := Zpos m * (32767 * 2 ^ 38) in
  let n := Zdigits2 T - 53 in
  let r := 40 - e - n in
  let q := rne T (2 ^ n) / 2 ^ r in
  weight_code (S754_finite s m e) = Some (cond_Zopp s q)
  /\ 0 <= q <= 32767 /\ 0 <= n /\ 0 <= r
  /\ 2 ^ (n + 52) <= T < 2 ^ (n + 53).
Proof.
  intros Hd He Hm4 T n r q.
  pose proof (Zdigits2_bounds (Zpos m) ltac:(lia)) as [Hml Hmh].
  rewrite Hd in Hml, Hmh. change (53 - 1) with 52 in Hml.
  assert (HT : 2 ^ 104 <= T < 2 ^ 106).
  { subst T. change (2 ^ 104) with (2 ^ 52 * (16384 * 2 ^ 38)).
    change (2 ^ 106) with (2 ^ 53 * (32768 * 2 ^ 38)).
    assert (0 < 2 ^ 38) by lia. nia. }
  assert (Hdg : 105 <= Zdigits2 T <= 106).
  { pose proof (Zdigits2_bounds T ltac:(lia)) as [Hl Hh].
    split.
    - destruct (Z_le_gt_dec 105 (Zdigits2 T)); [done |].
      assert (2 ^ Zdigits2 T <= 2 ^ 104)
        by (apply Z.pow_le_mono_r; lia). lia.
    - destruct (Z_le_gt_dec (Zdigits2 T) 106); [done |].
      assert (2 ^ 106 <= 2 ^ (Zdigits2 T - 1))
        by (apply Z.pow_le_mono_r; lia). lia. }
  assert (Hn : 52 <= n <= 53) by (subst n; lia).
  assert (Hr : 37 <= r) by (subst r; lia).
  assert (HTn : 2 ^ (n + 52) <= T < 2 ^ (n + 53)).
  { pose proof (Zdigits2_bounds T ltac:(lia)) as [Hl Hh].
    replace (n + 52) with (Zdigits2 T - 1) by (subst n; lia).
    replace (n + 53) with (Zdigits2 T) by (subst n; lia). lia. }
  assert (Hdrop : dropped T (e - 2 + -38) = n).
  { unfold dropped. rewrite fexp_eq. subst n. lia. }
  set (m1 := rne T (2 ^ n)) in *.
  assert (Hm1 : 0 <= m1 <= 2 ^ 53).
  { pose proof (rne_dropped_bounds T 1 (e - 2 + -38) ltac:(lia) ltac:(lia))
      as H. rewrite Z.div_1_r, Z.mul_1_l, Hdrop in H. exact H. }
  assert (Hsig : 2 ^ (40 - e) = 2 ^ r * 2 ^ n).
  { rewrite <- Z.pow_add_r by lia. f_equal. subst r. lia. }
  assert (HTs : T <= 32767 * 2 ^ r * 2 ^ n).
  { rewrite <- Z.mul_assoc, <- Hsig. subst T.
    replace (40 - e) with (38 + (2 - e)) by lia.
    rewrite Z.pow_add_r by lia.
    assert (Zpos m <= 2 ^ (2 - e)).
    { destruct (Z.eq_dec e (-50)) as [-> | Hne].
      - specialize (Hm4 eq_refl). change (2 - -50) with 52. lia.
      - assert (2 ^ 53 <= 2 ^ (2 - e)) by (apply Z.pow_le_mono_r; lia).
        lia. }
    assert (0 < 2 ^ 38) by lia. nia. }
  assert (Hq : 0 <= q <= 32767).
  { subst q. split; [apply Z.div_pos; lia |].
    pose proof (rne_monotone T (32767 * 2 ^ r * 2 ^ n) (2 ^ n)
                  ltac:(lia) HTs) as Hmono.
    rewrite rne_exact in Hmono by lia. fold m1 in Hmono.
    apply Z.div_le_upper_bound; [lia |]. lia. }
  split; [| repeat split; try lia].
  unfold weight_code. rewrite div_four_normal by (done || lia).
  unfold F64.c32767. rewrite mul_finite. cbv zeta.
  change (Zpos m * Zpos 9006924376834048) with T.
  rewrite Hdrop. fold m1. rewrite xorb_false_r.
  rewrite to_int_pack_rounded by (done || lia).
  replace (- (e - 2 + -38 + n)) with r by (subst r; lia).
  fold q. simpl.
  f_equal. destruct s; simpl; lia.
Qed.

Lemma small_to_int_zero (b : Z) (x : float) :
  b <= -53 -> small b x -> F64.to_int x = Some 0.
Proof.
  intros Hb. destruct x as [s | | | s m e]; simpl; try done.
  intros [Hm He]. destruct e as [| p | p]; try lia.
  rewrite Z.shiftr_div_pow2 by lia.
  rewrite Z.div_small; [destruct s; reflexivity |].
  split; [lia |].
  assert (2 ^ 53 <= 2 ^ Zpos p) by (apply Z.pow_le_mono_r; lia). lia.
Qed.

(** The weight code of a weight too small to be divided exactly. *)
Lemma weight_code_tiny (w : float) :
  small (-1072) w -> weight_code w = Some 0.
Proof.
  intros Hw.
  assert (Hx : small (Z.max (-1072 - -50 + 2) (-1073))
                     (F64.div w F64.four)).
  { unfold F64.four. apply div_small; [exact Hw | lia | lia]. }
  assert (Hy : small (Z.max (Z.max (-1072 - -50 + 2) (-1073) + -38 + 54)
                            (-1073))
                     (F64.mul (F64.div w F64.four) F64.c32767)).
  { apply mul_small; [exact Hx | unfold F64.c32767; simpl; lia | lia]. }
  unfold weight_code.
  erewrite small_to_int_zero; [reflexivity | | exact Hy]. lia.
Qed.

End RoundTrip.

(** * Values of floats with negative exponents *)

Module Values.

Lemma pow2_neg (e : Z) :
  e <= 0 -> (2 ^ e == / inject_Z (2 ^ (- e)))%Q.
Proof.
  intros He. rewrite Zpower_Qpower by lia.
  replace e with (- - e) at 1 by lia. apply Qpower_opp.
Qed.

Lemma inject_pow2_pos (k : Z) : 0 <= k -> (0 < inject_Z (2 ^ k))%Q.
Proof.
  intros Hk. change 0%Q with (inject_Z 0). rewrite <- Zlt_Qlt. lia.
Qed.

(** Two values [a * 2 ^ e1] and [b * 2 ^ e2] are within [4/32767] of each
    other as soon as the integers obtained by clearing the two
    denominators are. *)
Lemma scaled_close (a b e1 e2 : Z) :
  e1 <= 0 -> e2 <= 0 ->
  32767 * Z.abs (a * 2 ^ (- e2) - b * 2 ^ (- e1))
  <= 4 * (2 ^ (- e1) * 2 ^ (- e2)) ->
  (Qabs (inject_Z a * 2 ^ e1 - inject_Z b * 2 ^ e2) <= 4 # 32767)%Q.
Proof.
  intros He1 He2 H.
  rewrite (pow2_neg e1 He1), (pow2_neg e2 He2).
  set (P1 := 2 ^ (- e1)) in *. set (P2 := 2 ^ (- e2)) in *.
  assert (Hp1 : (0 < inject_Z P1)%Q) by (apply inject_pow2_pos; lia).
  assert (Hp2 : (0 < inject_Z P2)%Q) by (apply inject_pow2_pos; lia).
  set (p1 := inject_Z P1) in *. set (p2 := inject_Z P2) in *.
  set (A := inject_Z a). set (B := inject_Z b).
  assert (Hu : (p1 * / p1 == 1)%Q) by (apply Qmult_inv_r; lra).
  assert (Hv : (p2 * / p2 == 1)%Q) by (apply Qmult_inv_r; lra).
  assert (Hup : (0 < / p1)%Q) by (apply Qinv_lt_0_compat; exact Hp1).
  assert (Hvp : (0 < / p2)%Q) by (apply Qinv_lt_0_compat; exact Hp2).
  set (u := (/ p1)%Q) in *. set (v := (/ p2)%Q) in *.
  assert (E : (A * u - B * v == (A * p2 - B * p1) * (u * v))%Q).
  { transitivity (A * u * (p2 * v) - B * v * (p1 * u))%Q.
    - rewrite Hu, Hv. ring.
    - ring. }
  assert (HX : (- (4 * (p1 * p2)) <= 32767 * (A * p2 - B * p1)
                <= 4 * (p1 * p2))%Q).
  { assert (Hz : - (4 * (P1 * P2)) <= 32767 * (a * P2 - b * P1)
                 <= 4 * (P1 * P2)) by lia.
    destruct Hz as [Hz1 Hz2]. rewrite Zle_Qle in Hz1, Hz2.
    unfold Z.sub in Hz1, Hz2.
    repeat (rewrite inject_Z_mult in Hz1 || rewrite inject_Z_plus in Hz1
            || rewrite inject_Z_opp in Hz1).
    repeat (rewrite inject_Z_mult in Hz2 || rewrite inject_Z_plus in Hz2
            || rewrite inject_Z_opp in Hz2).
    fold p1 p2 A B in Hz1, Hz2.
    change (inject_Z 4) with 4%Q in *.
    change (inject_Z 32767) with 32767%Q in *.
    split; lra. }
  assert (Huv : (0 < u * v)%Q) by (apply Qmult_lt_0_compat; assumption).
  assert (E1 : (p1 * p2 * (u * v) == 1)%Q).
  { transitivity (p1 * u * (p2 * v))%Q; [ring |]. rewrite Hu, Hv. ring. }
  rewrite E. apply Qabs_Qle_condition.
  set (X := (A * p2 - B * p1)%Q) in *. set (w := (u * v)%Q) in *.
  set (D := (p1 * p2)%Q) in *.
  destruct HX as [HX1 HX2].
  assert (H1 : (32767 * X * w <= 4 * D * w)%Q)
    by (apply Qmult_le_compat_r; lra).
  assert (H2 : (- (4 * D) * w <= 32767 * X * w)%Q)
    by (apply Qmult_le_compat_r; lra).
  assert (E2 : (4 * D * w == 4)%Q) by (rewrite <- Qmult_assoc, E1; ring).
  assert (E3 : (- (4 * D) * w == - 4)%Q).
  { transitivity (- (4 * D * w))%Q; [ring |]. rewrite E2. ring. }
  rewrite E2 in H1. rewrite E3 in H2.
  split; lra.
Qed.

End Values.

(** * The weight survives a round trip within 4/32767 *)

Module WeightError.

Import Rounding Ops Trunc RoundTrip Values Codes.

Lemma combine_bounds (m md q K P1 P2 sigma T : Z) :
  0 < P1 -> 0 < P2 ->
  sigma = 2 ^ 38 * (4 * P2) -> T = m * (32767 * 2 ^ 38) ->
  (q * 2 ^ 53 - K) * sigma <= T * 2 ^ 53 ->
  T * 2 ^ 53 <= ((q + 1) * 2 ^ 53 - K) * sigma ->
  4 * (q * 2 ^ 53 - K) * P1 <= 32767 * md * 2 ^ 53 ->
  32767 * md * 2 ^ 53 <= 4 * ((q + 1) * 2 ^ 53 - K) * P1 ->
  32767 * Z.abs (md * P2 - m * P1) <= 4 * (P1 * P2).
Proof.
  intros HP1 HP2 -> -> Hlo Hhi Hdlo Hdhi.
  set (C := 2 ^ 53) in *. assert (HC : 0 < C) by (subst C; lia).
  set (S38 := 2 ^ 38) in *. assert (HS : 0 < S38) by (subst S38; lia).
  set (X := q * C - K) in *.
  replace ((q + 1) * C - K) with (X + C) in * by (subst X; lia).
  assert (H1 : X * (4 * P2) <= 32767 * m * C).
  { apply (Z.mul_le_mono_pos_l _ _ S38 HS). lia. }
  assert (H2 : 32767 * m * C <= (X + C) * (4 * P2)).
  { apply (Z.mul_le_mono_pos_l _ _ S38 HS). lia. }
  assert (H3 : 4 * X * P1 * P2 <= 32767 * md * C * P2)
    by (apply Z.mul_le_mono_nonneg_r; lia).
  assert (H4 : 32767 * md * C * P2 <= 4 * (X + C) * P1 * P2)
    by (apply Z.mul_le_mono_nonneg_r; lia).
  assert (H5 : X * (4 * P2) * P1 <= 32767 * m * C * P1)
    by (apply Z.mul_le_mono_nonneg_r; lia).
  assert (H6 : 32767 * m * C * P1 <= (X + C) * (4 * P2) * P1)
    by (apply Z.mul_le_mono_nonneg_r; lia).
  assert (H7 : C * (32767 * (md * P2 - m * P1)) <= C * (4 * (P1 * P2)))
    by lia.
  assert (H8 : C * (32767 * (m * P1 - md * P2)) <= C * (4 * (P1 * P2)))
    by lia.
  apply Z.mul_le_mono_pos_l in H7; [| exact HC].
  apply Z.mul_le_mono_pos_l in H8; [| exact HC].
  lia.
Qed.

Lemma small_magnitude_close (s : bool) (m : positive) (e : Z) :
  e <= 0 -> 32767 * Zpos m <= 4 * 2 ^ (- e) ->
  (Qabs (F2Q (S754_zero false) - F2Q (S754_finite s m e)) <= 4 # 32767)%Q.
Proof.
  intros He H. unfold F2Q.
  setoid_replace 0%Q with (inject_Z 0 * 2 ^ 0)%Q using relation Qeq
    by reflexivity.
  apply scaled_close; [lia | lia |].
  change (- 0) with 0. rewrite Z.pow_0_r.
  destruct s; simpl cond_Zopp; lia.
Qed.

(** The code of a valid weight decodes to a weight within [4/32767]. *)
Lemma weight_roundtrip (w : float) :
  valid_binary F64.prec F64.emax w = true ->
  F64.leb F64.neg_four w = true -> F64.leb w F64.four = true ->
  exists c,
    weight_code w = Some c /\ -32767 <= c <= 32767
    /\ (Qabs (F2Q (decode_weight (c mod 65536)) - F2Q w) <= 4 # 32767)%Q.
Proof.
  intros Hv Hlo Hhi.
  pose proof (within_four_shape w Hlo Hhi) as Hshape.
  destruct w as [s | s | | s m e]; try done.
  - exists 0. split; [destruct s; reflexivity |]. split; [lia |].
    change (0 mod 65536) with 0. rewrite decode_zero.
    unfold F2Q, Qle. simpl. lia.
  - destruct (within_four_mantissa s m e Hlo Hhi) as [He50 Hm4].
    destruct (valid_shape s m e Hv) as (Hm & He & Hdig).
    destruct (Z_le_gt_dec e (-1072)) as [Htiny | Hnorm].
    + exists 0. split; [apply weight_code_tiny; simpl; lia |].
      split; [lia |].
      change (0 mod 65536) with 0. rewrite decode_zero.
      apply small_magnitude_close; [lia |].
      assert (2 ^ 68 <= 2 ^ (- e)) by (apply Z.pow_le_mono_r; lia).
      change (2 ^ 68) with (32768 * 2 ^ 53) in *. lia.
    + assert (Hd : Zdigits2 (Zpos m) = 53) by lia.
      destruct (weight_code_normal s m e Hd ltac:(lia) Hm4)
        as (Hc & Hq & Hn & Hr & HT).
      set (T := Zpos m * (32767 * 2 ^ 38)) in *.
      set (n := Zdigits2 T - 53) in *.
      set (r := 40 - e - n) in *.
      set (q := rne T (2 ^ n) / 2 ^ r) in *.
      assert (Hsig : 2 ^ (n + r) = 2 ^ 38 * (4 * 2 ^ (- e))).
      { change 4 with (2 ^ 2). rewrite <- !Z.pow_add_r by lia.
        f_equal. subst r. lia. }
      exists (cond_Zopp s q). split; [exact Hc |].
      split; [destruct s; simpl; lia |].
      destruct (Z.eq_dec q 0) as [Hq0 | Hq0].
      * rewrite Hq0. replace (cond_Zopp s 0) with 0 by (destruct s; done).
        change (0 mod 65536) with 0. rewrite decode_zero.
        apply small_magnitude_close; [lia |].
        assert (Hm1 : rne T (2 ^ n) < 2 ^ r).
        { pose proof (rne_bounds T (2 ^ n) ltac:(lia)) as Hb.
          assert (0 <= T / 2 ^ n) by (apply Z.div_pos; lia).
          apply Z.div_small_iff in Hq0; lia. }
        pose proof (rne_error T (2 ^ n) ltac:(lia)) as Herr.
        assert (HTs : T < 2 ^ (n + r)).
        { rewrite Z.pow_add_r by lia.
          assert (0 < 2 ^ n) by lia. nia. }
        rewrite Hsig in HTs. subst T.
        assert (0 < 2 ^ 38) by lia. nia.
      * pose proof (trunc_bounds T n r q (Z.log2 q) Hn Hr HT eq_refl
                      ltac:(lia) eq_refl) as [Hlo' Hhi'].
        destruct (code_facts q s ltac:(lia))
          as (md & ed & Hdec & _ & Hed & _ & _ & Hdlo & Hdhi).
        rewrite Hdec.
        assert (Hp4 : 2 ^ (- ed) = 4 * 2 ^ (- (ed + 2))).
        { change 4 with (2 ^ 2). rewrite <- Z.pow_add_r by lia.
          f_equal. lia. }
        rewrite Hp4 in Hdlo, Hdhi.
        unfold F2Q. apply scaled_close; [lia | lia |].
        pose proof (combine_bounds (Zpos m) (Zpos md) q (2 ^ Z.log2 q)
                      (2 ^ (- (ed + 2))) (2 ^ (- e)) (2 ^ (n + r)) T
                      ltac:(lia) ltac:(lia) Hsig eq_refl Hlo' Hhi'
                      ltac:(lia) ltac:(lia)) as Hfin.
        destruct s; simpl cond_Zopp; lia.
Qed.

End WeightError.

(** * Genes and their packed words *)

Lemma land_one_testbit (a : Z) :
  Z.land (Z.shiftr a 31) 1 = (if Z.testbit a 31 then 1 else 0)
  /\ Z.land (Z.shiftr a 23) 1 = (if Z.testbit a 23 then 1 else 0).
Proof.
  change 1 with (Z.ones 1) at 1 3. rewrite !Z.land_ones by lia.
  rewrite !Z.testbit_odd. change (2 ^ 1) with 2. rewrite !Zmod_odd.
  split; reflexivity.
Qed.

(** X3: Packing a valid gene and unpacking the word gives back the kinds and
    the identifiers, and a weight within 4/32767 of the original. *)
Theorem from_int_to_int_close (g : Gene) :
  valid_gene g ->
  exists p,
    to_int g = Some p
    /\ source_type (from_int p) = source_type g
    /\ source_id (from_int p) = source_id g
    /\ sink_type (from_int p) = sink_type g
    /\ sink_id (from_int p) = sink_id g
    /\ (Qabs (F2Q (weight (from_int p)) - F2Q (weight g)) <= 4 # 32767)%Q.
Proof.
  intros Hg. destruct (to_int_layout g Hg) as (t & p & Ht & Hp & _ & Hf).
  destruct Hg as (Hst & Hkt & Hsid & Hkid & Hv & Hlo & Hhi).
  destruct (WeightError.weight_roundtrip (weight g) Hv Hlo Hhi)
    as (c & Hc & Hcr & Hclose).
  assert (Ec : Z.max (-32768) (Z.min 32767 t) = c).
  { unfold weight_code in Hc. rewrite Ht in Hc. simpl in Hc. congruence. }
  rewrite Ec in Hf.
  destruct Hf as (_ & H31 & H24 & H23 & H16 & H0).
  exists p. split; [exact Hp |]. unfold from_int.
  cbn [source_type source_id sink_type sink_id weight].
  destruct (land_one_testbit p) as [E31 E23].
  rewrite E31, E23, H31, H23, H24, H16, H0.
  repeat split.
  - destruct Hst as [-> | ->]; reflexivity.
  - destruct Hkt as [-> | ->]; reflexivity.
  - exact Hclose.
Qed.

Lemma from_int_to_int_close_witness :
  valid_gene quarter_gene
  /\ exists p,
       to_int quarter_gene = Some p
       /\ source_type (from_int p) = source_type quarter_gene
       /\ source_id (from_int p) = source_id quarter_gene
       /\ sink_type (from_int p) = sink_type quarter_gene
       /\ sink_id (from_int p) = sink_id quarter_gene
       /\ (Qabs (F2Q (weight (from_int p)) - F2Q (weight quarter_gene))
           <= 4 # 32767)%Q.
Proof.
  split; [exact (proj1 to_int_layout_witness) |].
  apply (from_int_to_int_close quarter_gene (proj1 to_int_layout_witness)).
Defined.

Lemma lxor_bit_range (p bit : Z) :
  0 <= p < 2 ^ 32 -> 0 <= bit <= 31 -> 0 <= Z.lxor p (2 ^ bit) < 2 ^ 32.
Proof.
  intros Hp Hb.
  assert (H0 : 0 <= Z.lxor p (2 ^ bit)) by (apply Z.lxor_nonneg; lia).
  split; [exact H0 |].
  destruct (Z.eq_dec (Z.lxor p (2 ^ bit)) 0) as [-> | Hne]; [lia |].
  apply Z.log2_lt_pow2; [lia |].
  eapply Z.le_lt_trans; [apply Z.log2_lxor; lia |].
  apply Z.max_lub_lt.
  - destruct (Z.eq_dec p 0) as [-> | Hp0]; [simpl; lia |].
    apply Z.log2_lt_pow2; lia.
  - rewrite Z.log2_pow2 by lia. lia.
Qed.

(** X4: [Gene.mutate] on a gene whose packed word [p] fits 32 bits: the call
    returns, consumes one draw, replaces the fields of that gene alone
    and leaves a gene whose packed word is [p] with exactly the drawn
    bit flipped. *)
Theorem Gene_mutate_flips_one_bit (w : World) (l : loc) (g : Gene) (p : Z) :
  gene_store w !! l = Some g ->
  to_int g = Some p -> 0 <= p < 2 ^ 32 ->
  let bit := tape w (cursor w) mod 32 in
  exists g',
    Gene_mutate l w
    = Some (tt, mkWorld (<[l := g']> (gene_store w)) (genome_store w)
                        (tape w) (S (cursor w)))
    /\ to_int g' = Some (Z.lxor p (2 ^ bit))
    /\ forall i, 0 <= i ->
         Z.testbit (Z.lxor p (2 ^ bit)) i
         = xorb (Z.testbit p i) (bit =? i).
Proof.
  intros Hl Hg Hp bit.
  assert (Hbit : 0 <= bit <= 31).
  { subst bit. pose proof (Z.mod_pos_bound (tape w (cursor w)) 32). lia. }
  exists (from_int (Z.lxor p (2 ^ bit))). split; [| split].
  - unfold Gene_mutate, bind, read_gene, lift_option, randint, raw, ret,
      write_gene. rewrite Hl, Hg. simpl.
    rewrite Z.shiftl_1_l. reflexivity.
  - apply to_int_from_int. apply lxor_bit_range; assumption.
  - intros i Hi. rewrite Z.lxor_spec, Z.pow2_bits_eqb by lia. reflexivity.
Qed.

Lemma Gene_mutate_flips_one_bit_witness :
  gene_store one_gene_world !! 1%positive = Some neuron3_gene
  /\ to_int neuron3_gene = Some 58728447
  /\ 0 <= 58728447 < 2 ^ 32
  /\ exists g',
       Gene_mutate 1%positive one_gene_world
       = Some (tt, mkWorld (<[1%positive := g']> (gene_store one_gene_world))
                           (genome_store one_gene_world)
                           (tape one_gene_world)
                           (S (cursor one_gene_world)))
       /\ to_int g'
          = Some (Z.lxor 58728447
                    (2 ^ (tape one_gene_world (cursor one_gene_world)
                          mod 32)))
       /\ forall i, 0 <= i ->
            Z.testbit (Z.lxor 58728447
                         (2 ^ (tape one_gene_world (cursor one_gene_world)
                               mod 32))) i
            = xorb (Z.testbit 58728447 i)
                   (tape one_gene_world (cursor one_gene_world) mod 32 =? i).
Proof.
  assert (H1 : gene_store one_gene_world !! 1%positive = Some neuron3_gene)
    by reflexivity.
  assert (H2 : to_int neuron3_gene = Some 58728447)
    by (vm_compute; reflexivity).
  assert (H3 : 0 <= 58728447 < 2 ^ 32) by lia.
  split; [exact H1 |]. split; [exact H2 |]. split; [exact H3 |].
  apply (Gene_mutate_flips_one_bit one_gene_world 1%positive neuron3_gene
           58728447 H1 H2 H3).
Defined.

(** * The grid *)

Module GridFacts.

Lemma np_index_is_Some (n i : Z) : is_Some (np_index n i) <-> - n <= i < n.
Proof.
  unfold np_index.
  destruct (Z.leb_spec 0 i), (Z.ltb_spec i n), (Z.leb_spec (- n) i),
    (Z.ltb_spec i 0); simpl; split; intros Hs;
    try (destruct Hs as [? Hs]; discriminate Hs); try lia; eauto.
Qed.

Lemma np_index_mod (n i k : Z) : np_index n i = Some k -> k = i mod n /\ 0 <= k < n.
Proof.
  unfold np_index.
  destruct (Z.leb_spec 0 i), (Z.ltb_spec i n), (Z.leb_spec (- n) i),
    (Z.ltb_spec i 0); simpl; intros Hs; inversion Hs; subst; clear Hs.
  all: split; [| lia].
  all: try (symmetry; apply Z.mod_small; lia).
  all: apply Z.mod_unique with (q := -1); lia.
Qed.

Lemma np_index_in (n i : Z) : 0 <= i < n -> np_index n i = Some i.
Proof.
  intros H. unfold np_index.
  destruct (Z.leb_spec 0 i), (Z.ltb_spec i n); simpl; (reflexivity || lia).
Qed.

Lemma in_bounds_spec (g : Grid) (x y : Z) :
  in_bounds g x y = true <-> 0 <= x < width g /\ 0 <= y < height g.
Proof.
  unfold in_bounds. rewrite !andb_true_iff, !Z.leb_le, !Z.ltb_lt. lia.
Qed.

Lemma cell_in_bounds (g : Grid) (x y : Z) :
  in_bounds g x y = true -> cell g x y = Some (default 0 (data g !! (x, y))).
Proof.
  intros H. apply in_bounds_spec in H. unfold cell.
  rewrite !np_index_in by lia. reflexivity.
Qed.

Lemma set_cell_fields (g g' : Grid) (x y v : Z) :
  set_cell g x y v = Some g' ->
  width g' = width g /\ height g' = height g /\ barriers g' = barriers g.
Proof.
  unfold set_cell. destruct (np_index (width g) x); [| discriminate].
  destruct (np_index (height g) y); [| discriminate].
  simpl. intros H. inversion H. auto.
Qed.

Lemma cell_set_cell (g g' : Grid) (x y v i j : Z) :
  set_cell g x y v = Some g' ->
  np_index (width g) x = Some i -> np_index (height g) y = Some j ->
  forall x' y' i' j',
    np_index (width g) x' = Some i' -> np_index (height g) y' = Some j' ->
    cell g' x' y' = if decide ((i', j') = (i, j)) then Some v
                    else cell g x' y'.
Proof.
  intros Hs Hi Hj x' y' i' j' Hi' Hj'.
  unfold set_cell in Hs. rewrite Hi, Hj in Hs. simpl in Hs.
  inversion Hs; subst g'; clear Hs.
  unfold cell. cbn [width height data]. rewrite Hi', Hj'. simpl.
  destruct (decide ((i', j') = (i, j))) as [E | N].
  - rewrite E. destruct (Z.eqb_spec v 0) as [-> | Hv].
    + rewrite lookup_delete_eq. reflexivity.
    + rewrite lookup_insert_eq. reflexivity.
  - destruct (Z.eqb_spec v 0) as [-> | Hv].
    + rewrite lookup_delete_ne by congruence. reflexivity.
    + rewrite lookup_insert_ne by congruence. reflexivity.
Qed.

Lemma set_cell_is_Some (g : Grid) (x y v : Z) :
  is_Some (set_cell g x y v)
  <-> - width g <= x < width g /\ - height g <= y < height g.
Proof.
  rewrite <- !np_index_is_Some. unfold set_cell.
  destruct (np_index (width g) x), (np_index (height g) y); simpl;
    split; intros H; try (destruct H as [[? H1] [? H2]]; discriminate);
    try (destruct H as [? H]; discriminate H); eauto.
Qed.

Lemma cell_is_Some (g : Grid) (x y : Z) :
  is_Some (cell g x y)
  <-> - width g <= x < width g /\ - height g <= y < height g.
Proof.
  rewrite <- !np_index_is_Some. unfold cell.
  destruct (np_index (width g) x), (np_index (height g) y); simpl;
    split; intros H; try (destruct H as [[? H1] [? H2]]; discriminate);
    try (destruct H as [? H]; discriminate H); eauto.
Qed.

(** A fold whose step never raises and adds at most [wt a]. *)
Lemma fold_opt_weight {A} (f : Z -> A -> option Z) (wt : A -> Z)
    (l : list A) :
  (forall c a, exists c', f c a = Some c' /\ c <= c' <= c + wt a) ->
  forall c, exists c', fold_opt f l c = Some c'
                       /\ c <= c' <= c + foldr (fun a s => wt a + s) 0 l.
Proof.
  intros Hf. induction l as [| a l IH]; intros c; simpl.
  - exists c. split; [reflexivity | lia].
  - destruct (Hf c a) as (c1 & -> & H1).
    destruct (IH c1) as (c2 & -> & H2). exists c2. split; [reflexivity | lia].
Qed.

Lemma sum_off_centre_away (k : Z) (l : list Z) :
  0 ∉ l ->
  foldr (fun a s => off_centre k a + s) 0 l = Z.of_nat (length l) * (k + 1).
Proof.
  induction l as [| a l IH]; intros H; simpl; [lia |].
  apply not_elem_of_cons in H as [Ha Hl]. rewrite (IH Hl).
  unfold off_centre. destruct (Z.eqb_spec a 0); lia.
Qed.

Lemma sum_off_centre (k r : Z) :
  0 <= r ->
  foldr (fun a s => off_centre k a + s) 0 (seqZ (- r) (r + 1 - - r))
  = (2 * r + 1) * (k + 1) - 1.
Proof.
  intros Hr.
  replace (r + 1 - - r) with (r + (1 + r)) by lia.
  rewrite seqZ_app by lia. rewrite (seqZ_cons (- r + r)) by lia.
  rewrite foldr_app. cbn [foldr].
  replace (- r + r) with 0 by lia.
  rewrite (sum_off_centre_away k (seqZ (Z.succ 0) (Z.pred (1 + r)))).
  2:{ rewrite elem_of_seqZ. lia. }
  rewrite length_seqZ.
  assert (G : forall (l : list Z) (b : Z),
             0 ∉ l ->
             foldr (fun a s => off_centre k a + s) b l
             = Z.of_nat (length l) * (k + 1) + b).
  { clear. induction l as [| a l IH]; intros b H; simpl; [lia |].
    apply not_elem_of_cons in H as [Ha Hl]. rewrite (IH _ Hl).
    unfold off_centre. destruct (Z.eqb_spec a 0); lia. }
  rewrite G by (rewrite elem_of_seqZ; lia).
  rewrite length_seqZ. unfold off_centre at 1. simpl (0 =? 0).
  cbv iota. replace (Z.pred (1 + r)) with r by lia.
  rewrite !Z2Nat.id by lia. ring.
Qed.

Lemma count_cell_step (g : Grid) (x y dx c dy : Z) :
  exists c',
    count_cell g x y dx c dy = Some c'
    /\ c <= c' <= c + (if dx =? 0 then off_centre 0 dy else 1).
Proof.
  unfold count_cell, off_centre.
  destruct (dx =? 0), (dy =? 0); simpl;
    try (exists c; split; [reflexivity | lia]).
  all: destruct (in_bounds g (x + dx) (y + dy)) eqn:Hb;
    [| exists c; split; [reflexivity | lia]].
  all: unfold is_occupied; rewrite (cell_in_bounds _ _ _ Hb); simpl.
  all: match goal with |- context [negb ?b] => destruct (negb b) end;
    eexists; (split; [reflexivity | lia]).
Qed.

Lemma count_row (g : Grid) (x y r dx c : Z) :
  0 <= r ->
  exists c',
    fold_opt (count_cell g x y dx) (seqZ (- r) (r + 1 - - r)) c = Some c'
    /\ c <= c' <= c + off_centre (2 * r) dx.
Proof.
  intros Hr. unfold off_centre at 1. destruct (Z.eqb_spec dx 0) as [-> | Hd].
  - destruct (fold_opt_weight (count_cell g x y 0) (off_centre 0)
                (seqZ (- r) (r + 1 - - r))
                (fun c a => count_cell_step g x y 0 c a) c)
      as (c' & Hc & Hb).
    rewrite sum_off_centre in Hb by lia. exists c'. split; [exact Hc | lia].
  - destruct (fold_opt_weight (count_cell g x y dx) (fun _ => 1)
                (seqZ (- r) (r + 1 - - r))) with (c := c)
      as (c' & Hc & Hb).
    { intros c0 a. pose proof (count_cell_step g x y dx c0 a) as H.
      destruct (Z.eqb_spec dx 0); [lia | exact H]. }
    assert (G : forall l : list Z,
               foldr (fun _ s => 1 + s) 0 l = Z.of_nat (length l)).
    { clear. induction l as [| a l IH]; simpl; lia. }
    rewrite G, length_seqZ in Hb. exists c'. split; [exact Hc | lia].
Qed.

Lemma Grid_move_cells (g : Grid) (ox oy nx ny : Z) :
  in_bounds g ox oy = true -> in_bounds g nx ny = true ->
  exists g',
    Grid_move g ox oy nx ny = Some g'
    /\ cell g' ox oy = Some 0
    /\ ((ox, oy) <> (nx, ny) -> cell g' nx ny = cell g ox oy)
    /\ (forall x y, in_bounds g x y = true ->
          (x, y) <> (ox, oy) -> (x, y) <> (nx, ny) ->
          cell g' x y = cell g x y)
    /\ width g' = width g /\ height g' = height g
    /\ barriers g' = barriers g.
Proof.
  intros Ho Hn.
  pose proof Ho as Ho'. pose proof Hn as Hn'.
  apply in_bounds_spec in Ho', Hn'.
  pose proof (cell_in_bounds _ _ _ Ho) as Hcell.
  set (v := default 0 (data g !! (ox, oy))) in Hcell.
  destruct (proj2 (set_cell_is_Some g nx ny v) ltac:(lia))
    as [g1 H1].
  pose proof (set_cell_fields _ _ _ _ _ H1) as (Hw1 & Hh1 & Hb1).
  destruct (proj2 (set_cell_is_Some g1 ox oy 0)
              ltac:(rewrite Hw1, Hh1; lia)) as [g2 H2].
  pose proof (set_cell_fields _ _ _ _ _ H2) as (Hw2 & Hh2 & Hb2).
  assert (In1 : forall x y, 0 <= x < width g /\ 0 <= y < height g ->
                  np_index (width g) x = Some x
                  /\ np_index (height g) y = Some y).
  { intros x y [? ?]. split; apply np_index_in; lia. }
  assert (C1 : forall x y, in_bounds g x y = true ->
                 cell g1 x y = if decide ((x, y) = (nx, ny)) then Some v
                               else cell g x y).
  { intros x y Hb. apply in_bounds_spec in Hb.
    apply (cell_set_cell _ _ _ _ _ _ _ H1);
      apply np_index_in; lia. }
  assert (C2 : forall x y, in_bounds g x y = true ->
                 cell g2 x y = if decide ((x, y) = (ox, oy)) then Some 0
                               else cell g1 x y).
  { intros x y Hb. apply in_bounds_spec in Hb.
    apply (cell_set_cell _ _ _ _ _ _ _ H2);
      apply np_index_in; rewrite ?Hw1, ?Hh1; lia. }
  exists g2.
  split; [unfold Grid_move; rewrite Hcell; simpl; rewrite H1; exact H2 |].
  split; [rewrite (C2 _ _ Ho), decide_True by reflexivity; reflexivity |].
  split; [| split; [| split; [congruence | split; congruence]]].
  - intros Hne. rewrite (C2 _ _ Hn), decide_False by congruence.
    rewrite (C1 _ _ Hn), decide_True by reflexivity.
    rewrite Hcell. reflexivity.
  - intros x y Hb N1 N2.
    rewrite (C2 _ _ Hb), decide_False by exact N1.
    rewrite (C1 _ _ Hb), decide_False by exact N2. reflexivity.
Qed.

End GridFacts.

(** X5: [Grid.set] then [Grid.get]: for coordinates numpy accepts
    (negative ones count from the far edge) and an index that fits the
    int32 cell, [set] returns, [get] at the same coordinates gives the
    index back, the cell reads as occupied, and every other cell, the
    barriers and the size are unchanged. *)
Theorem Grid_set_then_get (g : Grid) (x y index : Z) :
  - width g <= x < width g -> - height g <= y < height g ->
  0 <= index < 2 ^ 31 - 1 ->
  exists g',
    Grid_set g x y index = Some g'
    /\ Grid_get g' x y = Some (Some index)
    /\ is_occupied g' x y = Some true
    /\ width g' = width g /\ height g' = height g
    /\ barriers g' = barriers g
    /\ forall x' y', in_bounds g x' y' = true ->
         (x', y') <> (x mod width g, y mod height g) ->
         cell g' x' y' = cell g x' y'.
Proof.
  intros Hx Hy Hi.
  destruct (proj2 (GridFacts.np_index_is_Some _ _) Hx) as [i Ei].
  destruct (proj2 (GridFacts.np_index_is_Some _ _) Hy) as [j Ej].
  destruct (proj2 (GridFacts.set_cell_is_Some g x y (index + 1))
              (conj Hx Hy)) as [g' Hs].
  pose proof (GridFacts.set_cell_fields _ _ _ _ _ Hs) as (Hw & Hh & Hb).
  pose proof (GridFacts.cell_set_cell _ _ _ _ _ _ _ Hs Ei Ej) as Hc.
  exists g'. unfold Grid_set. split; [exact Hs |].
  assert (Hxy : cell g' x y = Some (index + 1)).
  { rewrite (Hc x y i j Ei Ej). rewrite decide_True by reflexivity.
    reflexivity. }
  split; [| split; [| split; [exact Hw | split; [exact Hh |
    split; [exact Hb |]]]]].
  - unfold Grid_get. rewrite Hxy. simpl.
    destruct (Z.ltb_spec 0 (index + 1)); [| lia].
    do 2 f_equal. lia.
  - unfold is_occupied. rewrite Hxy. simpl.
    destruct (Z.eqb_spec (index + 1) 0); [lia | reflexivity].
  - intros x' y' Hb' Hne. apply GridFacts.in_bounds_spec in Hb'.
    rewrite (Hc x' y' x' y') by (apply GridFacts.np_index_in; lia).
    apply GridFacts.np_index_mod in Ei as [-> _].
    apply GridFacts.np_index_mod in Ej as [-> _].
    rewrite decide_False by exact Hne. reflexivity.
Qed.

Lemma Grid_set_then_get_witness :
  - width sample_grid <= -1 < width sample_grid
  /\ - height sample_grid <= 2 < height sample_grid
  /\ 0 <= 6 < 2 ^ 31 - 1
  /\ exists g',
       Grid_set sample_grid (-1) 2 6 = Some g'
       /\ Grid_get g' (-1) 2 = Some (Some 6)
       /\ is_occupied g' (-1) 2 = Some true
       /\ width g' = width sample_grid /\ height g' = height sample_grid
       /\ barriers g' = barriers sample_grid
       /\ forall x' y', in_bounds sample_grid x' y' = true ->
            (x', y') <> (-1 mod width sample_grid, 2 mod height sample_grid) ->
            cell g' x' y' = cell sample_grid x' y'.
Proof.
  assert (H1 : - width sample_grid <= -1 < width sample_grid)
    by (simpl; lia).
  assert (H2 : - height sample_grid <= 2 < height sample_grid)
    by (simpl; lia).
  assert (H3 : 0 <= 6 < 2 ^ 31 - 1) by lia.
  split; [exact H1 |]. split; [exact H2 |]. split; [exact H3 |].
  apply (Grid_set_then_get sample_grid (-1) 2 6 H1 H2 H3).
Defined.

(** X6: [is_occupied], [is_empty], [Grid.get] and [Grid.set] (with a
    value that fits the int32 cell) raise ([IndexError]) exactly when a
    coordinate is outside [[-size, size)]. *)
Theorem cell_access_raises (g : Grid) (x y : Z) :
  (is_occupied g x y = None
   <-> ~ (- width g <= x < width g /\ - height g <= y < height g))
  /\ (is_empty g x y = None <-> is_occupied g x y = None)
  /\ (Grid_get g x y = None <-> is_occupied g x y = None)
  /\ (forall i, - 2 ^ 31 <= i + 1 < 2 ^ 31 ->
       (Grid_set g x y i = None <-> is_occupied g x y = None)).
Proof.
  pose proof (GridFacts.cell_is_Some g x y) as Hc.
  assert (Hn : cell g x y = None
               <-> ~ (- width g <= x < width g
                      /\ - height g <= y < height g)).
  { rewrite <- Hc. destruct (cell g x y); split; intros H;
      try discriminate; try reflexivity.
    - exfalso. apply H. eauto.
    - intros [? ?]. discriminate. }
  assert (Ho : is_occupied g x y = None <-> cell g x y = None).
  { unfold is_occupied. destruct (cell g x y); simpl; split; intros H;
      (discriminate || reflexivity). }
  split; [rewrite Ho; exact Hn |].
  split; [rewrite Ho; unfold is_empty; destruct (cell g x y); simpl;
          split; intros H; (discriminate || reflexivity) |].
  split; [rewrite Ho; unfold Grid_get; destruct (cell g x y); simpl;
          split; intros H; (discriminate || reflexivity) |].
  intros i _. rewrite Ho, Hn. unfold Grid_set.
  pose proof (GridFacts.set_cell_is_Some g x y (i + 1)) as Hs.
  rewrite <- Hs. destruct (set_cell g x y (i + 1)); split; intros H;
    try discriminate; try reflexivity.
  + exfalso. apply H. eauto.
  + intros [? ?]. discriminate.
Qed.

(** X7: A negative column index down to [-width] is rejected by
    [in_bounds], but the accessors do not raise on it: they address the
    column counted from the far edge. *)
Theorem negative_index_wraps (g : Grid) (x y : Z) :
  - width g <= x < 0 -> 0 <= y < height g ->
  in_bounds g x y = false
  /\ is_occupied g x y = is_occupied g (x + width g) y
  /\ Grid_get g x y = Grid_get g (x + width g) y
  /\ forall i, Grid_set g x y i = Grid_set g (x + width g) y i.
Proof.
  intros Hx Hy.
  assert (E1 : np_index (width g) x = Some (x + width g)).
  { unfold np_index.
    destruct (Z.leb_spec 0 x), (Z.ltb_spec x (width g)),
      (Z.leb_spec (- width g) x), (Z.ltb_spec x 0); simpl;
      (reflexivity || lia). }
  assert (E2 : np_index (width g) (x + width g) = Some (x + width g))
    by (apply GridFacts.np_index_in; lia).
  assert (Hcell : cell g x y = cell g (x + width g) y).
  { unfold cell. rewrite E1, E2. reflexivity. }
  split; [| split; [| split]].
  - unfold in_bounds. destruct (Z.leb_spec 0 x); [lia | reflexivity].
  - unfold is_occupied. rewrite Hcell. reflexivity.
  - unfold Grid_get. rewrite Hcell. reflexivity.
  - intros i. unfold Grid_set, set_cell. rewrite E1, E2. reflexivity.
Qed.

Lemma negative_index_wraps_witness :
  - width sample_grid <= -4 < 0 /\ 0 <= 0 < height sample_grid
  /\ in_bounds sample_grid (-4) 0 = false
  /\ is_occupied sample_grid (-4) 0
     = is_occupied sample_grid (-4 + width sample_grid) 0
  /\ Grid_get sample_grid (-4) 0
     = Grid_get sample_grid (-4 + width sample_grid) 0
  /\ forall i, Grid_set sample_grid (-4) 0 i
               = Grid_set sample_grid (-4 + width sample_grid) 0 i.
Proof.
  assert (H1 : - width sample_grid <= -4 < 0) by (simpl; lia).
  assert (H2 : 0 <= 0 < height sample_grid) by (simpl; lia).
  split; [exact H1 |]. split; [exact H2 |].
  apply (negative_index_wraps sample_grid (-4) 0 H1 H2).
Defined.

(** X8: [Grid.move] between two cells inside the grid returns; afterwards
    the old cell is empty, the new cell holds what the old one held when
    the two differ (moving a cell onto itself erases it), and every
    other cell, the barriers and the size are unchanged. *)
Theorem Grid_move_moves (g : Grid) (ox oy nx ny : Z) :
  in_bounds g ox oy = true -> in_bounds g nx ny = true ->
  exists g',
    Grid_move g ox oy nx ny = Some g'
    /\ cell g' ox oy = Some 0
    /\ ((ox, oy) <> (nx, ny) -> cell g' nx ny = cell g ox oy)
    /\ (forall x y, in_bounds g x y = true ->
          (x, y) <> (ox, oy) -> (x, y) <> (nx, ny) ->
          cell g' x y = cell g x y)
    /\ width g' = width g /\ height g' = height g
    /\ barriers g' = barriers g.
Proof. apply GridFacts.Grid_move_cells. Qed.

Lemma Grid_move_moves_witness :
  in_bounds sample_grid 0 0 = true /\ in_bounds sample_grid 0 1 = true
  /\ exists g',
       Grid_move sample_grid 0 0 0 1 = Some g'
       /\ cell g' 0 0 = Some 0
       /\ ((0, 0) <> (0, 1) -> cell g' 0 1 = cell sample_grid 0 0)
       /\ (forall x y, in_bounds sample_grid x y = true ->
             (x, y) <> (0, 0) -> (x, y) <> (0, 1) ->
             cell g' x y = cell sample_grid x y)
       /\ width g' = width sample_grid /\ height g' = height sample_grid
       /\ barriers g' = barriers sample_grid.
Proof.
  assert (H1 : in_bounds sample_grid 0 0 = true) by reflexivity.
  assert (H2 : in_bounds sample_grid 0 1 = true) by reflexivity.
  split; [exact H1 |]. split; [exact H2 |].
  apply (Grid_move_moves sample_grid 0 0 0 1 H1 H2).
Defined.

(** X9: [Grid.count_neighbors] never raises, whatever the position and
    the radius: it returns a count between 0 and the number of cells of
    the square around the position, the centre aside. *)
Theorem count_neighbors_bounds (g : Grid) (x y radius : Z) :
  exists n,
    count_neighbors g x y radius = Some n
    /\ 0 <= n <= Z.max 0 ((2 * radius + 1) ^ 2 - 1).
Proof.
  unfold count_neighbors.
  destruct (Z_lt_le_dec radius 0) as [Hneg | Hr].
  - replace (seqZ (- radius) (radius + 1 - - radius)) with (@nil Z).
    + exists 0. split; [reflexivity | lia].
    + unfold seqZ. replace (Z.to_nat (radius + 1 - - radius)) with O by lia.
      reflexivity.
  - destruct (GridFacts.fold_opt_weight
                (fun count dx =>
                   fold_opt (count_cell g x y dx)
                            (seqZ (- radius) (radius + 1 - - radius)) count)
                (off_centre (2 * radius))
                (seqZ (- radius) (radius + 1 - - radius))) with (c := 0)
      as (n & Hn & Hb).
    { intros c dx. apply GridFacts.count_row. exact Hr. }
    rewrite GridFacts.sum_off_centre in Hb by lia.
    exists n. split; [exact Hn | nia].
Qed.

(** * Building a brain *)

Module BrainFacts.

Lemma resolve_None (ns na ni : Z) (g : Gene) :
  resolve ns na ni g = None
  <-> (if source_type g =? 1 then ns else ni) = 0
      \/ (if sink_type g =? 1 then na else ni) = 0.
Proof.
  unfold resolve, py_mod.
  destruct (source_type g =? 1), (sink_type g =? 1); simpl;
    repeat match goal with
           | |- context [?n =? 0] => destruct (Z.eqb_spec n 0)
           end; simpl; split; intros H;
    try discriminate; try reflexivity; try tauto; try lia.
Qed.

Lemma resolve_Some (ns na ni : Z) (g : Gene) (c : Connection) :
  resolve ns na ni g = Some c ->
  c = (source_type g,
       source_id g mod (if source_type g =? 1 then ns else ni),
       sink_type g,
       sink_id g mod (if sink_type g =? 1 then na else ni),
       weight g).
Proof.
  unfold resolve, py_mod.
  destruct (source_type g =? 1), (sink_type g =? 1); simpl;
    repeat match goal with
           | |- context [?n =? 0] => destruct (Z.eqb_spec n 0)
           end; simpl; intros H; inversion H; reflexivity.
Qed.

Lemma sink_in_range_dec (na ni : Z) (c : Connection) :
  Decision (sink_in_range na ni c).
Proof.
  destruct c as [[[[st sid] kt] kid] wt]. unfold sink_in_range.
  destruct (kt =? 1); apply _.
Qed.

(** The key sets of the two accumulators. *)
Lemma keys_step self sv acc c acc' :
  accumulate self sv acc c = Some acc' ->
  forall b j, is_Some (side b acc' !! j) <-> is_Some (side b acc !! j).
Proof.
  intros H b j. rewrite (accumulate_lookup _ _ _ _ _ b j H).
  rewrite fmap_is_Some. reflexivity.
Qed.

Lemma accumulate_None self sv acc c :
  ~ sink_present acc c -> accumulate self sv acc c = None.
Proof.
  destruct c as [[[[st sid] kt] kid] wt]. unfold sink_present, accumulate.
  destruct (kt =? 1); intros H.
  - destruct (acc.2 !! kid); [exfalso; apply H; eauto | reflexivity].
  - destruct (acc.1 !! kid); [exfalso; apply H; eauto | reflexivity].
Qed.

Lemma present_in_range (na ni : Z) acc c :
  (forall b j, is_Some (side b acc !! j)
               <-> 0 <= j < (if b then na else ni)) ->
  sink_present acc c <-> sink_in_range na ni c.
Proof.
  intros Hk. destruct c as [[[[st sid] kt] kid] wt].
  unfold sink_present, sink_in_range. destruct (kt =? 1).
  - apply (Hk true).
  - apply (Hk false).
Qed.

Lemma fold_accumulate_None self sv (na ni : Z) conns :
  forall acc,
    (forall b j, is_Some (side b acc !! j)
                 <-> 0 <= j < (if b then na else ni)) ->
    Exists (fun c => ~ sink_in_range na ni c) conns ->
    fold_opt (accumulate self sv) conns acc = None.
Proof.
  induction conns as [| c conns IH]; intros acc Hk Hex.
  - inversion Hex.
  - simpl. destruct (sink_in_range_dec na ni c) as [Hin | Hout].
    + destruct (accumulate_total self sv acc c) as [acc1 H1].
      { apply (present_in_range na ni); assumption. }
      rewrite H1. apply IH.
      * intros b j. rewrite (keys_step _ _ _ _ _ H1). apply Hk.
      * inversion Hex; subst; [contradiction | assumption].
    + rewrite accumulate_None; [reflexivity |].
      rewrite (present_in_range na ni) by assumption. exact Hout.
Qed.

End BrainFacts.

(** X10: With positive numbers of sensors, actions and internal neurons,
    [Brain.__init__] never raises: it keeps one connection per gene, in
    order, with the gene's kinds and weight, and with both identifiers
    reduced into the range of their kind, also for negative or oversized
    identifiers; the neuron memory holds 0.0 for exactly the internal
    neurons. *)
Theorem Brain_init_in_range (genes : list Gene) (ns na ni : Z) :
  0 < ns -> 0 < na -> 0 < ni ->
  exists b,
    Brain_init genes ns na ni = Some b
    /\ num_sensors b = ns /\ num_actions b = na /\ num_internal b = ni
    /\ length (connections b) = length genes
    /\ (forall k g, genes !! k = Some g ->
          exists src snk,
            connections b !! k
            = Some (source_type g, src, sink_type g, snk, weight g)
            /\ 0 <= src < (if source_type g =? 1 then ns else ni)
            /\ 0 <= snk < (if sink_type g =? 1 then na else ni)
            /\ (src - source_id g)
                 mod (if source_type g =? 1 then ns else ni) = 0
            /\ (snk - sink_id g)
                 mod (if sink_type g =? 1 then na else ni) = 0)
    /\ (forall i, neuron_outputs b !! i
                  = if bool_decide (0 <= i < ni) then Some F64.zero
                    else None).
Proof.
  intros Hns Hna Hni. unfold Brain_init.
  destruct (mapM (resolve ns na ni) genes) as [conns |] eqn:Hm.
  2:{ exfalso. assert (Hs : is_Some (mapM (resolve ns na ni) genes)).
      { apply mapM_is_Some. apply Forall_forall. intros g _.
        destruct (resolve ns na ni g) eqn:E; [eauto |].
        apply BrainFacts.resolve_None in E.
        destruct (source_type g =? 1), (sink_type g =? 1); lia. }
      rewrite Hm in Hs. destruct Hs as [? Hs]. discriminate Hs. }
  simpl. eexists. split; [reflexivity |]. cbn [num_sensors num_actions
    num_internal connections neuron_outputs].
  apply mapM_Some in Hm.
  split; [reflexivity |]. split; [reflexivity |]. split; [reflexivity |].
  split; [symmetry; eapply Forall2_length; exact Hm |].
  split; [| apply (zeros_lookup (fun x => x))].
  intros k g Hk.
  destruct (Forall2_lookup_l _ _ _ _ _ Hm Hk) as (c & Hc & Hr).
  apply BrainFacts.resolve_Some in Hr. subst c.
  eexists _, _. split; [exact Hc |].
  assert (Hs : 0 < (if source_type g =? 1 then ns else ni))
    by (destruct (source_type g =? 1); lia).
  assert (Ht : 0 < (if sink_type g =? 1 then na else ni))
    by (destruct (sink_type g =? 1); lia).
  split; [apply Z.mod_pos_bound; exact Hs |].
  split; [apply Z.mod_pos_bound; exact Ht |].
  split.
  - rewrite Zminus_mod, Z.mod_mod, Z.sub_diag by lia. apply Z.mod_0_l. lia.
  - rewrite Zminus_mod, Z.mod_mod, Z.sub_diag by lia. apply Z.mod_0_l. lia.
Qed.

Lemma Brain_init_in_range_witness :
  0 < 12 /\ 0 < 5 /\ 0 < 4
  /\ exists b,
       Brain_init [mkGene 1 (-3) 0 127 F64.one] 12 5 4 = Some b
       /\ num_sensors b = 12 /\ num_actions b = 5 /\ num_internal b = 4
       /\ length (connections b) = length [mkGene 1 (-3) 0 127 F64.one]
       /\ (forall k g, [mkGene 1 (-3) 0 127 F64.one] !! k = Some g ->
             exists src snk,
               connections b !! k
               = Some (source_type g, src, sink_type g, snk, weight g)
               /\ 0 <= src < (if source_type g =? 1 then 12 else 4)
               /\ 0 <= snk < (if sink_type g =? 1 then 5 else 4)
               /\ (src - source_id g)
                    mod (if source_type g =? 1 then 12 else 4) = 0
               /\ (snk - sink_id g)
                    mod (if sink_type g =? 1 then 5 else 4) = 0)
       /\ (forall i, neuron_outputs b !! i
                     = if bool_decide (0 <= i < 4) then Some F64.zero
                       else None).
Proof.
  split; [lia |]. split; [lia |]. split; [lia |].
  apply (Brain_init_in_range [mkGene 1 (-3) 0 127 F64.one] 12 5 4); lia.
Defined.

(** X11: [Brain.__init__] raises ([ZeroDivisionError]) exactly when some
    gene needs a count that is zero: the number of sensors for a sensor
    source, the number of actions for an action sink, the number of
    internal neurons for a neuron source or sink. *)
Theorem Brain_init_zero_division (genes : list Gene) (ns na ni : Z) :
  Brain_init genes ns na ni = None
  <-> exists g, g ∈ genes
                /\ ((if source_type g =? 1 then ns else ni) = 0
                    \/ (if sink_type g =? 1 then na else ni) = 0).
Proof.
  unfold Brain_init. split.
  - destruct (mapM (resolve ns na ni) genes) as [conns |] eqn:Hm;
      [discriminate |]. intros _.
    destruct (decide (Forall (fun g => is_Some (resolve ns na ni g)) genes))
      as [Hall | Hnot].
    + apply mapM_is_Some in Hall. rewrite Hm in Hall.
      destruct Hall as [? Hall]. discriminate Hall.
    + assert (Hex : Exists (fun g => ~ is_Some (resolve ns na ni g)) genes)
        by (apply not_Forall_Exists; [intros g; apply _ | exact Hnot]).
      apply Exists_exists in Hex as (g & Hg & Hn).
      exists g. split; [exact Hg |]. apply BrainFacts.resolve_None.
      destruct (resolve ns na ni g); [exfalso; apply Hn; eauto | reflexivity].
  - intros (g & Hg & Hz).
    destruct (mapM (resolve ns na ni) genes) as [conns |] eqn:Hm;
      [| reflexivity].
    exfalso. assert (Hs : is_Some (mapM (resolve ns na ni) genes))
      by (rewrite Hm; eauto).
    apply mapM_is_Some in Hs. rewrite Forall_forall in Hs.
    destruct (Hs g Hg) as [c Hc].
    apply BrainFacts.resolve_None in Hz. simpl in Hc. congruence.
Qed.

Section KeyError.

Variable tanh : float -> float.

(** X12: [Brain.feed_forward] raises ([KeyError]) exactly when some
    connection ends in an action or a neuron outside the ranges of the
    brain; the sensor map and the stored neuron outputs play no part in
    it. *)
Theorem feed_forward_key_error (self : Brain) (sv : gmap Z float) :
  feed_forward tanh self sv = None
  <-> Exists (fun c => ~ sink_in_range (num_actions self)
                                       (num_internal self) c)
             (connections self).
Proof.
  split.
  - intros Hn.
    apply not_Forall_Exists;
      [intros c; apply BrainFacts.sink_in_range_dec |]. intros Hall.
    destruct (feed_forward_in_range tanh self sv Hall) as (o & s' & H & _).
    congruence.
  - intros Hex. unfold feed_forward.
    rewrite (BrainFacts.fold_accumulate_None self sv (num_actions self)
               (num_internal self)); [reflexivity | | exact Hex].
    intros b j. destruct b; cbn [side fst snd]; rewrite (zeros_lookup tanh);
      case_bool_decide; split; intros H';
      try (destruct H' as [? H']; discriminate H'); eauto; lia.
Qed.

End KeyError.

(** * The object store *)

Module Heap.

(** *** Calls that return *)

Lemma returns_ret {A} (a : A) (w : World) (Q : A -> World -> Prop) :
  Q a w -> returns (ret a) w Q.
Proof. intros H. exists a, w. split; [reflexivity | exact H]. Qed.

Lemma returns_bind {A B} (m : M A) (k : A -> M B) (w : World)
    (Q : B -> World -> Prop) :
  returns m w (fun a w' => returns (k a) w' Q) -> returns (bind m k) w Q.
Proof.
  intros (a & w' & Hm & b & w'' & Hk & HQ). exists b, w''.
  unfold bind. rewrite Hm. split; assumption.
Qed.

Lemma returns_mono {A} (m : M A) (w : World) (Q Q' : A -> World -> Prop) :
  returns m w Q -> (forall a w', Q a w' -> Q' a w') -> returns m w Q'.
Proof. intros (a & w' & Hm & HQ) H. exists a, w'. auto. Qed.

Lemma returns_lift {A} (o : option A) (a : A) (w : World)
    (Q : A -> World -> Prop) :
  o = Some a -> Q a w -> returns (lift_option o) w Q.
Proof.
  intros -> H. exists a, w. split; [reflexivity | exact H].
Qed.

(** *** What a step may change *)

Ltac split_changes :=
  unfold changes; refine (conj _ (conj _ (conj _ (conj _ (conj _ _))))).

Lemma changes_refl (D DG : gset loc) (w : World) : changes D DG w w.
Proof. split_changes; auto. Qed.

Lemma changes_trans (D DG D' DG' : gset loc) (w1 w2 w3 : World) :
  changes D DG w1 w2 -> changes D' DG' w2 w3 ->
  changes (D ∪ D') (DG ∪ DG') w1 w3.
Proof.
  intros (A1 & A2 & A3 & A4 & A5 & A6) (B1 & B2 & B3 & B4 & B5 & B6).
  split_changes.
  - intros x g Hx H. apply B1; [set_solver |]. apply A1; [set_solver | exact H].
  - intros x g Hx H. apply B2; [set_solver |]. apply A2; [set_solver | exact H].
  - intros x H. apply B3, A3, H.
  - intros x H. apply B4, A4, H.
  - congruence.
  - lia.
Qed.

Lemma changes_weaken (D DG D' DG' : gset loc) (w w' : World) :
  D ⊆ D' -> DG ⊆ DG' -> changes D DG w w' -> changes D' DG' w w'.
Proof.
  intros HD HDG (A1 & A2 & A3 & A4 & A5 & A6).
  split_changes; auto.
  all: intros x g Hx; first [apply A1 | apply A2]; set_solver.
Qed.

Lemma extends_refl (w : World) : extends w w.
Proof. apply changes_refl. Qed.

Lemma extends_trans (w1 w2 w3 : World) :
  extends w1 w2 -> extends w2 w3 -> extends w1 w3.
Proof.
  intros H1 H2. unfold extends.
  eapply changes_weaken; [| | eapply changes_trans; [exact H1 | exact H2]];
    set_solver.
Qed.

Lemma extends_changes (D DG : gset loc) (w w' : World) :
  extends w w' -> changes D DG w w'.
Proof. apply changes_weaken; set_solver. Qed.

(** Changes confined to objects that did not exist are no changes. *)
Lemma changes_new (D DG : gset loc) (w w' : World) :
  changes D DG w w' ->
  (forall x, x ∈ D -> gene_store w !! x = None) ->
  (forall x, x ∈ DG -> genome_store w !! x = None) ->
  extends w w'.
Proof.
  intros (A1 & A2 & A3 & A4 & A5 & A6) HD HDG. unfold extends.
  split_changes; auto.
  - intros x g _ H. apply A1; [| exact H]. intros Hx.
    rewrite (HD x Hx) in H. discriminate.
  - intros x g _ H. apply A2; [| exact H]. intros Hx.
    rewrite (HDG x Hx) in H. discriminate.
Qed.

Lemma extends_gene (w w' : World) (x : loc) (g : Gene) :
  extends w w' -> gene_store w !! x = Some g -> gene_store w' !! x = Some g.
Proof. intros (A1 & _) H. apply A1; [set_solver | exact H]. Qed.

Lemma extends_genome (w w' : World) (x : loc) (gs : list loc) :
  extends w w' -> genome_store w !! x = Some gs ->
  genome_store w' !! x = Some gs.
Proof. intros (_ & A2 & _) H. apply A2; [set_solver | exact H]. Qed.

Lemma extends_fresh_gene (w w' : World) (x : loc) :
  extends w w' -> gene_store w' !! x = None -> gene_store w !! x = None.
Proof.
  intros (_ & _ & A3 & _) H. destruct (gene_store w !! x) eqn:E; [| done].
  destruct (A3 x ltac:(eauto)) as [? H']. congruence.
Qed.

Lemma extends_fresh_genome (w w' : World) (x : loc) :
  extends w w' -> genome_store w' !! x = None -> genome_store w !! x = None.
Proof.
  intros (_ & _ & _ & A4 & _) H.
  destruct (genome_store w !! x) eqn:E; [| done].
  destruct (A4 x ltac:(eauto)) as [? H']. congruence.
Qed.

Lemma genes_exist_changes (D DG : gset loc) (w w' : World) (gs : list loc) :
  changes D DG w w' -> genes_exist w gs -> genes_exist w' gs.
Proof.
  intros (_ & _ & A3 & _) H. unfold genes_exist in *.
  eapply Forall_impl; [exact H | exact A3].
Qed.

(** *** Writing to the store *)

Lemma fresh_gene (w : World) : gene_store w !! fresh (dom (gene_store w)) = None.
Proof. apply not_elem_of_dom, is_fresh. Qed.

Lemma fresh_genome (w : World) :
  genome_store w !! fresh (dom (genome_store w)) = None.
Proof. apply not_elem_of_dom, is_fresh. Qed.

Lemma put_gene_changes (w : World) (l : loc) (g : Gene) (c : nat) :
  (cursor w <= c)%nat ->
  changes {[ l ]} ∅ w
    (mkWorld (<[l := g]> (gene_store w)) (genome_store w) (tape w) c).
Proof.
  intros Hc. split_changes; cbn [gene_store genome_store tape cursor]; auto.
  - intros x g' Hx H. rewrite lookup_insert_ne by set_solver. exact H.
  - intros x H. destruct (decide (l = x)) as [-> | N].
    + rewrite lookup_insert_eq. eauto.
    + rewrite lookup_insert_ne by done. exact H.
Qed.

Lemma put_gene_ok (w : World) (l : loc) (g : Gene) (c : nat) :
  is_Some (to_int g) -> heap_ok w ->
  heap_ok (mkWorld (<[l := g]> (gene_store w)) (genome_store w) (tape w) c).
Proof.
  intros Hg [H1 H2]. split; cbn [gene_store genome_store].
  - intros x g' H. destruct (decide (l = x)) as [-> | N].
    + rewrite lookup_insert_eq in H. congruence.
    + rewrite lookup_insert_ne in H by done. eapply H1, H.
  - intros x gs H. specialize (H2 x gs H). unfold genes_exist in *.
    cbn [gene_store]. eapply Forall_impl; [exact H2 |]. intros y Hy.
    destruct (decide (l = y)) as [-> | N].
    + rewrite lookup_insert_eq. eauto.
    + rewrite lookup_insert_ne by done. exact Hy.
Qed.

Lemma new_gene_allocates (w : World) (g : Gene) (c : nat) :
  is_Some (to_int g) -> (cursor w <= c)%nat ->
  allocates w
    (mkWorld (<[fresh (dom (gene_store w)) := g]> (gene_store w))
             (genome_store w) (tape w) c).
Proof.
  intros Hg Hc. split; [| split; [reflexivity | apply put_gene_ok, Hg]].
  eapply changes_new; [apply put_gene_changes, Hc | |].
  - intros x Hx. apply elem_of_singleton in Hx as ->. apply fresh_gene.
  - intros x Hx. set_solver.
Qed.

Lemma put_genome_changes (w : World) (l : loc) (gs : list loc) :
  changes ∅ {[ l ]} w
    (mkWorld (gene_store w) (<[l := gs]> (genome_store w)) (tape w)
             (cursor w)).
Proof.
  split_changes; cbn [gene_store genome_store tape cursor]; auto.
  - intros x g' Hx H. rewrite lookup_insert_ne by set_solver. exact H.
  - intros x H. destruct (decide (l = x)) as [-> | N].
    + rewrite lookup_insert_eq. eauto.
    + rewrite lookup_insert_ne by done. exact H.
Qed.

Lemma put_genome_ok (w : World) (l : loc) (gs : list loc) :
  genes_exist w gs -> heap_ok w ->
  heap_ok (mkWorld (gene_store w) (<[l := gs]> (genome_store w)) (tape w)
                   (cursor w)).
Proof.
  intros Hgs [H1 H2]. split; cbn [gene_store genome_store].
  - exact H1.
  - intros x gs' H. destruct (decide (l = x)) as [-> | N].
    + rewrite lookup_insert_eq in H. injection H as <-. exact Hgs.
    + rewrite lookup_insert_ne in H by done. exact (H2 x gs' H).
Qed.

Lemma advance_extends (n : nat) (w : World) : extends w (advance n w).
Proof.
  unfold extends, advance.
  split_changes; cbn [gene_store genome_store tape cursor]; auto. lia.
Qed.

Lemma advance_ok (n : nat) (w : World) : heap_ok w -> heap_ok (advance n w).
Proof. intros H. exact H. Qed.

Lemma allocates_refl (w : World) : allocates w w.
Proof. split; [apply extends_refl | split; [reflexivity | auto]]. Qed.

Lemma allocates_trans (w1 w2 w3 : World) :
  allocates w1 w2 -> allocates w2 w3 -> allocates w1 w3.
Proof.
  intros (A1 & A2 & A3) (B1 & B2 & B3).
  split; [eapply extends_trans; eauto | split; [congruence | auto]].
Qed.

Lemma advance_allocates (n : nat) (w : World) : allocates w (advance n w).
Proof.
  split; [apply advance_extends | split; [reflexivity | apply advance_ok]].
Qed.

(** *** The generator *)

Lemma randint_returns (a b : Z) (w : World) (Q : Z -> World -> Prop) :
  a <= b -> (forall v, a <= v <= b -> Q v (advance 1 w)) ->
  returns (randint a b) w Q.
Proof.
  intros Hab HQ. unfold randint.
  destruct (Z.ltb_spec b a); [lia |].
  eexists _, _. split; [reflexivity |]. apply HQ.
  pose proof (Z.mod_pos_bound (tape w (cursor w)) (b - a + 1)). lia.
Qed.

Lemma random_random_returns (w : World) (Q : float -> World -> Prop) :
  (forall r, Q r (advance 1 w)) -> returns random_random w Q.
Proof.
  intros HQ. eexists _, _. split; [reflexivity |]. apply HQ.
Qed.

(** *** Genes *)

Lemma Gene_random_returns (w : World) (Q : loc -> World -> Prop) :
  (forall g, valid_gene g -> small (-43) (weight g) ->
     Q (fresh (dom (gene_store w)))
       (mkWorld (<[fresh (dom (gene_store w)) := g]> (gene_store w))
                (genome_store w) (tape w) (5 + cursor w))) ->
  returns Gene_random w Q.
Proof.
  intros HQ. unfold Gene_random, randint.
  change (1 <? 0) with false. change (127 <? 0) with false. cbv iota.
  eexists _, _. split; [reflexivity |]. apply HQ.
  - unfold valid_gene. cbn [source_type source_id sink_type sink_id weight].
    cbn [gene_store genome_store tape cursor].
    pose proof (Validity.uniform_weight_valid
                  (tape w (S (S (S (S (cursor w))))))) as Hv.
    cbv zeta in Hv. destruct Hv as (Hv1 & Hv2 & Hv3).
    refine (conj _ (conj _ (conj _ (conj _ (conj Hv1 (conj Hv2 Hv3)))))).
    all: repeat match goal with
           | |- context [?k mod (1 - 0 + 1)] =>
               pose proof (Z.mod_pos_bound k (1 - 0 + 1) ltac:(lia));
               generalize dependent (k mod (1 - 0 + 1)); intros
           | |- context [?k mod (127 - 0 + 1)] =>
               pose proof (Z.mod_pos_bound k (127 - 0 + 1) ltac:(lia));
               generalize dependent (k mod (127 - 0 + 1)); intros
           end.
    all: lia.
  - cbn [weight]. apply Sums.uniform_weight_small.
Qed.

Lemma Gene_copy_returns (w : World) (l : loc) (g : Gene)
    (Q : loc -> World -> Prop) :
  gene_store w !! l = Some g ->
  Q (fresh (dom (gene_store w)))
    (mkWorld (<[fresh (dom (gene_store w)) := g]> (gene_store w))
             (genome_store w) (tape w) (cursor w)) ->
  returns (Gene_copy l) w Q.
Proof.
  intros Hl HQ. unfold returns, Gene_copy, bind, read_gene. rewrite Hl.
  eexists _, _. split; [reflexivity |]. destruct g. exact HQ.
Qed.

Lemma Gene_mutate_returns (w : World) (l : loc) (g : Gene)
    (Q : unit -> World -> Prop) :
  gene_store w !! l = Some g -> is_Some (to_int g) ->
  (forall p, Q tt (mkWorld (<[l := from_int p]> (gene_store w))
                           (genome_store w) (tape w) (1 + cursor w))) ->
  returns (Gene_mutate l) w Q.
Proof.
  intros Hl [p Hp] HQ.
  unfold returns, Gene_mutate, bind, read_gene, lift_option.
  rewrite Hl, Hp. eexists _, _. split; [reflexivity |]. apply HQ.
Qed.

Lemma drawn_packable (g : Gene) : small (-43) (weight g) -> is_Some (to_int g).
Proof.
  intros Hs. unfold to_int.
  destruct (Sums.small_weight_code (weight g)) as (c & Hc & _).
  { eapply Sums.small_weaken; [| exact Hs]. lia. }
  rewrite Hc. simpl. eauto.
Qed.

End Heap.

(** * Genomes in the store *)

Module GenomeFacts.

Import Heap.

Lemma changes_fresh_gene (D DG : gset loc) (w w' : World) (x : loc) :
  changes D DG w w' -> gene_store w' !! x = None -> gene_store w !! x = None.
Proof.
  intros (_ & _ & A3 & _) H. destruct (gene_store w !! x) eqn:E; [| done].
  destruct (A3 x ltac:(eauto)) as [? H']. congruence.
Qed.

Lemma read_genome_returns (w : World) (l : loc) (gs : list loc)
    (Q : list loc -> World -> Prop) :
  genome_store w !! l = Some gs -> Q gs w -> returns (read_genome l) w Q.
Proof.
  intros Hl HQ. exists gs, w. unfold read_genome. rewrite Hl. auto.
Qed.

Lemma copy_allocates (w : World) (l : loc) (g : Gene) :
  gene_store w !! l = Some g ->
  allocates w
    (mkWorld (<[fresh (dom (gene_store w)) := g]> (gene_store w))
             (genome_store w) (tape w) (cursor w)).
Proof.
  intros Hl. split; [| split; [reflexivity |]].
  - eapply changes_new; [apply put_gene_changes; lia | |].
    + intros x Hx. apply elem_of_singleton in Hx as ->. apply fresh_gene.
    + intros x Hx. set_solver.
  - intros Hok. apply put_gene_ok; [| exact Hok].
    destruct Hok as [H1 _]. eapply H1, Hl.
Qed.

Lemma new_genes_nil (w w' : World) : new_genes w [] w'.
Proof.
  split; [constructor | split; constructor].
Qed.

(** One more new gene in front of new genes made after it. *)
Lemma new_genes_cons (w w1 w' : World) (l : loc) (ls : list loc) :
  gene_store w !! l = None -> is_Some (gene_store w1 !! l) ->
  extends w w1 -> extends w1 w' ->
  new_genes w1 ls w' -> new_genes w (l :: ls) w'.
Proof.
  intros Hl Hl1 E1 E2 (Hnd & Hfr & Hex). split; [| split].
  - constructor; [| exact Hnd]. intros Hin.
    rewrite Forall_forall in Hfr. rewrite (Hfr l Hin) in Hl1.
    destruct Hl1 as [? Hl1]. discriminate Hl1.
  - constructor; [exact Hl |]. eapply Forall_impl; [exact Hfr |].
    intros x Hx. eapply extends_fresh_gene; eauto.
  - constructor; [| exact Hex].
    destruct E2 as (_ & _ & A3 & _). apply A3, Hl1.
Qed.

Lemma copies_returns (gs : list loc) :
  forall w,
    genes_exist w gs ->
    returns (map_M Gene_copy gs) w (fun ls w' =>
      allocates w w' /\ cursor w' = cursor w /\ new_genes w ls w'
      /\ Forall2 (fun l' l => gene_store w' !! l' = gene_store w !! l) ls gs).
Proof.
  induction gs as [| l gs IH]; intros w Hex.
  - apply returns_ret. split; [apply allocates_refl |].
    split; [reflexivity |]. split; [apply new_genes_nil | constructor].
  - apply Forall_cons in Hex as [[g Hl] Hex]. cbn [map_M].
    apply returns_bind. eapply Gene_copy_returns; [exact Hl |].
    set (l1 := fresh (dom (gene_store w))).
    set (w1 := mkWorld _ _ _ _).
    pose proof (copy_allocates w l g Hl) as Hal. fold l1 w1 in Hal.
    destruct Hal as (E1 & G1 & O1).
    assert (Hl1 : gene_store w1 !! l1 = Some g)
      by (unfold w1; cbn [gene_store]; apply lookup_insert_eq).
    apply returns_bind. eapply returns_mono.
    { apply (IH w1). eapply genes_exist_changes; [exact E1 | exact Hex]. }
    intros ls w' ((E2 & G2 & O2) & Hc & Hnew & HF). apply returns_ret.
    split; [| split; [| split]].
    + split; [eapply extends_trans; eauto | split; [congruence | auto]].
    + rewrite Hc. reflexivity.
    + eapply new_genes_cons; eauto. apply fresh_gene.
    + constructor.
      * rewrite Hl. eapply extends_gene; eauto.
      * clear -HF Hex E1. induction HF as [| a b la lb Hab _ IHF];
          [constructor |].
        apply Forall_cons in Hex as [[gb Hb] Hex].
        constructor; [| apply IHF, Hex].
        rewrite Hab, Hb. eapply extends_gene; eauto.
Qed.

Lemma random_genes_returns (n : nat) :
  forall w,
    returns (repeatM n Gene_random) w (fun ls w' =>
      allocates w w' /\ new_genes w ls w' /\ length ls = n).
Proof.
  induction n as [| n IH]; intros w.
  - apply returns_ret. split; [apply allocates_refl |].
    split; [apply new_genes_nil | reflexivity].
  - cbn [repeatM]. apply returns_bind, Gene_random_returns.
    intros g Hf Hs.
    set (l1 := fresh (dom (gene_store w))).
    set (w1 := mkWorld _ _ _ _).
    pose proof (new_gene_allocates w g (5 + cursor w)
                  (drawn_packable g Hs) ltac:(lia)) as Hal.
    fold l1 w1 in Hal. destruct Hal as (E1 & G1 & O1).
    assert (Hl1 : gene_store w1 !! l1 = Some g)
      by (unfold w1; cbn [gene_store]; apply lookup_insert_eq).
    apply returns_bind. eapply returns_mono; [apply (IH w1) |].
    intros ls w' ((E2 & G2 & O2) & Hnew & Hlen). apply returns_ret.
    split; [| split].
    + split; [eapply extends_trans; eauto | split; [congruence | auto]].
    + eapply new_genes_cons; eauto. apply fresh_gene.
    + simpl. congruence.
Qed.

(** Allocating a genome made of existing genes. *)
Lemma alloc_genome_returns (w : World) (gs : list loc)
    (Q : loc -> World -> Prop) :
  Q (fresh (dom (genome_store w)))
    (mkWorld (gene_store w)
             (<[fresh (dom (genome_store w)) := gs]> (genome_store w))
             (tape w) (cursor w)) ->
  returns (alloc_genome gs) w Q.
Proof.
  intros HQ. eexists _, _. split; [reflexivity | exact HQ].
Qed.

Lemma alloc_genome_extends (w : World) (gs : list loc) :
  extends w
    (mkWorld (gene_store w)
             (<[fresh (dom (genome_store w)) := gs]> (genome_store w))
             (tape w) (cursor w)).
Proof.
  eapply changes_new; [apply put_genome_changes | |].
  - intros x Hx. set_solver.
  - intros x Hx. apply elem_of_singleton in Hx as ->. apply fresh_genome.
Qed.

(** A genome allocated from genes that were made, from [w] on, by
    allocation only. *)
Lemma alloc_new_genome (w w1 : World) (gs : list loc) :
  heap_ok w -> allocates w w1 -> new_genes w gs w1 ->
  new_genome w (fresh (dom (genome_store w1)))
    (mkWorld (gene_store w1)
             (<[fresh (dom (genome_store w1)) := gs]> (genome_store w1))
             (tape w1) (cursor w1)).
Proof.
  intros Hok (E1 & G1 & O1) (Hnd & Hfr & Hex).
  split; [| split; [| split]].
  - eapply extends_trans; [exact E1 | apply alloc_genome_extends].
  - apply put_genome_ok; [exact Hex | auto].
  - rewrite <- G1. apply fresh_genome.
  - exists gs. cbn [genome_store gene_store].
    split; [apply lookup_insert_eq |].
    split; [exact Hnd | split; [exact Hfr | exact Hex]].
Qed.

Lemma Genome_random_returns (n : Z) (w : World) :
  heap_ok w ->
  returns (Genome_random n) w (fun c w' =>
    new_genome w c w'
    /\ exists gs, genome_store w' !! c = Some gs
                  /\ length gs = Z.to_nat n).
Proof.
  intros Hok. unfold Genome_random. apply returns_bind.
  eapply returns_mono; [apply random_genes_returns |].
  intros ls w1 (Hal & Hnew & Hlen). apply alloc_genome_returns.
  split; [apply alloc_new_genome; assumption |].
  exists ls. cbn [genome_store]. split; [apply lookup_insert_eq | exact Hlen].
Qed.

(** *** Crossover *)

Lemma gene_values_eq (w w' : World) (ls gs : list loc) :
  Forall2 (fun l' l => gene_store w' !! l' = gene_store w !! l) ls gs ->
  gene_values w' ls = gene_values w gs.
Proof.
  unfold gene_values. induction 1 as [| a b la lb Hab _ IH]; [reflexivity |].
  cbn [mapM]. rewrite Hab, IH. reflexivity.
Qed.

Lemma new_genes_app (w w1 w2 : World) (la lb : list loc) :
  new_genes w la w1 -> extends w w1 -> extends w1 w2 ->
  new_genes w1 lb w2 -> new_genes w (la ++ lb) w2.
Proof.
  intros (Na & Fa & Ea) E1 E2 (Nb & Fb & Eb). split; [| split].
  - apply NoDup_app. split; [exact Na | split; [| exact Nb]].
    intros x Hxa Hxb. rewrite Forall_forall in Fb.
    unfold genes_exist in Ea. rewrite Forall_forall in Ea.
    destruct (Ea x Hxa) as [g Hg]. rewrite (Fb x Hxb) in Hg. discriminate.
  - apply Forall_app. split; [exact Fa |].
    eapply Forall_impl; [exact Fb |]. intros x Hx.
    eapply extends_fresh_gene; eauto.
  - apply Forall_app. split; [| exact Eb].
    eapply genes_exist_changes; [exact E2 | exact Ea].
Qed.

Lemma new_genes_take (w w' : World) (n : nat) (ls : list loc) :
  new_genes w ls w' -> new_genes w (take n ls) w'.
Proof.
  intros (N & F & E). split; [| split].
  - eapply sublist_NoDup; first [apply sublist_take | exact N].
  - apply Forall_take, F.
  - apply Forall_take, E.
Qed.

Lemma new_genome_advance (n : nat) (w : World) (c : loc) (w' : World) :
  new_genome (advance n w) c w' -> new_genome w c w'.
Proof.
  intros (E & O & F & gs & Hgs & Hn).
  split; [eapply extends_trans; [apply advance_extends | exact E] |].
  split; [exact O |]. split; [exact F |]. exists gs. split; assumption.
Qed.

Lemma crossover_at_returns (i j : nat) (a b : loc) (ga gb : list loc)
    (w : World) :
  heap_ok w -> genome_store w !! a = Some ga ->
  genome_store w !! b = Some gb ->
  returns (crossover_at (Z.of_nat i) (Z.of_nat j) a b) w (fun c w' =>
    new_genome w c w'
    /\ exists cs,
         genome_store w' !! c = Some cs
         /\ (1 <= length cs <= 50)%nat
         /\ (if decide (take 50 (take i ga ++ drop j gb) = [])
             then length cs = 1%nat
             else gene_values w' cs
                  = gene_values w (take 50 (take i ga ++ drop j gb)))).
Proof.
  intros Hok Ha Hb. unfold crossover_at. rewrite !Nat2Z.id.
  pose proof (proj2 Hok a ga Ha) as Hga.
  pose proof (proj2 Hok b gb Hb) as Hgb.
  apply returns_bind. eapply read_genome_returns; [exact Ha |].
  apply returns_bind. eapply read_genome_returns; [exact Hb |].
  apply returns_bind. eapply returns_mono.
  { apply (copies_returns (take i ga) w). apply Forall_take, Hga. }
  intros la w1 ((E1 & G1 & O1) & C1 & N1 & F1).
  apply returns_bind. eapply returns_mono.
  { apply (copies_returns (drop j gb) w1).
    eapply genes_exist_changes; [exact E1 |]. apply Forall_drop, Hgb. }
  intros lb w2 ((E2 & G2 & O2) & C2 & N2 & F2).
  assert (Hal : allocates w w2).
  { split; [eapply extends_trans; eauto | split; [congruence | auto]]. }
  assert (Hnew : new_genes w (la ++ lb) w2)
    by (eapply new_genes_app; eauto).
  assert (HF : Forall2 (fun l' l => gene_store w2 !! l' = gene_store w !! l)
                 (la ++ lb) (take i ga ++ drop j gb)).
  { apply Forall2_app.
    - destruct N1 as (_ & _ & Ex1). clear -F1 Ex1 E2.
      induction F1 as [| x y la' lb' Hxy _ IH]; [constructor |].
      apply Forall_cons in Ex1 as [[g Hg] Ex1].
      constructor; [| apply IH, Ex1].
      rewrite <- Hxy, Hg. eapply extends_gene; eauto.
    - assert (Hd : genes_exist w (drop j gb)) by apply Forall_drop, Hgb.
      clear -F2 Hd E1. induction F2 as [| x y la' lb' Hxy _ IH];
        [constructor |].
      apply Forall_cons in Hd as [[g Hg] Hd].
      constructor; [| apply IH, Hd].
      rewrite Hxy, Hg. eapply extends_gene; eauto. }
  set (cg := if 50 <? Z.of_nat (length (la ++ lb))
             then take 50 (la ++ lb) else la ++ lb).
  assert (Hcg : cg = take 50 (la ++ lb)).
  { unfold cg. destruct (Z.ltb_spec 50 (Z.of_nat (length (la ++ lb))));
      [reflexivity |]. symmetry. apply take_ge. lia. }
  clearbody cg. subst cg.
  assert (HF50 : Forall2 (fun l' l => gene_store w2 !! l' = gene_store w !! l)
                   (take 50 (la ++ lb))
                   (take 50 (take i ga ++ drop j gb)))
    by apply Forall2_take, HF.
  pose proof (Forall2_length _ _ _ HF50) as Hlen.
  destruct (Z.eqb_spec (Z.of_nat (length (take 50 (la ++ lb)))) 0)
    as [Hz | Hnz].
  - apply returns_bind, returns_bind, Gene_random_returns.
    intros g Hf Hs. apply returns_ret, alloc_genome_returns.
    set (l1 := fresh (dom (gene_store w2))).
    set (w3 := mkWorld (<[l1 := g]> (gene_store w2)) _ _ _).
    pose proof (new_gene_allocates w2 g (5 + cursor w2)
                  (drawn_packable g Hs) ltac:(lia)) as Hal3.
    fold l1 w3 in Hal3.
    assert (Hl1 : gene_store w3 !! l1 = Some g)
      by (unfold w3; cbn [gene_store]; apply lookup_insert_eq).
    assert (Hn3 : new_genes w [l1] w3).
    { split; [apply NoDup_singleton | split].
      - constructor; [| constructor].
        eapply extends_fresh_gene; [apply Hal | apply fresh_gene].
      - constructor; [eauto | constructor]. }
    split; [apply alloc_new_genome;
            [exact Hok | eapply allocates_trans; eauto | exact Hn3] |].
    exists [l1]. cbn [genome_store].
    split; [apply lookup_insert_eq |]. split; [simpl; lia |].
    rewrite decide_True; [reflexivity |].
    apply nil_length_inv. lia.
  - apply returns_bind, returns_ret, alloc_genome_returns.
    split; [apply alloc_new_genome;
            [exact Hok | exact Hal | apply new_genes_take, Hnew] |].
    exists (take 50 (la ++ lb)). cbn [genome_store].
    split; [apply lookup_insert_eq |].
    split; [assert (length (take 50 (la ++ lb)) <= 50)%nat
              by (rewrite length_take; lia); lia |].
    rewrite decide_False.
    + unfold gene_values. cbn [gene_store]. apply gene_values_eq, HF50.
    + intros Hnil. rewrite Hnil in Hlen. simpl in Hlen. lia.
Qed.

Lemma Genome_crossover_returns (a b : loc) (ga gb : list loc) (w : World) :
  heap_ok w -> genome_store w !! a = Some ga ->
  genome_store w !! b = Some gb ->
  returns (Genome_crossover a b) w (fun c w' =>
    new_genome w c w'
    /\ exists cs,
         genome_store w' !! c = Some cs
         /\ (1 <= length cs <= 50)%nat
         /\ exists i j,
              (i <= length ga)%nat /\ (j <= length gb)%nat
              /\ (if decide (take 50 (take i ga ++ drop j gb) = [])
                  then length cs = 1%nat
                  else gene_values w' cs
                       = gene_values w (take 50 (take i ga ++ drop j gb)))).
Proof.
  intros Hok Ha Hb. unfold Genome_crossover.
  apply returns_bind. eapply read_genome_returns; [exact Ha |].
  apply returns_bind, randint_returns; [lia |]. intros i Hi.
  apply returns_bind. eapply read_genome_returns; [exact Hb |].
  apply returns_bind, randint_returns; [lia |]. intros j Hj.
  rewrite <- (Z2Nat.id i), <- (Z2Nat.id j) by lia.
  eapply returns_mono.
  { apply (crossover_at_returns (Z.to_nat i) (Z.to_nat j) a b ga gb
             (advance 1 (advance 1 w))); assumption. }
  intros c w' (Hn & cs & Hcs & Hl & Hv).
  split; [apply (new_genome_advance 1), (new_genome_advance 1), Hn |].
  exists cs. split; [exact Hcs |]. split; [exact Hl |].
  exists (Z.to_nat i), (Z.to_nat j).
  split; [lia |]. split; [lia |]. exact Hv.
Qed.

(** *** Mutation *)

Lemma write_genome_returns (w : World) (l : loc) (gs : list loc)
    (Q : unit -> World -> Prop) :
  Q tt (mkWorld (gene_store w) (<[l := gs]> (genome_store w)) (tape w)
                (cursor w)) ->
  returns (write_genome l gs) w Q.
Proof. intros HQ. eexists _, _. split; [reflexivity | exact HQ]. Qed.

Lemma point_step_returns (rate : float) (a : loc) (w : World) :
  heap_ok w -> is_Some (gene_store w !! a) ->
  returns (let* r := random_random in
           if F64.ltb r rate then Gene_mutate a else ret tt) w
    (fun _ w1 => heap_ok w1 /\ changes {[ a ]} ∅ w w1
                 /\ genome_store w1 = genome_store w).
Proof.
  intros Hok [g Hg]. apply returns_bind, random_random_returns. intros r.
  destruct (F64.ltb r rate).
  - eapply Gene_mutate_returns; [exact Hg | eapply (proj1 Hok), Hg |].
    intros p. split; [| split; [| reflexivity]].
    + apply (put_gene_ok w a (from_int p) (1 + (1 + cursor w)));
        [apply from_int_packable | exact Hok].
    + apply (put_gene_changes w a (from_int p) (1 + (1 + cursor w))). lia.
  - apply returns_ret. split; [exact Hok |].
    split; [apply extends_changes, advance_extends | reflexivity].
Qed.

Lemma point_mutations_returns (rate : float) (gs : list loc) :
  forall w,
    heap_ok w -> genes_exist w gs ->
    returns (point_mutations rate gs) w
      (fun _ w' => heap_ok w' /\ changes (list_to_set gs) ∅ w w'
                   /\ genome_store w' = genome_store w).
Proof.
  unfold point_mutations. induction gs as [| a gs IH]; intros w Hok Hex.
  - apply returns_ret. split; [exact Hok |].
    split; [apply changes_refl | reflexivity].
  - apply Forall_cons in Hex as [Ha Hex]. cbn [forM_].
    apply returns_bind. eapply returns_mono;
      [apply (point_step_returns rate a w Hok Ha) |].
    intros _ w1 (Hok1 & Hch1 & Hg1). eapply returns_mono.
    { apply (IH w1 Hok1). eapply genes_exist_changes; eauto. }
    intros _ w' (Hok' & Hch' & Hg'). split; [exact Hok' |].
    split; [| congruence].
    eapply changes_weaken; [| | eapply changes_trans; eauto]; set_solver.
Qed.

Lemma deletion_returns (c : bool) (self : loc) (gs : list loc) (w : World) :
  heap_ok w -> genome_store w !! self = Some gs ->
  returns (if c && (1 <? Z.of_nat (length gs))
           then let* i := randint 0 (Z.of_nat (length gs) - 1) in
                write_genome self (delete (Z.to_nat i) gs)
           else ret tt) w
    (fun _ w' =>
       heap_ok w' /\ changes ∅ {[ self ]} w w'
       /\ gene_store w' = gene_store w
       /\ exists mid,
            genome_store w' !! self = Some mid
            /\ (mid = gs
                \/ exists i, (i < length gs)%nat /\ (1 < length gs)%nat
                             /\ mid = delete i gs)).
Proof.
  intros Hok Hs. destruct (c && (1 <? Z.of_nat (length gs))) eqn:Ec.
  - apply andb_true_iff in Ec as [_ Hlen]. apply Z.ltb_lt in Hlen.
    apply returns_bind, randint_returns; [lia |]. intros i Hi.
    apply write_genome_returns.
    assert (Hex : genes_exist (advance 1 w) (delete (Z.to_nat i) gs)).
    { pose proof (proj2 Hok self gs Hs) as Hgs. unfold genes_exist in *.
      rewrite Forall_forall in *. intros x Hx.
      apply Hgs. eapply list_elem_of_delete_inv, Hx. }
    split; [apply (put_genome_ok (advance 1 w)); assumption |].
    split; [| split; [reflexivity |]].
    + eapply changes_weaken;
        [| | eapply changes_trans;
               [apply (advance_extends 1 w)
               | apply (put_genome_changes (advance 1 w) self)]];
        set_solver.
    + exists (delete (Z.to_nat i) gs). cbn [genome_store].
      split; [apply lookup_insert_eq |]. right. exists (Z.to_nat i).
      split; [lia |]. split; [lia | reflexivity].
  - apply returns_ret. split; [exact Hok |].
    split; [apply changes_refl |]. split; [reflexivity |].
    exists gs. split; [exact Hs | left; reflexivity].
Qed.

Lemma insertion_returns (c : bool) (self : loc) (mid : list loc)
    (w : World) :
  heap_ok w -> genome_store w !! self = Some mid ->
  returns (if c && (Z.of_nat (length mid) <? 50)
           then let* g := Gene_random in write_genome self (mid ++ [g])
           else ret tt) w
    (fun _ w' =>
       heap_ok w' /\ changes ∅ {[ self ]} w w'
       /\ exists gs',
            genome_store w' !! self = Some gs'
            /\ (gs' = mid
                \/ exists l, gs' = mid ++ [l] /\ (length mid < 50)%nat
                             /\ gene_store w !! l = None)).
Proof.
  intros Hok Hs. destruct (c && (Z.of_nat (length mid) <? 50)) eqn:Ec.
  - apply andb_true_iff in Ec as [_ Hlen]. apply Z.ltb_lt in Hlen.
    apply returns_bind, Gene_random_returns. intros g Hf Hsm.
    apply write_genome_returns.
    set (l1 := fresh (dom (gene_store w))).
    set (w1 := mkWorld (<[l1 := g]> (gene_store w)) _ _ _).
    pose proof (new_gene_allocates w g (5 + cursor w)
                  (drawn_packable g Hsm) ltac:(lia)) as (E1 & G1 & O1).
    fold l1 w1 in E1, G1, O1.
    assert (Hex : genes_exist w1 (mid ++ [l1])).
    { apply Forall_app. split.
      - eapply genes_exist_changes; [exact E1 | exact (proj2 Hok _ _ Hs)].
      - constructor; [| constructor]. unfold w1. cbn [gene_store].
        rewrite lookup_insert_eq. eauto. }
    split; [apply (put_genome_ok w1); auto |].
    split.
    + eapply changes_weaken;
        [| | eapply changes_trans;
               [exact E1 | apply (put_genome_changes w1 self)]];
        set_solver.
    + exists (mid ++ [l1]). cbn [genome_store].
      split; [apply lookup_insert_eq |]. right. exists l1.
      split; [reflexivity |]. split; [lia | apply fresh_gene].
  - apply returns_ret. split; [exact Hok |].
    split; [apply changes_refl |].
    exists mid. split; [exact Hs | left; reflexivity].
Qed.

Lemma Genome_mutate_returns (self : loc) (rate : float) (gs : list loc)
    (w : World) :
  heap_ok w -> genome_store w !! self = Some gs ->
  returns (Genome_mutate self rate) w (fun _ w' =>
    heap_ok w' /\ changes (list_to_set gs) {[ self ]} w w'
    /\ exists gs', genome_store w' !! self = Some gs'
                   /\ mutated_list w gs gs').
Proof.
  intros Hok Hs. unfold Genome_mutate.
  apply returns_bind. eapply read_genome_returns; [exact Hs |].
  apply returns_bind. eapply returns_mono.
  { apply (point_mutations_returns rate gs w Hok (proj2 Hok _ _ Hs)). }
  intros _ w1 (Hok1 & Hch1 & Hg1).
  apply returns_bind, random_random_returns. intros r.
  assert (Hs1 : genome_store (advance 1 w1) !! self = Some gs)
    by (cbn [advance genome_store]; rewrite Hg1; exact Hs).
  apply returns_bind. eapply read_genome_returns; [exact Hs1 |].
  apply returns_bind. eapply returns_mono.
  { apply (deletion_returns (F64.ltb r (F64.mul rate F64.c0_2)) self gs
             (advance 1 w1)); [exact Hok1 | exact Hs1]. }
  intros _ w2 (Hok2 & Hch2 & Hgs2 & mid & Hmid & Hshape).
  apply returns_bind, random_random_returns. intros r'.
  assert (Hs2 : genome_store (advance 1 w2) !! self = Some mid)
    by exact Hmid.
  apply returns_bind. eapply read_genome_returns; [exact Hs2 |].
  eapply returns_mono.
  { apply (insertion_returns (F64.ltb r' (F64.mul rate F64.c0_2)) self mid
             (advance 1 w2)); [exact Hok2 | exact Hs2]. }
  intros _ w3 (Hok3 & Hch3 & gs' & Hgs' & Hshape').
  assert (Hall : changes (list_to_set gs) {[ self ]} w (advance 1 w2)).
  { eapply changes_weaken;
      [| | eapply changes_trans;
             [exact Hch1
             | eapply changes_trans;
                 [apply (extends_changes ∅ ∅), (advance_extends 1 w1)
                 | eapply changes_trans;
                     [exact Hch2
                     | apply (extends_changes ∅ ∅),
                         (advance_extends 1 w2)]]]];
      set_solver. }
  split; [exact Hok3 |]. split.
  - eapply changes_weaken; [| | eapply changes_trans; [exact Hall | exact Hch3]];
      set_solver.
  - exists gs'. split; [exact Hgs' |]. exists mid. split; [exact Hshape |].
    destruct Hshape' as [-> | (l & -> & Hlen & Hfresh)]; [left; reflexivity |].
    right. exists l. split; [reflexivity |]. split; [exact Hlen |].
    eapply changes_fresh_gene; [exact Hall | exact Hfresh].
Qed.

(** *** Children *)

Lemma mutated_new_genes (w w1 : World) (gs gs' : list loc) :
  extends w w1 -> new_genes w gs w1 -> mutated_list w1 gs gs' ->
  NoDup gs' /\ Forall (fun l => gene_store w !! l = None) gs'.
Proof.
  intros E (N & F & Ex) (mid & Hmid & Hgs').
  assert (Hsub : forall x, x ∈ mid -> x ∈ gs).
  { destruct Hmid as [-> | (i & _ & _ & ->)]; [auto |].
    intros x. apply list_elem_of_delete_inv. }
  assert (Nm : NoDup mid).
  { destruct Hmid as [-> | (i & _ & _ & ->)]; [exact N |].
    eapply sublist_NoDup; [exact N | apply sublist_delete]. }
  assert (Fm : Forall (fun l => gene_store w !! l = None) mid).
  { rewrite Forall_forall in *. intros x Hx. apply F, Hsub, Hx. }
  destruct Hgs' as [-> | (l & -> & _ & Hl)]; [split; assumption |].
  split.
  - apply NoDup_app. split; [exact Nm | split; [| apply NoDup_singleton]].
    intros x Hx Hxl. apply list_elem_of_singleton in Hxl as ->.
    unfold genes_exist in Ex. rewrite Forall_forall in Ex.
    destruct (Ex l (Hsub l Hx)) as [g Hg]. congruence.
  - apply Forall_app. split; [exact Fm |]. constructor; [| constructor].
    eapply extends_fresh_gene; eauto.
Qed.

(** Mutating a genome that is new since [w] leaves it new since [w]. *)
Lemma mutate_new_genome (w w1 : World) (c : loc) (rate : float) :
  new_genome w c w1 ->
  returns (Genome_mutate c rate) w1 (fun _ w' => new_genome w c w').
Proof.
  intros (E & Hok1 & Hc & gs & Hgs & Hnew).
  eapply returns_mono;
    [apply (Genome_mutate_returns c rate gs w1 Hok1 Hgs) |].
  intros _ w' (Hok' & Hch & gs' & Hgs' & Hmut).
  destruct (mutated_new_genes w w1 gs gs' E Hnew Hmut) as [N' F'].
  split; [| split; [exact Hok' | split; [exact Hc |]]].
  - eapply changes_new.
    + eapply changes_trans; [exact E | exact Hch].
    + intros x Hx. destruct Hnew as (_ & F & _).
      rewrite Forall_forall in F. apply F.
      apply elem_of_union in Hx as [Hx | Hx]; [set_solver |].
      apply elem_of_list_to_set in Hx. exact Hx.
    + intros x Hx. apply elem_of_union in Hx as [Hx | Hx]; [set_solver |].
      apply elem_of_singleton in Hx as ->. exact Hc.
  - exists gs'. split; [exact Hgs' |]. split; [exact N' |].
    split; [exact F' | exact (proj2 Hok' _ _ Hgs')].
Qed.

Lemma clone_child_returns (s : Simulation) (parent : loc) (gs : list loc)
    (w : World) :
  heap_ok w -> genome_store w !! parent = Some gs ->
  returns (clone_child s parent) w (fun c w' => new_genome w c w').
Proof.
  intros Hok Hp. unfold clone_child.
  apply returns_bind. eapply read_genome_returns; [exact Hp |].
  apply returns_bind. eapply returns_mono;
    [apply (copies_returns gs w (proj2 Hok _ _ Hp)) |].
  intros ls w1 (Hal & _ & Hnew & _).
  apply returns_bind, alloc_genome_returns.
  apply returns_bind. eapply returns_mono.
  { apply mutate_new_genome. apply alloc_new_genome; eassumption. }
  intros u w3 Hn. apply returns_ret. exact Hn.
Qed.

Lemma sample2_returns {A} (l : list A) (w : World) :
  (2 <= length l)%nat ->
  returns (sample2 l) w (fun p w' =>
    w' = advance 2 w /\ fst p ∈ l /\ snd p ∈ l).
Proof.
  intros Hl. unfold returns, sample2, bind, raw, lift_option, ret.
  destruct (Z.ltb_spec (Z.of_nat (length l)) 2); [lia |].
  cbn [tape cursor gene_store genome_store].
  set (n := Z.of_nat (length l)).
  set (i := tape w (cursor w) mod n).
  set (j0 := tape w (S (cursor w)) mod (n - 1)).
  set (j := if j0 =? i then n - 1 else j0).
  assert (Hi : 0 <= i < n) by (apply Z.mod_pos_bound; lia).
  assert (Hj0 : 0 <= j0 < n - 1) by (apply Z.mod_pos_bound; lia).
  assert (Hj : 0 <= j < n) by (unfold j; destruct (j0 =? i); lia).
  destruct (lookup_lt_is_Some_2 l (Z.to_nat i) ltac:(lia)) as [a Ha].
  destruct (lookup_lt_is_Some_2 l (Z.to_nat j) ltac:(lia)) as [b Hb].
  rewrite Ha, Hb. eexists _, _. split; [reflexivity |].
  split; [reflexivity |].
  split; eapply list_elem_of_lookup_2; eassumption.
Qed.

Lemma cross_child_returns (s : Simulation) (survivors : list Individual)
    (w : World) :
  heap_ok w -> (2 <= length survivors)%nat ->
  Forall (fun i => is_Some (genome_store w !! genome i)) survivors ->
  returns (cross_child s survivors) w (fun c w' => new_genome w c w').
Proof.
  intros Hok Hlen Hall. unfold cross_child.
  apply returns_bind. eapply returns_mono;
    [apply (sample2_returns survivors w Hlen) |].
  intros [pa pb] w1 (-> & Ha & Hb). cbn [fst snd] in *.
  rewrite Forall_forall in Hall.
  destruct (Hall pa Ha) as [ga Hga]. destruct (Hall pb Hb) as [gb Hgb].
  apply returns_bind. eapply returns_mono.
  { apply (Genome_crossover_returns (genome pa) (genome pb) ga gb
             (advance 2 w)); assumption. }
  intros c w2 (Hn & _).
  apply returns_bind. eapply returns_mono;
    [apply mutate_new_genome, (new_genome_advance 2), Hn |].
  intros u w3 Hn3. apply returns_ret. exact Hn3.
Qed.

(** A loop that makes one new genome per round. *)
Lemma repeat_new_genomes (m : M loc) (I : World -> Prop) :
  (forall w w', extends w w' -> I w -> I w') ->
  (forall w, heap_ok w -> I w ->
             returns m w (fun c w' => new_genome w c w')) ->
  forall (n : nat) w,
    heap_ok w -> I w ->
    returns (repeatM n m) w (fun cs w' =>
      extends w w' /\ heap_ok w' /\ length cs = n /\ NoDup cs
      /\ Forall (fun c => genome_store w !! c = None
                          /\ is_Some (genome_store w' !! c)) cs).
Proof.
  intros Hmono Hm. induction n as [| n IH]; intros w Hok HI.
  - apply returns_ret. split; [apply extends_refl |].
    split; [exact Hok |]. split; [reflexivity |].
    split; constructor.
  - cbn [repeatM]. apply returns_bind. eapply returns_mono;
      [apply (Hm w Hok HI) |].
    intros c w1 (E1 & Hok1 & Hc & gs & Hgs & _).
    apply returns_bind. eapply returns_mono;
      [apply (IH w1 Hok1 (Hmono _ _ E1 HI)) |].
    intros cs w' (E2 & Hok' & Hlen & Nd & Fa). apply returns_ret.
    split; [eapply extends_trans; eauto |]. split; [exact Hok' |].
    split; [simpl; congruence |].
    rewrite Forall_forall in Fa. split.
    + constructor; [| exact Nd]. intros Hin.
      destruct (Fa c Hin) as [Hnone _]. congruence.
    + constructor.
      * split; [exact Hc |]. exists gs. eapply extends_genome; eauto.
      * apply Forall_forall. intros x Hx. destruct (Fa x Hx) as [Hn Hs].
        split; [eapply extends_fresh_genome; eauto | exact Hs].
Qed.

Lemma reproduce_returns (s : Simulation) (survivors : list Individual)
    (w : World) :
  heap_ok w ->
  Forall (fun i => is_Some (genome_store w !! genome i)) survivors ->
  returns (reproduce s survivors) w (fun cs w' =>
    extends w w' /\ heap_ok w'
    /\ length cs = Z.to_nat (population_size s) /\ NoDup cs
    /\ Forall (fun c => genome_store w !! c = None
                        /\ is_Some (genome_store w' !! c)) cs).
Proof.
  intros Hok Hall. unfold reproduce.
  assert (Hmono : forall l w1 w2,
             extends w1 w2 ->
             Forall (fun i => is_Some (genome_store w1 !! genome i)) l ->
             Forall (fun i => is_Some (genome_store w2 !! genome i)) l).
  { intros l w1 w2 (_ & _ & _ & A4 & _) H.
    eapply Forall_impl; [exact H |]. intros i. apply A4. }
  destruct survivors as [| a [| b rest]].
  - apply (repeat_new_genomes _ (fun _ => True));
      [auto | | exact Hok | exact Logic.I].
    intros w1 Hok1 _. eapply returns_mono;
      [apply Genome_random_returns, Hok1 |].
    intros c w' [Hn _]. exact Hn.
  - apply (repeat_new_genomes _
             (fun w1 => Forall (fun i => is_Some (genome_store w1 !! genome i))
                               [a]));
      [apply Hmono | | exact Hok | exact Hall].
    intros w1 Hok1 H1. apply Forall_cons in H1 as [[gs Hgs] _].
    eapply clone_child_returns; eassumption.
  - apply (repeat_new_genomes _
             (fun w1 => Forall (fun i => is_Some (genome_store w1 !! genome i))
                               (a :: b :: rest)));
      [apply Hmono | | exact Hok | exact Hall].
    intros w1 Hok1 H1. apply cross_child_returns; [exact Hok1 | | exact H1].
    simpl. lia.
Qed.

End GenomeFacts.

(** * Genes and genomes as objects *)

Lemma two_genome_world_ok : heap_ok two_genome_world.
Proof.
  split.
  - intros l g H. unfold two_genome_world in H. cbn [gene_store] in H.
    repeat (apply lookup_insert_Some in H as [[_ <-] | [_ H]];
            [vm_compute; eauto |]).
    apply lookup_singleton_Some in H as [_ <-]. vm_compute. eauto.
  - intros l gs H. unfold two_genome_world in H. cbn [genome_store] in H.
    apply lookup_insert_Some in H as [[_ <-] | [_ H]].
    + repeat constructor; vm_compute; eauto.
    + apply lookup_singleton_Some in H as [_ <-].
      repeat constructor; vm_compute; eauto.
Qed.

(** X13: [Gene.copy] returns a new object with the same five field values,
    draws nothing and leaves every existing object unchanged; mutating
    the copy afterwards does not touch the original. *)
Theorem Gene_copy_independent (w : World) (l : loc) (g : Gene) :
  gene_store w !! l = Some g -> is_Some (to_int g) ->
  exists l' w' w'',
    Gene_copy l w = Some (l', w')
    /\ l' <> l /\ gene_store w !! l' = None
    /\ gene_store w' !! l' = Some g
    /\ extends w w' /\ cursor w' = cursor w
    /\ Gene_mutate l' w' = Some (tt, w'')
    /\ gene_store w'' !! l = Some g.
Proof.
  intros Hl Hg.
  destruct (Heap.Gene_copy_returns w l g
              (fun l' w' =>
                 l' = fresh (dom (gene_store w))
                 /\ w' = mkWorld (<[l' := g]> (gene_store w)) (genome_store w)
                                 (tape w) (cursor w)) Hl)
    as (l' & w' & Hcopy & -> & ->); [split; reflexivity |].
  set (l' := fresh (dom (gene_store w))) in *.
  set (w' := mkWorld _ _ _ _) in *.
  assert (Hfresh : gene_store w !! l' = None) by apply Heap.fresh_gene.
  assert (Hne : l' <> l) by congruence.
  assert (Hl' : gene_store w' !! l' = Some g)
    by (unfold w'; cbn [gene_store]; apply lookup_insert_eq).
  destruct (Heap.Gene_mutate_returns w' l' g
              (fun _ w'' => gene_store w'' !! l = Some g) Hl' Hg)
    as ([] & w'' & Hmut & Hkeep).
  { intros p. cbn [gene_store]. unfold w'. cbn [gene_store].
    rewrite !lookup_insert_ne by exact Hne. exact Hl. }
  exists l', w', w''. split; [exact Hcopy |]. split; [exact Hne |].
  split; [exact Hfresh |]. split; [exact Hl' |].
  split; [apply (GenomeFacts.copy_allocates w l g Hl) |].
  split; [reflexivity |]. split; [exact Hmut | exact Hkeep].
Qed.

Lemma Gene_copy_independent_witness :
  gene_store two_genome_world !! 2%positive = Some quarter_gene
  /\ is_Some (to_int quarter_gene)
  /\ exists l' w' w'',
       Gene_copy 2%positive two_genome_world = Some (l', w')
       /\ l' <> 2%positive /\ gene_store two_genome_world !! l' = None
       /\ gene_store w' !! l' = Some quarter_gene
       /\ extends two_genome_world w'
       /\ cursor w' = cursor two_genome_world
       /\ Gene_mutate l' w' = Some (tt, w'')
       /\ gene_store w'' !! 2%positive = Some quarter_gene.
Proof.
  assert (H1 : gene_store two_genome_world !! 2%positive = Some quarter_gene)
    by reflexivity.
  assert (H2 : is_Some (to_int quarter_gene)) by (vm_compute; eauto).
  split; [exact H1 |]. split; [exact H2 |].
  apply (Gene_copy_independent two_genome_world 2%positive quarter_gene
           H1 H2).
Defined.

(** X14: [Genome.random(n)] never raises: it returns a new genome object
    made of exactly [max(n, 0)] new, pairwise distinct gene objects, and
    leaves every existing gene and genome unchanged. *)
Theorem Genome_random_new (w : World) (n : Z) :
  heap_ok w ->
  exists c w' gs,
    Genome_random n w = Some (c, w')
    /\ genome_store w !! c = None /\ genome_store w' !! c = Some gs
    /\ length gs = Z.to_nat (Z.max n 0)
    /\ new_genes w gs w' /\ extends w w' /\ heap_ok w'.
Proof.
  intros Hok.
  destruct (GenomeFacts.Genome_random_returns n w Hok)
    as (c & w' & Hrun & (E & Hok' & Hc & gs & Hgs & Hnew) & gs2 & Hgs2 & Hlen).
  exists c, w', gs. split; [exact Hrun |]. split; [exact Hc |].
  split; [exact Hgs |]. split; [| auto].
  rewrite Hgs in Hgs2. injection Hgs2 as <-. rewrite Hlen. lia.
Qed.

Lemma Genome_random_new_witness :
  heap_ok two_genome_world
  /\ exists c w' gs,
       Genome_random 3 two_genome_world = Some (c, w')
       /\ genome_store two_genome_world !! c = None
       /\ genome_store w' !! c = Some gs
       /\ length gs = Z.to_nat (Z.max 3 0)
       /\ new_genes two_genome_world gs w'
       /\ extends two_genome_world w' /\ heap_ok w'.
Proof.
  split; [exact two_genome_world_ok |].
  apply (Genome_random_new two_genome_world 3 two_genome_world_ok).
Defined.

(** X15: [Genome.crossover] on two genomes of a well-formed store never
    raises. The child is a new genome object of 1 to 50 genes, all of
    them new, pairwise distinct objects; its genes are, by value, the
    first [i] genes of the first parent followed by the genes of the
    second parent from position [j] on, cut after 50, or one random gene
    when that is empty; the parents and every other existing object are
    unchanged. *)
Theorem Genome_crossover_new_child (w : World) (a b : loc)
    (ga gb : list loc) :
  heap_ok w -> genome_store w !! a = Some ga ->
  genome_store w !! b = Some gb ->
  exists c w' cs i j,
    Genome_crossover a b w = Some (c, w')
    /\ genome_store w !! c = None /\ genome_store w' !! c = Some cs
    /\ new_genes w cs w' /\ extends w w' /\ heap_ok w'
    /\ (1 <= length cs <= 50)%nat
    /\ (i <= length ga)%nat /\ (j <= length gb)%nat
    /\ (if decide (take 50 (take i ga ++ drop j gb) = [])
        then length cs = 1%nat
        else gene_values w' cs
             = gene_values w (take 50 (take i ga ++ drop j gb))).
Proof.
  intros Hok Ha Hb.
  destruct (GenomeFacts.Genome_crossover_returns a b ga gb w Hok Ha Hb)
    as (c & w' & Hrun & (E & Hok' & Hc & gs & Hgs & Hnew)
        & cs & Hcs & Hlen & i & j & Hi & Hj & Hval).
  rewrite Hgs in Hcs. injection Hcs as <-.
  exists c, w', gs, i, j. repeat (split; [assumption |]). exact Hval.
Qed.

Lemma Genome_crossover_new_child_witness :
  heap_ok two_genome_world
  /\ genome_store two_genome_world !! 1%positive
     = Some [1%positive; 2%positive]
  /\ genome_store two_genome_world !! 2%positive
     = Some [3%positive; 4%positive]
  /\ exists c w' cs i j,
       Genome_crossover 1%positive 2%positive two_genome_world = Some (c, w')
       /\ genome_store two_genome_world !! c = None
       /\ genome_store w' !! c = Some cs
       /\ new_genes two_genome_world cs w'
       /\ extends two_genome_world w' /\ heap_ok w'
       /\ (1 <= length cs <= 50)%nat
       /\ (i <= length [1%positive; 2%positive])%nat
       /\ (j <= length [3%positive; 4%positive])%nat
       /\ (if decide (take 50 (take i [1%positive; 2%positive]
                               ++ drop j [3%positive; 4%positive]) = [])
           then length cs = 1%nat
           else gene_values w' cs
                = gene_values two_genome_world
                    (take 50 (take i [1%positive; 2%positive]
                              ++ drop j [3%positive; 4%positive]))).
Proof.
  split; [exact two_genome_world_ok |].
  split; [reflexivity |]. split; [reflexivity |].
  apply (Genome_crossover_new_child two_genome_world 1%positive 2%positive
           [1%positive; 2%positive] [3%positive; 4%positive]
           two_genome_world_ok eq_refl eq_refl).
Defined.

(** X16: [Genome.mutate] on a genome of a well-formed store never raises
    and keeps the store well formed. Only the genes the genome had and
    the genome itself may change. The new list of genes is the old one
    with at most one gene removed, only when there were at least two,
    and then at most one new gene appended, only when there were fewer
    than 50: the length moves by at most one, stays at least 1 and stays
    at most 50. *)
Theorem Genome_mutate_safe (w : World) (self : loc) (rate : float)
    (gs : list loc) :
  heap_ok w -> genome_store w !! self = Some gs ->
  exists w' gs',
    Genome_mutate self rate w = Some (tt, w')
    /\ heap_ok w' /\ genome_store w' !! self = Some gs'
    /\ mutated_list w gs gs'
    /\ changes (list_to_set gs) {[ self ]} w w'
    /\ (length gs - 1 <= length gs' <= length gs + 1)%nat
    /\ (1 <= length gs -> 1 <= length gs')%nat
    /\ (length gs <= 50 -> length gs' <= 50)%nat.
Proof.
  intros Hok Hs.
  destruct (GenomeFacts.Genome_mutate_returns self rate gs w Hok Hs)
    as ([] & w' & Hrun & Hok' & Hch & gs' & Hgs' & Hmut).
  exists w', gs'. repeat (split; [assumption |]).
  destruct Hmut as (mid & Hmid & Hshape).
  assert (Hm : (length mid = length gs
                \/ (length mid = length gs - 1 /\ 1 < length gs))%nat).
  { destruct Hmid as [-> | (i & Hi & Hlen & ->)]; [left; reflexivity |].
    right. split; [| exact Hlen]. apply length_delete.
    apply lookup_lt_is_Some_2, Hi. }
  assert (Hg : (length gs' = length mid
                \/ (length gs' = length mid + 1 /\ length mid < 50))%nat).
  { destruct Hshape as [-> | (l & -> & Hlen & _)]; [left; reflexivity |].
    right. rewrite length_app. simpl. lia. }
  lia.
Qed.

Lemma Genome_mutate_safe_witness :
  heap_ok two_genome_world
  /\ genome_store two_genome_world !! 1%positive
     = Some [1%positive; 2%positive]
  /\ exists w' gs',
       Genome_mutate 1%positive F64.half two_genome_world = Some (tt, w')
       /\ heap_ok w' /\ genome_store w' !! 1%positive = Some gs'
       /\ mutated_list two_genome_world [1%positive; 2%positive] gs'
       /\ changes (list_to_set [1%positive; 2%positive]) {[ 1%positive ]}
                  two_genome_world w'
       /\ (length [1%positive; 2%positive] - 1 <= length gs'
           <= length [1%positive; 2%positive] + 1)%nat
       /\ (1 <= length [1%positive; 2%positive] -> 1 <= length gs')%nat
       /\ (length [1%positive; 2%positive] <= 50 -> length gs' <= 50)%nat.
Proof.
  split; [exact two_genome_world_ok |]. split; [reflexivity |].
  apply (Genome_mutate_safe two_genome_world 1%positive F64.half
           [1%positive; 2%positive] two_genome_world_ok eq_refl).
Defined.

(** X17: [Simulation.reproduce] on survivors whose genomes are in a
    well-formed store never raises, whether there are none, one or
    several survivors. It returns [population_size] genomes (none for a
    negative size), all of them new, pairwise distinct objects, and
    leaves the genomes and genes of the survivors, like every other
    existing object, unchanged. *)
Theorem reproduce_safe (s : Simulation) (survivors : list Individual)
    (w : World) :
  heap_ok w ->
  Forall (fun i => is_Some (genome_store w !! genome i)) survivors ->
  exists children w',
    reproduce s survivors w = Some (children, w')
    /\ length children = Z.to_nat (population_size s)
    /\ NoDup children
    /\ Forall (fun c => genome_store w !! c = None
                        /\ is_Some (genome_store w' !! c)) children
    /\ extends w w' /\ heap_ok w'.
Proof.
  intros Hok Hall.
  destruct (GenomeFacts.reproduce_returns s survivors w Hok Hall)
    as (cs & w' & Hrun & E & Hok' & Hlen & Nd & Fa).
  exists cs, w'. repeat (split; [assumption |]). exact Hok'.
Qed.

Lemma reproduce_safe_witness :
  heap_ok two_genome_world
  /\ Forall (fun i => is_Some (genome_store two_genome_world !! genome i))
            sample_survivors
  /\ exists children w',
       reproduce sample_simulation sample_survivors two_genome_world
       = Some (children, w')
       /\ length children = Z.to_nat (population_size sample_simulation)
       /\ NoDup children
       /\ Forall (fun c => genome_store two_genome_world !! c = None
                           /\ is_Some (genome_store w' !! c)) children
       /\ extends two_genome_world w' /\ heap_ok w'.
Proof.
  assert (H : Forall (fun i => is_Some (genome_store two_genome_world
                                          !! genome i)) sample_survivors)
    by (repeat constructor; vm_compute; eauto).
  split; [exact two_genome_world_ok |]. split; [exact H |].
  apply (reproduce_safe sample_simulation sample_survivors two_genome_world
           two_genome_world_ok H).
Defined.

(** * Valid genes *)

(** X25: [Gene.random()] never raises, whatever the generator draws. It
    makes five draws and returns a new object, leaving the others
    untouched; the new gene is valid: kinds 0 or 1, identifiers from 0
    to 127 and a weight that is a binary64 number between -4.0 and 4.0,
    both included, the float rounding of [-4.0 + 8.0 * r] taken into
    account. *)
Theorem Gene_random_valid (w : World) :
  exists l g,
    Gene_random w
    = Some (l, mkWorld (<[l := g]> (gene_store w)) (genome_store w)
                       (tape w) (5 + cursor w))
    /\ gene_store w !! l = None
    /\ valid_gene g.
Proof.
  destruct (Heap.Gene_random_returns w
              (fun l w' =>
                 exists g,
                   w' = mkWorld (<[l := g]> (gene_store w)) (genome_store w)
                                (tape w) (5 + cursor w)
                   /\ gene_store w !! l = None /\ valid_gene g))
    as (l & w' & Hrun & g & -> & Hfresh & Hvalid).
  { intros g Hv _. exists g. split; [reflexivity |].
    split; [apply Heap.fresh_gene | exact Hv]. }
  exists l, g. split; [exact Hrun |]. split; assumption.
Qed.

(** X26: [Gene.from_int] on a 32-bit word gives a valid gene, with a
    weight between -4.0 and 4.0, for every weight code but one: the code
    0x8000 decodes to -32768 / 32767 * 4, a weight below -4.0. *)
Theorem from_int_valid (p : Z) :
  0 <= p < 2 ^ 32 ->
  (valid_gene (from_int p) <-> Z.land p 0xFFFF <> 32768)
  /\ (Z.land p 0xFFFF = 32768 ->
      F64.ltb (weight (from_int p)) F64.neg_four = true).
Proof.
  intros Hp.
  assert (Hu : 0 <= Z.land p 0xFFFF < 65536).
  { change 65535 with (Z.ones 16). rewrite Z.land_ones by lia.
    apply Z.mod_pos_bound. lia. }
  assert (Hbit : forall a, Z.land a 1 = 0 \/ Z.land a 1 = 1).
  { intros a. change 1 with (Z.ones 1) at 1 2.
    rewrite Z.land_ones by lia. change (2 ^ 1) with 2.
    pose proof (Z.mod_pos_bound a 2 ltac:(lia)). lia. }
  assert (Hid : forall a, 0 <= Z.land a 127 <= 127).
  { intros a. change 127 with (Z.ones 7) at 1 2.
    rewrite Z.land_ones by lia. change (2 ^ 7) with 128.
    pose proof (Z.mod_pos_bound a 128 ltac:(lia)). lia. }
  split; [split |].
  - intros (_ & _ & _ & _ & _ & Hlo & _) E.
    unfold from_int in Hlo. cbn [weight] in Hlo. rewrite E in Hlo.
    vm_compute in Hlo. discriminate Hlo.
  - intros Hne.
    destruct (Validity.decode_weight_valid _ Hu Hne) as (V1 & V2 & V3).
    unfold valid_gene, from_int.
    cbn [source_type source_id sink_type sink_id weight].
    repeat split; try apply Hbit; try apply Hid; assumption.
  - intros E. unfold from_int. cbn [weight]. rewrite E.
    vm_compute. reflexivity.
Qed.

Lemma from_int_valid_witness :
  0 <= 2240184320 < 2 ^ 32
  /\ (valid_gene (from_int 2240184320)
      <-> Z.land 2240184320 0xFFFF <> 32768)
  /\ (Z.land 2240184320 0xFFFF = 32768 ->
      F64.ltb (weight (from_int 2240184320)) F64.neg_four = true).
Proof.
  split; [lia |]. apply (from_int_valid 2240184320). lia.
Defined.

(** X27: The selection criteria on a creature inside the world: the right
    quarter lies in the right half; the left half is the complement of
    the right half; the corners are empty when the world is less than 4
    cells wide or high; and a selection value that is none of the five
    criteria lets every creature survive. *)
Theorem selection_criteria_relations (w h x y : Z) :
  0 <= x < w -> 0 <= y < h ->
  (survives_at RIGHT_QUARTER w h x y = true ->
   survives_at RIGHT_HALF w h x y = true)
  /\ survives_at LEFT_HALF w h x y = negb (survives_at RIGHT_HALF w h x y)
  /\ (w < 4 \/ h < 4 -> survives_at CORNERS w h x y = false)
  /\ (forall sel, ~ (0 <= sel <= 4) -> survives_at sel w h x y = true).
Proof.
  intros Hx Hy.
  assert (E0 : survives_at RIGHT_HALF w h x y = (w / 2 <=? x))
    by reflexivity.
  assert (E1 : survives_at LEFT_HALF w h x y = (x <? w / 2))
    by reflexivity.
  assert (E3 : survives_at CORNERS w h x y
               = ((x <? w / 4) || (w - w / 4 <=? x))
                 && ((y <? h / 4) || (h - h / 4 <=? y)))
    by reflexivity.
  assert (E4 : survives_at RIGHT_QUARTER w h x y = (w * 3 / 4 <=? x))
    by reflexivity.
  rewrite E0, E1, E3, E4. split; [| split; [| split]].
  - rewrite !Z.leb_le. intros H.
    assert (Hd : w / 2 <= w * 3 / 4); [| lia].
    apply Z.div_le_lower_bound; [lia |].
    pose proof (Z.mul_div_le w 2 ltac:(lia)). lia.
  - destruct (Z.leb_spec (w / 2) x), (Z.ltb_spec x (w / 2));
      (reflexivity || lia).
  - intros Hs.
    assert (Hq : w / 4 = 0 \/ h / 4 = 0).
    { destruct Hs; [left | right]; apply Z.div_small; lia. }
    destruct (Z.ltb_spec x (w / 4)), (Z.leb_spec (w - w / 4) x),
      (Z.ltb_spec y (h / 4)), (Z.leb_spec (h - h / 4) y);
      try reflexivity; lia.
  - intros sel Hs. unfold survives_at, RIGHT_HALF, LEFT_HALF,
      CENTER_CIRCLE, CORNERS, RIGHT_QUARTER.
    destruct (Z.eqb_spec sel 0); [lia |].
    destruct (Z.eqb_spec sel 1); [lia |].
    destruct (Z.eqb_spec sel 2); [lia |].
    destruct (Z.eqb_spec sel 3); [lia |].
    destruct (Z.eqb_spec sel 4); [lia |]. reflexivity.
Qed.

Lemma selection_criteria_relations_witness :
  0 <= 2 < 3 /\ 0 <= 5 < 8
  /\ (survives_at RIGHT_QUARTER 3 8 2 5 = true ->
      survives_at RIGHT_HALF 3 8 2 5 = true)
  /\ survives_at LEFT_HALF 3 8 2 5 = negb (survives_at RIGHT_HALF 3 8 2 5)
  /\ (3 < 4 \/ 8 < 4 -> survives_at CORNERS 3 8 2 5 = false)
  /\ (forall sel, ~ (0 <= sel <= 4) -> survives_at sel 3 8 2 5 = true).
Proof.
  split; [lia |]. split; [lia |].
  apply (selection_criteria_relations 3 8 2 5); lia.
Defined.

(** * Creatures *)

Module IndividualFacts.

Import Heap.

Lemma advance_advance (j k : nat) (w : World) :
  advance j (advance k w) = advance (j + k) w.
Proof.
  unfold advance. cbn [gene_store genome_store tape cursor].
  f_equal. lia.
Qed.

Lemma fires_returns (self : Individual) (val : float) (w : World)
    (Q : bool -> World -> Prop) :
  (forall b, Q b (advance 1 w)) -> returns (fires self val) w Q.
Proof. intros HQ. eexists _, _. split; [reflexivity | apply HQ]. Qed.

Lemma choice3_returns (w : World) (Q : Z -> World -> Prop) :
  (forall v, -1 <= v <= 1 -> Q v (advance 1 w)) ->
  returns (choice [-1; 0; 1]) w Q.
Proof.
  intros HQ. unfold returns, choice, bind, raw, lift_option.
  cbn [tape cursor gene_store genome_store length].
  pose proof (Z.mod_pos_bound (tape w (cursor w)) (Z.of_nat 3) ltac:(lia))
    as Hk.
  destruct (Z.to_nat (tape w (cursor w) mod Z.of_nat 3))
    as [| [| [| n]]] eqn:E; [| | | lia];
    cbn [lookup list_lookup]; eexists _, _;
    (split; [reflexivity | apply HQ; lia]).
Qed.

(** The end of [execute_actions], from the clamping on. *)
Lemma move_returns (self : Individual) (resp : float) (a b : Z)
    (grid : Grid) (w : World) :
  in_bounds grid (ind_x self) (ind_y self) = true ->
  returns
    (if negb (Z.max (-1) (Z.min 1 a) =? 0)
        || negb (Z.max (-1) (Z.min 1 b) =? 0)
     then
       if in_bounds grid (ind_x self + Z.max (-1) (Z.min 1 a))
                         (ind_y self + Z.max (-1) (Z.min 1 b))
       then
         let* e := lift_option
                     (is_empty grid (ind_x self + Z.max (-1) (Z.min 1 a))
                                    (ind_y self + Z.max (-1) (Z.min 1 b))) in
         if e : bool
         then
           let* grid' :=
             lift_option
               (Grid_move grid (ind_x self) (ind_y self)
                          (ind_x self + Z.max (-1) (Z.min 1 a))
                          (ind_y self + Z.max (-1) (Z.min 1 b))) in
           ret (mkIndividual (genome self)
                  (ind_x self + Z.max (-1) (Z.min 1 a))
                  (ind_y self + Z.max (-1) (Z.min 1 b)) (brain self)
                  (alive self) (Z.max (-1) (Z.min 1 a))
                  (Z.max (-1) (Z.min 1 b)) resp, grid')
         else ret (mkIndividual (genome self) (ind_x self) (ind_y self)
                     (brain self) (alive self) (last_dx self)
                     (last_dy self) resp, grid)
       else ret (mkIndividual (genome self) (ind_x self) (ind_y self)
                   (brain self) (alive self) (last_dx self) (last_dy self)
                   resp, grid)
     else ret (mkIndividual (genome self) (ind_x self) (ind_y self)
                 (brain self) (alive self) (last_dx self) (last_dy self)
                 resp, grid)) w
    (fun r w' =>
       w' = w /\ moved self grid (fst r) (snd r)
       /\ genome (fst r) = genome self /\ brain (fst r) = brain self
       /\ alive (fst r) = alive self /\ responsiveness (fst r) = resp).
Proof.
  intros Hb.
  set (dx := Z.max (-1) (Z.min 1 a)). set (dy := Z.max (-1) (Z.min 1 b)).
  assert (Hstay : forall w0,
             returns (ret (mkIndividual (genome self) (ind_x self)
                             (ind_y self) (brain self) (alive self)
                             (last_dx self) (last_dy self) resp, grid)) w0
               (fun r w' =>
                  w' = w0 /\ moved self grid (fst r) (snd r)
                  /\ genome (fst r) = genome self
                  /\ brain (fst r) = brain self
                  /\ alive (fst r) = alive self
                  /\ responsiveness (fst r) = resp)).
  { intros w0. apply returns_ret. split; [reflexivity |].
    split; [left; cbn; auto | cbn; auto]. }
  destruct (negb (dx =? 0) || negb (dy =? 0)) eqn:Hmv; [| apply Hstay].
  destruct (in_bounds grid (ind_x self + dx) (ind_y self + dy)) eqn:Hn;
    [| apply Hstay].
  unfold is_empty at 1. rewrite (GridFacts.cell_in_bounds _ _ _ Hn).
  cbn [mbind option_bind].
  set (e := (default 0 (data grid !! (ind_x self + dx, ind_y self + dy)) =? 0)
            && negb (is_barrier grid (ind_x self + dx) (ind_y self + dy))).
  assert (He : is_empty grid (ind_x self + dx) (ind_y self + dy) = Some e).
  { unfold is_empty. rewrite (GridFacts.cell_in_bounds _ _ _ Hn). reflexivity. }
  apply returns_bind. eapply returns_lift; [reflexivity |].
  destruct e eqn:Ee; [| apply Hstay].
  destruct (GridFacts.Grid_move_cells grid (ind_x self) (ind_y self)
              (ind_x self + dx) (ind_y self + dy) Hb Hn)
    as (g' & Hg' & _).
  apply returns_bind. eapply returns_lift; [exact Hg' |].
  apply returns_ret. split; [reflexivity |].
  split; [| cbn; auto]. right.
  cbn [fst snd ind_x ind_y last_dx last_dy].
  replace (ind_x self + dx - ind_x self) with dx by lia.
  replace (ind_y self + dy - ind_y self) with dy by lia.
  cbv zeta.
  assert (Hne : dx <> 0 \/ dy <> 0).
  { apply orb_true_iff in Hmv as [H | H]; apply negb_true_iff in H;
      apply Z.eqb_neq in H; auto. }
  repeat split; try assumption; unfold dx, dy; lia.
Qed.

Lemma execute_actions_returns (self : Individual) (outs : gmap Z float)
    (grid : Grid) (w : World) :
  (forall k, 0 <= k < 5 -> is_Some (outs !! k)) ->
  in_bounds grid (ind_x self) (ind_y self) = true ->
  returns (execute_actions self outs grid) w
    (fun r w' =>
       (exists k, w' = advance k w)
       /\ moved self grid (fst r) (snd r)
       /\ genome (fst r) = genome self /\ brain (fst r) = brain self
       /\ alive (fst r) = alive self
       /\ exists val,
            outs !! 4 = Some val
            /\ responsiveness (fst r)
               = F64.div (F64.add (responsiveness self)
                            (F64.div (F64.add val (F64.of_int 1))
                                     (F64.of_int 2)))
                         (F64.of_int 2)).
Proof.
  intros Hk Hb. unfold execute_actions.
  destruct (Hk 0 ltac:(lia)) as [v0 E0]. destruct (Hk 1 ltac:(lia)) as [v1 E1].
  destruct (Hk 2 ltac:(lia)) as [v2 E2]. destruct (Hk 3 ltac:(lia)) as [v3 E3].
  destruct (Hk 4 ltac:(lia)) as [v4 E4].
  cbv zeta.
  apply returns_bind. eapply returns_lift; [exact E0 |].
  apply returns_bind, fires_returns. intros go0.
  apply returns_bind. eapply returns_lift; [exact E1 |].
  apply returns_bind, fires_returns. intros go1.
  apply returns_bind. eapply returns_lift; [exact E2 |].
  apply returns_bind, fires_returns. intros go2.
  apply returns_bind. eapply returns_lift; [exact E3 |].
  apply returns_bind, fires_returns. intros go3.
  rewrite !advance_advance.
  apply returns_bind.
  apply (returns_mono _ _ (fun _ w' => exists k, w' = advance k w)).
  { destruct go3.
    - apply returns_bind, choice3_returns. intros rx _.
      apply returns_bind, choice3_returns. intros ry _.
      apply returns_ret. rewrite !advance_advance. eauto.
    - apply returns_ret. eauto. }
  intros rnd w1 [k ->].
  apply returns_bind. eapply returns_lift; [exact E4 |].
  eapply returns_mono; [apply move_returns, Hb |].
  intros r w' (-> & Hm & Hg & Hbr & Ha & Hr).
  split; [eauto |]. repeat (split; [assumption |]).
  exists v4. split; [exact E4 | exact Hr].
Qed.

End IndividualFacts.

(** X18: [Individual.execute_actions], given the five action outputs and a
    creature standing inside the grid, never raises. Either the
    position, the grid and the last direction are unchanged, or the
    creature moves by at most one cell along each axis onto a cell that
    was inside the grid and empty, the grid moves its cell content there
    and the move is recorded as the last direction. The genome, the
    brain and the alive flag are kept. The responsiveness is replaced on
    every call, moved or not, by [(responsiveness + (val + 1) / 2) / 2]
    for the fifth output [val]. Of the store only the generator
    advances. *)
Theorem execute_actions_moves (self : Individual) (outs : gmap Z float)
    (g : Grid) (w : World) :
  (forall k, 0 <= k < 5 -> is_Some (outs !! k)) ->
  in_bounds g (ind_x self) (ind_y self) = true ->
  exists self' g' k,
    execute_actions self outs g w = Some ((self', g'), advance k w)
    /\ moved self g self' g'
    /\ genome self' = genome self /\ brain self' = brain self
    /\ alive self' = alive self
    /\ exists val,
         outs !! 4 = Some val
         /\ responsiveness self'
            = F64.div (F64.add (responsiveness self)
                         (F64.div (F64.add val (F64.of_int 1))
                                  (F64.of_int 2)))
                      (F64.of_int 2).
Proof.
  intros Hk Hb.
  destruct (IndividualFacts.execute_actions_returns self outs g w Hk Hb)
    as ([self' g'] & w' & Hrun & [k ->] & Hrest).
  exists self', g', k. split; [exact Hrun | exact Hrest].
Qed.

Lemma execute_actions_moves_witness :
  (forall k, 0 <= k < 5 -> is_Some (sample_outputs !! k))
  /\ in_bounds sample_grid (ind_x sample_creature) (ind_y sample_creature)
     = true
  /\ exists self' g' k,
       execute_actions sample_creature sample_outputs sample_grid
                       one_gene_world
       = Some ((self', g'), advance k one_gene_world)
       /\ moved sample_creature sample_grid self' g'
       /\ genome self' = genome sample_creature
       /\ brain self' = brain sample_creature
       /\ alive self' = alive sample_creature
       /\ exists val,
            sample_outputs !! 4 = Some val
            /\ responsiveness self'
               = F64.div (F64.add (responsiveness sample_creature)
                            (F64.div (F64.add val (F64.of_int 1))
                                     (F64.of_int 2)))
                         (F64.of_int 2).
Proof.
  assert (H1 : forall k, 0 <= k < 5 -> is_Some (sample_outputs !! k)).
  { intros k Hk. unfold sample_outputs.
    destruct (decide (k = 0)) as [-> | N].
    - rewrite lookup_insert_eq. eauto.
    - rewrite lookup_insert_ne by congruence.
      rewrite (zeros_lookup (fun x => x)), bool_decide_eq_true_2 by lia.
      eauto. }
  assert (H2 : in_bounds sample_grid (ind_x sample_creature)
                         (ind_y sample_creature) = true) by reflexivity.
  split; [exact H1 |]. split; [exact H2 |].
  apply (execute_actions_moves sample_creature sample_outputs sample_grid
           one_gene_world H1 H2).
Defined.

(** * Sensing and stepping *)

Module SensorFacts.

Import Heap.

Lemma count_adjacent_total (self : Individual) (g : Grid) :
  exists n, count_adjacent self g = Some n /\ 0 <= n <= 4.
Proof.
  unfold count_adjacent.
  destruct (GridFacts.fold_opt_weight
              (fun n d =>
                 let nx := ind_x self + fst d in
                 let ny := ind_y self + snd d in
                 if in_bounds g nx ny
                 then occ ← is_occupied g nx ny;
                      Some (if occ : bool then n + 1 else n)
                 else Some n)
              (fun _ => 1) [(-1, 0); (1, 0); (0, -1); (0, 1)]) with (c := 0)
    as (n & Hn & Hb).
  - intros c d. cbv zeta.
    destruct (in_bounds g (ind_x self + d.1) (ind_y self + d.2)) eqn:Hb;
      [| exists c; split; [reflexivity | lia]].
    unfold is_occupied. rewrite (GridFacts.cell_in_bounds _ _ _ Hb).
    cbn [mbind option_bind].
    match goal with |- context [negb ?b] => destruct (negb b) end;
      eexists; (split; [reflexivity | lia]).
  - exists n. split; [exact Hn |]. simpl in Hb. lia.
Qed.

Lemma insert_is_Some (m : gmap Z float) (i k : Z) (v : float) :
  is_Some (<[i := v]> m !! k) <-> k = i \/ is_Some (m !! k).
Proof.
  destruct (decide (i = k)) as [-> | N].
  - rewrite lookup_insert_eq. split; [auto | eauto].
  - rewrite lookup_insert_ne by done. split; [auto |].
    intros [-> | H]; [done | exact H].
Qed.

Lemma zeros_is_Some (n k : Z) : is_Some (zeros n !! k) <-> 0 <= k < n.
Proof.
  rewrite (zeros_lookup (fun x => x)). case_bool_decide; split; intros H';
    try (destruct H' as [? H']; discriminate H'); eauto; lia.
Qed.

Section Sensors.

Variable tanh : float -> float.
Variable sin : float -> float.

Lemma compute_sensors_returns (self : Individual) (g : Grid)
    (step spg : Z) (w : World) :
  width g <> 1 -> height g <> 1 -> Z.min (width g) (height g) / 2 <> 0 ->
  spg <> 0 ->
  returns (compute_sensors sin self g step spg) w (fun sv w' =>
    w' = advance 1 w /\ forall k, is_Some (sv !! k) <-> 0 <= k < 12).
Proof.
  intros Hw Hh Hm Hs. unfold compute_sensors, int_truediv, float_div_int.
  cbv zeta.
  destruct (Z.eqb_spec (width g - 1) 0) as [? | N1]; [lia |].
  destruct (Z.eqb_spec (height g - 1) 0) as [? | N2]; [lia |].
  destruct (Z.eqb_spec (Z.min (width g) (height g) / 2) 0) as [? | N3];
    [lia |].
  destruct (Z.eqb_spec spg 0) as [? | N4]; [lia |].
  apply returns_bind. eapply returns_lift; [reflexivity |].
  apply returns_bind. eapply returns_lift; [reflexivity |].
  apply returns_bind. eapply returns_lift; [reflexivity |].
  apply returns_bind. eapply returns_lift; [reflexivity |].
  apply returns_bind. eapply returns_lift; [reflexivity |].
  apply returns_bind. eapply returns_lift; [reflexivity |].
  apply returns_bind, random_random_returns. intros rnd.
  destruct (count_adjacent_total self g) as (n & Hn & _).
  apply returns_bind. eapply returns_lift; [exact Hn |].
  apply returns_bind.
  apply (returns_mono _ _ (fun _ w' => w' = advance 1 w)).
  { destruct (in_bounds g (ind_x self + last_dx self)
                          (ind_y self + last_dy self)) eqn:Hb.
    - cbn [negb]. unfold is_empty.
      rewrite (GridFacts.cell_in_bounds _ _ _ Hb). cbn [mbind option_bind].
      apply returns_bind. eapply returns_lift; [reflexivity |].
      apply returns_ret. reflexivity.
    - cbn [negb]. apply returns_ret. reflexivity. }
  intros blocked w' ->.
  apply returns_bind. eapply returns_lift; [reflexivity |].
  apply returns_ret. split; [reflexivity |].
  intros k. rewrite !insert_is_Some, zeros_is_Some. lia.
Qed.

Lemma compute_sensors_raises (self : Individual) (g : Grid)
    (step spg : Z) (w : World) :
  width g = 1 \/ height g = 1 \/ Z.min (width g) (height g) / 2 = 0
  \/ spg = 0 ->
  compute_sensors sin self g step spg w = None.
Proof.
  intros H. unfold compute_sensors, int_truediv, float_div_int, bind,
    lift_option. cbv zeta.
  destruct (Z.eqb_spec (width g - 1) 0) as [? | N1]; [reflexivity |].
  destruct (Z.eqb_spec (height g - 1) 0) as [? | N2]; [reflexivity |].
  destruct (Z.eqb_spec (Z.min (width g) (height g) / 2) 0) as [? | N3];
    [reflexivity |].
  destruct (Z.eqb_spec spg 0) as [? | N4]; [reflexivity |]. lia.
Qed.

Lemma take_step_returns (self : Individual) (i : nat) (g : Grid)
    (step spg : Z) (w : World) :
  2 <= width g -> 2 <= height g -> spg <> 0 -> placed g i self ->
  returns (take_step tanh sin self g step spg) w (fun r w' =>
    (exists k, w' = advance k w)
    /\ moved self g (fst r) (snd r)
    /\ same_creature self (fst r) /\ brain_ok (brain (fst r))).
Proof.
  intros Hw Hh Hs (Hb & Hc & (Hna & Hconn) & Hdx & Hdy). unfold take_step.
  destruct (alive self) eqn:Hal; cbn [negb].
  2:{ apply returns_ret. split; [exists O; destruct w; reflexivity |].
      split; [left; auto |]. split; [split; reflexivity |].
      split; assumption. }
  apply returns_bind. eapply returns_mono.
  { apply compute_sensors_returns; try lia.
    assert (2 <= Z.min (width g) (height g)) by lia.
    pose proof (Z.div_le_mono 2 (Z.min (width g) (height g)) 2
                  ltac:(lia) ltac:(lia)) as Hd.
    change (2 / 2) with 1 in Hd. lia. }
  intros sv w1 (-> & _).
  destruct (feed_forward_in_range tanh (brain self) sv Hconn)
    as (outs & stored' & Hff & Houts & _).
  apply returns_bind. eapply returns_lift; [exact Hff |].
  cbn [fst snd].
  eapply returns_mono.
  { apply IndividualFacts.execute_actions_returns.
    - intros k Hk. rewrite Houts, Hna, bool_decide_eq_true_2 by exact Hk.
      eauto.
    - exact Hb. }
  intros [self' g'] w2 ([k ->] & Hm & Hgen & Hbr & Hal' & _).
  cbn [fst snd genome brain alive ind_x ind_y last_dx last_dy] in *.
  split; [exists (k + 1)%nat; apply IndividualFacts.advance_advance |].
  split; [exact Hm |].
  split; [split; [exact Hgen | rewrite Hal', Hal; reflexivity] |].
  rewrite Hbr. split; assumption.
Qed.

End Sensors.

End SensorFacts.

(** * The simulation loop *)

Module SimFacts.

Import Heap.

Lemma is_empty_true (g : Grid) (x y : Z) :
  is_empty g x y = Some true -> cell g x y = Some 0.
Proof.
  unfold is_empty. destruct (cell g x y) as [v |]; [| discriminate].
  simpl. intros [= H]. apply andb_true_iff in H as [H _].
  apply Z.eqb_eq in H. congruence.
Qed.

Lemma in_bounds_dims (g g' : Grid) (x y : Z) :
  width g' = width g -> height g' = height g ->
  in_bounds g' x y = in_bounds g x y.
Proof. intros Hw Hh. unfold in_bounds. rewrite Hw, Hh. reflexivity. Qed.

(** A creature that moves stays placed and leaves the others placed. *)
Lemma moved_placed (g g' : Grid) (i : nat) (self self' : Individual) :
  placed g i self -> moved self g self' g' -> brain_ok (brain self') ->
  width g' = width g /\ height g' = height g
  /\ barriers g' = barriers g
  /\ placed g' i self'
  /\ forall j other, j <> i -> placed g j other -> placed g' j other.
Proof.
  intros (Hb & Hc & Hbr & Hdx & Hdy) Hm Hbr'.
  destruct Hm as [(Ex & Ey & -> & Edx & Edy) | Hm].
  - split; [reflexivity |]. split; [reflexivity |]. split; [reflexivity |].
    split; [| auto].
    unfold placed. rewrite Ex, Ey, Edx, Edy. auto.
  - cbv zeta in Hm.
    destruct Hm as (Hx & Hy & Hne & Hnb & Hemp & Hmove & Elx & Ely).
    destruct (GridFacts.Grid_move_cells g (ind_x self) (ind_y self)
                (ind_x self') (ind_y self') Hb Hnb)
      as (g2 & Hg2 & Hold & Hnew & Hother & Hw & Hh & Hbar).
    rewrite Hmove in Hg2. injection Hg2 as <-.
    assert (Hdiff : (ind_x self, ind_y self) <> (ind_x self', ind_y self')).
    { intros [= E1 E2]. lia. }
    split; [exact Hw |]. split; [exact Hh |]. split; [exact Hbar |]. split.
    + unfold placed. rewrite (in_bounds_dims g g') by assumption.
      rewrite (Hnew Hdiff), Elx, Ely. auto.
    + intros j other Hj (Ob & Oc & Orest).
      unfold placed. rewrite (in_bounds_dims g g') by assumption.
      split; [exact Ob |]. split; [| exact Orest].
      rewrite Hother; [exact Oc | exact Ob | |].
      * intros [= E1 E2]. rewrite E1, E2, Hc in Oc.
        injection Oc as Oc. apply Hj. lia.
      * intros [= E1 E2]. rewrite E1, E2 in Oc.
        rewrite (is_empty_true _ _ _ Hemp) in Oc. injection Oc as Oc. lia.
Qed.

Lemma same_creature_refl (a : Individual) : same_creature a a.
Proof. split; reflexivity. Qed.

Lemma same_creature_trans (a b c : Individual) :
  same_creature a b -> same_creature b c -> same_creature a c.
Proof. intros [H1 H2] [H3 H4]. split; congruence. Qed.

Lemma same_creatures_refl (l : list Individual) : Forall2 same_creature l l.
Proof. induction l; constructor; auto using same_creature_refl. Qed.

Lemma same_creatures_trans (l1 l2 l3 : list Individual) :
  Forall2 same_creature l1 l2 -> Forall2 same_creature l2 l3 ->
  Forall2 same_creature l1 l3.
Proof.
  intros H. revert l3. induction H as [| a b l1 l2 Hab _ IH]; intros l3 H3.
  - inversion H3. constructor.
  - inversion H3 as [| b' c l2' l3' Hbc Hrest]; subst.
    constructor; [eapply same_creature_trans; eauto | apply IH, Hrest].
Qed.

Lemma same_settings_refl (s : Simulation) : same_settings s s.
Proof. unfold same_settings. repeat split. Qed.

Lemma same_settings_trans (s1 s2 s3 : Simulation) :
  same_settings s1 s2 -> same_settings s2 s3 -> same_settings s1 s3.
Proof.
  unfold same_settings.
  intros (A1 & A2 & A3 & A4 & A5 & A6 & A7 & A8 & A9 & A10 & A11)
         (B1 & B2 & B3 & B4 & B5 & B6 & B7 & B8 & B9 & B10 & B11).
  repeat split; congruence.
Qed.

Lemma arena_ok_keep (s s' : Simulation) :
  same_settings s s' ->
  width (grid s') = width (grid s) -> height (grid s') = height (grid s) ->
  arena_ok s -> arena_ok s'.
Proof.
  intros (A1 & A2 & _ & _ & _ & A6 & _) Hw Hh.
  unfold arena_ok. rewrite Hw, Hh, A1, A2, A6. auto.
Qed.

Section Loop.

Variable tanh : float -> float.
Variable sin : float -> float.

Lemma step_from_returns (n : nat) :
  forall (i : nat) (s : Simulation) (w : World),
    consistent s ->
    returns (step_from tanh sin n i s) w (fun s' w' =>
      consistent s' /\ (exists k, w' = advance k w)
      /\ same_settings s s' /\ current_step s' = current_step s
      /\ barriers (grid s') = barriers (grid s)
      /\ Forall2 same_creature (individuals s) (individuals s')).
Proof.
  induction n as [| n IH]; intros i s w Hcons.
  - apply returns_ret. split; [exact Hcons |].
    split; [exists O; destruct w; reflexivity |].
    split; [apply same_settings_refl |]. split; [reflexivity |].
    split; [reflexivity | apply same_creatures_refl].
  - cbn [step_from]. destruct (individuals s !! i) as [indiv |] eqn:Hi.
    2:{ apply returns_ret. split; [exact Hcons |].
        split; [exists O; destruct w; reflexivity |].
        split; [apply same_settings_refl |]. split; [reflexivity |].
        split; [reflexivity | apply same_creatures_refl]. }
    destruct (alive indiv) eqn:Hal; cbn [negb]; [| apply IH, Hcons].
    destruct Hcons as (Har & Hpl).
    pose proof Har as (Gw & Gh & Ww & Wh & Hspg & _).
    apply returns_bind. eapply returns_mono.
    { apply (SensorFacts.take_step_returns tanh sin indiv i (grid s)
               (current_step s) (steps_per_gen s) w);
        [lia | lia | exact Hspg | apply Hpl, Hi]. }
    intros [ind' g'] w1 ([k1 ->] & Hm & Hsame & Hbr).
    cbn [fst snd] in *.
    destruct (moved_placed (grid s) g' i indiv ind' (Hpl i indiv Hi) Hm Hbr)
      as (Hw' & Hh' & Hbar' & Hpi & Hpo).
    set (s1 := set_grid (set_individuals s (<[i := ind']> (individuals s)))
                        g').
    assert (Hcons1 : consistent s1).
    { split.
      - apply (arena_ok_keep s s1); [| exact Hw' | exact Hh' | exact Har].
        unfold same_settings. repeat split.
      - intros j other Hj. unfold s1 in Hj. cbn [individuals set_grid
          set_individuals] in Hj. unfold s1. cbn [grid set_grid].
        destruct (decide (j = i)) as [-> | Hne].
        + rewrite list_lookup_insert_eq in Hj
            by (eapply lookup_lt_Some; eauto).
          injection Hj as <-. exact Hpi.
        + rewrite list_lookup_insert_ne in Hj by congruence.
          apply Hpo; [exact Hne | apply Hpl, Hj]. }
    eapply returns_mono; [apply (IH (S i) s1 (advance k1 w) Hcons1) |].
    intros s' w' (Hc' & [k2 ->] & Hset & Hstep & Hbar & Hcre).
    split; [exact Hc' |].
    split; [exists (k2 + k1)%nat; apply IndividualFacts.advance_advance |].
    split; [exact Hset |]. split; [exact Hstep |].
    split; [rewrite Hbar; exact Hbar' |].
    eapply same_creatures_trans; [| exact Hcre].
    unfold s1. cbn [individuals set_grid set_individuals].
    rewrite <- (list_insert_id (individuals s) i indiv Hi) at 1.
    apply Forall2_insert; [apply same_creatures_refl | exact Hsame].
Qed.

Lemma run_step_returns (s : Simulation) (w : World) :
  consistent s ->
  returns (run_step tanh sin s) w (fun s' w' =>
    consistent s' /\ (exists k, w' = advance k w)
    /\ same_settings s s' /\ current_step s' = current_step s + 1
    /\ barriers (grid s') = barriers (grid s)
    /\ Forall2 same_creature (individuals s) (individuals s')).
Proof.
  intros Hcons. unfold run_step. apply returns_bind. eapply returns_mono;
    [apply (step_from_returns _ 0 s w Hcons) |].
  intros s1 w1 (Hc1 & Hk & Hset & Hstep & Hbar & Hcre).
  apply returns_ret. split; [exact Hc1 |]. split; [exact Hk |].
  split; [exact Hset |]. cbn [current_step]. split; [lia |].
  split; [exact Hbar | exact Hcre].
Qed.

Lemma run_steps_returns (n : nat) :
  forall (s : Simulation) (w : World),
    consistent s ->
    returns (iterate_M n (run_step tanh sin) s) w (fun s' w' =>
      consistent s' /\ (exists k, w' = advance k w)
      /\ same_settings s s'
      /\ current_step s' = current_step s + Z.of_nat n
      /\ barriers (grid s') = barriers (grid s)
      /\ Forall2 same_creature (individuals s) (individuals s')).
Proof.
  induction n as [| n IH]; intros s w Hcons.
  - apply returns_ret. split; [exact Hcons |].
    split; [exists O; destruct w; reflexivity |].
    split; [apply same_settings_refl |]. split; [lia |].
    split; [reflexivity | apply same_creatures_refl].
  - cbn [iterate_M]. apply returns_bind. eapply returns_mono;
      [apply (run_step_returns s w Hcons) |].
    intros s1 w1 (Hc1 & [k1 ->] & Hset1 & Hstep1 & Hbar1 & Hcre1).
    eapply returns_mono; [apply (IH s1 (advance k1 w) Hc1) |].
    intros s' w' (Hc' & [k2 ->] & Hset & Hstep & Hbar & Hcre).
    split; [exact Hc' |].
    split; [exists (k2 + k1)%nat; apply IndividualFacts.advance_advance |].
    split; [eapply same_settings_trans; eauto |]. split; [lia |].
    split; [congruence | eapply same_creatures_trans; eauto].
Qed.

End Loop.

End SimFacts.

(** * Spawning *)

Module SpawnFacts.

Import Heap SimFacts.

(** *** Reading a run backwards *)

Lemma bind_inv {A B} (m : M A) (k : A -> M B) (w w2 : World) (b : B) :
  bind m k w = Some (b, w2) ->
  exists a w1, m w = Some (a, w1) /\ k a w1 = Some (b, w2).
Proof.
  unfold bind. destruct (m w) as [[a w1] |]; [| discriminate].
  intros H. exists a, w1. auto.
Qed.

Lemma ret_inv {A} (a b : A) (w w' : World) :
  ret a w = Some (b, w') -> b = a /\ w' = w.
Proof. unfold ret. intros [= <- <-]. auto. Qed.

Lemma lift_inv {A} (o : option A) (a : A) (w w' : World) :
  lift_option o w = Some (a, w') -> o = Some a /\ w' = w.
Proof. unfold lift_option. destruct o; [| discriminate]. intros [= <- <-]. auto. Qed.

Lemma randint_inv (a b v : Z) (w w' : World) :
  randint a b w = Some (v, w') -> a <= v <= b /\ w' = advance 1 w.
Proof.
  unfold randint. destruct (Z.ltb_spec b a); [discriminate |].
  unfold bind, raw, ret. intros [= <- <-]. split; [| reflexivity].
  pose proof (Z.mod_pos_bound (tape w (cursor w)) (b - a + 1)). lia.
Qed.

Lemma returns_inv {A} (m : M A) (w w' : World) (a : A)
    (Q : A -> World -> Prop) :
  returns m w Q -> m w = Some (a, w') -> Q a w'.
Proof. intros (a0 & w0 & H0 & HQ) H. congruence. Qed.

Lemma repeatM_length {A} (m : M A) (n : nat) :
  forall w l w', repeatM n m w = Some (l, w') -> length l = n.
Proof.
  induction n as [| n IH]; intros w l w' H; cbn [repeatM] in H.
  - apply ret_inv in H as [-> _]. reflexivity.
  - apply bind_inv in H as (a & w1 & _ & H).
    apply bind_inv in H as (l1 & w2 & Hl & H).
    apply ret_inv in H as [-> _]. simpl. f_equal. eapply IH, Hl.
Qed.

(** *** Finding a free cell *)

Lemma random_empty_location_inv (s : Simulation) (fuel : nat) :
  forall w x y w',
    random_empty_location fuel s w = Some ((x, y), w') ->
    0 <= x < world_width s /\ 0 <= y < world_height s
    /\ is_occupied (grid s) x y = Some false
    /\ is_barrier (grid s) x y = false
    /\ exists k, w' = advance k w.
Proof.
  induction fuel as [| fuel IH]; intros w x y w' H; [discriminate |].
  cbn [random_empty_location] in H.
  apply bind_inv in H as (x0 & w1 & Hx & H).
  apply randint_inv in Hx as [Hx ->].
  apply bind_inv in H as (y0 & w2 & Hy & H).
  apply randint_inv in Hy as [Hy ->].
  assert (Hlater : forall w0 : World,
             random_empty_location fuel s
               (advance 1 (advance 1 w)) = Some ((x, y), w0) ->
             0 <= x < world_width s /\ 0 <= y < world_height s
             /\ is_occupied (grid s) x y = Some false
             /\ is_barrier (grid s) x y = false
             /\ exists k, w0 = advance k w).
  { intros w0 H0. destruct (IH _ _ _ _ H0) as (A & B & C & D & k & ->).
    repeat (split; [assumption |]).
    exists (k + 2)%nat. rewrite !IndividualFacts.advance_advance.
    f_equal; lia. }
  destruct ((0 <=? x0) && (x0 <? world_width s)
            && ((0 <=? y0) && (y0 <? world_height s))) eqn:Hin;
    [| apply Hlater, H].
  apply bind_inv in H as (occ & w3 & Hocc & H).
  apply lift_inv in Hocc as [Hocc ->].
  destruct (negb occ && negb (is_barrier (grid s) x0 y0)) eqn:Hfree;
    [| apply Hlater, H].
  apply ret_inv in H as [[= -> ->] ->].
  apply andb_true_iff in Hfree as [Ho Hb].
  apply negb_true_iff in Ho, Hb. subst occ.
  rewrite !andb_true_iff, !Z.leb_le, !Z.ltb_lt in Hin.
  split; [lia |]. split; [lia |]. split; [exact Hocc |].
  split; [exact Hb |]. exists 2%nat. rewrite !IndividualFacts.advance_advance.
  reflexivity.
Qed.

(** *** Creating a creature *)

Lemma Individual_init_inv (gl : loc) (x y : Z) (w w' : World)
    (ind : Individual) :
  Individual_init gl x y w = Some (ind, w') ->
  w' = w /\ ind_x ind = x /\ ind_y ind = y /\ newborn ind gl
  /\ brain_ok (brain ind).
Proof.
  unfold Individual_init. intros H.
  apply bind_inv in H as (b & w1 & Hb & H).
  apply ret_inv in H as [-> ->].
  unfold Brain_new in Hb.
  destruct (genome_content w gl) as [genes |]; [| discriminate].
  cbn [mbind option_bind] in Hb.
  destruct (Brain_init genes NUM_SENSORS NUM_ACTIONS NUM_INTERNAL)
    as [b0 |] eqn:Hinit; [| discriminate].
  cbn [mbind option_bind] in Hb. injection Hb as <- <-.
  split; [reflexivity |]. cbn [ind_x ind_y brain].
  split; [reflexivity |]. split; [reflexivity |].
  split; [unfold newborn; cbn; auto |].
  unfold Brain_init in Hinit.
  destruct (mapM (resolve NUM_SENSORS NUM_ACTIONS NUM_INTERNAL) genes)
    as [conns |] eqn:Hm; [| discriminate].
  cbn [mbind option_bind] in Hinit. injection Hinit as <-.
  split; [reflexivity |]. cbn [num_actions num_internal connections].
  eapply resolved_sinks_in_range; [| | exact Hm];
    unfold NUM_ACTIONS, NUM_INTERNAL; lia.
Qed.

(** *** The placement loop *)

(** No two placed creatures stand on the same cell. *)
Lemma all_placed_distinct (s : Simulation) :
  all_placed s ->
  forall i j a b,
    individuals s !! i = Some a -> individuals s !! j = Some b ->
    ind_x a = ind_x b -> ind_y a = ind_y b -> i = j.
Proof.
  intros Hpl i j a b Ha Hb Ex Ey.
  destruct (Hpl i a Ha) as ((_ & Ca & _) & _).
  destruct (Hpl j b Hb) as ((_ & Cb & _) & _).
  rewrite Ex, Ey, Cb in Ca. injection Ca as Ca. lia.
Qed.

Lemma consistent_all_placed (s : Simulation) :
  consistent s -> all_placed s.
Proof.
  intros [(Gw & Gh & _) Hpl] i ind Hi.
  pose proof (Hpl i ind Hi) as Hp. split; [exact Hp |].
  destruct Hp as (Hb & _). apply GridFacts.in_bounds_spec in Hb. lia.
Qed.

Lemma place_all_placed (fuel : nat) (genomes : list loc) :
  forall (s : Simulation) (i : Z) (w : World) (s' : Simulation)
         (w' : World),
    all_placed s -> i = Z.of_nat (length (individuals s)) ->
    place_all fuel s i genomes w = Some (s', w') ->
    all_placed s' /\ same_settings s s'
    /\ current_step s' = current_step s
    /\ barriers (grid s') = barriers (grid s)
    /\ width (grid s') = width (grid s)
    /\ height (grid s') = height (grid s)
    /\ (exists k, w' = advance k w)
    /\ exists news, individuals s' = individuals s ++ news
                    /\ Forall2 newborn news genomes
                    /\ Forall (fun ind => is_barrier (grid s') (ind_x ind)
                                            (ind_y ind) = false) news.
Proof.
  induction genomes as [| gl rest IH]; intros s i w s' w' Hpl Hi H.
  - cbn [place_all] in H. apply ret_inv in H as [-> ->].
    split; [exact Hpl |]. split; [apply same_settings_refl |].
    split; [reflexivity |]. split; [reflexivity |].
    split; [reflexivity |]. split; [reflexivity |].
    split; [exists O; destruct w; reflexivity |].
    exists []. rewrite app_nil_r. repeat constructor.
  - cbn [place_all] in H.
    apply bind_inv in H as ([x y] & w1 & Hxy & H).
    apply random_empty_location_inv in Hxy
      as (Hx & Hy & Hocc & Hbar & k1 & ->).
    apply bind_inv in H as (indiv & w2 & Hind & H).
    apply Individual_init_inv in Hind as (-> & Ex & Ey & Hnew & Hbr).
    cbn [fst snd] in *.
    apply bind_inv in H as (g & w3 & Hg & H).
    apply lift_inv in Hg as [Hg ->].
    cbn [grid set_individuals] in Hg.
    assert (Hcell0 : cell (grid s) x y = Some 0).
    { unfold is_occupied in Hocc.
      destruct (cell (grid s) x y) as [v |]; [| discriminate].
      cbn [mbind option_bind] in Hocc. injection Hocc as Hocc.
      apply negb_false_iff, Z.eqb_eq in Hocc. congruence. }
    assert (Hib : in_bounds (grid s) x y = true).
    { apply GridFacts.in_bounds_spec.
      pose proof (proj1 (GridFacts.cell_is_Some (grid s) x y)
                    ltac:(rewrite Hcell0; eauto)). lia. }
    pose proof Hib as Hxy. apply GridFacts.in_bounds_spec in Hxy.
    unfold Grid_set in Hg.
    pose proof (GridFacts.set_cell_fields _ _ _ _ _ Hg) as (Hw' & Hh' & Hb').
    pose proof (GridFacts.cell_set_cell _ _ _ _ _ x y Hg
                  ltac:(apply GridFacts.np_index_in; lia)
                  ltac:(apply GridFacts.np_index_in; lia)) as Hc.
    set (s1 := set_grid (set_individuals s (individuals s ++ [indiv])) g)
      in *.
    assert (Hpl1 : all_placed s1).
    { intros j other Hj. unfold s1 in Hj |- *.
      cbn [individuals grid set_grid set_individuals world_width
           world_height] in Hj |- *.
      apply lookup_app_Some in Hj as [Hj | [Hlen Hj]].
      + destruct (Hpl j other Hj) as ((Ob & Oc & Orest) & Ow).
        split; [| exact Ow].
        pose proof Ob as Ob'. apply GridFacts.in_bounds_spec in Ob'.
        unfold placed. rewrite (in_bounds_dims (grid s) g) by assumption.
        split; [exact Ob |]. split; [| exact Orest].
        rewrite (Hc (ind_x other) (ind_y other) (ind_x other)
                    (ind_y other))
          by (apply GridFacts.np_index_in; lia).
        rewrite decide_False; [exact Oc |].
        intros [= E1 E2]. rewrite E1, E2, Hcell0 in Oc.
        injection Oc as Oc. lia.
      + apply list_lookup_singleton_Some in Hj as [Hj <-].
        rewrite Ex, Ey. split; [| lia].
        unfold placed. rewrite (in_bounds_dims (grid s) g) by assumption.
        rewrite Ex, Ey. split; [exact Hib |]. split.
        * rewrite (Hc x y x y) by (apply GridFacts.np_index_in; lia).
          rewrite decide_True by reflexivity. f_equal. lia.
        * destruct Hnew as (_ & _ & -> & -> & _).
          split; [exact Hbr |]. lia. }
    destruct (IH s1 (i + 1) (advance k1 w) s' w' Hpl1) as
      (Hp' & Hset & Hstep & Hbars & Hgw & Hgh & [k2 ->] & news & Hnews
       & Hall & Hnb);
      [| exact H |].
    { unfold s1. cbn [individuals set_grid set_individuals].
      rewrite length_app. simpl. lia. }
    split; [exact Hp' |]. split; [exact Hset |]. split; [exact Hstep |].
    split; [rewrite Hbars; exact Hb' |].
    split; [rewrite Hgw; exact Hw' |].
    split; [rewrite Hgh; exact Hh' |].
    split; [exists (k2 + k1)%nat; apply IndividualFacts.advance_advance |].
    exists (indiv :: news).
    split; [rewrite Hnews; unfold s1;
            cbn [individuals set_grid set_individuals];
            rewrite <- app_assoc; reflexivity |].
    split; [constructor; assumption |].
    constructor; [| exact Hnb].
    unfold is_barrier in *. rewrite Hbars. unfold s1. cbn [grid set_grid].
    rewrite Hb', Ex, Ey. exact Hbar.
Qed.

(** What [spawn_generation] has done when it returns, whatever the
    simulation it started from. *)
Lemma spawn_generation_placed (fuel : nat) (s : Simulation)
    (genomes : option (list loc)) (w : World) (s' : Simulation)
    (w' : World) :
  spawn_generation fuel s genomes w = Some (s', w') ->
  all_placed s'
  /\ width (grid s') = width (grid s) /\ height (grid s') = height (grid s)
  /\ world_width s' = world_width s /\ world_height s' = world_height s
  /\ population_size s' = population_size s
  /\ genome_length s' = genome_length s
  /\ num_internal_neurons s' = num_internal_neurons s
  /\ steps_per_gen s' = steps_per_gen s
  /\ mutation_rate s' = mutation_rate s /\ selection s' = selection s
  /\ generation s' = generation s /\ history s' = history s
  /\ current_step s' = 0 /\ kill_count s' = 0
  /\ barriers (grid s') = barriers (grid s)
  /\ exists gl,
       match genomes with
       | Some l => gl = l
       | None => length gl = Z.to_nat (population_size s)
       end
       /\ Forall2 newborn (individuals s') gl
       /\ Forall (fun ind => is_barrier (grid s') (ind_x ind) (ind_y ind)
                             = false) (individuals s').
Proof.
  intros H. unfold spawn_generation in H.
  apply bind_inv in H as (gl & w1 & Hgl & H).
  match type of H with
  | place_all _ ?s0 _ _ _ = _ => set (s1 := s0) in *
  end.
  assert (Hpl1 : all_placed s1).
  { intros j other Hj. unfold s1 in Hj. cbn [individuals] in Hj.
    rewrite lookup_nil in Hj. discriminate. }
  destruct (place_all_placed fuel gl s1 0 w1 s' w' Hpl1 eq_refl H)
    as (Hp' & Hset & Hstep & Hbars & Hgw & Hgh & _ & news & Hnews & Hall
        & Hnb).
  destruct Hset as (B1 & B2 & B3 & B4 & B5 & B6 & B7 & B8 & B9 & B10 & B11).
  unfold s1 in *. cbn in B1, B2, B3, B4, B5, B6, B7, B8, B9, B10, B11,
    Hstep, Hbars, Hnews, Hgw, Hgh.
  split; [exact Hp' |]. repeat (split; [assumption |]).
  exists gl. split; [| rewrite Hnews; split; assumption].
  destruct genomes as [l |].
  - apply ret_inv in Hgl as [-> _]. reflexivity.
  - eapply repeatM_length, Hgl.
Qed.

Lemma spawn_generation_inv (fuel : nat) (s : Simulation)
    (genomes : option (list loc)) (w : World) (s' : Simulation)
    (w' : World) :
  arena_ok s ->
  spawn_generation fuel s genomes w = Some (s', w') ->
  consistent s'
  /\ world_width s' = world_width s /\ world_height s' = world_height s
  /\ population_size s' = population_size s
  /\ genome_length s' = genome_length s
  /\ num_internal_neurons s' = num_internal_neurons s
  /\ steps_per_gen s' = steps_per_gen s
  /\ mutation_rate s' = mutation_rate s /\ selection s' = selection s
  /\ generation s' = generation s /\ history s' = history s
  /\ current_step s' = 0 /\ kill_count s' = 0
  /\ barriers (grid s') = barriers (grid s)
  /\ exists gl,
       match genomes with
       | Some l => gl = l
       | None => length gl = Z.to_nat (population_size s)
       end
       /\ Forall2 newborn (individuals s') gl
       /\ Forall (fun ind => is_barrier (grid s') (ind_x ind) (ind_y ind)
                             = false) (individuals s').
Proof.
  intros Har H.
  destruct (spawn_generation_placed fuel s genomes w s' w' H)
    as (Hp' & Hgw & Hgh & C1 & C2 & C3 & C4 & C5 & C6 & C7 & C8 & C9 & C10
        & Hrest).
  split; [| repeat (split; [assumption |]); exact Hrest].
  split.
  - destruct Har as (A1 & A2 & A3 & A4 & A5 & A6). unfold arena_ok.
    rewrite Hgw, Hgh, C1, C2, C6.
    exact (conj A1 (conj A2 (conj A3 (conj A4 (conj A5 A6))))).
  - intros i ind Hi. apply (Hp' i ind Hi).
Qed.

End SpawnFacts.

(** * Steps and generations *)

Lemma sample_running_consistent : consistent sample_running.
Proof.
  split.
  - unfold arena_ok, sample_running. cbn. lia.
  - intros i ind Hi. unfold sample_running in Hi. cbn [individuals] in Hi.
    apply list_lookup_singleton_Some in Hi as [-> <-].
    unfold placed, sample_running, sample_creature. cbn.
    split; [reflexivity |]. split; [reflexivity |].
    split; [| lia]. split; [reflexivity |].
    repeat constructor; simpl; lia.
Qed.

Module GenerationFacts.

Import Heap SimFacts SpawnFacts.

(** No two placed creatures stand on the same cell. *)
Lemma consistent_distinct (s : Simulation) :
  consistent s ->
  forall i j a b,
    individuals s !! i = Some a -> individuals s !! j = Some b ->
    ind_x a = ind_x b -> ind_y a = ind_y b -> i = j.
Proof.
  intros [_ Hpl] i j a b Ha Hb Ex Ey.
  destruct (Hpl i a Ha) as (_ & Ca & _).
  destruct (Hpl j b Hb) as (_ & Cb & _).
  rewrite Ex, Ey, Cb in Ca. injection Ca as Ca. lia.
Qed.

Lemma reproduce_length (s : Simulation) (survivors : list Individual)
    (w w' : World) (children : list loc) :
  reproduce s survivors w = Some (children, w') ->
  length children = Z.to_nat (population_size s).
Proof.
  unfold reproduce. destruct survivors as [| a [| b rest]];
    apply repeatM_length.
Qed.

Section Settings.

Variable tanh : float -> float.
Variable sin : float -> float.

Lemma step_from_settings (n : nat) :
  forall i s w s' w',
    step_from tanh sin n i s w = Some (s', w') -> same_settings s s'.
Proof.
  induction n as [| n IH]; intros i s w s' w' H; cbn [step_from] in H.
  - apply ret_inv in H as [-> _]. apply same_settings_refl.
  - destruct (individuals s !! i) as [indiv |].
    2:{ apply ret_inv in H as [-> _]. apply same_settings_refl. }
    destruct (negb (alive indiv)); [eapply IH, H |].
    apply bind_inv in H as (r & w1 & _ & H).
    apply IH in H. exact H.
Qed.

Lemma run_step_settings (s : Simulation) (w : World) (s' : Simulation)
    (w' : World) :
  run_step tanh sin s w = Some (s', w') -> same_settings s s'.
Proof.
  unfold run_step. intros H. apply bind_inv in H as (s1 & w1 & H1 & H).
  apply ret_inv in H as [-> _]. apply step_from_settings in H1.
  exact H1.
Qed.

Lemma run_steps_settings (n : nat) :
  forall s w s' w',
    iterate_M n (run_step tanh sin) s w = Some (s', w') ->
    same_settings s s'.
Proof.
  induction n as [| n IH]; intros s w s' w' H; cbn [iterate_M] in H.
  - apply ret_inv in H as [-> _]. apply same_settings_refl.
  - apply bind_inv in H as (s1 & w1 & H1 & H).
    eapply same_settings_trans;
      [eapply run_step_settings, H1 | eapply IH, H].
Qed.

End Settings.

End GenerationFacts.

Module RunFacts.

Import GenerationFacts.

Section Run.

Variable tanh : float -> float.
Variable sin : float -> float.

Lemma run_one_generation_inv (fuel : nat) (s : Simulation)
    (w : World) (stats : Stats) (s' : Simulation) (w' : World) :
  consistent s ->
  run_one_generation tanh sin fuel s w = Some ((stats, s'), w') ->
  consistent s'
  /\ generation s' = generation s + 1
  /\ history s' = history s ++ [stats]
  /\ st_generation stats = generation s
  /\ st_kill_count stats = kill_count s
  /\ 0 <= st_survivors stats <= Z.of_nat (length (individuals s))
  /\ population_size s <> 0
  /\ length (individuals s') = Z.to_nat (population_size s)
  /\ Forall (fun ind => alive ind = true) (individuals s')
  /\ current_step s' = 0 /\ kill_count s' = 0
  /\ world_width s' = world_width s /\ world_height s' = world_height s
  /\ population_size s' = population_size s
  /\ steps_per_gen s' = steps_per_gen s /\ selection s' = selection s.
Proof.
  intros Hcons H. unfold run_one_generation in H.
  apply SpawnFacts.bind_inv in H as (s1 & w1 & H1 & H).
  pose proof (SpawnFacts.returns_inv _ _ _ _ _
                (SimFacts.run_steps_returns tanh sin _ s w Hcons) H1)
    as (Hc1 & _ & Hset1 & _ & Hbar1 & Hcre1).
  destruct Hset1 as (B1 & B2 & B3 & B4 & B5 & B6 & B7 & B8 & B9 & B10 & B11).
  apply SpawnFacts.bind_inv in H as (rate & w2 & Hrate & H).
  apply SpawnFacts.lift_inv in Hrate as [Hrate ->].
  apply SpawnFacts.bind_inv in H as (avg & w3 & _ & H).
  apply SpawnFacts.bind_inv in H as (children & w4 & Hrep & H).
  apply SpawnFacts.bind_inv in H as (s4 & w5 & Hspawn & H).
  apply SpawnFacts.ret_inv in H as [[= -> ->] ->].
  apply reproduce_length in Hrep. cbn in Hrep.
  apply SpawnFacts.spawn_generation_inv in Hspawn.
  2:{ destruct Hc1 as [Har1 _]. exact Har1. }
  cbn in Hspawn.
  destruct Hspawn as (Hc4 & C1 & C2 & C3 & C4 & C5 & C6 & C7 & C8 & C9
                      & C10 & C11 & C12 & C13 & gl & -> & Hnb & _).
  pose proof (Forall2_length _ _ _ Hcre1) as Hlen1.
  pose proof (Forall2_length _ _ _ Hnb) as Hlen4.
  assert (Hsurv : (length (apply_selection s1) <= length (individuals s1))%nat)
    by apply length_filter.
  assert (Hpop : population_size s1 <> 0).
  { unfold int_truediv in Hrate.
    destruct (Z.eqb_spec (population_size s1) 0); [discriminate | assumption]. }
  split; [exact Hc4 |]. cbn [st_generation st_survivors st_kill_count].
  split; [congruence |]. split; [congruence |]. split; [congruence |].
  split; [congruence |]. split; [lia |]. split; [congruence |].
  split; [congruence |].
  split.
  { clear -Hnb. induction Hnb as [| a b la lb Hab _ IH]; constructor;
      [apply Hab | exact IH]. }
  repeat (split; [congruence |]). congruence.
Qed.

(** The records [run] appends: one per generation, numbered from the
    generation the run starts at, each with a kill count of 0. *)
Lemma run_inv (fuel : nat) (n : nat) :
  forall (s : Simulation) (w : World) (s' : Simulation) (w' : World),
    consistent s -> kill_count s = 0 ->
    iterate_M n (fun s => let* r := run_one_generation tanh sin fuel s in
                          ret (snd r)) s w = Some (s', w') ->
    consistent s' /\ kill_count s' = 0
    /\ generation s' = generation s + Z.of_nat n
    /\ population_size s' = population_size s
    /\ exists new,
         history s' = history s ++ new /\ length new = n
         /\ forall i st, new !! i = Some st ->
              st_generation st = generation s + Z.of_nat i
              /\ st_kill_count st = 0 /\ 0 <= st_survivors st.
Proof.
  induction n as [| n IH]; intros s w s' w' Hcons Hk H; cbn [iterate_M] in H.
  - apply SpawnFacts.ret_inv in H as [-> _].
    split; [exact Hcons |]. split; [exact Hk |]. split; [lia |].
    split; [reflexivity |]. exists []. rewrite app_nil_r.
    split; [reflexivity |]. split; [reflexivity |].
    intros i st Hi. rewrite lookup_nil in Hi. discriminate.
  - apply SpawnFacts.bind_inv in H as (s1 & w1 & H1 & H).
    apply SpawnFacts.bind_inv in H1 as ([stats s1'] & w1' & Hgen & Hret).
    apply SpawnFacts.ret_inv in Hret as [-> ->]. cbn [snd] in *.
    destruct (run_one_generation_inv fuel s w stats s1' w1' Hcons Hgen)
      as (Hc1 & G1 & Hh1 & Sg & Sk & Ss & _ & _ & _ & _ & K1 & _ & _ & P1
          & _).
    destruct (IH s1' w1' s' w' Hc1 K1 H)
      as (Hc' & K' & G' & P' & new & Hh' & Hlen & Hnew).
    split; [exact Hc' |]. split; [exact K' |]. split; [lia |].
    split; [congruence |]. exists (stats :: new).
    split; [rewrite Hh', Hh1, <- app_assoc; reflexivity |].
    split; [simpl; congruence |].
    intros [| i] st Hi; cbn in Hi.
    + injection Hi as <-. split; [lia |]. split; [congruence | lia].
    + destruct (Hnew i st Hi) as (A & B & C).
      split; [lia |]. split; assumption.
Qed.

End Run.

End RunFacts.

Section Generation.

Variable tanh : float -> float.
Variable sin : float -> float.

(** X19: [Individual.compute_sensors], for coordinates, sizes and step
    numbers small enough to convert to floats exactly, raises
    ([ZeroDivisionError]) exactly when the grid is at most one cell wide
    or high or when [steps_per_gen] is 0. When it returns, the result
    has exactly the twelve keys 0 to 11, one random number has been
    drawn and nothing else of the store has changed. *)
Theorem compute_sensors_zero_division (self : Individual) (g : Grid)
    (step spg : Z) (w : World) :
  Z.abs (ind_x self) < 2 ^ 53 -> Z.abs (ind_y self) < 2 ^ 53 ->
  0 <= width g < 2 ^ 53 -> 0 <= height g < 2 ^ 53 ->
  Z.abs step < 2 ^ 53 -> Z.abs spg < 2 ^ 53 ->
  Z.abs (last_dx self) <= 1 -> Z.abs (last_dy self) <= 1 ->
  (compute_sensors sin self g step spg w = None
   <-> width g <= 1 \/ height g <= 1 \/ spg = 0)
  /\ forall sv w',
       compute_sensors sin self g step spg w = Some (sv, w') ->
       w' = advance 1 w /\ forall k, is_Some (sv !! k) <-> 0 <= k < 12.
Proof.
  intros _ _ Hw Hh _ _ _ _.
  assert (Hdiv : forall m, 0 <= m -> (m / 2 = 0 <-> m <= 1)).
  { intros m Hm. split; intros H.
    - destruct (Z_le_gt_dec m 1) as [? | Hgt]; [assumption |].
      pose proof (Z.div_le_mono 2 m 2 ltac:(lia) ltac:(lia)) as Hd.
      change (2 / 2) with 1 in Hd. lia.
    - apply Z.div_small. lia. }
  destruct (decide (width g <= 1 \/ height g <= 1 \/ spg = 0)) as [Hz | Hnz].
  - assert (Hnone : compute_sensors sin self g step spg w = None).
    { apply SensorFacts.compute_sensors_raises.
      destruct Hz as [Hz | [Hz | Hz]]; [| | auto].
      - destruct (decide (width g = 1)); [auto |].
        right. right. left. apply Hdiv; lia.
      - destruct (decide (height g = 1)); [auto |].
        right. right. left. apply Hdiv; lia. }
    split; [split; auto |]. intros sv w' H. congruence.
  - assert (Hmin : Z.min (width g) (height g) / 2 <> 0).
    { rewrite Hdiv by lia. lia. }
    destruct (SensorFacts.compute_sensors_returns sin self g step spg w
                ltac:(lia) ltac:(lia) Hmin ltac:(lia))
      as (sv & w1 & Hrun & Hw1 & Hkeys).
    split.
    + split; [intros H; congruence | intros H; contradiction].
    + intros sv' w' H. rewrite Hrun in H. injection H as <- <-.
      split; assumption.
Qed.

(** X20: [Individual.take_step] on a creature that is placed on a grid of
    at least 2 by 2 cells, with a number of steps per generation other
    than 0, never raises: sensing, the forward pass and the actions all
    go through. The creature keeps its genome and stays alive or dead as
    it was, it is still placed afterwards, it has moved as
    [execute_actions] allows, and of the store only the generator has
    advanced. A dead creature is returned unchanged, without a draw. *)
Theorem take_step_safe (self : Individual) (i : nat) (g : Grid)
    (step spg : Z) (w : World) :
  2 <= width g < 2 ^ 53 -> 2 <= height g < 2 ^ 53 ->
  spg <> 0 -> Z.abs spg < 2 ^ 53 -> 0 <= step < 2 ^ 53 ->
  placed g i self ->
  exists self' g' k,
    take_step tanh sin self g step spg w = Some ((self', g'), advance k w)
    /\ moved self g self' g' /\ same_creature self self'
    /\ placed g' i self'
    /\ (alive self = false -> self' = self /\ g' = g /\ k = 0%nat).
Proof.
  intros Hw Hh Hs _ _ Hp.
  destruct (SensorFacts.take_step_returns tanh sin self i g step spg w
              ltac:(lia) ltac:(lia) Hs Hp)
    as ([self' g'] & w' & Hrun & [k ->] & Hm & Hsame & Hbr).
  cbn [fst snd] in *.
  destruct (SimFacts.moved_placed g g' i self self' Hp Hm Hbr)
    as (_ & _ & _ & Hp' & _).
  exists self', g', k. repeat (split; [assumption |]).
  intros Hdead. unfold take_step in Hrun. rewrite Hdead in Hrun.
  cbn [negb] in Hrun. unfold ret in Hrun. injection Hrun as <- <- Hw'.
  split; [reflexivity |]. split; [reflexivity |].
  apply (f_equal cursor) in Hw'. cbn [advance cursor] in Hw'. lia.
Qed.

(** X21: [Simulation.run_step] on a consistent simulation (grid of the
    size of the world, at least 2 by 2, steps per generation other than
    0, every creature on its own cell of the grid) never raises and
    leaves the simulation consistent: no two creatures ever stand on the
    same cell. The step counter goes up by one; the settings, the
    generation, the history, the kill counter, the barriers, the number
    of creatures, their genomes and their alive flags do not change; of
    the store only the generator advances. *)
Theorem run_step_safe (s : Simulation) (w : World) :
  consistent s -> 0 <= current_step s < 2 ^ 53 ->
  exists s' k,
    run_step tanh sin s w = Some (s', advance k w)
    /\ consistent s' /\ same_settings s s'
    /\ current_step s' = current_step s + 1
    /\ barriers (grid s') = barriers (grid s)
    /\ Forall2 same_creature (individuals s) (individuals s')
    /\ forall i j a b,
         individuals s' !! i = Some a -> individuals s' !! j = Some b ->
         ind_x a = ind_x b -> ind_y a = ind_y b -> i = j.
Proof.
  intros Hcons _.
  destruct (SimFacts.run_step_returns tanh sin s w Hcons)
    as (s' & w' & Hrun & Hc' & [k ->] & Hset & Hstep & Hbar & Hcre).
  exists s', k. repeat (split; [assumption |]).
  apply GenerationFacts.consistent_distinct, Hc'.
Qed.

(** X22: When [Simulation.spawn_generation] returns, whatever the world
    and the settings of the simulation: there is one creature per
    genome, in order (per [population_size] when no genomes are given),
    each one alive, with no last move and a responsiveness of 0.5,
    standing inside the grid and inside the world on a cell of its own
    that is not a barrier and that holds its index plus one; the step
    and kill counters are 0 and the settings, the generation, the
    history, the size of the grid and the barriers are unchanged. If
    moreover the grid has the size of the world, of at least 2 by 2
    cells, and a generation has a number of steps other than 0, the
    simulation is consistent, as [run_step] needs it. *)
Theorem spawn_generation_consistent (fuel : nat) (s : Simulation)
    (genomes : option (list loc)) (w : World) (s' : Simulation)
    (w' : World) :
  Z.of_nat (length (default [] genomes)) < 2 ^ 31 - 1 ->
  population_size s < 2 ^ 31 - 1 ->
  spawn_generation fuel s genomes w = Some (s', w') ->
  all_placed s'
  /\ (forall i j a b,
        individuals s' !! i = Some a -> individuals s' !! j = Some b ->
        ind_x a = ind_x b -> ind_y a = ind_y b -> i = j)
  /\ (arena_ok s -> consistent s')
  /\ width (grid s') = width (grid s) /\ height (grid s') = height (grid s)
  /\ world_width s' = world_width s /\ world_height s' = world_height s
  /\ population_size s' = population_size s
  /\ genome_length s' = genome_length s
  /\ num_internal_neurons s' = num_internal_neurons s
  /\ steps_per_gen s' = steps_per_gen s
  /\ mutation_rate s' = mutation_rate s /\ selection s' = selection s
  /\ generation s' = generation s /\ history s' = history s
  /\ current_step s' = 0 /\ kill_count s' = 0
  /\ barriers (grid s') = barriers (grid s)
  /\ exists gl,
       match genomes with
       | Some l => gl = l
       | None => length gl = Z.to_nat (population_size s)
       end
       /\ Forall2 newborn (individuals s') gl
       /\ Forall (fun ind => is_barrier (grid s') (ind_x ind) (ind_y ind)
                             = false) (individuals s').
Proof.
  intros _ _ H.
  pose proof (SpawnFacts.spawn_generation_placed fuel s genomes w s' w' H)
    as (Hp' & Hrest).
  split; [exact Hp' |].
  split; [exact (SpawnFacts.all_placed_distinct s' Hp') |].
  split; [| exact Hrest].
  intros Har.
  exact (proj1 (SpawnFacts.spawn_generation_inv fuel s genomes w s' w'
                  Har H)).
Qed.

(** X23: When [Simulation.run_one_generation] returns on a consistent
    simulation, the generation number has gone up by one and exactly one
    record has been appended to the history: it carries the old
    generation number, a number of survivors between 0 and the number of
    creatures, and the kill counter as it was (nothing ever increments
    it). The population size is not 0, the new population has
    [population_size] creatures, all alive and each on its own cell, and
    the step and kill counters are back to 0. *)
Theorem run_one_generation_bookkeeping (fuel : nat) (s : Simulation)
    (w : World) (stats : Stats) (s' : Simulation) (w' : World) :
  consistent s ->
  0 <= current_step s -> current_step s + Z.abs (steps_per_gen s) < 2 ^ 53 ->
  Z.abs (population_size s) < 2 ^ 31 - 1 ->
  run_one_generation tanh sin fuel s w = Some ((stats, s'), w') ->
  consistent s'
  /\ generation s' = generation s + 1
  /\ history s' = history s ++ [stats]
  /\ st_generation stats = generation s
  /\ st_kill_count stats = kill_count s
  /\ 0 <= st_survivors stats <= Z.of_nat (length (individuals s))
  /\ population_size s <> 0
  /\ length (individuals s') = Z.to_nat (population_size s)
  /\ Forall (fun ind => alive ind = true) (individuals s')
  /\ current_step s' = 0 /\ kill_count s' = 0
  /\ world_width s' = world_width s /\ world_height s' = world_height s
  /\ population_size s' = population_size s
  /\ steps_per_gen s' = steps_per_gen s /\ selection s' = selection s.
Proof.
  intros Hcons _ _ _ H.
  exact (RunFacts.run_one_generation_inv tanh sin fuel s w stats s' w'
           Hcons H).
Qed.

(** X30: When [Simulation.run(n)] returns on a consistent simulation whose
    kill counter is 0, the generation number has gone up by [n] and the
    history has [n] more records, numbered consecutively from the
    generation the run started at; every one of them reports a kill
    count of 0, since nothing ever increments the counter. The
    simulation is consistent again and its population size is the
    same. *)
Theorem run_history (fuel : nat) (n : Z) (s : Simulation) (w : World)
    (s' : Simulation) (w' : World) :
  consistent s -> kill_count s = 0 ->
  0 <= current_step s ->
  current_step s + Z.abs (steps_per_gen s) < 2 ^ 53 ->
  Z.abs (population_size s) < 2 ^ 31 - 1 ->
  Z.of_nat (length (individuals s)) < 2 ^ 31 - 1 ->
  run tanh sin fuel n s w = Some (s', w') ->
  consistent s' /\ kill_count s' = 0
  /\ generation s' = generation s + Z.max n 0
  /\ population_size s' = population_size s
  /\ exists new,
       history s' = history s ++ new /\ length new = Z.to_nat n
       /\ forall i st, new !! i = Some st ->
            st_generation st = generation s + Z.of_nat i
            /\ st_kill_count st = 0 /\ 0 <= st_survivors st.
Proof.
  intros Hcons Hk _ _ _ _ H. unfold run in H.
  destruct (RunFacts.run_inv tanh sin fuel (Z.to_nat n) s w s' w' Hcons Hk H)
    as (A & B & C & D & E).
  split; [exact A |]. split; [exact B |]. split; [lia |].
  split; [exact D | exact E].
Qed.

(** X24: With a population size of 0, [Simulation.run_one_generation]
    never returns a result: if the steps go through, the survival rate
    divides by zero. *)
Theorem run_one_generation_zero_population (fuel : nat) (s : Simulation)
    (w : World) :
  population_size s = 0 -> run_one_generation tanh sin fuel s w = None.
Proof.
  intros Hz. unfold run_one_generation, bind.
  destruct (run_all_steps tanh sin s w) as [[s1 w1] |] eqn:H1;
    [| reflexivity].
  apply GenerationFacts.run_steps_settings in H1
    as (_ & _ & Hp & _).
  unfold int_truediv, lift_option. rewrite Hp, Hz. reflexivity.
Qed.

End Generation.

Lemma compute_sensors_zero_division_witness :
  Z.abs (ind_x sample_creature) < 2 ^ 53
  /\ Z.abs (ind_y sample_creature) < 2 ^ 53
  /\ 0 <= width sample_grid < 2 ^ 53 /\ 0 <= height sample_grid < 2 ^ 53
  /\ Z.abs 1 < 2 ^ 53 /\ Z.abs 5 < 2 ^ 53
  /\ Z.abs (last_dx sample_creature) <= 1
  /\ Z.abs (last_dy sample_creature) <= 1
  /\ (compute_sensors (fun x => x) sample_creature sample_grid 1 5
                      one_gene_world = None
      <-> width sample_grid <= 1 \/ height sample_grid <= 1 \/ 5 = 0)
  /\ forall sv w',
       compute_sensors (fun x => x) sample_creature sample_grid 1 5
                       one_gene_world = Some (sv, w') ->
       w' = advance 1 one_gene_world
       /\ forall k, is_Some (sv !! k) <-> 0 <= k < 12.
Proof.
  assert (H1 : Z.abs (ind_x sample_creature) < 2 ^ 53) by (cbn; lia).
  assert (H2 : Z.abs (ind_y sample_creature) < 2 ^ 53) by (cbn; lia).
  assert (H3 : 0 <= width sample_grid < 2 ^ 53) by (cbn; lia).
  assert (H4 : 0 <= height sample_grid < 2 ^ 53) by (cbn; lia).
  assert (H5 : Z.abs 1 < 2 ^ 53) by lia.
  assert (H6 : Z.abs 5 < 2 ^ 53) by lia.
  assert (H7 : Z.abs (last_dx sample_creature) <= 1) by (cbn; lia).
  assert (H8 : Z.abs (last_dy sample_creature) <= 1) by (cbn; lia).
  repeat (split; [assumption |]).
  apply (compute_sensors_zero_division (fun x => x) sample_creature
           sample_grid 1 5 one_gene_world H1 H2 H3 H4 H5 H6 H7 H8).
Defined.

Lemma take_step_safe_witness :
  2 <= width (grid sample_running) < 2 ^ 53
  /\ 2 <= height (grid sample_running) < 2 ^ 53
  /\ 2 <> 0 /\ Z.abs 2 < 2 ^ 53 /\ 0 <= 0 < 2 ^ 53
  /\ placed (grid sample_running) 0 sample_creature
  /\ exists self' g' k,
       take_step (fun x => x) (fun x => x) sample_creature
                 (grid sample_running) 0 2 one_gene_world
       = Some ((self', g'), advance k one_gene_world)
       /\ moved sample_creature (grid sample_running) self' g'
       /\ same_creature sample_creature self'
       /\ placed g' 0 self'
       /\ (alive sample_creature = false ->
           self' = sample_creature /\ g' = grid sample_running
           /\ k = 0%nat).
Proof.
  assert (H1 : 2 <= width (grid sample_running) < 2 ^ 53) by (cbn; lia).
  assert (H2 : 2 <= height (grid sample_running) < 2 ^ 53) by (cbn; lia).
  assert (H3 : 2 <> 0) by lia.
  assert (H4 : Z.abs 2 < 2 ^ 53) by lia.
  assert (H5 : 0 <= 0 < 2 ^ 53) by lia.
  assert (H6 : placed (grid sample_running) 0 sample_creature)
    by exact (proj2 sample_running_consistent 0%nat sample_creature eq_refl).
  repeat (split; [assumption |]).
  apply (take_step_safe (fun x => x) (fun x => x) sample_creature 0
           (grid sample_running) 0 2 one_gene_world H1 H2 H3 H4 H5 H6).
Defined.

Lemma run_step_safe_witness :
  consistent sample_running
  /\ 0 <= current_step sample_running < 2 ^ 53
  /\ exists s' k,
       run_step (fun x => x) (fun x => x) sample_running one_gene_world
       = Some (s', advance k one_gene_world)
       /\ consistent s' /\ same_settings sample_running s'
       /\ current_step s' = current_step sample_running + 1
       /\ barriers (grid s') = barriers (grid sample_running)
       /\ Forall2 same_creature (individuals sample_running)
                  (individuals s')
       /\ forall i j a b,
            individuals s' !! i = Some a -> individuals s' !! j = Some b ->
            ind_x a = ind_x b -> ind_y a = ind_y b -> i = j.
Proof.
  assert (H2 : 0 <= current_step sample_running < 2 ^ 53) by (cbn; lia).
  split; [exact sample_running_consistent |]. split; [exact H2 |].
  apply (run_step_safe (fun x => x) (fun x => x) sample_running
           one_gene_world sample_running_consistent H2).
Defined.

Lemma spawn_generation_consistent_witness :
  Z.of_nat (length (default [] (Some [1%positive]))) < 2 ^ 31 - 1
  /\ population_size idle_arena < 2 ^ 31 - 1
  /\ exists s' w',
       spawn_generation 10 idle_arena (Some [1%positive]) one_gene_world
       = Some (s', w')
       /\ all_placed s'
       /\ (forall i j a b,
             individuals s' !! i = Some a -> individuals s' !! j = Some b ->
             ind_x a = ind_x b -> ind_y a = ind_y b -> i = j)
       /\ (arena_ok idle_arena -> consistent s')
       /\ width (grid s') = width (grid idle_arena)
       /\ height (grid s') = height (grid idle_arena)
       /\ world_width s' = world_width idle_arena
       /\ world_height s' = world_height idle_arena
       /\ population_size s' = population_size idle_arena
       /\ genome_length s' = genome_length idle_arena
       /\ num_internal_neurons s' = num_internal_neurons idle_arena
       /\ steps_per_gen s' = steps_per_gen idle_arena
       /\ mutation_rate s' = mutation_rate idle_arena
       /\ selection s' = selection idle_arena
       /\ generation s' = generation idle_arena
       /\ history s' = history idle_arena
       /\ current_step s' = 0 /\ kill_count s' = 0
       /\ barriers (grid s') = barriers (grid idle_arena)
       /\ exists gl,
            gl = [1%positive]
            /\ Forall2 newborn (individuals s') gl
            /\ Forall (fun ind => is_barrier (grid s') (ind_x ind)
                                    (ind_y ind) = false) (individuals s').
Proof.
  assert (H2 : Z.of_nat (length (default [] (Some [1%positive])))
               < 2 ^ 31 - 1) by (cbn; lia).
  assert (H3 : population_size idle_arena < 2 ^ 31 - 1) by (cbn; lia).
  split; [exact H2 |]. split; [exact H3 |].
  destruct (spawn_generation 10 idle_arena (Some [1%positive])
              one_gene_world) as [[s' w'] |] eqn:Hrun;
    [| vm_compute in Hrun; discriminate Hrun].
  exists s', w'. split; [reflexivity |].
  apply (spawn_generation_consistent 10 idle_arena (Some [1%positive])
           one_gene_world s' w' H2 H3 Hrun).
Defined.

Lemma run_one_generation_bookkeeping_witness :
  consistent sample_running
  /\ 0 <= current_step sample_running
  /\ current_step sample_running + Z.abs (steps_per_gen sample_running)
     < 2 ^ 53
  /\ Z.abs (population_size sample_running) < 2 ^ 31 - 1
  /\ exists stats s' w',
       run_one_generation (fun x => x) (fun x => x) 10 sample_running
                          one_gene_world = Some ((stats, s'), w')
       /\ consistent s'
       /\ generation s' = generation sample_running + 1
       /\ history s' = history sample_running ++ [stats]
       /\ st_generation stats = generation sample_running
       /\ st_kill_count stats = kill_count sample_running
       /\ 0 <= st_survivors stats
          <= Z.of_nat (length (individuals sample_running))
       /\ population_size sample_running <> 0
       /\ length (individuals s')
          = Z.to_nat (population_size sample_running)
       /\ Forall (fun ind => alive ind = true) (individuals s')
       /\ current_step s' = 0 /\ kill_count s' = 0
       /\ world_width s' = world_width sample_running
       /\ world_height s' = world_height sample_running
       /\ population_size s' = population_size sample_running
       /\ steps_per_gen s' = steps_per_gen sample_running
       /\ selection s' = selection sample_running.
Proof.
  assert (H2 : 0 <= current_step sample_running) by (cbn; lia).
  assert (H3 : current_step sample_running
               + Z.abs (steps_per_gen sample_running) < 2 ^ 53)
    by (cbn; lia).
  assert (H4 : Z.abs (population_size sample_running) < 2 ^ 31 - 1)
    by (cbn; lia).
  split; [exact sample_running_consistent |]. split; [exact H2 |].
  split; [exact H3 |]. split; [exact H4 |].
  destruct (run_one_generation (fun x => x) (fun x => x) 10 sample_running
              one_gene_world) as [[[stats s'] w'] |] eqn:Hrun;
    [| vm_compute in Hrun; discriminate Hrun].
  exists stats, s', w'. split; [reflexivity |].
  apply (run_one_generation_bookkeeping (fun x => x) (fun x => x) 10
           sample_running one_gene_world stats s' w'
           sample_running_consistent H2 H3 H4 Hrun).
Defined.

Lemma run_one_generation_zero_population_witness :
  population_size empty_simulation = 0
  /\ run_one_generation (fun x => x) (fun x => x) 10 empty_simulation
                        one_gene_world = None.
Proof.
  split; [reflexivity |].
  apply (run_one_generation_zero_population (fun x => x) (fun x => x) 10
           empty_simulation one_gene_world eq_refl).
Defined.

Lemma run_history_witness :
  consistent sample_running /\ kill_count sample_running = 0
  /\ 0 <= current_step sample_running
  /\ current_step sample_running + Z.abs (steps_per_gen sample_running)
     < 2 ^ 53
  /\ Z.abs (population_size sample_running) < 2 ^ 31 - 1
  /\ Z.of_nat (length (individuals sample_running)) < 2 ^ 31 - 1
  /\ exists s' w',
       run (fun x => x) (fun x => x) 10 2 sample_running one_gene_world
       = Some (s', w')
       /\ consistent s' /\ kill_count s' = 0
       /\ generation s' = generation sample_running + Z.max 2 0
       /\ population_size s' = population_size sample_running
       /\ exists new,
            history s' = history sample_running ++ new
            /\ length new = Z.to_nat 2
            /\ forall i st, new !! i = Some st ->
                 st_generation st
                 = generation sample_running + Z.of_nat i
                 /\ st_kill_count st = 0 /\ 0 <= st_survivors st.
Proof.
  assert (H2 : kill_count sample_running = 0) by reflexivity.
  assert (H3 : 0 <= current_step sample_running) by (cbn; lia).
  assert (H4 : current_step sample_running
               + Z.abs (steps_per_gen sample_running) < 2 ^ 53)
    by (cbn; lia).
  assert (H5 : Z.abs (population_size sample_running) < 2 ^ 31 - 1)
    by (cbn; lia).
  assert (H6 : Z.of_nat (length (individuals sample_running)) < 2 ^ 31 - 1)
    by (cbn; lia).
  split; [exact sample_running_consistent |]. split; [exact H2 |].
  split; [exact H3 |]. split; [exact H4 |]. split; [exact H5 |].
  split; [exact H6 |].
  destruct (run (fun x => x) (fun x => x) 10 2 sample_running
              one_gene_world) as [[s' w'] |] eqn:Hrun;
    [| vm_compute in Hrun; discriminate Hrun].
  exists s', w'. split; [reflexivity |].
  apply (run_history (fun x => x) (fun x => x) 10 2 sample_running
           one_gene_world s' w' sample_running_consistent H2 H3 H4 H5 H6
           Hrun).
Defined.

(** * More creatures than cells *)

Module Pigeonhole.

Lemma placed_count (s : Simulation) :
  all_placed s ->
  Z.of_nat (length (individuals s))
  <= Z.max 0 (world_width s) * Z.max 0 (world_height s).
Proof.
  intros Hpl.
  set (pos := (fun ind => (ind_x ind, ind_y ind)) <$> individuals s).
  set (cells := list_prod (seqZ 0 (world_width s))
                          (seqZ 0 (world_height s))).
  assert (Hnd : NoDup pos).
  { apply NoDup_alt. intros i j p Hi Hj. unfold pos in Hi, Hj.
    rewrite list_lookup_fmap in Hi, Hj.
    destruct (individuals s !! i) as [a |] eqn:Ea; [| discriminate].
    destruct (individuals s !! j) as [b |] eqn:Eb; [| discriminate].
    simpl in Hi, Hj. injection Hi as <-. injection Hj as E1 E2.
    eapply (SpawnFacts.all_placed_distinct s Hpl i j a b); eauto. }
  assert (Hsub : forall p, p ∈ pos -> p ∈ cells).
  { intros [x y] Hp. unfold pos in Hp.
    apply list_elem_of_fmap in Hp as (ind & [= -> ->] & Hind).
    apply list_elem_of_lookup in Hind as [i Hi].
    destruct (Hpl i ind Hi) as (_ & Hx & Hy).
    apply list_elem_of_In, in_prod; apply list_elem_of_In, elem_of_seqZ; lia. }
  pose proof (submseteq_length _ _ (NoDup_submseteq _ _ Hnd Hsub)) as Hlen.
  unfold pos, cells in Hlen.
  rewrite length_fmap, length_prod, !length_seqZ in Hlen.
  apply inj_le in Hlen. rewrite Nat2Z.inj_mul in Hlen.
  replace (Z.of_nat (Z.to_nat (world_width s)))
    with (Z.max 0 (world_width s)) in Hlen by lia.
  replace (Z.of_nat (Z.to_nat (world_height s)))
    with (Z.max 0 (world_height s)) in Hlen by lia.
  exact Hlen.
Qed.

End Pigeonhole.

(** X28: [Simulation.spawn_generation] cannot place more creatures than
    the world has cells: given more genomes than
    [max(world_width, 0) * max(world_height, 0)] (and few enough for
    their indices to fit the cells of the grid), the call does not
    return, whatever the simulation, whatever the generator draws and
    however many rounds the search for a free cell is given (once every
    cell is taken, [_random_empty_location] has nothing to find). *)
Theorem spawn_generation_overfull (fuel : nat) (s : Simulation)
    (genomes : list loc) (w : World) :
  Z.of_nat (length genomes) < 2 ^ 31 - 1 ->
  Z.max 0 (world_width s) * Z.max 0 (world_height s)
  < Z.of_nat (length genomes) ->
  spawn_generation fuel s (Some genomes) w = None.
Proof.
  intros _ Hmany.
  destruct (spawn_generation fuel s (Some genomes) w) as [[s' w'] |] eqn:Hrun;
    [exfalso | reflexivity].
  destruct (SpawnFacts.spawn_generation_placed fuel s (Some genomes) w s' w'
              Hrun)
    as (Hp & _ & _ & Ew & Eh & _ & _ & _ & _ & _ & _ & _ & _ & _ & _ & _
        & gl & -> & Hnb & _).
  pose proof (Forall2_length _ _ _ Hnb) as Hlen.
  pose proof (Pigeonhole.placed_count s' Hp) as Hcount.
  rewrite Ew, Eh, Hlen in Hcount. lia.
Qed.

Lemma spawn_generation_overfull_witness :
  Z.of_nat (length (replicate 4 1%positive)) < 2 ^ 31 - 1
  /\ Z.max 0 (world_width strip_arena) * Z.max 0 (world_height strip_arena)
     < Z.of_nat (length (replicate 4 1%positive))
  /\ spawn_generation 100 strip_arena (Some (replicate 4 1%positive))
                      one_gene_world = None.
Proof.
  assert (H1 : Z.of_nat (length (replicate 4 1%positive)) < 2 ^ 31 - 1)
    by (cbn; lia).
  assert (H2 : Z.max 0 (world_width strip_arena)
               * Z.max 0 (world_height strip_arena)
               < Z.of_nat (length (replicate 4 1%positive)))
    by (cbn; lia).
  split; [exact H1 |]. split; [exact H2 |].
  apply (spawn_generation_overfull 100 strip_arena (replicate 4 1%positive)
           one_gene_world H1 H2).
Defined.

(** * A mutation rate of zero *)

Module RateZero.

Import Rounding Ops Validity.

(** [random.random()] is never below 0.0. *)
Lemma unit_draw_nonneg (k : Z) :
  F64.ltb (F64.mul (F64.of_int (k mod 2 ^ 53)) F64.two_m53) F64.zero = false.
Proof.
  pose proof (Z.mod_pos_bound k (2 ^ 53) ltac:(lia)) as Hn.
  set (n := k mod 2 ^ 53) in *.
  destruct (Z.eq_dec n 0) as [-> | Hn0]; [vm_compute; reflexivity |].
  destruct (of_int_normal n ltac:(lia)) as (m & e & -> & Hd & He & _).
  unfold F64.two_m53. rewrite mul_pow2_exact_r by (assumption || lia).
  reflexivity.
Qed.

Lemma random_random_run (w : World) :
  exists r, random_random w = Some (r, advance 1 w)
            /\ F64.ltb r F64.zero = false.
Proof.
  eexists. split; [reflexivity |]. apply unit_draw_nonneg.
Qed.

Lemma point_mutations_rate_zero (gs : list loc) :
  forall w, point_mutations F64.zero gs w
            = Some (tt, advance (length gs) w).
Proof.
  unfold point_mutations. induction gs as [| g gs IH]; intros w.
  - cbn. destruct w; reflexivity.
  - cbn [forM_ length]. unfold bind at 1.
    destruct (random_random_run w) as (r & Hr & Hlt).
    unfold bind at 1. rewrite Hr, Hlt. unfold ret at 1.
    rewrite IH, IndividualFacts.advance_advance.
    do 3 f_equal. lia.
Qed.

End RateZero.

(** X29: With a mutation rate of 0.0 [Genome.mutate] changes nothing: no
    gene is mutated, removed or added, whatever the generator draws; the
    call only consumes one draw per gene and two more. *)
Theorem Genome_mutate_rate_zero (w : World) (self : loc) (gs : list loc) :
  genome_store w !! self = Some gs ->
  Genome_mutate self F64.zero w = Some (tt, advance (2 + length gs) w).
Proof.
  intros Hs. unfold Genome_mutate.
  assert (Hread : forall n, read_genome self (advance n w)
                            = Some (gs, advance n w)).
  { intros n. unfold read_genome. cbn [advance genome_store].
    rewrite Hs. reflexivity. }
  assert (Hread0 : read_genome self w = Some (gs, w)).
  { unfold read_genome. rewrite Hs. reflexivity. }
  assert (Hz : F64.mul F64.zero F64.c0_2 = F64.zero) by reflexivity.
  rewrite Hz.
  unfold bind at 1. rewrite Hread0.
  unfold bind at 1. rewrite RateZero.point_mutations_rate_zero.
  destruct (RateZero.random_random_run (advance (length gs) w))
    as (r1 & Hr1 & Hlt1).
  unfold bind at 1. rewrite Hr1, IndividualFacts.advance_advance.
  unfold bind at 1. rewrite Hread.
  rewrite Hlt1. cbn [andb]. unfold bind at 1. unfold ret at 1.
  destruct (RateZero.random_random_run (advance (1 + length gs) w))
    as (r2 & Hr2 & Hlt2).
  unfold bind at 1. rewrite Hr2, IndividualFacts.advance_advance.
  unfold bind at 1. rewrite Hread.
  rewrite Hlt2. cbn [andb]. unfold ret.
  do 3 f_equal.
Qed.

Lemma Genome_mutate_rate_zero_witness :
  genome_store two_genome_world !! 1%positive
  = Some [1%positive; 2%positive]
  /\ Genome_mutate 1%positive F64.zero two_genome_world
     = Some (tt, advance (2 + length [1%positive; 2%positive])
                         two_genome_world).
Proof.
  split; [reflexivity |].
  apply (Genome_mutate_rate_zero two_genome_world 1%positive
           [1%positive; 2%positive] eq_refl).
Defined.
